(** * Powering Houses: a Hashi-style puzzle

    A shallow embedding of the puzzle core of the repository:
    - [CableManager] (the placed-edge map, [toggleConnection],
      [setConnection], [canConnect]),
    - [GameScene.checkWinCondition] (degree recount and breadth-first search),
    - [PuzzleGenerator] ([generate], [tryGenerate], [linesCross],
      [isNodeBetween], the fallback puzzle) and [DisjointSet].

    Grid coordinates, connection counts and degrees are JavaScript numbers that
    only ever hold integers here; they are modelled by [Z].  Node ids and map
    keys are strings.  A JavaScript [Map] iterates in insertion order, so it is
    modelled by an association list that keeps that order ([JsMap]). *)

From Stdlib Require Import ZArith List String Ascii Bool Lia Permutation.
From Stdlib Require Import QArith Qround.
From Stdlib Require Import DecimalString DecimalNat.
Import ListNotations.

Local Open Scope string_scope.
Local Open Scope Z_scope.
Local Open Scope list_scope.

(* ------------------------------------------------------------------ *)
(** * Part I: the program *)

(* ------------------------------------------------------------------ *)
(** ** Thrown values *)

(** What a JavaScript call can throw in this code base. *)
Inductive Exn : Type :=
| Error (msg : string)   (* [throw new Error(msg)] *)
| TypeError              (* a property read on [undefined] *)
| RangeError.            (* call stack exhausted *)

Inductive result (A : Type) : Type :=
| Ok (a : A)
| Throw (e : Exn).

Arguments Ok {A} a.
Arguments Throw {A} e.

Definition bind {A B} (r : result A) (k : A -> result B) : result B :=
  match r with
  | Ok a => k a
  | Throw e => Throw e
  end.

Declare Scope result_scope.
Delimit Scope result_scope with result.
Notation "x <- r ;; k" := (bind r (fun x => k))
  (at level 61, r at next level, right associativity) : result_scope.
Local Open Scope result_scope.

(* ------------------------------------------------------------------ *)
(** ** types.ts *)

Record NodeData : Type := mkNodeData {
  id : string;
  x : Z;
  y : Z;
  requiredConnections : Z;
  currentConnections : Z
}.

Record EdgeData : Type := mkEdgeData {
  nodeA : string;
  nodeB : string;
  count : Z
}.

Inductive Difficulty : Type := EASY | MEDIUM | HARD.

Record DifficultyConfig : Type := mkDifficultyConfig {
  gridSize : Z;
  nodeCount : Z * Z;
  maxConnections : Z
}.

(** [scale] is a rendering factor and is left out. *)
Definition DIFFICULTY_SETTINGS (d : Difficulty) : DifficultyConfig :=
  match d with
  | EASY => mkDifficultyConfig 5 (6, 9) 4
  | MEDIUM => mkDifficultyConfig 7 (8, 12) 6
  | HARD => mkDifficultyConfig 10 (12, 18) 8
  end.

(** A [House] is a scene object: [===] on houses is object identity, which the
    field [ref] stands for; [dataModel] is its logical node. *)
Record House : Type := mkHouse {
  ref : nat;
  dataModel : NodeData
}.

Definition same_house (h1 h2 : House) : bool := Nat.eqb (ref h1) (ref h2).

Definition setCurrent (n : NodeData) (c : Z) : NodeData :=
  mkNodeData (id n) (x n) (y n) (requiredConnections n) c.

Definition setRequired (n : NodeData) (r : Z) : NodeData :=
  mkNodeData (id n) (x n) (y n) r (currentConnections n).

(** [House.updateConnectionCount]: stores the count (the rest recolours text). *)
Definition updateConnectionCount (h : House) (c : Z) : House :=
  mkHouse (ref h) (setCurrent (dataModel h) c).

(** The id of a house's node. *)
Definition house_id (h : House) : string := id (dataModel h).

(* ------------------------------------------------------------------ *)
(** ** JavaScript [Map] with string keys *)

Module JsMap.

Definition t (V : Type) : Type := list (string * V).

Definition empty {V} : t V := [].

Fixpoint get {V} (k : string) (m : t V) : option V :=
  match m with
  | [] => None
  | (k', v) :: m' => if String.eqb k k' then Some v else get k m'
  end.

Definition has {V} (k : string) (m : t V) : bool :=
  match get k m with Some _ => true | None => false end.

(** [set] overwrites in place when the key is present, else appends. *)
Fixpoint set {V} (k : string) (v : V) (m : t V) : t V :=
  match m with
  | [] => [(k, v)]
  | (k', v') :: m' =>
      if String.eqb k k' then (k, v) :: m' else (k', v') :: set k v m'
  end.

(** [delete] removes the entry of the key. *)
Definition delete {V} (k : string) (m : t V) : t V :=
  filter (fun kv => negb (String.eqb k (fst kv))) m.

Definition keys {V} (m : t V) : list string := map fst m.

Definition values {V} (m : t V) : list V := map snd m.

End JsMap.

(* ------------------------------------------------------------------ *)
(** ** CableManager *)

(** The manager's logical state is its [edges] map, keyed by the sorted-id
    key; [scene] and [graphics] only serve drawing. *)
Definition EdgeMap : Type := JsMap.t EdgeData.

(** [idA < idB ? `${idA}-${idB}` : `${idB}-${idA}`]; [<] on strings is the
    lexicographic order on character codes. *)
Definition getEdgeKey (idA idB : string) : string :=
  if String.ltb idA idB
  then String.append idA (String.append "-" idB)
  else String.append idB (String.append "-" idA).

(** [this.edges.get(key)?.count || 0] *)
Definition hasConnection (edges : EdgeMap) (idA idB : string) : Z :=
  let key := getEdgeKey idA idB in
  match JsMap.get key edges with
  | Some e => if count e =? 0 then 0 else count e
  | None => 0
  end.

Definition reset (edges : EdgeMap) : EdgeMap := JsMap.empty.

(** Returns the new map and the returned [newCount]. *)
Definition toggleConnection (edges : EdgeMap) (nodeA nodeB : House) : EdgeMap * Z :=
  let key := getEdgeKey (id (dataModel nodeA)) (id (dataModel nodeB)) in
  let current := JsMap.get key edges in
  let newCount :=
    match current with
    | None => 1
    | Some c => if count c =? 1 then 2 else 0
    end in
  if newCount =? 0
  then (JsMap.delete key edges, newCount)
  else (JsMap.set key
          (mkEdgeData (id (dataModel nodeA)) (id (dataModel nodeB)) newCount)
          edges,
        newCount).

Definition setConnection (edges : EdgeMap) (nodeA nodeB : House) (count : Z) : EdgeMap :=
  let key := getEdgeKey (id (dataModel nodeA)) (id (dataModel nodeB)) in
  if count =? 0
  then JsMap.delete key edges
  else JsMap.set key
         (mkEdgeData (id (dataModel nodeA)) (id (dataModel nodeB)) count) edges.

Definition getAllEdges (edges : EdgeMap) : list EdgeData := JsMap.values edges.

(** [allNodes.find(n => n.dataModel.id === id)] *)
Definition find_house (i : string) (allNodes : list House) : option House :=
  find (fun n => String.eqb (id (dataModel n)) i) allNodes.

(** The test of step 2 on one node [dO]. *)
Definition blocks (isVertical : bool) (dA dB dO : NodeData) : bool :=
  if isVertical
  then (x dO =? x dA) &&
       (((y dO >? y dA) && (y dO <? y dB)) || ((y dO >? y dB) && (y dO <? y dA)))
  else (y dO =? y dA) &&
       (((x dO >? x dA) && (x dO <? x dB)) || ((x dO >? x dB) && (x dO <? x dA))).

(** Step 2 of [canConnect]: [true] when the loop reaches its end, [false] when
    it leaves by [return false]. *)
Fixpoint between_loop (nodeA nodeB : House) (isVertical : bool)
    (others : list House) : bool :=
  match others with
  | [] => true
  | other :: rest =>
      if same_house other nodeA || same_house other nodeB
      then between_loop nodeA nodeB isVertical rest
      else if blocks isVertical (dataModel nodeA) (dataModel nodeB) (dataModel other)
           then false
           else between_loop nodeA nodeB isVertical rest
  end.

(** The body of the step 3 loop for an edge that is not skipped: [true] when
    it executes [return false]. *)
Definition crosses_edge (isVertical : bool) (dA dB d1 d2 : NodeData) : bool :=
  let newMinX := Z.min (x dA) (x dB) in
  let newMaxX := Z.max (x dA) (x dB) in
  let newMinY := Z.min (y dA) (y dB) in
  let newMaxY := Z.max (y dA) (y dB) in
  let eIsVert := x d1 =? x d2 in
  if isVertical && negb eIsVert then
    let eY := y d1 in
    let eMinX := Z.min (x d1) (x d2) in
    let eMaxX := Z.max (x d1) (x d2) in
    (x dA >? eMinX) && (x dA <? eMaxX) && (eY >? newMinY) && (eY <? newMaxY)
  else if negb isVertical && eIsVert then
    let eX := x d1 in
    let eMinY := Z.min (y d1) (y d2) in
    let eMaxY := Z.max (y d1) (y d2) in
    (y dA >? eMinY) && (y dA <? eMaxY) && (eX >? newMinX) && (eX <? newMaxX)
  else false.

(** The skip test of step 3: the edge touches [dA] or [dB]. *)
Definition touches (edge : EdgeData) (dA dB : NodeData) : bool :=
  String.eqb (nodeA edge) (id dA) || String.eqb (nodeA edge) (id dB) ||
  String.eqb (nodeB edge) (id dA) || String.eqb (nodeB edge) (id dB).

(** Step 3 of [canConnect].  [n1] and [n2] carry a non-null assertion; when
    the edge is not skipped and one of them is [undefined], reading
    [n1.dataModel] throws. *)
Fixpoint crossing_loop (dA dB : NodeData) (isVertical : bool)
    (allNodes : list House) (es : list EdgeData) : result bool :=
  match es with
  | [] => Ok true
  | edge :: rest =>
      let n1 := find_house (nodeA edge) allNodes in
      let n2 := find_house (nodeB edge) allNodes in
      if touches edge dA dB
      then crossing_loop dA dB isVertical allNodes rest
      else
        match n1, n2 with
        | Some n1, Some n2 =>
            if crosses_edge isVertical dA dB (dataModel n1) (dataModel n2)
            then Ok false
            else crossing_loop dA dB isVertical allNodes rest
        | _, _ => Throw TypeError
        end
  end.

Definition canConnect (edges : EdgeMap) (nodeA nodeB : House)
    (allNodes : list House) : result bool :=
  let dA := dataModel nodeA in
  let dB := dataModel nodeB in
  if negb (x dA =? x dB) && negb (y dA =? y dB) then Ok false
  else
    let isVertical := x dA =? x dB in
    if negb (between_loop nodeA nodeB isVertical allNodes) then Ok false
    else crossing_loop dA dB isVertical allNodes (JsMap.values edges).

(* ------------------------------------------------------------------ *)
(** ** GameScene: houses of a puzzle *)

(** [startGame] builds one [House] per node of the generated puzzle, in
    order; each is a fresh object. *)
Fixpoint make_houses (next : nat) (nodes : list NodeData) : list House :=
  match nodes with
  | [] => []
  | n :: rest => mkHouse next n :: make_houses (S next) rest
  end.

(* ------------------------------------------------------------------ *)
(** ** GameScene.checkWinCondition *)

(** [this.houses.forEach(h => h.updateConnectionCount(0))] *)
Definition reset_counts (houses : list House) : list House :=
  map (fun h => updateConnectionCount h 0) houses.

(** [const h = this.houses.find(h => h.dataModel.id === i);
     if (h) h.updateConnectionCount(h.dataModel.currentConnections + c)]:
    the first house with that id is updated in place. *)
Fixpoint add_count (i : string) (c : Z) (houses : list House) : list House :=
  match houses with
  | [] => []
  | h :: rest =>
      if String.eqb (id (dataModel h)) i
      then updateConnectionCount h (currentConnections (dataModel h) + c) :: rest
      else h :: add_count i c rest
  end.

Definition sum_edge (houses : list House) (e : EdgeData) : list House :=
  add_count (nodeB e) (count e) (add_count (nodeA e) (count e) houses).

Definition sum_up (edges : list EdgeData) (houses : list House) : list House :=
  fold_left sum_edge edges houses.

Definition allCountsCorrect (houses : list House) : bool :=
  forallb (fun h => currentConnections (dataModel h)
                    =? requiredConnections (dataModel h)) houses.

(** [adj.get(curr) || []] *)
Definition neighbors (adj : JsMap.t (list string)) (curr : string) : list string :=
  match JsMap.get curr adj with
  | Some l => l
  | None => []
  end.

(** [if (!adj.has(k)) adj.set(k, [])] *)
Definition ensure_key (k : string) (adj : JsMap.t (list string)) : JsMap.t (list string) :=
  if JsMap.has k adj then adj else JsMap.set k [] adj.

(** [adj.get(k)?.push(v)] *)
Definition push_adj (k v : string) (adj : JsMap.t (list string)) : JsMap.t (list string) :=
  match JsMap.get k adj with
  | Some l => JsMap.set k (l ++ [v]) adj
  | None => adj
  end.

Definition add_adj (adj : JsMap.t (list string)) (e : EdgeData) : JsMap.t (list string) :=
  let adj := ensure_key (nodeA e) adj in
  let adj := ensure_key (nodeB e) adj in
  let adj := push_adj (nodeA e) (nodeB e) adj in
  push_adj (nodeB e) (nodeA e) adj.

Definition build_adj (edges : list EdgeData) : JsMap.t (list string) :=
  fold_left add_adj edges JsMap.empty.

(** A [Set<string>] is kept as the list of its members in insertion order. *)
Definition set_has (n : string) (s : list string) : bool :=
  existsb (String.eqb n) s.

(** The [for (const n of neighbors)] loop on the pair (visited, queue). *)
Fixpoint visit_neighbors (ns : list string) (visited queue : list string)
    : list string * list string :=
  match ns with
  | [] => (visited, queue)
  | n :: rest =>
      if set_has n visited
      then visit_neighbors rest visited queue
      else visit_neighbors rest (visited ++ [n]) (queue ++ [n])
  end.

(** The [while (queue.length > 0)] loop; [None] when [fuel] iterations were
    not enough to empty the queue. *)
Fixpoint bfs_loop (fuel : nat) (adj : JsMap.t (list string))
    (queue visited : list string) : option (list string) :=
  match fuel with
  | O => None
  | S fuel' =>
      match queue with
      | [] => Some visited
      | curr :: queue' =>
          let '(visited', queue'') :=
            visit_neighbors (neighbors adj curr) visited queue' in
          bfs_loop fuel' adj queue'' visited'
      end
  end.

(** Each turn of the loop takes one id off the queue and an id enters the
    queue at most once, so the ends of the edges, the start and one last
    turn bound the number of turns ([bfs_loop_enough_fuel]). *)
Definition bfs_fuel (edges : list EdgeData) : nat := 2 * List.length edges + 2.

(** The visited set when the search from [startId] ends. *)
Definition bfs (edges : list EdgeData) (startId : string) : option (list string) :=
  bfs_loop (bfs_fuel edges) (build_adj edges) [startId] [startId].

(** Returns the houses with their recounted [currentConnections] and whether
    [victory()] was called. *)
Definition checkWinCondition (houses : list House) (cableManager : EdgeMap)
    : list House * bool :=
  let edges := getAllEdges cableManager in
  let houses := reset_counts houses in
  let houses := sum_up edges houses in
  if negb (allCountsCorrect houses) then (houses, false)
  else
    match houses with
    | [] => (houses, false)
    | h0 :: _ =>
        let startId := id (dataModel h0) in
        match bfs edges startId with
        | Some visited =>
            let allConnected := Nat.eqb (List.length visited) (List.length houses) in
            (houses, allConnected)
        | None => (houses, false)
        end
    end.

(* ------------------------------------------------------------------ *)
(** ** PuzzleGenerator: helpers *)

(** [nodes.find(n => n.id === i)] *)
Definition find_node (i : string) (nodes : list NodeData) : option NodeData :=
  find (fun n => String.eqb (id n) i) nodes.

Fixpoint isNodeBetween_loop (isVertical : bool) (u v : NodeData)
    (allNodes : list NodeData) : bool :=
  match allNodes with
  | [] => false
  | node :: rest =>
      if String.eqb (id node) (id u) || String.eqb (id node) (id v)
      then isNodeBetween_loop isVertical u v rest
      else if blocks isVertical u v node then true
           else isNodeBetween_loop isVertical u v rest
  end.

Definition isNodeBetween (u v : NodeData) (allNodes : list NodeData) : bool :=
  let isVertical := x u =? x v in
  isNodeBetween_loop isVertical u v allNodes.

Definition linesCross (a1 a2 b1 b2 : NodeData) : bool :=
  let isAVert := x a1 =? x a2 in
  let isBVert := x b1 =? x b2 in
  if Bool.eqb isAVert isBVert then false
  else if isAVert then
    let xA := x a1 in
    let minYA := Z.min (y a1) (y a2) in
    let maxYA := Z.max (y a1) (y a2) in
    let yB := y b1 in
    let minXB := Z.min (x b1) (x b2) in
    let maxXB := Z.max (x b1) (x b2) in
    ((xA >? minXB) && (xA <? maxXB)) && ((yB >? minYA) && (yB <? maxYA))
  else
    let yA := y a1 in
    let minXA := Z.min (x a1) (x a2) in
    let maxXA := Z.max (x a1) (x a2) in
    let xB := x b1 in
    let minYB := Z.min (y b1) (y b2) in
    let maxYB := Z.max (y b1) (y b2) in
    ((yA >? minYB) && (yA <? maxYB)) && ((xB >? minXA) && (xB <? maxXA)).

(** The [isCrossing] closure of [tryGenerate]:
    [edges.some(e => linesCross(u, v, eU, eV))], where [eU] and [eV] are
    looked up by id; [linesCross] reads [b1.x], which throws when the lookup
    gave [undefined]. *)
Fixpoint isCrossing (nodes : list NodeData) (edges : list EdgeData)
    (u v : NodeData) : result bool :=
  match edges with
  | [] => Ok false
  | e :: rest =>
      match find_node (nodeA e) nodes, find_node (nodeB e) nodes with
      | Some eU, Some eV =>
          if linesCross u v eU eV then Ok true
          else isCrossing nodes rest u v
      | _, _ => Throw TypeError
      end
  end.

Record Puzzle : Type := mkPuzzle {
  nodes : list NodeData;
  solutionEdges : list EdgeData
}.

Definition createFallbackPuzzle : Puzzle :=
  let nodes := [
    mkNodeData "n_0" 1 1 2 0;
    mkNodeData "n_1" 3 1 2 0;
    mkNodeData "n_2" 1 3 2 0;
    mkNodeData "n_3" 3 3 2 0
  ] in
  let edges := [
    mkEdgeData "n_0" "n_1" 1;
    mkEdgeData "n_1" "n_3" 1;
    mkEdgeData "n_3" "n_2" 1;
    mkEdgeData "n_2" "n_0" 1
  ] in
  mkPuzzle nodes edges.

(* ------------------------------------------------------------------ *)
(** ** DisjointSet *)

Record DisjointSet : Type := mkDisjointSet {
  parent : list nat;
  ds_count : Z
}.

(** [Array.from({ length: n }, (_, i) => i)] *)
Definition newDisjointSet (n : nat) : DisjointSet :=
  mkDisjointSet (seq 0 n) (Z.of_nat n).

(** [this.parent[i] = r] *)
Fixpoint set_nth (i : nat) (r : nat) (l : list nat) : list nat :=
  match l, i with
  | [], _ => []
  | _ :: t, O => r :: t
  | h :: t, S i' => h :: set_nth i' r t
  end.

(** [find] with path compression.  The recursion follows parent links; after
    more links than the array has entries it is in a cycle, where the source
    recurses until the call stack is exhausted.  Indices come from
    [nodeIndexMap] and from the array itself and are in range; an index out
    of range is reported as [TypeError].  Neither error occurs in an attempt
    ([tryGenerate_throws_only_errors]). *)
Fixpoint find_fuel (fuel : nat) (ds : DisjointSet) (i : nat)
    : result (nat * DisjointSet) :=
  match fuel with
  | O => Throw RangeError
  | S fuel' =>
      match nth_error (parent ds) i with
      | None => Throw TypeError
      | Some p =>
          if Nat.eqb p i then Ok (i, ds)
          else
            rd <- find_fuel fuel' ds p ;;
            let '(r, ds') := rd in
            Ok (r, mkDisjointSet (set_nth i r (parent ds')) (ds_count ds'))
      end
  end.

Definition ds_find (ds : DisjointSet) (i : nat) : result (nat * DisjointSet) :=
  find_fuel (S (List.length (parent ds))) ds i.

Definition ds_union (ds : DisjointSet) (i j : nat) : result DisjointSet :=
  ri <- ds_find ds i ;;
  let '(rootI, ds1) := ri in
  rj <- ds_find ds1 j ;;
  let '(rootJ, ds2) := rj in
  if negb (Nat.eqb rootI rootJ)
  then Ok (mkDisjointSet (set_nth rootI rootJ (parent ds2)) (ds_count ds2 - 1))
  else Ok ds2.

(* ------------------------------------------------------------------ *)
(** ** The random source *)

Record PotentialEdge : Type := mkPotentialEdge {
  u : NodeData;
  v : NodeData;
  dist : Z
}.

(** [Math.random()] returns a double drawn from a hidden state.  The code
    uses it in three ways only, and the source of randomness gives the outcome
    of each, so that nothing is assumed about floating-point rounding:
    - [floor_random n] is [Math.floor(Math.random() * n)],
    - [random_exceeds q] is [Math.random() > q],
    - [sort_random l] is [l.sort(() => Math.random() - 0.5)], which reorders
      the array with an engine-defined number of draws. *)
Record RandomSource : Type := mkRandomSource {
  rstate : Type;
  floor_random : Z -> rstate -> Z * rstate;
  random_exceeds : Q -> rstate -> bool * rstate;
  sort_random : list PotentialEdge -> rstate -> list PotentialEdge * rstate
}.

(** The sort returns the elements it was given, in some order. *)
Definition sort_permutes (R : RandomSource) : Prop :=
  forall l g, Permutation (fst (sort_random R l g)) l.

(** Computations that draw random numbers and may throw. *)
Definition Gen (R : RandomSource) (A : Type) : Type :=
  rstate R -> result A * rstate R.

Definition ret {R A} (a : A) : Gen R A := fun g => (Ok a, g).

Definition throw {R A} (e : Exn) : Gen R A := fun g => (Throw e, g).

Definition lift {R A} (r : result A) : Gen R A := fun g => (r, g).

Definition bindG {R A B} (m : Gen R A) (k : A -> Gen R B) : Gen R B :=
  fun g =>
    match m g with
    | (Ok a, g') => k a g'
    | (Throw e, g') => (Throw e, g')
    end.

(** [try { return m } catch (e) { handler }] *)
Definition try_catch {R A} (m : Gen R A) (handler : Gen R A) : Gen R A :=
  fun g =>
    match m g with
    | (Ok a, g') => (Ok a, g')
    | (Throw _, g') => handler g'
    end.

Declare Scope gen_scope.
Delimit Scope gen_scope with gen.
Notation "x <- m ;; k" := (bindG m (fun x => k))
  (at level 61, m at next level, right associativity) : gen_scope.

(** [Math.floor(Math.random() * n)] *)
Definition random_floor (R : RandomSource) (n : Z) : Gen R Z :=
  fun g =>
    let (z, g') := floor_random R n g in
    (Ok z, g').

(** [Math.random() > q] *)
Definition random_gt (R : RandomSource) (q : Q) : Gen R bool :=
  fun g =>
    let (b, g') := random_exceeds R q g in
    (Ok b, g').

(** [potentialEdges.sort(() => Math.random() - 0.5)] *)
Definition shuffle (R : RandomSource) (l : list PotentialEdge)
    : Gen R (list PotentialEdge) :=
  fun g =>
    let (l', g') := sort_random R l g in
    (Ok l', g').

(** A lookup the source marks with the non-null assertion [!]: the value is
    used as if it were there.  No such lookup fails in an attempt
    ([tryGenerate_throws_only_errors]). *)
Definition defined {A} (o : option A) : result A :=
  match o with
  | Some a => Ok a
  | None => Throw TypeError
  end.

(* ------------------------------------------------------------------ *)
(** ** PuzzleGenerator.tryGenerate *)

(** Decimal text of an integer, as a template literal prints it. *)
Definition string_of_Z (z : Z) : string := NilEmpty.string_of_int (Z.to_int z).

(** [`n_${i}`] *)
Definition node_id (i : nat) : string :=
  String.append "n_" (NilEmpty.string_of_uint (Nat.to_uint i)).

(** [`${x},${y}`] *)
Definition cell_key (x y : Z) : string :=
  String.append (string_of_Z x) (String.append "," (string_of_Z y)).

Section TryGenerate.

Variable R : RandomSource.
Local Open Scope gen_scope.

(** The [while (!placed && placeAttempts < 50)] loop for node [i]. *)
Fixpoint place_while (tries : nat) (gridSize : Z) (i : nat)
    (nodes : list NodeData) (occupied : list string)
    : Gen R (list NodeData * list string) :=
  match tries with
  | O => ret (nodes, occupied)
  | S tries' =>
      x <- random_floor R gridSize ;;
      y <- random_floor R gridSize ;;
      let key := cell_key x y in
      if negb (set_has key occupied)
      then ret (nodes ++ [mkNodeData (node_id i) x y 0 0], occupied ++ [key])
      else place_while tries' gridSize i nodes occupied
  end.

(** [for (let i = 0; i < numNodes; i++)], with [k] turns left. *)
Fixpoint place_for (k : nat) (i : nat) (gridSize : Z)
    (nodes : list NodeData) (occupied : list string)
    : Gen R (list NodeData * list string) :=
  match k with
  | O => ret (nodes, occupied)
  | S k' =>
      st <- place_while 50 gridSize i nodes occupied ;;
      place_for k' (S i) gridSize (fst st) (snd st)
  end.

(** The inner loop of step 2, over the nodes after [u]. *)
Fixpoint pairs_with (u : NodeData) (later : list NodeData)
    (nodes : list NodeData) : list PotentialEdge :=
  match later with
  | [] => []
  | v :: rest =>
      if negb (x u =? x v) && negb (y u =? y v)
      then pairs_with u rest nodes
      else if isNodeBetween u v nodes
           then pairs_with u rest nodes
           else
             let dist := Z.abs (x u - x v) + Z.abs (y u - y v) in
             mkPotentialEdge u v dist :: pairs_with u rest nodes
  end.

Fixpoint all_pairs (l : list NodeData) (nodes : list NodeData)
    : list PotentialEdge :=
  match l with
  | [] => []
  | u :: later => pairs_with u later nodes ++ all_pairs later nodes
  end.

Fixpoint index_entries (i : nat) (nodes : list NodeData) : list (string * nat) :=
  match nodes with
  | [] => []
  | n :: rest => (id n, i) :: index_entries (S i) rest
  end.

(** [new Map(nodes.map((n, i) => [n.id, i]))] *)
Definition nodeIndexMap (nodes : list NodeData) : JsMap.t nat :=
  fold_left (fun m kv => JsMap.set (fst kv) (snd kv) m)
    (index_entries 0 nodes) JsMap.empty.

(** Step 3, the loop over the shuffled candidates. *)
Fixpoint spanning_loop (nodes : list NodeData) (index : JsMap.t nat)
    (ps : list PotentialEdge) (edges : list EdgeData) (ds : DisjointSet)
    : Gen R (list EdgeData * DisjointSet) :=
  match ps with
  | [] => ret (edges, ds)
  | p :: rest =>
      uIdx <- lift (defined (JsMap.get (id (u p)) index)) ;;
      vIdx <- lift (defined (JsMap.get (id (v p)) index)) ;;
      fu <- lift (ds_find ds uIdx) ;;
      fv <- lift (ds_find (snd fu) vIdx) ;;
      if negb (Nat.eqb (fst fu) (fst fv)) then
        crossing <- lift (isCrossing nodes edges (u p) (v p)) ;;
        if negb crossing then
          ds' <- lift (ds_union (snd fv) uIdx vIdx) ;;
          r <- random_gt R (7 # 10) ;;
          let count := if r then 2 else 1 in
          spanning_loop nodes index rest
            (edges ++ [mkEdgeData (id (u p)) (id (v p)) count]) ds'
        else spanning_loop nodes index rest edges (snd fv)
      else spanning_loop nodes index rest edges (snd fv)
  end.

(** Step 4, the loop that adds extra edges until the target is met. *)
Fixpoint extra_loop (nodes : list NodeData) (ps : list PotentialEdge)
    (extraEdgesTarget addedExtra : Z) (edges : list EdgeData)
    : Gen R (list EdgeData) :=
  match ps with
  | [] => ret edges
  | p :: rest =>
      if addedExtra >=? extraEdgesTarget then ret edges
      else
        let exists_ :=
          existsb (fun e =>
             (String.eqb (nodeA e) (id (u p)) && String.eqb (nodeB e) (id (v p))) ||
             (String.eqb (nodeA e) (id (v p)) && String.eqb (nodeB e) (id (u p))))
            edges in
        if exists_ then extra_loop nodes rest extraEdgesTarget addedExtra edges
        else
          crossing <- lift (isCrossing nodes edges (u p) (v p)) ;;
          if negb crossing then
            r <- random_gt R (6 # 10) ;;
            let count := if r then 2 else 1 in
            extra_loop nodes rest extraEdgesTarget (addedExtra + 1)
              (edges ++ [mkEdgeData (id (u p)) (id (v p)) count])
          else extra_loop nodes rest extraEdgesTarget addedExtra edges
  end.

End TryGenerate.

(** [n.requiredConnections += c] on the first node with id [i]. *)
Fixpoint add_required (i : string) (c : Z) (nodes : list NodeData) : list NodeData :=
  match nodes with
  | [] => []
  | n :: rest =>
      if String.eqb (id n) i
      then setRequired n (requiredConnections n + c) :: rest
      else n :: add_required i c rest
  end.

(** Step 5, the loop that keeps an edge when neither end overflows. *)
Fixpoint prune_loop (maxConnections : Z) (edges : list EdgeData)
    (nodes : list NodeData) (validEdges : list EdgeData)
    : result (list NodeData * list EdgeData) :=
  match edges with
  | [] => Ok (nodes, validEdges)
  | e :: rest =>
      (nA <- defined (find_node (nodeA e) nodes) ;;
       if requiredConnections nA + count e <=? maxConnections then
         nB <- defined (find_node (nodeB e) nodes) ;;
         if requiredConnections nB + count e <=? maxConnections then
           prune_loop maxConnections rest
             (add_required (nodeB e) (count e)
                (add_required (nodeA e) (count e) nodes))
             (validEdges ++ [e])
         else prune_loop maxConnections rest nodes validEdges
       else prune_loop maxConnections rest nodes validEdges)%result
  end.

Section Generate.

Variable R : RandomSource.
Local Open Scope gen_scope.

Definition tryGenerate (gridSize : Z) (nodeRange : Z * Z) (maxConnections : Z)
    : Gen R Puzzle :=
  r <- random_floor R (snd nodeRange - fst nodeRange + 1) ;;
  let numNodes := r + fst nodeRange in
  (* 1. Place nodes *)
  placed <- place_for R (Z.to_nat numNodes) 0 gridSize [] [] ;;
  let nodes := fst placed in
  if Z.of_nat (List.length nodes) <? fst nodeRange
  then throw (Error "Not enough nodes placed")
  else
    (* 2. Candidate edges, shuffled *)
    let potentialEdges := all_pairs nodes nodes in
    potentialEdges <- shuffle R potentialEdges ;;
    (* 3. Spanning tree *)
    let ds := newDisjointSet (List.length nodes) in
    let index := nodeIndexMap nodes in
    tree <- spanning_loop R nodes index potentialEdges [] ds ;;
    let edges := fst tree in
    if ds_count (snd tree) >? 1
    then throw (Error "Graph not connected")
    else
      (* 4. Extra edges; [edges.length * 0.3] rounds to the exact product
         whenever that is an integer, so the floor is that of the exact
         product *)
      let extraEdgesTarget :=
        Qfloor (Qmult (inject_Z (Z.of_nat (List.length edges))) (3 # 10)) in
      edges <- extra_loop R nodes potentialEdges extraEdgesTarget 0 edges ;;
      (* 5. Requirements *)
      let nodes := map (fun n => setRequired n 0) nodes in
      pruned <- lift (prune_loop maxConnections edges nodes []) ;;
      let nodes := fst pruned in
      let validEdges := snd pruned in
      if existsb (fun n => requiredConnections n =? 0) nodes
      then throw (Error "Isolated node")
      else ret (mkPuzzle nodes validEdges).

(** The [while (attempts < 100)] loop, with [left] attempts to go. *)
Fixpoint generate_loop (left : nat) (settings : DifficultyConfig)
    : Gen R Puzzle :=
  match left with
  | O => ret createFallbackPuzzle
  | S left' =>
      try_catch
        (tryGenerate (gridSize settings) (nodeCount settings)
           (maxConnections settings))
        (generate_loop left' settings)
  end.

Definition generate (difficulty : Difficulty) : Gen R Puzzle :=
  let settings := DIFFICULTY_SETTINGS difficulty in
  generate_loop 100 settings.

(** The first [n] attempts, started in state [g], all throw. *)
Fixpoint all_attempts_fail (n : nat) (settings : DifficultyConfig)
    (g : rstate R) : bool :=
  match n with
  | O => true
  | S n' =>
      match tryGenerate (gridSize settings) (nodeCount settings)
              (maxConnections settings) g with
      | (Ok _, _) => false
      | (Throw _, g') => all_attempts_fail n' settings g'
      end
  end.

End Generate.

(* ------------------------------------------------------------------ *)
(** * Part II: what the properties are stated with *)

(* ------------------------------------------------------------------ *)
(** ** Histories of the edge map *)

(** The mutating calls a client can make on a [CableManager]. *)
Inductive Op : Type :=
| OpToggle (nodeA nodeB : House)
| OpSet (nodeA nodeB : House) (count : Z)
| OpReset.

Definition apply_op (edges : EdgeMap) (op : Op) : EdgeMap :=
  match op with
  | OpToggle a b => fst (toggleConnection edges a b)
  | OpSet a b c => setConnection edges a b c
  | OpReset => reset edges
  end.

(** The map after the calls [ops], made in order on a freshly constructed
    manager ([this.edges = new Map()]). *)
Definition run_ops (ops : list Op) : EdgeMap :=
  fold_left apply_op ops JsMap.empty.

(** [setConnection] is called with a count in {0,1,2}. *)
Definition op_count_ok (op : Op) : Prop :=
  match op with
  | OpSet _ _ c => c = 0 \/ c = 1 \/ c = 2
  | _ => True
  end.

(** Two entries join the same unordered pair of ids. *)
Definition same_pair (e1 e2 : EdgeData) : Prop :=
  (nodeA e1 = nodeA e2 /\ nodeB e1 = nodeB e2) \/
  (nodeA e1 = nodeB e2 /\ nodeB e1 = nodeA e2).

(** Every entry sits under the key of its own endpoints, with count 1 or 2,
    and no key occurs twice. *)
Definition edges_inv (edges : EdgeMap) : Prop :=
  NoDup (JsMap.keys edges) /\
  forall k e, In (k, e) edges ->
    k = getEdgeKey (nodeA e) (nodeB e) /\ (count e = 1 \/ count e = 2).

(** A toggle on the pair {a, b}, written in either order. *)
Definition toggle_pair (swap : bool) (edges : EdgeMap) (a b : House) : EdgeMap * Z :=
  if swap then toggleConnection edges b a else toggleConnection edges a b.

(* ------------------------------------------------------------------ *)
(** ** Geometry, as the specification words it *)

(** Two points are aligned when they share an x or a y. *)
Definition aligned (p q : NodeData) : Prop := x p = x q \/ y p = y q.

(** [c] lies strictly between [u] and [v] on their shared grid line: on the
    column of [u] when [u] and [v] share it, on the row of [u] otherwise. *)
Definition strictly_between (u v c : NodeData) : Prop :=
  (x u = x v /\ x c = x u /\
   ((y u < y c /\ y c < y v) \/ (y v < y c /\ y c < y u))) \/
  (x u <> x v /\ y c = y u /\
   ((x u < x c /\ x c < x v) \/ (x v < x c /\ x c < x u))).

(** Segment [a1 a2] strictly crosses segment [b1 b2]: one is vertical (its
    ends share an x), the other is not, and each one's fixed coordinate lies
    in the open interval spanned by the other. *)
Definition strictly_crosses (a1 a2 b1 b2 : NodeData) : Prop :=
  (x a1 = x a2 /\ x b1 <> x b2 /\
   Z.min (x b1) (x b2) < x a1 < Z.max (x b1) (x b2) /\
   Z.min (y a1) (y a2) < y b1 < Z.max (y a1) (y a2)) \/
  (x a1 <> x a2 /\ x b1 = x b2 /\
   Z.min (y b1) (y b2) < y a1 < Z.max (y b1) (y b2) /\
   Z.min (x a1) (x a2) < x b1 < Z.max (x a1) (x a2)).

(** Every placed edge joins two nodes of [allNodes] (the non-null assertions
    on [allNodes.find] in [canConnect]). *)
Definition edges_resolve (allNodes : list House) (edges : EdgeMap) : Prop :=
  forall e, In e (JsMap.values edges) ->
    find_house (nodeA e) allNodes <> None /\
    find_house (nodeB e) allNodes <> None.

(** A node of [allNodes], other than [a] and [b], blocks the way. *)
Definition node_between (a b : House) (allNodes : list House) : Prop :=
  exists other, In other allNodes /\
    ref other <> ref a /\ ref other <> ref b /\
    strictly_between (dataModel a) (dataModel b) (dataModel other).

(** A placed edge, neither end of which is [a] or [b], is strictly crossed. *)
Definition crosses_placed_edge (edges : EdgeMap) (a b : House)
    (allNodes : list House) : Prop :=
  exists e n1 n2, In e (JsMap.values edges) /\
    nodeA e <> id (dataModel a) /\ nodeA e <> id (dataModel b) /\
    nodeB e <> id (dataModel a) /\ nodeB e <> id (dataModel b) /\
    find_house (nodeA e) allNodes = Some n1 /\
    find_house (nodeB e) allNodes = Some n2 /\
    strictly_crosses (dataModel a) (dataModel b) (dataModel n1) (dataModel n2).

(* ------------------------------------------------------------------ *)
(** ** The win condition, as the specification words it *)

(** An edge is incident to the node with id [i]. *)
Definition incident (i : string) (e : EdgeData) : bool :=
  String.eqb (nodeA e) i || String.eqb (nodeB e) i.

(** The degree of node [i]: the sum of the multiplicities of its incident
    edges. *)
Definition degree (edges : list EdgeData) (i : string) : Z :=
  fold_right Z.add 0 (map count (filter (incident i) edges)).

(** Some edge joins [u] and [v], in either direction. *)
Definition adjacent (edges : list EdgeData) (u v : string) : Prop :=
  exists e, In e edges /\
    ((nodeA e = u /\ nodeB e = v) \/ (nodeB e = u /\ nodeA e = v)).

(** [v] is reached from [s] by walking along edges. *)
Inductive reach (edges : list EdgeData) (s : string) : string -> Prop :=
| reach_start : reach edges s s
| reach_step u v : reach edges s u -> adjacent edges u v -> reach edges s v.

(** Degrees match and every node is reached from the first one. *)
Definition solved_spec (houses : list House) (edges : list EdgeData) : Prop :=
  match houses with
  | [] => False
  | h0 :: _ =>
      (forall h, In h houses ->
         degree edges (house_id h) = requiredConnections (dataModel h)) /\
      (forall h, In h houses -> reach edges (house_id h0) (house_id h))
  end.

(** The houses and placed edges of a running game: ids are unique, every
    edge joins two distinct houses. *)
Definition scene_ok (houses : list House) (edges : list EdgeData) : Prop :=
  NoDup (map house_id houses) /\
  forall e, In e edges ->
    In (nodeA e) (map house_id houses) /\
    In (nodeB e) (map house_id houses) /\
    nodeA e <> nodeB e.

(** Same multiplicity on the same unordered pair. *)
Definition same_edge (e1 e2 : EdgeData) : Prop :=
  count e1 = count e2 /\ same_pair e1 e2.

(** Two edge lists that hold the same edges up to order and orientation. *)
Definition same_graph (l l' : list EdgeData) : Prop :=
  exists l2, Permutation l l2 /\ Forall2 same_edge l2 l'.

(** The id holds no ['-'], the separator of [getEdgeKey]; the ids the
    generator makes, [n_0], [n_1], ..., are of this kind. *)
Fixpoint dash_free (s : string) : bool :=
  match s with
  | EmptyString => true
  | String c s' => negb (Ascii.eqb c "-") && dash_free s'
  end.

Definition ids_dash_free (edges : EdgeMap) : Prop :=
  forall e, In e (JsMap.values edges) ->
    dash_free (nodeA e) = true /\ dash_free (nodeB e) = true.

(* ------------------------------------------------------------------ *)
(** ** The generator's intermediate results *)

(** The accepted edge has no end in common with the candidate (u, v). *)
Definition disjoint_from (u v : NodeData) (e : EdgeData) : bool :=
  negb (String.eqb (nodeA e) (id u) || String.eqb (nodeA e) (id v) ||
        String.eqb (nodeB e) (id u) || String.eqb (nodeB e) (id v)).

(** Every accepted edge joins two nodes of [nodes]. *)
Definition edges_in_nodes (nodes : list NodeData) (edges : list EdgeData) : Prop :=
  forall e, In e edges ->
    find_node (nodeA e) nodes <> None /\ find_node (nodeB e) nodes <> None.

(** An accepted edge joins two different ids with one or two cables. *)
Definition edge_ok (e : EdgeData) : Prop :=
  nodeA e <> nodeB e /\ (count e = 1 \/ count e = 2).

(** The nodes placed before turn [i] of the placement loop: their ids are
    pairwise different and all of the form [n_k] with [k < i]. *)
Definition placed_ids (i : nat) (nodes : list NodeData) : Prop :=
  NoDup (map id nodes) /\
  forall n, In n nodes -> exists k, (k < i)%nat /\ id n = node_id k.

(** The running requirement of a node during pruning: never negative, and
    within the maximum once it is not zero. *)
Definition required_ok (maxConnections : Z) (n : NodeData) : Prop :=
  0 <= requiredConnections n /\
  (requiredConnections n <> 0 -> requiredConnections n <= maxConnections).

(* ------------------------------------------------------------------ *)
(** ** Well-formed disjoint sets *)

(** [i] is its own parent. *)
Definition is_root (l : list nat) (i : nat) : bool :=
  match nth_error l i with
  | Some p => Nat.eqb p i
  | None => false
  end.

Definition nroots (l : list nat) : nat :=
  List.length (filter (is_root l) (seq 0 (List.length l))).

(** The parent array is a forest: every parent is in range, a height [h]
    drops along every parent link, and heights leave room for the roots. *)
Definition ds_inv (h : nat -> nat) (ds : DisjointSet) : Prop :=
  let l := parent ds in
  let n := List.length l in
  (forall i p, nth_error l i = Some p -> (p < n)%nat) /\
  (forall i p, nth_error l i = Some p -> p <> i -> (h p < h i)%nat) /\
  (forall i, (i < n)%nat -> (h i + nroots l <= n)%nat).

Definition ds_ok (ds : DisjointSet) : Prop := exists h, ds_inv h ds.

(** Both ends of every edge are ids of [nodes]. *)
Definition ends_in (nodes : list NodeData) (edges : list EdgeData) : Prop :=
  forall e, In e edges ->
    In (nodeA e) (map id nodes) /\ In (nodeB e) (map id nodes).

(** Both ends of every candidate are nodes of [nodes]. *)
Definition candidates_in (nodes : list NodeData) (ps : list PotentialEdge) : Prop :=
  forall p, In p ps -> In (u p) nodes /\ In (v p) nodes.

(* ------------------------------------------------------------------ *)
(** ** Play on a scene *)

(** The call acts on two different houses of the scene. *)
Definition op_in_scene (houses : list House) (op : Op) : Prop :=
  match op with
  | OpToggle a b | OpSet a b _ =>
      In a houses /\ In b houses /\ house_id a <> house_id b
  | OpReset => True
  end.

(** The ids of the scene are unique and hold no ['-']. *)
Definition houses_ok (houses : list House) : Prop :=
  NoDup (map house_id houses) /\
  Forall (fun h => dash_free (house_id h) = true) houses.

(* ------------------------------------------------------------------ *)
(** ** Measures and invariants of the search *)

(** [h] with [c] added to its connection count. *)
Definition bump (c : Z) (h : House) : House :=
  updateConnectionCount h (currentConnections (dataModel h) + c).

(** The members of [universe] not yet visited; the search ends because this
    list shrinks whenever the queue grows. *)
Definition unvisited (universe visited : list string) : list string :=
  filter (fun u => negb (set_has u visited)) universe.

(** Every id that appears at an end of an edge. *)
Definition edge_ends (edges : list EdgeData) : list string :=
  flat_map (fun e => [nodeA e; nodeB e]) edges.

(** The loop invariant of the search from [start]. *)
Definition bfs_inv (edges : list EdgeData) (start : string)
    (queue visited : list string) : Prop :=
  NoDup visited /\
  In start visited /\
  (forall v, In v visited -> reach edges start v) /\
  (forall q, In q queue -> In q visited) /\
  (forall v, In v visited ->
     In v queue \/ forall n, adjacent edges v n -> In n visited).

(* ------------------------------------------------------------------ *)
(** ** Sample scenes *)

(** The houses [startGame] builds for the fallback puzzle. *)
Definition fallback_houses : list House :=
  make_houses 0 (nodes createFallbackPuzzle).

Definition house_n0 : House := mkHouse 0 (mkNodeData "n_0" 1 1 2 0).
Definition house_n1 : House := mkHouse 1 (mkNodeData "n_1" 3 1 2 0).
Definition house_n2 : House := mkHouse 2 (mkNodeData "n_2" 1 3 2 0).
Definition house_n3 : House := mkHouse 3 (mkNodeData "n_3" 3 3 2 0).

(** The square loop, placed one cable at a time. *)
Definition square_loop : EdgeMap :=
  run_ops [OpToggle house_n0 house_n1; OpToggle house_n1 house_n3;
           OpToggle house_n3 house_n2; OpToggle house_n2 house_n0].

(** The square loop without its last cable. *)
Definition open_square : EdgeMap :=
  run_ops [OpToggle house_n0 house_n1; OpToggle house_n1 house_n3;
           OpToggle house_n3 house_n2].

(** Three houses in a column. *)
Definition column_houses : list House :=
  [mkHouse 0 (mkNodeData "n_0" 1 0 1 0); mkHouse 1 (mkNodeData "n_1" 1 1 2 0);
   mkHouse 2 (mkNodeData "n_2" 1 2 1 0)].

(** Four houses in a plus shape, with a cable on the horizontal arm. *)
Definition plus_houses : list House :=
  [mkHouse 0 (mkNodeData "n_0" 0 1 1 0); mkHouse 1 (mkNodeData "n_1" 2 1 1 0);
   mkHouse 2 (mkNodeData "n_2" 1 0 1 0); mkHouse 3 (mkNodeData "n_3" 1 2 1 0)].

Definition plus_edges : EdgeMap :=
  run_ops [OpToggle (mkHouse 0 (mkNodeData "n_0" 0 1 1 0))
                    (mkHouse 1 (mkNodeData "n_1" 2 1 1 0))].

(** A linear congruential source; its sort reverses the array. *)
Definition lcg_next (g : Z) : Z := (g * 1103515245 + 12345) mod 2147483648.

Definition lcg_draw (g : Z) : Q := Qmake ((g / 65536) mod 1000) 1000.

Definition lcg_source : RandomSource :=
  mkRandomSource Z
    (fun n g => (Qfloor (Qmult (lcg_draw g) (inject_Z n)), lcg_next g))
    (fun q g => (negb (Qle_bool (lcg_draw g) q), lcg_next g))
    (fun l g => (rev l, g)).

(** A source that always draws 0, so that every node lands on cell (0,0). *)
Definition zero_source : RandomSource :=
  mkRandomSource unit (fun n g => (0, g)) (fun q g => (false, g))
    (fun l g => (l, g)).

(* ------------------------------------------------------------------ *)
(** * Part III: further notions for the generator and the scene *)

(* ------------------------------------------------------------------ *)
(** ** What a generated puzzle looks like *)

(** The grid cell of a node. *)
Definition cell (n : NodeData) : Z * Z := (x n, y n).

(** [Math.floor(Math.random() * n)] lies in [0, n) for a positive [n], since
    [Math.random()] lies in [0, 1). *)
Definition floor_in_range (R : RandomSource) : Prop :=
  forall n g, 0 < n -> 0 <= fst (floor_random R n g) < n.

(** The node with its two counters cleared: what is left is its id and its
    place. *)
Definition place (n : NodeData) : NodeData :=
  mkNodeData (id n) (x n) (y n) 0 0.

(** The key under which a [CableManager] would store the edge. *)
Definition pair_key (e : EdgeData) : string :=
  getEdgeKey (nodeA e) (nodeB e).

(** The solution edges form a legal drawing on the nodes: ids are unique;
    every edge joins two different nodes that are aligned with no node
    between them, with one or two cables; no two edges cross; no pair of
    nodes is joined twice. *)
Definition legal_solution (nodes : list NodeData) (edges : list EdgeData) : Prop :=
  NoDup (map id nodes) /\
  (forall e, In e edges ->
     exists a b,
       find_node (nodeA e) nodes = Some a /\
       find_node (nodeB e) nodes = Some b /\
       nodeA e <> nodeB e /\
       aligned a b /\
       isNodeBetween a b nodes = false /\
       (count e = 1 \/ count e = 2)) /\
  (forall e1 e2 a1 b1 a2 b2,
     In e1 edges -> In e2 edges ->
     find_node (nodeA e1) nodes = Some a1 ->
     find_node (nodeB e1) nodes = Some b1 ->
     find_node (nodeA e2) nodes = Some a2 ->
     find_node (nodeB e2) nodes = Some b2 ->
     linesCross a1 b1 a2 b2 = false) /\
  NoDup (map pair_key edges).

(** The candidate, read as an edge with [c] cables. *)
Definition edge_of (p : PotentialEdge) (c : Z) : EdgeData :=
  mkEdgeData (id (u p)) (id (v p)) c.

(** A candidate of step 2 on the placed nodes. *)
Definition candidate_ok (nodes : list NodeData) (p : PotentialEdge) : Prop :=
  In (u p) nodes /\ In (v p) nodes /\ id (u p) <> id (v p) /\
  aligned (u p) (v p) /\ isNodeBetween (u p) (v p) nodes = false.

(** An accepted edge comes from a candidate. *)
Definition from_candidate (nodes : list NodeData) (e : EdgeData) : Prop :=
  exists p c, candidate_ok nodes p /\ e = edge_of p c /\ (c = 1 \/ c = 2).

(** No accepted edge crosses another, the ends being looked up in [nodes]. *)
Definition none_cross (nodes : list NodeData) (edges : list EdgeData) : Prop :=
  forall e1 e2 a1 b1 a2 b2,
    In e1 edges -> In e2 edges ->
    find_node (nodeA e1) nodes = Some a1 ->
    find_node (nodeB e1) nodes = Some b1 ->
    find_node (nodeA e2) nodes = Some a2 ->
    find_node (nodeB e2) nodes = Some b2 ->
    linesCross a1 b1 a2 b2 = false.

(** The key under which the placement loop records the cell of a node. *)
Definition node_key (n : NodeData) : string := cell_key (x n) (y n).

(** The node lies on the grid of side [gridSize]. *)
Definition in_grid (gridSize : Z) (n : NodeData) : Prop :=
  0 <= x n < gridSize /\ 0 <= y n < gridSize.

(** The state of the placement loop: [occupied] holds the cell keys of the
    nodes placed so far, none twice, and every node starts with both
    counters at zero. *)
Definition placement_inv (nodes : list NodeData) (occupied : list string) : Prop :=
  occupied = map node_key nodes /\ NoDup occupied /\
  Forall (fun n => place n = n) nodes.

(** The key of a candidate, as [pair_key] of the edge it would make. *)
Definition cand_key (p : PotentialEdge) : string :=
  getEdgeKey (id (u p)) (id (v p)).

(* ------------------------------------------------------------------ *)
(** ** GameScene: the state of a game and its event handlers *)

Module GameScene.

Record MoveAction : Type := mkMoveAction {
  nodeAId : string;
  nodeBId : string;
  previousCount : Z
}.

(** The fields of the scene that the handlers read and write.  The houses
    are the objects of the scene; [selectedHouse] points to one of them and
    is kept as its [ref]. *)
Record t : Type := mk {
  houses : list House;
  cableManager : EdgeMap;
  selectedHouse : option nat;
  isSolved : bool;
  currentDifficulty : Difficulty;
  history : list MoveAction
}.

(** The scene after [create()]. *)
Definition init : t := mk [] JsMap.empty None false EASY [].

(** The house a reference points to. *)
Definition deref (hs : list House) (r : nat) : option House :=
  find (fun h => Nat.eqb (ref h) r) hs.

(** [victory]: [this.isSolved = true]; the rest recolours the scene, plays a
    sound and notifies the page. *)
Definition victory (s : t) : t :=
  mk (houses s) (cableManager s) (selectedHouse s) true
     (currentDifficulty s) (history s).

(** [this.checkWinCondition()]: the houses get their recomputed counts, and
    [victory] is called when counts and connectivity are right. *)
Definition checkWin (s : t) : t :=
  let (hs, won) := checkWinCondition (houses s) (cableManager s) in
  let s' := mk hs (cableManager s) (selectedHouse s) (isSolved s)
               (currentDifficulty s) (history s) in
  if won then victory s' else s'.

Definition handleHouseClick (s : t) (house : House) : result t :=
  if isSolved s then Ok s
  else
    match selectedHouse s with
    | None =>
        (* Select *)
        Ok (mk (houses s) (cableManager s) (Some (ref house)) (isSolved s)
               (currentDifficulty s) (history s))
    | Some r =>
        if Nat.eqb r (ref house) then
          (* Deselect *)
          Ok (mk (houses s) (cableManager s) None (isSolved s)
                 (currentDifficulty s) (history s))
        else
          (* Attempt Connection *)
          selected <- defined (deref (houses s) r) ;;
          ok <- canConnect (cableManager s) selected house (houses s) ;;
          let s1 :=
            if ok then
              let prevCount :=
                hasConnection (cableManager s)
                  (id (dataModel selected)) (id (dataModel house)) in
              let history' :=
                history s ++ [mkMoveAction (id (dataModel selected))
                                (id (dataModel house)) prevCount] in
              let edges' :=
                fst (toggleConnection (cableManager s) selected house) in
              checkWin (mk (houses s) edges' (selectedHouse s) (isSolved s)
                           (currentDifficulty s) history')
            else s in
          (* Always Deselect after action *)
          Ok (mk (houses s1) (cableManager s1) None (isSolved s1)
                 (currentDifficulty s1) (history s1))
    end.

(** [history.pop()]: the last element and the array without it. *)
Definition pop {A} (l : list A) : option (A * list A) :=
  match rev l with
  | [] => None
  | a :: earlier => Some (a, rev earlier)
  end.

Definition undo (s : t) : t :=
  if Nat.eqb (List.length (history s)) 0 || isSolved s then s
  else
    match pop (history s) with
    | None => s
    | Some (lastMove, history') =>
        let s1 := mk (houses s) (cableManager s) (selectedHouse s)
                     (isSolved s) (currentDifficulty s) history' in
        match find_house (nodeAId lastMove) (houses s),
              find_house (nodeBId lastMove) (houses s) with
        | Some houseA, Some houseB =>
            checkWin
              (mk (houses s1)
                  (setConnection (cableManager s1) houseA houseB
                     (previousCount lastMove))
                  (selectedHouse s1) (isSolved s1) (currentDifficulty s1)
                  (history s1))
        | _, _ => s1
        end
    end.

Definition resetCurrentPuzzle (s : t) : t :=
  if isSolved s then s
  else
    mk (map (fun h => updateConnectionCount h 0) (houses s))
       (reset (cableManager s)) None false (currentDifficulty s) [].

(** [startGame]: the old houses are destroyed and no reference to them is
    left, so the new houses are numbered from 0. *)
Definition startGame (R : RandomSource) (s : t) (difficulty : Difficulty)
    : Gen R t :=
  (puzzle <- generate R difficulty ;;
   ret (mk (make_houses 0 (nodes puzzle)) (reset (cableManager s)) None false
           difficulty []))%gen.

(** What reaches the scene: the events of the page, and a click on one of
    the houses of the scene. *)
Inductive Event : Type :=
| START_GAME (difficulty : Difficulty)
| RESET_PUZZLE
| REPORT_UNSOLVABLE
| UNDO
| pointerdown (r : nat).

Definition dispatch (R : RandomSource) (s : t) (ev : Event) : Gen R t :=
  match ev with
  | START_GAME difficulty => startGame R s difficulty
  | RESET_PUZZLE => ret (resetCurrentPuzzle s)
  | REPORT_UNSOLVABLE => ret s
  | UNDO => ret (undo s)
  | pointerdown r =>
      match deref (houses s) r with
      | Some house => lift (handleHouseClick s house)
      | None => ret s
      end
  end.

(** The scene after the events [evs], handled in order. *)
Fixpoint run (R : RandomSource) (evs : list Event) (s : t) : Gen R t :=
  match evs with
  | [] => ret s
  | ev :: rest => (s' <- dispatch R s ev ;; run R rest s')%gen
  end.

(** The part of the invariant that does not depend on the counts shown:
    ids and references of the houses are unique and ids hold no ['-']; the
    edge map has one entry per pair, under its key, with one or two cables,
    between different houses of the scene; a selection points to a house of
    the scene; every move of the history names two different houses and a
    count of 0, 1 or 2; no house requires 0. *)
Definition static_inv (s : t) : Prop :=
  houses_ok (houses s) /\
  NoDup (map ref (houses s)) /\
  edges_inv (cableManager s) /\
  scene_ok (houses s) (getAllEdges (cableManager s)) /\
  (forall r, selectedHouse s = Some r -> In r (map ref (houses s))) /\
  Forall (fun m =>
            In (nodeAId m) (map house_id (houses s)) /\
            In (nodeBId m) (map house_id (houses s)) /\
            nodeAId m <> nodeBId m /\
            (previousCount m = 0 \/ previousCount m = 1 \/ previousCount m = 2))
    (history s) /\
  Forall (fun h => requiredConnections (dataModel h) <> 0) (houses s).

(** What holds of the scene all along: [static_inv]; the counts shown are
    the degrees on the board; and [isSolved] is the verdict of
    [checkWinCondition] on the board. *)
Definition scene_inv (s : t) : Prop :=
  static_inv s /\
  Forall (fun h => currentConnections (dataModel h)
                   = degree (getAllEdges (cableManager s)) (house_id h))
    (houses s) /\
  isSolved s = snd (checkWinCondition (houses s) (cableManager s)).

End GameScene.

(** ** Sample games *)

(** The puzzle that seed 42 gives on the easy tier. *)
Definition sample_puzzle : Puzzle :=
  mkPuzzle
    [mkNodeData "n_0" 0 0 2 0; mkNodeData "n_1" 1 2 2 0;
     mkNodeData "n_2" 4 0 2 0; mkNodeData "n_3" 3 2 1 0;
     mkNodeData "n_4" 0 2 2 0; mkNodeData "n_5" 4 4 1 0]
    [mkEdgeData "n_2" "n_5" 1; mkEdgeData "n_1" "n_4" 1;
     mkEdgeData "n_1" "n_3" 1; mkEdgeData "n_0" "n_4" 1;
     mkEdgeData "n_0" "n_2" 1].

(** A game on that puzzle: a cable is placed between [n_0] and [n_4], two
    more clicks double it, and the last move is undone. *)
Definition sample_events : list GameScene.Event :=
  [GameScene.START_GAME EASY;
   GameScene.pointerdown 0; GameScene.pointerdown 4;
   GameScene.pointerdown 4; GameScene.pointerdown 0;
   GameScene.UNDO].

(** The fallback scene with house [n_0] selected. *)
Definition fallback_selected : GameScene.t :=
  GameScene.mk fallback_houses JsMap.empty (Some 0%nat) false EASY [].

(** The fallback scene, solved. *)
Definition fallback_solved : GameScene.t :=
  GameScene.mk fallback_houses square_loop None true EASY [].

(* ------------------------------------------------------------------ *)
(** ** Playing the solution *)

(** Every edge on the board joins a pair of nodes that the solution joins. *)
Definition within_solution (solution : list EdgeData) (edges : EdgeMap) : Prop :=
  forall e, In e (JsMap.values edges) ->
    exists e2, In e2 solution /\ same_pair e e2.

(** The clicks that place the solution edge [e]: its two ends, once per
    cable. *)
Definition clicks_for (hs : list House) (e : EdgeData) : list GameScene.Event :=
  match find_house (nodeA e) hs, find_house (nodeB e) hs with
  | Some a, Some b =>
      List.concat
        (List.repeat
           [GameScene.pointerdown (ref a); GameScene.pointerdown (ref b)]
           (Z.to_nat (count e)))
  | _, _ => []
  end.

(** The clicks that place the solution of [p], edge by edge. *)
Definition solution_clicks (p : Puzzle) : list GameScene.Event :=
  flat_map (clicks_for (make_houses 0 (nodes p))) (solutionEdges p).

(** The edge map that holds the edges [l], in order, each under its key. *)
Definition entries_of (l : list EdgeData) : EdgeMap :=
  map (fun e => (pair_key e, e)) l.

(** The scene while the solution is being placed: the houses are those of
    the puzzle up to the counts shown, the edges [placed] are on the board,
    no house is selected, and every house requires its degree in
    [solution]. *)
Definition played (hs0 : list House) (solution placed : list EdgeData)
    (s : GameScene.t) : Prop :=
  GameScene.scene_inv s /\
  reset_counts (GameScene.houses s) = reset_counts hs0 /\
  GameScene.cableManager s = entries_of placed /\
  GameScene.selectedHouse s = None /\
  Forall (fun h => requiredConnections (dataModel h)
                   = degree solution (house_id h)) (GameScene.houses s).

(* ------------------------------------------------------------------ *)
(** ** Legal boards *)

(** The houses [a] and [b] may be joined: they share a row or a column and
    no house lies strictly between them. *)
Definition pair_legal (hs : list House) (a b : House) : Prop :=
  aligned (dataModel a) (dataModel b) /\ ~ node_between a b hs.

(** Every pair of houses that [hasConnection] reports as connected may be
    joined, and no two connected pairs cross. *)
Definition board_legal (hs : list House) (edges : EdgeMap) : Prop :=
  (forall a b, In a hs -> In b hs ->
     hasConnection edges (house_id a) (house_id b) <> 0 ->
     pair_legal hs a b) /\
  (forall a b c d, In a hs -> In b hs -> In c hs -> In d hs ->
     hasConnection edges (house_id a) (house_id b) <> 0 ->
     hasConnection edges (house_id c) (house_id d) <> 0 ->
     ~ strictly_crosses (dataModel a) (dataModel b)
         (dataModel c) (dataModel d)).

(** Two edge maps that give every pair the same number of cables. *)
Definition same_mult (edges edges' : EdgeMap) : Prop :=
  forall i j, hasConnection edges i j = hasConnection edges' i j.

(** The board is legal and stays so however many moves are undone;
    [moves] is the history, the most recent move first. *)
Fixpoint undo_safe (hs : list House) (edges : EdgeMap)
    (moves : list GameScene.MoveAction) : Prop :=
  board_legal hs edges /\
  match moves with
  | [] => True
  | m :: earlier =>
      match find_house (GameScene.nodeAId m) hs,
            find_house (GameScene.nodeBId m) hs with
      | Some a, Some b =>
          undo_safe hs
            (setConnection edges a b (GameScene.previousCount m)) earlier
      | _, _ => undo_safe hs edges earlier
      end
  end.

Definition legal_inv (s : GameScene.t) : Prop :=
  undo_safe (reset_counts (GameScene.houses s)) (GameScene.cableManager s)
    (rev (GameScene.history s)).

(* ------------------------------------------------------------------ *)
(** ** The sets of a [DisjointSet] *)

(** Following the parent links from [i] ends at [r], which is its own
    parent. *)
Inductive root_of (l : list nat) : nat -> nat -> Prop :=
| root_self r : nth_error l r = Some r -> root_of l r r
| root_step i p r :
    nth_error l i = Some p -> p <> i -> root_of l p r -> root_of l i r.

(** [i] and [j] are in the same set: they have the same root. *)
Definition same_set (ds : DisjointSet) (i j : nat) : Prop :=
  exists r, root_of (parent ds) i r /\ root_of (parent ds) j r.

(** [count] is the number of sets. *)
Definition count_ok (ds : DisjointSet) : Prop :=
  ds_count ds = Z.of_nat (nroots (parent ds)).

(* ------------------------------------------------------------------ *)
(** ** The spanning tree and the degree of a node *)

(** Elements of the same set are joined by accepted edges: the element
    [i] stands for the [i]-th node. *)
Definition sets_connected (nodes : list NodeData) (edges : list EdgeData)
    (ds : DisjointSet) : Prop :=
  forall i j ni nj,
    same_set ds i j ->
    nth_error nodes i = Some ni -> nth_error nodes j = Some nj ->
    reach edges (id ni) (id nj).

(** The four ways out of a node along the grid. *)
Inductive Direction : Type := North | South | East | West.

(** The direction in which [o] lies from [n], for aligned nodes. *)
Definition direction_to (n o : NodeData) : Direction :=
  if x n =? x o
  then (if y n <? y o then South else North)
  else (if x n <? x o then East else West).

(** The end of [e] that is not [i]. *)
Definition other_end (i : string) (e : EdgeData) : string :=
  if String.eqb (nodeA e) i then nodeB e else nodeA e.

(** The direction in which the edge [e] leaves the node [n]. *)
Definition edge_direction (nodes : list NodeData) (n : NodeData)
    (e : EdgeData) : Direction :=
  match find_node (other_end (id n) e) nodes with
  | Some o => direction_to n o
  | None => North
  end.

(* ------------------------------------------------------------------ *)
(** ** The clock of the page *)

(** [n.toString()] for a whole number [n >= 0]: its decimal digits. *)
Definition toString (n : nat) : string :=
  NilEmpty.string_of_uint (Nat.to_uint n).

(** The first [n] characters of [cur] followed by copies of [fillString]. *)
Fixpoint fill_from (n : nat) (cur fillString : string) : string :=
  match n with
  | O => EmptyString
  | S n' =>
      match cur with
      | String c rest => String c (fill_from n' rest fillString)
      | EmptyString =>
          match fillString with
          | String c rest => String c (fill_from n' rest fillString)
          | EmptyString => EmptyString
          end
      end
  end.

(** [s.padStart(maxLength, fillString)]: [s] when it is long enough or there
    is nothing to fill with, else [s] after as much of the repeated
    [fillString] as brings it to [maxLength]. *)
Definition padStart (maxLength : nat) (fillString s : string) : string :=
  if (maxLength <=? String.length s)%nat then s
  else if String.eqb fillString EmptyString then s
  else String.append
         (fill_from (maxLength - String.length s) EmptyString fillString) s.

(** [formatTime(seconds)]; the time left is a whole number of seconds, from
    [sessionMinutes * 60] down to 0. *)
Definition formatTime (seconds : nat) : string :=
  let mins := (seconds / 60)%nat in
  let secs := (seconds mod 60)%nat in
  String.append (padStart 2 "0" (toString mins))
    (String.append ":" (padStart 2 "0" (toString secs))).

(** The number a string of decimal digits stands for. *)
Definition digits_value (s : string) : option nat :=
  option_map Nat.of_uint (NilEmpty.uint_of_string s).

(* ------------------------------------------------------------------ *)
(** ** The crossing test of the spanning-tree loop *)

(** The candidate (u, v) strictly crosses one of the accepted edges whose
    two ends are both different from [u] and [v]. *)
Definition crosses_disjoint_edge (nodes : list NodeData)
    (edges : list EdgeData) (u v : NodeData) : Prop :=
  exists e eU eV, In e edges /\ disjoint_from u v e = true /\
    find_node (nodeA e) nodes = Some eU /\
    find_node (nodeB e) nodes = Some eV /\
    strictly_crosses u v eU eV.

(* ================================================================== *)
(** * Properties *)

(** ** Facts about [JsMap] *)

Module JsMapFacts.
Import JsMap.

Section Facts.
Context {V : Type}.
Implicit Types (m : t V) (k : string) (v : V).

Lemma get_set_same k v m : get k (set k v m) = Some v.
Proof.
  induction m as [|[k' v'] m IH]; simpl.
  - now rewrite String.eqb_refl.
  - destruct (String.eqb k k') eqn:E; simpl; rewrite ?String.eqb_refl, ?E; auto.
Qed.

Lemma get_set_other k k' v m : k <> k' -> get k' (set k v m) = get k' m.
Proof.
  intros Hne. induction m as [|[k0 v0] m IH]; simpl.
  - destruct (String.eqb k' k) eqn:E; auto.
    apply String.eqb_eq in E. congruence.
  - destruct (String.eqb k k0) eqn:E; simpl.
    + apply String.eqb_eq in E. subst k0.
      destruct (String.eqb k' k) eqn:E'; auto.
      apply String.eqb_eq in E'. congruence.
    + now rewrite IH.
Qed.

Lemma get_delete_same k m : get k (delete k m) = None.
Proof.
  induction m as [|[k' v'] m IH]; simpl; auto.
  destruct (String.eqb k k') eqn:E; simpl; auto. now rewrite E.
Qed.

Lemma get_delete_other k k' m : k <> k' -> get k' (delete k m) = get k' m.
Proof.
  intros Hne. induction m as [|[k0 v0] m IH]; simpl; auto.
  destruct (String.eqb k k0) eqn:E; simpl.
  - apply String.eqb_eq in E. subst k0.
    destruct (String.eqb k' k) eqn:E'; auto.
    apply String.eqb_eq in E'. congruence.
  - now rewrite IH.
Qed.

Lemma get_None_notin k m : get k m = None <-> ~ In k (keys m).
Proof.
  induction m as [|[k' v'] m IH]; simpl.
  - tauto.
  - destruct (String.eqb k k') eqn:E.
    + apply String.eqb_eq in E. subst. split; [discriminate | tauto].
    + apply String.eqb_neq in E. rewrite IH. split.
      * intros H [H1 | H1]; [congruence | tauto].
      * tauto.
Qed.

Lemma get_Some_in k v m : get k m = Some v -> In (k, v) m.
Proof.
  induction m as [|[k' v'] m IH]; simpl; [discriminate|].
  destruct (String.eqb k k') eqn:E.
  - apply String.eqb_eq in E. subst. intros [= ->]. now left.
  - intros H. right. auto.
Qed.

Lemma in_get k v m : NoDup (keys m) -> In (k, v) m -> get k m = Some v.
Proof.
  induction m as [|[k' v'] m IH]; simpl; [tauto|].
  intros Hnd [H | H].
  - injection H as -> ->. now rewrite String.eqb_refl.
  - inversion Hnd as [|? ? Hnotin Hnd']; subst.
    destruct (String.eqb k k') eqn:E.
    + apply String.eqb_eq in E. subst k'.
      exfalso. apply Hnotin. unfold keys. apply in_map_iff.
      now exists (k, v).
    + auto.
Qed.

Lemma delete_notin k m : ~ In k (keys m) -> delete k m = m.
Proof.
  induction m as [|[k' v'] m IH]; simpl; auto.
  intros H. destruct (String.eqb k k') eqn:E; simpl.
  - apply String.eqb_eq in E. subst. tauto.
  - f_equal. apply IH. tauto.
Qed.

Lemma keys_set_in k v m : In k (keys m) -> keys (set k v m) = keys m.
Proof.
  induction m as [|[k' v'] m IH]; simpl; [tauto|].
  destruct (String.eqb k k') eqn:E; simpl.
  - apply String.eqb_eq in E. now subst.
  - apply String.eqb_neq in E. intros [H | H]; [congruence|].
    f_equal. auto.
Qed.

Lemma set_notin k v m : ~ In k (keys m) -> set k v m = m ++ [(k, v)].
Proof.
  induction m as [|[k' v'] m IH]; simpl; auto.
  intros H. destruct (String.eqb k k') eqn:E.
  - apply String.eqb_eq in E. subst. tauto.
  - f_equal. apply IH. tauto.
Qed.

Lemma in_keys_delete k k' m : In k' (keys (delete k m)) <-> k' <> k /\ In k' (keys m).
Proof.
  unfold keys, delete. rewrite !in_map_iff. split.
  - intros [[k0 v0] [<- H]]. apply filter_In in H as [H1 H2]. simpl in *.
    split.
    + intros ->. now rewrite String.eqb_refl in H2.
    + now exists (k0, v0).
  - intros [Hne [[k0 v0] [<- H]]]. exists (k0, v0). split; auto.
    apply filter_In. split; auto. simpl in *.
    destruct (String.eqb k k0) eqn:E; auto.
    apply String.eqb_eq in E. congruence.
Qed.

Lemma NoDup_keys_delete k m : NoDup (keys m) -> NoDup (keys (delete k m)).
Proof.
  induction m as [|[k' v'] m IH]; simpl; auto.
  intros Hnd. inversion Hnd as [|? ? Hnotin Hnd']; subst.
  destruct (String.eqb k k') eqn:E; simpl; auto.
  constructor; auto.
  intros H. apply (in_keys_delete k k' m) in H. tauto.
Qed.

Lemma NoDup_keys_set k v m : NoDup (keys m) -> NoDup (keys (set k v m)).
Proof.
  intros Hnd. destruct (in_dec string_dec k (keys m)) as [Hin | Hnotin].
  - now rewrite keys_set_in.
  - rewrite set_notin by assumption. unfold keys in *. rewrite map_app. simpl.
    apply NoDup_app_remove_l with (l := []). simpl.
    apply Permutation_NoDup with (l := k :: map fst m).
    + apply Permutation_cons_append.
    + now constructor.
Qed.

Lemma in_set k v m kv : In kv (set k v m) -> kv = (k, v) \/ In kv m.
Proof.
  induction m as [|[k' v'] m IH]; simpl.
  - intros [H | []]. now left.
  - destruct (String.eqb k k'); simpl.
    + intros [H | H]; auto.
    + intros [H | H]; auto. destruct (IH H); auto.
Qed.

Lemma in_delete k m kv : In kv (delete k m) -> In kv m.
Proof. unfold delete. intros H. now apply filter_In in H. Qed.

End Facts.

End JsMapFacts.

(* ------------------------------------------------------------------ *)
(** ** The edge map: keys, toggling, setting *)

Import JsMap JsMapFacts.

Lemma ltb_antisym s1 s2 : String.ltb s1 s2 = true -> String.ltb s2 s1 = false.
Proof.
  unfold String.ltb. rewrite (String.compare_antisym s2 s1).
  destruct (String.compare s1 s2); simpl; congruence.
Qed.

Lemma ltb_both_false s1 s2 :
  String.ltb s1 s2 = false -> String.ltb s2 s1 = false -> s1 = s2.
Proof.
  unfold String.ltb. rewrite (String.compare_antisym s2 s1).
  destruct (String.compare s1 s2) eqn:E; simpl; try congruence.
  intros _ _. now apply String.compare_eq_iff.
Qed.

Lemma getEdgeKey_comm idA idB : getEdgeKey idA idB = getEdgeKey idB idA.
Proof.
  unfold getEdgeKey.
  destruct (String.ltb idA idB) eqn:E1.
  - now rewrite (ltb_antisym _ _ E1).
  - destruct (String.ltb idB idA) eqn:E2; auto.
    now rewrite (ltb_both_false _ _ E1 E2).
Qed.

Lemma same_pair_key e1 e2 :
  same_pair e1 e2 ->
  getEdgeKey (nodeA e1) (nodeB e1) = getEdgeKey (nodeA e2) (nodeB e2).
Proof.
  intros [[-> ->] | [-> ->]]; auto using getEdgeKey_comm.
Qed.

Lemma edges_inv_empty : edges_inv JsMap.empty.
Proof. split; [constructor | intros k e []]. Qed.

Lemma edges_inv_delete k edges : edges_inv edges -> edges_inv (JsMap.delete k edges).
Proof.
  intros [Hnd Hent]. split.
  - now apply NoDup_keys_delete.
  - intros k' e H. apply Hent. eapply in_delete; eauto.
Qed.

Lemma edges_inv_set a b c edges :
  c = 1 \/ c = 2 ->
  edges_inv edges ->
  edges_inv (JsMap.set (getEdgeKey a b) (mkEdgeData a b c) edges).
Proof.
  intros Hc [Hnd Hent]. split.
  - now apply NoDup_keys_set.
  - intros k' e H. apply in_set in H as [H | H]; auto.
    injection H as -> ->. simpl. auto.
Qed.

Lemma edges_inv_toggle edges a b :
  edges_inv edges -> edges_inv (fst (toggleConnection edges a b)).
Proof.
  intros Hinv. unfold toggleConnection.
  destruct (JsMap.get _ edges) as [c|]; simpl.
  - destruct (count c =? 1); simpl.
    + apply edges_inv_set; auto.
    + now apply edges_inv_delete.
  - apply edges_inv_set; auto.
Qed.

Lemma edges_inv_setConnection edges a b c :
  c = 0 \/ c = 1 \/ c = 2 ->
  edges_inv edges -> edges_inv (setConnection edges a b c).
Proof.
  intros Hc Hinv. unfold setConnection.
  destruct (c =? 0) eqn:E.
  - now apply edges_inv_delete.
  - apply Z.eqb_neq in E. apply edges_inv_set; auto. lia.
Qed.

Lemma edges_inv_apply_op edges op :
  op_count_ok op -> edges_inv edges -> edges_inv (apply_op edges op).
Proof.
  destruct op; simpl; intros Hok Hinv.
  - now apply edges_inv_toggle.
  - now apply edges_inv_setConnection.
  - apply edges_inv_empty.
Qed.

Lemma edges_inv_fold ops : forall edges,
  Forall op_count_ok ops -> edges_inv edges ->
  edges_inv (fold_left apply_op ops edges).
Proof.
  induction ops as [|op ops IH]; simpl; intros edges Hok Hinv; auto.
  inversion Hok; subst. apply IH; auto using edges_inv_apply_op.
Qed.

Lemma edges_inv_run_ops ops : Forall op_count_ok ops -> edges_inv (run_ops ops).
Proof. intros H. apply edges_inv_fold; auto using edges_inv_empty. Qed.

Lemma nth_error_values {V} (m : JsMap.t V) i v :
  nth_error (JsMap.values m) i = Some v ->
  exists k, nth_error m i = Some (k, v) /\ nth_error (JsMap.keys m) i = Some k.
Proof.
  unfold JsMap.values, JsMap.keys. rewrite !nth_error_map.
  destruct (nth_error m i) as [[k v']|]; simpl; [|discriminate].
  intros [= ->]. now exists k.
Qed.

Lemma edges_inv_one_entry_per_pair edges i j e1 e2 :
  edges_inv edges ->
  nth_error (getAllEdges edges) i = Some e1 ->
  nth_error (getAllEdges edges) j = Some e2 ->
  same_pair e1 e2 -> i = j.
Proof.
  intros [Hnd Hent] H1 H2 Hsame.
  apply nth_error_values in H1 as (k1 & H1 & K1).
  apply nth_error_values in H2 as (k2 & H2 & K2).
  apply nth_error_In in H1, H2.
  destruct (Hent _ _ H1) as [-> _]. destruct (Hent _ _ H2) as [-> _].
  rewrite (same_pair_key e1 e2 Hsame) in K1.
  eapply (proj1 (NoDup_nth_error (JsMap.keys edges))); eauto.
  - apply nth_error_Some. congruence.
  - congruence.
Qed.

Lemma hasConnection_zero_absent edges idA idB :
  edges_inv edges ->
  (hasConnection edges idA idB = 0 <-> JsMap.get (getEdgeKey idA idB) edges = None).
Proof.
  intros [_ Hent]. unfold hasConnection.
  destruct (JsMap.get _ edges) as [e|] eqn:G.
  - apply get_Some_in in G. destruct (Hent _ _ G) as [_ Hc].
    split; [|discriminate].
    destruct (count e =? 0) eqn:E; [apply Z.eqb_eq in E|]; lia.
  - tauto.
Qed.

(** C9. After any sequence of [toggleConnection], [setConnection] (count in
    {0,1,2}) and [reset] calls on a fresh manager, the edge map has no
    repeated key, every entry is stored under the sorted key of its own
    endpoints (which is the same for {a,b} and {b,a}), two entries at
    different positions never join the same unordered pair, every stored count
    is 1 or 2, and a pair has multiplicity 0 exactly when its key is absent. *)
Theorem edge_map_one_entry_per_pair (ops : list Op) :
  Forall op_count_ok ops ->
  let edges := run_ops ops in
  NoDup (JsMap.keys edges) /\
  (forall idA idB, getEdgeKey idA idB = getEdgeKey idB idA) /\
  (forall k e, In (k, e) edges -> k = getEdgeKey (nodeA e) (nodeB e)) /\
  (forall i j e1 e2,
      nth_error (getAllEdges edges) i = Some e1 ->
      nth_error (getAllEdges edges) j = Some e2 ->
      same_pair e1 e2 -> i = j) /\
  Forall (fun e => count e = 1 \/ count e = 2) (getAllEdges edges) /\
  (forall idA idB,
      hasConnection edges idA idB = 0 <->
      JsMap.get (getEdgeKey idA idB) edges = None).
Proof.
  intros Hok edges.
  assert (Hinv : edges_inv edges) by now apply edges_inv_run_ops.
  split; [apply Hinv|].
  split; [apply getEdgeKey_comm|].
  split; [intros k e H; now apply (proj2 Hinv)|].
  split; [intros; eapply edges_inv_one_entry_per_pair; eauto|].
  split.
  - apply Forall_forall. intros e He. unfold getAllEdges, JsMap.values in He.
    apply in_map_iff in He as [[k e'] [<- He]]. now apply (proj2 Hinv k).
  - intros. now apply hasConnection_zero_absent.
Qed.

Lemma set_app_last {V} k (v v' : V) m :
  ~ In k (JsMap.keys m) -> JsMap.set k v (m ++ [(k, v')]) = m ++ [(k, v)].
Proof.
  induction m as [|[k0 v0] m IH]; simpl.
  - now rewrite String.eqb_refl.
  - intros H. destruct (String.eqb k k0) eqn:E.
    + apply String.eqb_eq in E. subst. tauto.
    + f_equal. apply IH. tauto.
Qed.

Lemma delete_app_last {V} k (v : V) m :
  ~ In k (JsMap.keys m) -> JsMap.delete k (m ++ [(k, v)]) = m.
Proof.
  intros H. unfold JsMap.delete. rewrite filter_app. simpl.
  rewrite String.eqb_refl. simpl. rewrite app_nil_r.
  now apply delete_notin.
Qed.

Lemma get_app_last {V} k (v : V) m :
  ~ In k (JsMap.keys m) -> JsMap.get k (m ++ [(k, v)]) = Some v.
Proof.
  intros H. rewrite <- (set_notin k v m H). apply get_set_same.
Qed.

(** What one toggle does, in terms of the entry stored under the pair's key. *)
Lemma toggle_pair_spec (swap : bool) edges a b :
  let key := getEdgeKey (id (dataModel a)) (id (dataModel b)) in
  let ends : Z -> EdgeData :=
    fun c => if swap
             then mkEdgeData (id (dataModel b)) (id (dataModel a)) c
             else mkEdgeData (id (dataModel a)) (id (dataModel b)) c in
  toggle_pair swap edges a b =
  match JsMap.get key edges with
  | None => (JsMap.set key (ends 1) edges, 1)
  | Some c => if count c =? 1 then (JsMap.set key (ends 2) edges, 2)
              else (JsMap.delete key edges, 0)
  end.
Proof.
  intros key ends. unfold toggle_pair, toggleConnection.
  destruct swap; rewrite ?(getEdgeKey_comm (id (dataModel b))); fold key;
    destruct (JsMap.get key edges) as [c|]; simpl; auto;
    destruct (count c =? 1); reflexivity.
Qed.

Lemma toggle_pair_returns_multiplicity swap edges a b :
  snd (toggle_pair swap edges a b)
  = hasConnection (fst (toggle_pair swap edges a b))
      (id (dataModel a)) (id (dataModel b)).
Proof.
  rewrite toggle_pair_spec. unfold hasConnection.
  destruct (JsMap.get _ edges) as [c|]; [destruct (count c =? 1)|]; simpl;
    rewrite ?get_set_same, ?get_delete_same; destruct swap; reflexivity.
Qed.

(** C7. [toggleConnection] on the unordered pair {a, b} (written in either
    order) returns the pair's multiplicity after the call; from absent it
    stores 1, from 1 it stores 2, from 2 it removes the entry and returns 0,
    whatever else the map holds; three toggles in a row starting from absent
    return 1, 2, 0 and leave the map exactly as it was. *)
Theorem toggleConnection_cycle (edges : EdgeMap) (a b : House) :
  let idA := id (dataModel a) in
  let idB := id (dataModel b) in
  let key := getEdgeKey idA idB in
  (forall swap,
      snd (toggle_pair swap edges a b)
      = hasConnection (fst (toggle_pair swap edges a b)) idA idB) /\
  (JsMap.get key edges = None ->
   forall swap, snd (toggle_pair swap edges a b) = 1) /\
  (forall e, JsMap.get key edges = Some e -> count e = 1 ->
   forall swap, snd (toggle_pair swap edges a b) = 2) /\
  (forall e, JsMap.get key edges = Some e -> count e = 2 ->
   forall swap, snd (toggle_pair swap edges a b) = 0 /\
                JsMap.get key (fst (toggle_pair swap edges a b)) = None) /\
  (JsMap.get key edges = None ->
   forall s1 s2 s3,
     let t1 := toggle_pair s1 edges a b in
     let t2 := toggle_pair s2 (fst t1) a b in
     let t3 := toggle_pair s3 (fst t2) a b in
     snd t1 = 1 /\ snd t2 = 2 /\ snd t3 = 0 /\ fst t3 = edges).
Proof.
  intros idA idB key.
  split; [intros; apply toggle_pair_returns_multiplicity|].
  split; [intros G swap; rewrite toggle_pair_spec; fold idA idB key; now rewrite G|].
  split; [intros e G Hc swap; rewrite toggle_pair_spec; fold idA idB key;
          rewrite G, Hc; reflexivity|].
  split.
  - intros e G Hc swap. rewrite toggle_pair_spec. fold idA idB key.
    rewrite G, Hc. simpl. split; auto using get_delete_same.
  - intros G s1 s2 s3.
    assert (Hnotin : ~ In key (JsMap.keys edges)) by now apply get_None_notin.
    intros t1 t2 t3. subst t3 t2 t1.
    rewrite (toggle_pair_spec s1). fold idA idB key. rewrite G. simpl.
    rewrite set_notin by assumption.
    rewrite (toggle_pair_spec s2). fold idA idB key.
    rewrite get_app_last by assumption.
    replace (count _ =? 1) with true by (destruct s1; reflexivity). simpl.
    rewrite set_app_last by assumption.
    rewrite (toggle_pair_spec s3). fold idA idB key.
    rewrite get_app_last by assumption.
    replace (count _ =? 1) with false by (destruct s2; reflexivity). simpl.
    rewrite delete_app_last by assumption. auto.
Qed.

(* ------------------------------------------------------------------ *)
(** ** Legality of a candidate edge *)

Ltac bool_to_Z :=
  repeat match goal with
  | H : _ && _ = true |- _ => apply andb_prop in H; destruct H
  | H : _ || _ = true |- _ => apply orb_prop in H
  | H : negb _ = true |- _ => apply negb_true_iff in H
  | H : negb _ = false |- _ => apply negb_false_iff in H
  | H : (_ =? _) = true |- _ => apply Z.eqb_eq in H
  | H : (_ =? _) = false |- _ => apply Z.eqb_neq in H
  | H : (_ <? _) = true |- _ => apply Z.ltb_lt in H
  | H : (_ <? _) = false |- _ => apply Z.ltb_ge in H
  | H : (_ >? _) = true |- _ => rewrite Z.gtb_ltb in H; apply Z.ltb_lt in H
  | H : (_ >? _) = false |- _ => rewrite Z.gtb_ltb in H; apply Z.ltb_ge in H
  end.

Lemma blocks_sym isVertical dA dB dO :
  (isVertical = true -> x dA = x dB) ->
  (isVertical = false -> y dA = y dB) ->
  blocks isVertical dA dB dO = blocks isVertical dB dA dO.
Proof.
  intros Hv Hh. unfold blocks. destruct isVertical.
  - rewrite (Hv eq_refl). f_equal. apply orb_comm.
  - rewrite (Hh eq_refl). f_equal. apply orb_comm.
Qed.

Lemma between_loop_sym a b isVertical others :
  (isVertical = true -> x (dataModel a) = x (dataModel b)) ->
  (isVertical = false -> y (dataModel a) = y (dataModel b)) ->
  between_loop a b isVertical others = between_loop b a isVertical others.
Proof.
  intros Hv Hh. induction others as [|o rest IH]; simpl; auto.
  rewrite (orb_comm (same_house o a)), IH, (blocks_sym _ _ _ _ Hv Hh).
  reflexivity.
Qed.

Lemma touches_sym e dA dB : touches e dA dB = touches e dB dA.
Proof.
  unfold touches.
  destruct (String.eqb (nodeA e) (id dA)), (String.eqb (nodeA e) (id dB)),
    (String.eqb (nodeB e) (id dA)), (String.eqb (nodeB e) (id dB)); reflexivity.
Qed.

Lemma crosses_edge_sym isVertical dA dB d1 d2 :
  (isVertical = true -> x dA = x dB) ->
  (isVertical = false -> y dA = y dB) ->
  crosses_edge isVertical dA dB d1 d2 = crosses_edge isVertical dB dA d1 d2.
Proof.
  intros Hv Hh. unfold crosses_edge.
  rewrite (Z.min_comm (x dB)), (Z.max_comm (x dB)),
    (Z.min_comm (y dB)), (Z.max_comm (y dB)).
  destruct isVertical; simpl.
  - now rewrite (Hv eq_refl).
  - now rewrite (Hh eq_refl).
Qed.

Lemma crossing_loop_sym dA dB isVertical allNodes es :
  (isVertical = true -> x dA = x dB) ->
  (isVertical = false -> y dA = y dB) ->
  crossing_loop dA dB isVertical allNodes es
  = crossing_loop dB dA isVertical allNodes es.
Proof.
  intros Hv Hh. induction es as [|e rest IH]; simpl; auto.
  rewrite (touches_sym e dB dA), IH.
  destruct (touches e dA dB); auto.
  destruct (find_house (nodeA e) allNodes), (find_house (nodeB e) allNodes); auto.
  now rewrite (crosses_edge_sym _ _ _ _ _ Hv Hh).
Qed.

(** C6. [canConnect] gives the same outcome (the same boolean, or the same
    thrown error) for (a, b) and (b, a), whatever the edge map and the node
    list hold. *)
Theorem canConnect_symmetric (edges : EdgeMap) (a b : House)
    (allNodes : list House) :
  canConnect edges a b allNodes = canConnect edges b a allNodes.
Proof.
  unfold canConnect.
  rewrite (Z.eqb_sym (x (dataModel b))), (Z.eqb_sym (y (dataModel b))).
  destruct (x (dataModel a) =? x (dataModel b)) eqn:Ex;
    destruct (y (dataModel a) =? y (dataModel b)) eqn:Ey; simpl; auto;
    bool_to_Z.
  - rewrite between_loop_sym, crossing_loop_sym; auto; discriminate.
  - rewrite between_loop_sym, crossing_loop_sym; auto; discriminate.
  - rewrite between_loop_sym, crossing_loop_sym; auto; discriminate.
Qed.

Lemma blocks_iff dA dB dO :
  blocks (x dA =? x dB) dA dB dO = true <-> strictly_between dA dB dO.
Proof.
  unfold blocks, strictly_between.
  destruct (x dA =? x dB) eqn:E; bool_to_Z; split.
  - intros H. bool_to_Z. left. destruct H0; bool_to_Z; lia.
  - intros [(_ & H1 & H2) | (H1 & _)]; [|contradiction].
    apply andb_true_intro. split; [now apply Z.eqb_eq|].
    apply orb_true_iff. rewrite !andb_true_iff, !Z.gtb_ltb, !Z.ltb_lt. lia.
  - intros H. bool_to_Z. right. destruct H0; bool_to_Z; lia.
  - intros [(H1 & _) | (_ & H1 & H2)]; [contradiction|].
    apply andb_true_intro. split; [now apply Z.eqb_eq|].
    apply orb_true_iff. rewrite !andb_true_iff, !Z.gtb_ltb, !Z.ltb_lt. lia.
Qed.

Lemma same_house_false h1 h2 : same_house h1 h2 = false <-> ref h1 <> ref h2.
Proof. unfold same_house. apply Nat.eqb_neq. Qed.

Lemma between_loop_false_iff a b isVertical others :
  between_loop a b isVertical others = false <->
  exists o, In o others /\ ref o <> ref a /\ ref o <> ref b /\
            blocks isVertical (dataModel a) (dataModel b) (dataModel o) = true.
Proof.
  induction others as [|o rest IH]; simpl.
  - split; [discriminate | intros (o & [] & _)].
  - destruct (same_house o a) eqn:Ea; simpl.
    + rewrite IH. split.
      * intros (o' & H & Hr); exists o'; tauto.
      * intros (o' & [<- | H] & Ha & Hr); [|exists o'; tauto].
        apply Nat.eqb_eq in Ea. congruence.
    + destruct (same_house o b) eqn:Eb.
      * rewrite IH. split.
        -- intros (o' & H & Hr); exists o'; tauto.
        -- intros (o' & [<- | H] & Ha & Hb & Hr); [|exists o'; tauto].
           apply Nat.eqb_eq in Eb. congruence.
      * apply same_house_false in Ea, Eb.
        destruct (blocks _ _ _ (dataModel o)) eqn:Bl.
        -- split; auto. intros _. exists o. tauto.
        -- rewrite IH. split.
           ++ intros (o' & H & Hr); exists o'; tauto.
           ++ intros (o' & [<- | H] & Ha & Hb & Hr); [congruence|].
              exists o'; tauto.
Qed.

Lemma crosses_edge_iff dA dB d1 d2 :
  crosses_edge (x dA =? x dB) dA dB d1 d2 = true <->
  strictly_crosses dA dB d1 d2.
Proof.
  unfold crosses_edge, strictly_crosses.
  destruct (x dA =? x dB) eqn:E; destruct (x d1 =? x d2) eqn:E1; simpl;
    bool_to_Z; rewrite ?andb_true_iff, ?Z.gtb_ltb, ?Z.ltb_lt;
    split; try discriminate; try lia.
Qed.

Lemma touches_false_iff e dA dB :
  touches e dA dB = false <->
  nodeA e <> id dA /\ nodeA e <> id dB /\ nodeB e <> id dA /\ nodeB e <> id dB.
Proof.
  unfold touches. rewrite !orb_false_iff, !String.eqb_neq. tauto.
Qed.

(** The crossing loop on a list of edges that all resolve: it does not throw,
    and it answers [false] exactly when some unskipped edge is crossed. *)
Lemma crossing_loop_resolved dA dB isVertical allNodes es :
  (forall e, In e es -> find_house (nodeA e) allNodes <> None /\
                        find_house (nodeB e) allNodes <> None) ->
  exists r, crossing_loop dA dB isVertical allNodes es = Ok r /\
    (r = false <->
     exists e n1 n2, In e es /\ touches e dA dB = false /\
       find_house (nodeA e) allNodes = Some n1 /\
       find_house (nodeB e) allNodes = Some n2 /\
       crosses_edge isVertical dA dB (dataModel n1) (dataModel n2) = true).
Proof.
  induction es as [|e rest IH]; simpl; intros Hres.
  - exists true. split; auto. split; [discriminate|]. intros (e & _ & _ & [] & _).
  - destruct IH as (r & Hr & Hiff); [intros; apply Hres; auto|].
    destruct (Hres e (or_introl eq_refl)) as [H1 H2].
    destruct (find_house (nodeA e) allNodes) as [n1|] eqn:F1; [|congruence].
    destruct (find_house (nodeB e) allNodes) as [n2|] eqn:F2; [|congruence].
    destruct (touches e dA dB) eqn:T.
    + exists r. split; auto. rewrite Hiff. split.
      * intros (e' & m1 & m2 & Hin & Hr'). exists e', m1, m2. tauto.
      * intros (e' & m1 & m2 & [<- | Hin] & T' & Hr'); [congruence|].
        exists e', m1, m2. tauto.
    + destruct (crosses_edge _ _ _ (dataModel n1) (dataModel n2)) eqn:C.
      * exists false. split; auto. split; auto. intros _.
        exists e, n1, n2. tauto.
      * exists r. split; auto. rewrite Hiff. split.
        -- intros (e' & m1 & m2 & Hin & Hr'). exists e', m1, m2. tauto.
        -- intros (e' & m1 & m2 & [<- | Hin] & T' & G1 & G2 & C').
           ++ rewrite F1 in G1. rewrite F2 in G2.
              injection G1 as <-. injection G2 as <-. congruence.
           ++ exists e', m1, m2. tauto.
Qed.

Lemma canConnect_not_aligned edges a b allNodes :
  ~ aligned (dataModel a) (dataModel b) ->
  canConnect edges a b allNodes = Ok false.
Proof.
  unfold aligned, canConnect. intros H.
  destruct (x (dataModel a) =? x (dataModel b)) eqn:Ex;
    destruct (y (dataModel a) =? y (dataModel b)) eqn:Ey; simpl; auto;
    bool_to_Z; tauto.
Qed.

Lemma canConnect_aligned edges a b allNodes :
  aligned (dataModel a) (dataModel b) ->
  canConnect edges a b allNodes =
  if negb (between_loop a b (x (dataModel a) =? x (dataModel b)) allNodes)
  then Ok false
  else crossing_loop (dataModel a) (dataModel b)
         (x (dataModel a) =? x (dataModel b)) allNodes (JsMap.values edges).
Proof.
  unfold aligned, canConnect. intros H.
  destruct (x (dataModel a) =? x (dataModel b)) eqn:Ex;
    destruct (y (dataModel a) =? y (dataModel b)) eqn:Ey; simpl; auto;
    bool_to_Z; lia.
Qed.

Lemma aligned_dec p q : {aligned p q} + {~ aligned p q}.
Proof.
  unfold aligned.
  destruct (Z.eq_dec (x p) (x q)); [left; tauto|].
  destruct (Z.eq_dec (y p) (y q)); [left; tauto|right; tauto].
Qed.

Lemma node_between_iff a b allNodes :
  node_between a b allNodes <->
  between_loop a b (x (dataModel a) =? x (dataModel b)) allNodes = false.
Proof.
  rewrite between_loop_false_iff. unfold node_between.
  split; intros (o & H1 & H2 & H3 & H4); exists o; repeat split; auto;
    now apply blocks_iff.
Qed.

Lemma crosses_placed_edge_iff edges a b allNodes :
  crosses_placed_edge edges a b allNodes <->
  exists e n1 n2, In e (JsMap.values edges) /\
    touches e (dataModel a) (dataModel b) = false /\
    find_house (nodeA e) allNodes = Some n1 /\
    find_house (nodeB e) allNodes = Some n2 /\
    crosses_edge (x (dataModel a) =? x (dataModel b))
      (dataModel a) (dataModel b) (dataModel n1) (dataModel n2) = true.
Proof.
  unfold crosses_placed_edge.
  split; intros (e & n1 & n2 & H); exists e, n1, n2.
  - rewrite touches_false_iff, crosses_edge_iff. tauto.
  - rewrite touches_false_iff, crosses_edge_iff in H. tauto.
Qed.

(** [canConnect] on a map whose edges resolve returns a boolean, [false]
    exactly in the three cases of the specification. *)
Lemma canConnect_resolved edges a b allNodes :
  edges_resolve allNodes edges ->
  exists r, canConnect edges a b allNodes = Ok r /\
    (r = false <->
     ~ aligned (dataModel a) (dataModel b) \/
     node_between a b allNodes \/
     crosses_placed_edge edges a b allNodes).
Proof.
  intros Hres.
  destruct (aligned_dec (dataModel a) (dataModel b)) as [Hal | Hal].
  - rewrite canConnect_aligned by assumption.
    setoid_rewrite node_between_iff. setoid_rewrite crosses_placed_edge_iff.
    destruct (between_loop a b _ allNodes) eqn:Bt; simpl.
    + destruct (crossing_loop_resolved (dataModel a) (dataModel b)
                  (x (dataModel a) =? x (dataModel b)) allNodes
                  (JsMap.values edges) Hres) as (r & Hr & Hiff).
      exists r. split; auto. rewrite Hiff. split; [tauto|].
      intros [H | [H | H]]; [contradiction | discriminate | assumption].
    + exists false. tauto.
  - exists false. split; [now apply canConnect_not_aligned | tauto].
Qed.

(** Whenever the crossing loop returns, it answers [false] exactly when some
    unskipped edge is crossed. *)
Lemma crossing_loop_returned dA dB isVertical allNodes es r :
  crossing_loop dA dB isVertical allNodes es = Ok r ->
  (r = false <->
   exists e n1 n2, In e es /\ touches e dA dB = false /\
     find_house (nodeA e) allNodes = Some n1 /\
     find_house (nodeB e) allNodes = Some n2 /\
     crosses_edge isVertical dA dB (dataModel n1) (dataModel n2) = true).
Proof.
  induction es as [|e rest IH]; simpl.
  - intros [= <-]. split; [discriminate|]. intros (e & _ & _ & [] & _).
  - destruct (touches e dA dB) eqn:T.
    + intros H. rewrite (IH H). split.
      * intros (e' & m1 & m2 & Hin & Hr'). exists e', m1, m2. tauto.
      * intros (e' & m1 & m2 & [<- | Hin] & T' & Hr'); [congruence|].
        exists e', m1, m2. tauto.
    + destruct (find_house (nodeA e) allNodes) as [n1|] eqn:F1; [|discriminate].
      destruct (find_house (nodeB e) allNodes) as [n2|] eqn:F2; [|discriminate].
      destruct (crosses_edge _ _ _ (dataModel n1) (dataModel n2)) eqn:C.
      * intros [= <-]. split; auto. intros _. exists e, n1, n2. tauto.
      * intros H. rewrite (IH H). split.
        -- intros (e' & m1 & m2 & Hin & Hr'). exists e', m1, m2. tauto.
        -- intros (e' & m1 & m2 & [<- | Hin] & T' & G1 & G2 & C').
           ++ rewrite F1 in G1. rewrite F2 in G2.
              injection G1 as <-. injection G2 as <-. congruence.
           ++ exists e', m1, m2. tauto.
Qed.

(** Whenever [canConnect] returns, it returns [false] exactly in the three
    cases of the specification. *)
Lemma canConnect_returned edges a b allNodes r :
  canConnect edges a b allNodes = Ok r ->
  (r = false <->
   ~ aligned (dataModel a) (dataModel b) \/
   node_between a b allNodes \/
   crosses_placed_edge edges a b allNodes).
Proof.
  destruct (aligned_dec (dataModel a) (dataModel b)) as [Hal | Hal].
  - rewrite canConnect_aligned by assumption.
    rewrite node_between_iff, crosses_placed_edge_iff.
    destruct (between_loop a b _ allNodes) eqn:Bt; simpl.
    + intros H. rewrite (crossing_loop_returned _ _ _ _ _ _ H).
      split; [tauto|].
      intros [H1 | [H1 | H1]]; [contradiction | discriminate | assumption].
    + intros [= <-]. tauto.
  - rewrite canConnect_not_aligned by assumption. intros [= <-]. tauto.
Qed.

(** C3. Whenever [canConnect] returns, it returns false exactly when a and b
    are not aligned, or another node of [allNodes] lies strictly between them
    on their shared line, or the segment strictly crosses a placed edge
    neither of whose ends is a or b; in every other case it returns true.  It
    does return when every placed edge joins nodes of [allNodes].  Nothing
    here needs a and b to be different. *)
Theorem canConnect_false_iff (edges : EdgeMap) (a b : House)
    (allNodes : list House) :
  (forall r, canConnect edges a b allNodes = Ok r ->
     (r = false <->
      ~ aligned (dataModel a) (dataModel b) \/
      node_between a b allNodes \/
      crosses_placed_edge edges a b allNodes)) /\
  (edges_resolve allNodes edges ->
   exists r, canConnect edges a b allNodes = Ok r).
Proof.
  split.
  - intros r. apply canConnect_returned.
  - intros Hres.
    destruct (canConnect_resolved edges a b allNodes Hres) as (r & Hr & _).
    eauto.
Qed.

Lemma blocks_self isVertical dA dO : blocks isVertical dA dA dO = false.
Proof.
  unfold blocks. destruct isVertical.
  - destruct (x dO =? x dA); simpl; auto.
    rewrite orb_diag, Z.gtb_ltb.
    destruct (y dA <? y dO) eqn:E1, (y dO <? y dA) eqn:E2; auto.
    bool_to_Z. lia.
  - destruct (y dO =? y dA); simpl; auto.
    rewrite orb_diag, Z.gtb_ltb.
    destruct (x dA <? x dO) eqn:E1, (x dO <? x dA) eqn:E2; auto.
    bool_to_Z. lia.
Qed.

Lemma between_loop_self a isVertical others :
  between_loop a a isVertical others = true.
Proof.
  induction others as [|o rest IH]; simpl; auto.
  rewrite IH, blocks_self. now destruct (same_house o a).
Qed.

Lemma crosses_edge_self dA d1 d2 : crosses_edge true dA dA d1 d2 = false.
Proof.
  unfold crosses_edge. simpl. rewrite Z.min_id, Z.max_id.
  destruct (negb (x d1 =? x d2)); auto.
  apply not_true_is_false. intros H. bool_to_Z. lia.
Qed.

Lemma crossing_loop_self dA allNodes es :
  crossing_loop dA dA true allNodes es <> Ok false /\
  ((forall e, In e es -> find_house (nodeA e) allNodes <> None /\
                         find_house (nodeB e) allNodes <> None) ->
   crossing_loop dA dA true allNodes es = Ok true).
Proof.
  induction es as [|e rest [IH1 IH2]]; simpl.
  - split; [discriminate | auto].
  - destruct (touches e dA dA).
    + split; auto.
    + destruct (find_house (nodeA e) allNodes) as [n1|] eqn:F1.
      * destruct (find_house (nodeB e) allNodes) as [n2|] eqn:F2.
        -- rewrite crosses_edge_self. split; auto.
        -- split; [discriminate|]. intros H.
           destruct (H e (or_introl eq_refl)). congruence.
      * split; [discriminate|]. intros H.
        destruct (H e (or_introl eq_refl)). congruence.
Qed.

(** C10. The self-pair: [canConnect(a, a, allNodes)] never returns false,
    whatever the map and the node list hold, and it returns true whenever
    every placed edge joins nodes of [allNodes] (so that no lookup of an edge
    end comes back [undefined]). *)
Theorem canConnect_self (edges : EdgeMap) (a : House) (allNodes : list House) :
  canConnect edges a a allNodes <> Ok false /\
  (edges_resolve allNodes edges -> canConnect edges a a allNodes = Ok true).
Proof.
  assert (Hal : aligned (dataModel a) (dataModel a)) by (left; reflexivity).
  rewrite canConnect_aligned by assumption.
  rewrite between_loop_self, Z.eqb_refl. simpl.
  apply crossing_loop_self.
Qed.

(* ------------------------------------------------------------------ *)
(** ** The adjacency map *)

Lemma neighbors_ensure_key k adj u :
  neighbors (ensure_key k adj) u = neighbors adj u.
Proof.
  unfold ensure_key, JsMap.has, neighbors.
  destruct (JsMap.get k adj) eqn:G; auto.
  destruct (string_dec k u) as [-> | Hne].
  - now rewrite get_set_same, G.
  - now rewrite get_set_other.
Qed.

Lemma get_ensure_key_same k adj : JsMap.get k (ensure_key k adj) <> None.
Proof.
  unfold ensure_key, JsMap.has.
  destruct (JsMap.get k adj) eqn:G; [congruence|].
  rewrite get_set_same. discriminate.
Qed.

Lemma get_ensure_key_keeps k k' adj :
  JsMap.get k' adj <> None -> JsMap.get k' (ensure_key k adj) <> None.
Proof.
  unfold ensure_key, JsMap.has. intros H.
  destruct (JsMap.get k adj) eqn:G; auto.
  destruct (string_dec k k') as [-> | Hne]; [congruence|].
  now rewrite get_set_other.
Qed.

Lemma get_push_adj_keeps k v k' adj :
  JsMap.get k' adj <> None -> JsMap.get k' (push_adj k v adj) <> None.
Proof.
  unfold push_adj. intros H.
  destruct (JsMap.get k adj) eqn:G; auto.
  destruct (string_dec k k') as [-> | Hne].
  - rewrite get_set_same. discriminate.
  - now rewrite get_set_other.
Qed.

Lemma neighbors_push_adj k v adj u n :
  JsMap.get k adj <> None ->
  In n (neighbors (push_adj k v adj) u) <->
  In n (neighbors adj u) \/ (k = u /\ v = n).
Proof.
  unfold push_adj, neighbors. intros H.
  destruct (JsMap.get k adj) as [l|] eqn:G; [|congruence].
  destruct (string_dec k u) as [-> | Hne].
  - rewrite get_set_same, G, in_app_iff. simpl. tauto.
  - rewrite get_set_other by assumption. tauto.
Qed.

Lemma neighbors_add_adj adj e u n :
  In n (neighbors (add_adj adj e) u) <->
  In n (neighbors adj u) \/
  (nodeA e = u /\ nodeB e = n) \/ (nodeB e = u /\ nodeA e = n).
Proof.
  unfold add_adj.
  rewrite neighbors_push_adj
    by (apply get_push_adj_keeps, get_ensure_key_same).
  rewrite neighbors_push_adj
    by (apply get_ensure_key_keeps, get_ensure_key_same).
  rewrite !neighbors_ensure_key. tauto.
Qed.

Lemma neighbors_fold_add_adj edges : forall adj u n,
  In n (neighbors (fold_left add_adj edges adj) u) <->
  In n (neighbors adj u) \/ adjacent edges u n.
Proof.
  induction edges as [|e rest IH]; simpl; intros adj u n.
  - split; auto. intros [H | (e & [] & _)]. auto.
  - rewrite IH, neighbors_add_adj. unfold adjacent. split.
    + intros [[H | H] | (e' & Hin & H)]; auto.
      * right. exists e. simpl. tauto.
      * right. exists e'. simpl. tauto.
    + intros [H | (e' & [<- | Hin] & H)]; auto.
      right. exists e'. tauto.
Qed.

Lemma neighbors_build_adj edges u n :
  In n (neighbors (build_adj edges) u) <-> adjacent edges u n.
Proof.
  unfold build_adj. rewrite neighbors_fold_add_adj.
  unfold neighbors. simpl. tauto.
Qed.

(* ------------------------------------------------------------------ *)
(** ** Breadth-first search *)

Lemma set_has_true n s : set_has n s = true <-> In n s.
Proof.
  unfold set_has. rewrite existsb_exists. split.
  - intros (m & Hin & E). apply String.eqb_eq in E. now subst.
  - intros H. exists n. split; auto. apply String.eqb_refl.
Qed.

Lemma set_has_false n s : set_has n s = false <-> ~ In n s.
Proof.
  rewrite <- set_has_true. destruct (set_has n s); split; congruence.
Qed.

(** One pass over the neighbours appends the same fresh ids to both the
    visited set and the queue. *)
Lemma visit_neighbors_spec ns : forall visited queue,
  exists new,
    visit_neighbors ns visited queue = (visited ++ new, queue ++ new) /\
    NoDup new /\
    (forall n, In n new <-> In n ns /\ ~ In n visited).
Proof.
  induction ns as [|n rest IH]; simpl; intros visited queue.
  - exists []. rewrite !app_nil_r. repeat split; try constructor; simpl; tauto.
  - destruct (set_has n visited) eqn:Hs.
    + apply set_has_true in Hs.
      destruct (IH visited queue) as (new & -> & Hnd & Hin).
      exists new. split; auto. split; auto.
      intros m. rewrite Hin. split; [tauto|].
      intros [[<- | H] Hv]; [contradiction | tauto].
    + apply set_has_false in Hs.
      destruct (IH (visited ++ [n]) (queue ++ [n])) as (new & -> & Hnd & Hin).
      exists (n :: new). rewrite <- !app_assoc. simpl.
      split; auto. split.
      * constructor; auto. intros H. apply Hin in H as [_ H].
        apply H. apply in_app_iff. simpl. auto.
      * intros m. simpl. rewrite Hin, in_app_iff. simpl. split.
        -- intros [<- | [H1 H2]]; tauto.
        -- intros [[<- | H1] H2]; auto.
           destruct (string_dec n m); auto.
           right. split; auto. intros [H | [H | []]]; auto.
Qed.

Lemma unvisited_app universe visited new :
  unvisited universe (visited ++ new)
  = filter (fun u => negb (set_has u new)) (unvisited universe visited).
Proof.
  unfold unvisited. induction universe as [|u rest IH]; simpl; auto.
  unfold set_has at 1. rewrite existsb_app. fold (set_has u visited).
  fold (set_has u new).
  destruct (set_has u visited); simpl; auto.
  destruct (set_has u new); simpl; now rewrite IH.
Qed.

Lemma fresh_ids_shrink_unvisited universe visited new :
  NoDup new ->
  (forall n, In n new -> In n universe /\ ~ In n visited) ->
  (List.length new + List.length (unvisited universe (visited ++ new))
   <= List.length (unvisited universe visited))%nat.
Proof.
  intros Hnd Hnew. rewrite unvisited_app.
  set (L := unvisited universe visited).
  rewrite <- (filter_length (fun u => set_has u new) L).
  apply Nat.add_le_mono_r.
  apply NoDup_incl_length; auto.
  intros n Hn. apply filter_In. split.
  - apply filter_In. destruct (Hnew n Hn) as [H1 H2]. split; auto.
    apply negb_true_iff. now apply set_has_false.
  - now apply set_has_true.
Qed.

Lemma edge_ends_length edges : List.length (edge_ends edges) = (2 * List.length edges)%nat.
Proof.
  unfold edge_ends. induction edges as [|e rest IH]; simpl; auto.
  rewrite IH. lia.
Qed.

Lemma adjacent_edge_ends edges u n : adjacent edges u n -> In n (edge_ends edges).
Proof.
  intros (e & Hin & H). unfold edge_ends. apply in_flat_map.
  exists e. split; auto. simpl. intuition.
Qed.

Section BfsLoop.

Variable edges : list EdgeData.
Variable start : string.

(** The loop ends within any fuel above the measure. *)
Lemma bfs_loop_terminates fuel : forall queue visited,
  (List.length queue + List.length (unvisited (edge_ends edges) visited) < fuel)%nat ->
  exists r, bfs_loop fuel (build_adj edges) queue visited = Some r.
Proof.
  induction fuel as [|fuel IH]; intros queue visited Hlt; [lia|].
  destruct queue as [|curr queue']; simpl; [eauto|].
  destruct (visit_neighbors_spec (neighbors (build_adj edges) curr) visited queue')
    as (new & -> & Hnd & Hnew).
  apply IH. rewrite length_app. simpl in Hlt.
  assert (List.length new
          + List.length (unvisited (edge_ends edges) (visited ++ new))
          <= List.length (unvisited (edge_ends edges) visited))%nat; [|lia].
  apply fresh_ids_shrink_unvisited; auto.
  intros n Hn. apply Hnew in Hn as [Hn Hv]. split; auto.
  apply neighbors_build_adj in Hn. eapply adjacent_edge_ends; eauto.
Qed.

Lemma bfs_inv_init : bfs_inv edges start [start] [start].
Proof.
  repeat split.
  - repeat constructor. simpl. tauto.
  - simpl. auto.
  - intros v [<- | []]. constructor.
  - auto.
  - intros v [<- | []]. left. simpl. auto.
Qed.

Lemma bfs_inv_step curr queue visited new :
  bfs_inv edges start (curr :: queue) visited ->
  NoDup new ->
  (forall n, In n new <-> In n (neighbors (build_adj edges) curr) /\ ~ In n visited) ->
  bfs_inv edges start (queue ++ new) (visited ++ new).
Proof.
  intros (Hnd & Hst & Hreach & Hq & Hclosed) Hndn Hnew.
  repeat split.
  - apply NoDup_app; auto. intros a Ha Hn. apply Hnew in Hn. tauto.
  - apply in_app_iff. auto.
  - intros v Hv. apply in_app_iff in Hv as [Hv | Hv]; auto.
    apply Hnew in Hv as [Hv _]. apply neighbors_build_adj in Hv.
    apply reach_step with (u := curr); auto. apply Hreach, Hq. simpl. auto.
  - intros q Hin. apply in_app_iff in Hin as [Hin | Hin];
      apply in_app_iff; auto. left. apply Hq. simpl. auto.
  - intros v Hv. apply in_app_iff in Hv as [Hv | Hv].
    + destruct (Hclosed v Hv) as [[<- | Hin] | Hcl].
      * right. intros n Hn.
        destruct (in_dec string_dec n visited) as [Hy | Hno];
          apply in_app_iff; auto.
        right. apply Hnew. split; auto. now apply neighbors_build_adj.
      * left. apply in_app_iff. auto.
      * right. intros n Hn. apply in_app_iff. auto.
    + left. apply in_app_iff. auto.
Qed.

(** When the loop ends, the visited set is exactly what [start] reaches. *)
Lemma bfs_loop_correct fuel : forall queue visited r,
  bfs_inv edges start queue visited ->
  bfs_loop fuel (build_adj edges) queue visited = Some r ->
  NoDup r /\ forall v, In v r <-> reach edges start v.
Proof.
  induction fuel as [|fuel IH]; intros queue visited r Hinv; simpl; [discriminate|].
  destruct queue as [|curr queue'].
  - intros [= <-]. destruct Hinv as (Hnd & Hst & Hreach & _ & Hclosed).
    split; auto. intros v. split; auto.
    induction 1 as [|u v Hu IHu Hadj]; auto.
    destruct (Hclosed u IHu) as [[] | Hcl]. auto.
  - destruct (visit_neighbors_spec (neighbors (build_adj edges) curr) visited queue')
      as (new & -> & Hnd & Hnew).
    apply IH. eapply bfs_inv_step; eauto.
Qed.

End BfsLoop.

(** The search of [checkWinCondition] always ends within [bfs_fuel]. *)
Lemma bfs_loop_enough_fuel edges startId :
  exists visited, bfs edges startId = Some visited.
Proof.
  unfold bfs. apply bfs_loop_terminates. simpl.
  pose proof (filter_length_le (fun u => negb (set_has u [startId]))
                (edge_ends edges)) as H.
  unfold unvisited, bfs_fuel. rewrite edge_ends_length in H. lia.
Qed.

Lemma bfs_correct edges startId visited :
  bfs edges startId = Some visited ->
  NoDup visited /\ forall v, In v visited <-> reach edges startId v.
Proof.
  unfold bfs. apply bfs_loop_correct. apply bfs_inv_init.
Qed.

(* ------------------------------------------------------------------ *)
(** ** Recounting the degrees *)

Lemma find_house_Some i hs h :
  find_house i hs = Some h -> In h hs /\ house_id h = i.
Proof.
  unfold find_house. intros H. apply find_some in H as [H1 H2].
  apply String.eqb_eq in H2. auto.
Qed.

Lemma find_house_unique hs h :
  NoDup (map house_id hs) -> In h hs -> find_house (house_id h) hs = Some h.
Proof.
  induction hs as [|h0 rest IH]; simpl; [tauto|].
  intros Hnd [-> | Hin].
  - unfold house_id. now rewrite String.eqb_refl.
  - inversion Hnd as [|? ? Hnotin Hnd']; subst.
    destruct (String.eqb (id (dataModel h0)) (house_id h)) eqn:E; auto.
    apply String.eqb_eq in E. exfalso. apply Hnotin.
    change (id (dataModel h0)) with (house_id h0) in *.
    rewrite E. now apply in_map.
Qed.

Lemma find_house_in_ids i hs :
  In i (map house_id hs) -> find_house i hs <> None.
Proof.
  intros H. apply in_map_iff in H as (h & <- & Hin).
  unfold find_house. intros Hnone.
  apply (find_none _ _ Hnone) in Hin.
  unfold house_id in Hin. now rewrite String.eqb_refl in Hin.
Qed.

Lemma find_house_add_count i c j hs :
  find_house j (add_count i c hs)
  = if String.eqb i j then option_map (bump c) (find_house j hs)
    else find_house j hs.
Proof.
  induction hs as [|h rest IH]; simpl.
  - now destruct (String.eqb i j).
  - destruct (String.eqb (id (dataModel h)) i) eqn:Ei; simpl.
    + apply String.eqb_eq in Ei. subst i.
      destruct (String.eqb (id (dataModel h)) j) eqn:Ej; reflexivity.
    + destruct (String.eqb (id (dataModel h)) j) eqn:Ej; auto.
      destruct (String.eqb i j) eqn:Eij; auto.
      apply String.eqb_eq in Ej, Eij. apply String.eqb_neq in Ei. congruence.
Qed.

Lemma find_house_reset_counts j hs :
  find_house j (reset_counts hs)
  = option_map (fun h => updateConnectionCount h 0) (find_house j hs).
Proof.
  induction hs as [|h rest IH]; simpl; auto.
  destruct (String.eqb (id (dataModel h)) j); auto.
Qed.

Lemma ids_add_count i c hs : map house_id (add_count i c hs) = map house_id hs.
Proof.
  induction hs as [|h rest IH]; simpl; auto.
  destruct (String.eqb (id (dataModel h)) i); simpl; auto. now rewrite IH.
Qed.

Lemma ids_sum_up edges : forall hs, map house_id (sum_up edges hs) = map house_id hs.
Proof.
  induction edges as [|e rest IH]; simpl; intros hs; auto.
  unfold sum_up in IH. rewrite IH. unfold sum_edge. now rewrite !ids_add_count.
Qed.

Lemma ids_reset_counts hs : map house_id (reset_counts hs) = map house_id hs.
Proof. unfold reset_counts. rewrite map_map. reflexivity. Qed.

Lemma degree_cons e edges j :
  degree (e :: edges) j = (if incident j e then count e else 0) + degree edges j.
Proof.
  unfold degree. simpl. destruct (incident j e); simpl; lia.
Qed.

Lemma option_map_bump_bump c1 c2 (o : option House) :
  option_map (bump c2) (option_map (bump c1) o) = option_map (bump (c1 + c2)) o.
Proof.
  destruct o as [h|]; simpl; auto. unfold bump, updateConnectionCount, setCurrent.
  simpl. now rewrite Z.add_assoc.
Qed.

Lemma option_map_bump_0 (o : option House) : option_map (bump 0) o = o.
Proof.
  destruct o as [[r [i px py rq cur]]|]; simpl; auto.
  unfold bump, updateConnectionCount, setCurrent. simpl. now rewrite Z.add_0_r.
Qed.

Lemma find_house_sum_edge e j hs :
  nodeA e <> nodeB e ->
  find_house j (sum_edge hs e)
  = option_map (bump (if incident j e then count e else 0)) (find_house j hs).
Proof.
  intros Hne. unfold sum_edge, incident. rewrite !find_house_add_count.
  destruct (String.eqb (nodeB e) j) eqn:Eb, (String.eqb (nodeA e) j) eqn:Ea;
    simpl; rewrite ?option_map_bump_0; auto.
  apply String.eqb_eq in Ea, Eb. congruence.
Qed.

Lemma find_house_sum_up edges : forall hs j,
  (forall e, In e edges -> nodeA e <> nodeB e) ->
  find_house j (sum_up edges hs)
  = option_map (bump (degree edges j)) (find_house j hs).
Proof.
  induction edges as [|e rest IH]; simpl; intros hs j Hne.
  - unfold degree. simpl. now rewrite option_map_bump_0.
  - unfold sum_up in IH. rewrite IH by auto.
    rewrite find_house_sum_edge by auto.
    rewrite option_map_bump_bump, degree_cons. reflexivity.
Qed.

(** Step 2 of [checkWinCondition] holds exactly when every house has the
    degree it requires. *)
Lemma allCountsCorrect_iff houses edges :
  NoDup (map house_id houses) ->
  (forall e, In e edges -> nodeA e <> nodeB e) ->
  allCountsCorrect (sum_up edges (reset_counts houses)) = true <->
  forall h, In h houses ->
    degree edges (house_id h) = requiredConnections (dataModel h).
Proof.
  intros Hnd Hne.
  assert (Hfind : forall j,
    find_house j (sum_up edges (reset_counts houses))
    = option_map (fun h => updateConnectionCount h (degree edges j))
        (find_house j houses)).
  { intros j. rewrite find_house_sum_up, find_house_reset_counts by auto.
    destruct (find_house j houses); reflexivity. }
  unfold allCountsCorrect. rewrite forallb_forall. split.
  - intros H h Hin.
    pose proof (Hfind (house_id h)) as Hf.
    rewrite (find_house_unique _ _ Hnd Hin) in Hf. simpl in Hf.
    apply find_house_Some in Hf as [Hf _]. apply H in Hf.
    apply Z.eqb_eq in Hf. exact Hf.
  - intros H h' Hin'.
    assert (Hnd' : NoDup (map house_id (sum_up edges (reset_counts houses))))
      by now rewrite ids_sum_up, ids_reset_counts.
    pose proof (find_house_unique _ _ Hnd' Hin') as Hf.
    rewrite Hfind in Hf.
    destruct (find_house (house_id h') houses) as [h|] eqn:F; [|discriminate].
    injection Hf as <-. apply find_house_Some in F as [Hin Hid].
    simpl in *. apply Z.eqb_eq. rewrite <- (H h Hin).
    unfold house_id in *. simpl in *. now rewrite Hid.
Qed.

(* ------------------------------------------------------------------ *)
(** ** The win condition *)

Lemma reach_stays_in_houses houses edges start v :
  scene_ok houses edges ->
  In start (map house_id houses) ->
  reach edges start v -> In v (map house_id houses).
Proof.
  intros [_ Hends] Hst. induction 1 as [|u v Hu IH (e & Hin & Hadj)]; auto.
  destruct (Hends e Hin) as (HA & HB & _).
  destruct Hadj as [[_ <-] | [_ <-]]; auto.
Qed.

Lemma visited_size_iff houses edges start visited :
  scene_ok houses edges ->
  In start (map house_id houses) ->
  NoDup visited ->
  (forall v, In v visited <-> reach edges start v) ->
  List.length visited = List.length houses <->
  forall h, In h houses -> reach edges start (house_id h).
Proof.
  intros Hok Hst Hnd Hvis.
  assert (Hincl : incl visited (map house_id houses)).
  { intros v Hv. apply Hvis in Hv. eapply reach_stays_in_houses; eauto. }
  rewrite <- (length_map house_id houses). split.
  - intros Hlen h Hin. apply Hvis.
    apply (@NoDup_length_incl _ visited (map house_id houses) Hnd);
      [lia | assumption | now apply in_map].
  - intros Hall. apply Permutation_length.
    apply NoDup_Permutation; auto; [apply Hok|].
    intros v. split; [apply Hincl|].
    intros Hv. apply in_map_iff in Hv as (h & <- & Hin). apply Hvis. auto.
Qed.

Lemma recount_shape houses edges :
  map house_id (sum_up edges (reset_counts houses)) = map house_id houses.
Proof. now rewrite ids_sum_up, ids_reset_counts. Qed.

(** [checkWinCondition] on a well-formed scene decides [solved_spec]. *)
Lemma checkWinCondition_decides houses cableManager :
  scene_ok houses (getAllEdges cableManager) ->
  snd (checkWinCondition houses cableManager) = true <->
  solved_spec houses (getAllEdges cableManager).
Proof.
  intros Hok. unfold checkWinCondition. cbv zeta.
  set (edges := getAllEdges cableManager) in *.
  pose proof (recount_shape houses edges) as Hids.
  pose proof (allCountsCorrect_iff houses edges (proj1 Hok)
                (fun e H => proj2 (proj2 (proj2 Hok e H)))) as Hdeg.
  destruct (sum_up edges (reset_counts houses)) as [|h0' rest'] eqn:Hs.
  - destruct houses; [|discriminate]. simpl. split; [discriminate | tauto].
  - destruct houses as [|h0 rest]; [discriminate|].
    assert (Hlen : List.length (h0' :: rest') = List.length (h0 :: rest)).
    { rewrite <- (length_map house_id (h0' :: rest')), Hids.
      apply length_map. }
    injection Hids as Hid0 Hrest.
    destruct (bfs_loop_enough_fuel edges (house_id h0)) as (visited & Hb).
    destruct (bfs_correct _ _ _ Hb) as [Hnd Hvis].
    assert (Hst : In (house_id h0) (map house_id (h0 :: rest)))
      by (simpl; auto).
    pose proof (visited_size_iff (h0 :: rest) edges (house_id h0) visited
                  Hok Hst Hnd Hvis) as Hsize.
    unfold solved_spec.
    destruct (allCountsCorrect (h0' :: rest')) eqn:Hc; cbn [negb].
    + change (id (dataModel h0')) with (house_id h0'). rewrite Hid0, Hb, Hlen.
      cbn [snd]. rewrite Nat.eqb_eq, Hsize. split; [|tauto].
      intros H. split; auto. now apply Hdeg.
    + cbn [snd]. split; [discriminate|]. intros [H _]. apply Hdeg in H.
      discriminate.
Qed.

(** C2. With no house at all the check never declares a win.  On a scene
    whose house ids are unique and whose edges each join two distinct houses,
    the check declares a win exactly when every house's degree (the sum of
    the multiplicities of its incident edges) equals its required connections
    and every house is reached from the first one along placed edges. *)
Theorem checkWinCondition_solved_iff (houses : list House) (cableManager : EdgeMap) :
  snd (checkWinCondition [] cableManager) = false /\
  (scene_ok houses (getAllEdges cableManager) ->
   (snd (checkWinCondition houses cableManager) = true <->
    houses <> [] /\
    (forall h, In h houses ->
       degree (getAllEdges cableManager) (house_id h)
       = requiredConnections (dataModel h)) /\
    (forall h, In h houses ->
       reach (getAllEdges cableManager) (house_id (hd h houses)) (house_id h)))).
Proof.
  split.
  - unfold checkWinCondition.
    pose proof (recount_shape [] (getAllEdges cableManager)) as Hids.
    destruct (sum_up _ (reset_counts [])); [|discriminate].
    reflexivity.
  - intros Hok. rewrite (checkWinCondition_decides _ _ Hok).
    destruct houses as [|h0 rest]; simpl.
    + split; [tauto | intros [H _]; congruence].
    + split.
      * intros [H1 H2]. split; [discriminate | auto].
      * intros (_ & H1 & H2). split; auto.
Qed.

(* ------------------------------------------------------------------ *)
(** ** The win condition does not depend on edge order or orientation *)

Lemma add_count_comm i c j d hs :
  add_count i c (add_count j d hs) = add_count j d (add_count i c hs).
Proof.
  induction hs as [|h rest IH]; simpl; auto.
  destruct (String.eqb (id (dataModel h)) j) eqn:Ej;
    destruct (String.eqb (id (dataModel h)) i) eqn:Ei; simpl;
    rewrite ?Ei, ?Ej; simpl; auto.
  - unfold updateConnectionCount, setCurrent. simpl. do 3 f_equal. lia.
  - now rewrite IH.
Qed.

Lemma sum_edge_comm hs e1 e2 :
  sum_edge (sum_edge hs e1) e2 = sum_edge (sum_edge hs e2) e1.
Proof.
  unfold sum_edge.
  rewrite (add_count_comm (nodeA e2) _ (nodeB e1)).
  rewrite (add_count_comm (nodeA e2) _ (nodeA e1)).
  rewrite (add_count_comm (nodeB e2) _ (nodeB e1)).
  rewrite (add_count_comm (nodeB e2) _ (nodeA e1)).
  reflexivity.
Qed.

Lemma sum_edge_same_edge hs e e' : same_edge e e' -> sum_edge hs e = sum_edge hs e'.
Proof.
  intros [Hc [[HA HB] | [HA HB]]]; unfold sum_edge; rewrite Hc, HA, HB; auto.
  apply add_count_comm.
Qed.

Lemma sum_up_Permutation l l' :
  Permutation l l' -> forall hs, sum_up l hs = sum_up l' hs.
Proof.
  unfold sum_up. induction 1 as [|e l l' _ IH|e1 e2 l|l l' l'' _ IH1 _ IH2];
    simpl; intros hs; auto.
  - now rewrite sum_edge_comm.
  - now rewrite IH1.
Qed.

Lemma sum_up_Forall2 l l' :
  Forall2 same_edge l l' -> forall hs, sum_up l hs = sum_up l' hs.
Proof.
  unfold sum_up. induction 1 as [|e e' l l' He _ IH]; simpl; intros hs; auto.
  now rewrite (sum_edge_same_edge hs e e' He).
Qed.

Lemma sum_up_same_graph l l' hs : same_graph l l' -> sum_up l hs = sum_up l' hs.
Proof.
  intros (l2 & Hp & Hf).
  now rewrite (sum_up_Permutation _ _ Hp), (sum_up_Forall2 _ _ Hf).
Qed.

Lemma adjacent_Forall2 l l' u v :
  Forall2 same_edge l l' -> adjacent l u v <-> adjacent l' u v.
Proof.
  unfold adjacent. induction 1 as [|e e' l l' [_ He] _ IH].
  - split; intros (e & [] & _).
  - split.
    + intros (e0 & [<- | Hin] & H).
      * exists e'. split; [now left|].
        destruct He as [[<- <-] | [<- <-]]; tauto.
      * destruct (proj1 IH) as (e1 & Hin1 & H1); [now exists e0|].
        exists e1. split; [now right | assumption].
    + intros (e0 & [<- | Hin] & H).
      * exists e. split; [now left|].
        destruct He as [[-> ->] | [-> ->]]; tauto.
      * destruct (proj2 IH) as (e1 & Hin1 & H1); [now exists e0|].
        exists e1. split; [now right | assumption].
Qed.

Lemma adjacent_same_graph l l' u v :
  same_graph l l' -> adjacent l u v <-> adjacent l' u v.
Proof.
  intros (l2 & Hp & Hf). rewrite <- (adjacent_Forall2 _ _ u v Hf).
  unfold adjacent. split; intros (e & Hin & H); exists e; split; auto.
  - now apply (Permutation_in _ Hp).
  - now apply (Permutation_in _ (Permutation_sym Hp)).
Qed.

Lemma reach_same_graph l l' s v :
  same_graph l l' -> reach l s v <-> reach l' s v.
Proof.
  intros Hg. split; induction 1 as [|u v Hu IH Hadj]; try constructor.
  - apply reach_step with (u := u); auto. now apply (adjacent_same_graph _ _ u v Hg).
  - apply reach_step with (u := u); auto. now apply (adjacent_same_graph _ _ u v Hg).
Qed.

(** Two maps holding the same edges up to order and orientation give the
    same recount and the same verdict. *)
Lemma checkWinCondition_same_graph houses cm cm' :
  same_graph (getAllEdges cm) (getAllEdges cm') ->
  checkWinCondition houses cm = checkWinCondition houses cm'.
Proof.
  intros Hg. unfold checkWinCondition. cbv zeta.
  rewrite (sum_up_same_graph _ _ (reset_counts houses) Hg).
  destruct (negb (allCountsCorrect _)); auto.
  destruct (sum_up (getAllEdges cm') (reset_counts houses)) as [|h0 rest]; auto.
  destruct (bfs_loop_enough_fuel (getAllEdges cm) (id (dataModel h0)))
    as (v1 & H1).
  destruct (bfs_loop_enough_fuel (getAllEdges cm') (id (dataModel h0)))
    as (v2 & H2).
  rewrite H1, H2.
  destruct (bfs_correct _ _ _ H1) as [Hnd1 Hv1].
  destruct (bfs_correct _ _ _ H2) as [Hnd2 Hv2].
  assert (Hlen : List.length v1 = List.length v2).
  { apply Permutation_length, NoDup_Permutation; auto.
    intros v. rewrite Hv1, Hv2. now apply reach_same_graph. }
  now rewrite Hlen.
Qed.

(* ------------------------------------------------------------------ *)
(** ** Undo *)

Lemma append_dash_inj s1 : forall s2 t1 t2,
  dash_free s1 = true -> dash_free s2 = true ->
  String.append s1 (String.append "-" t1) = String.append s2 (String.append "-" t2) ->
  s1 = s2 /\ t1 = t2.
Proof.
  induction s1 as [|c s1 IH]; intros [|c2 s2] t1 t2 H1 H2 E; simpl in *.
  - injection E as ->. auto.
  - injection E as <- _. discriminate.
  - injection E as -> _. discriminate.
  - injection E as -> E. apply andb_prop in H1 as [_ H1], H2 as [_ H2].
    destruct (IH s2 t1 t2 H1 H2 E) as [-> ->]. auto.
Qed.

(** On dash-free ids the key determines the unordered pair. *)
Lemma getEdgeKey_inj a b c d :
  dash_free a = true -> dash_free b = true ->
  dash_free c = true -> dash_free d = true ->
  getEdgeKey a b = getEdgeKey c d ->
  (a = c /\ b = d) \/ (a = d /\ b = c).
Proof.
  intros Ha Hb Hc Hd. unfold getEdgeKey.
  destruct (String.ltb a b), (String.ltb c d); intros E;
    apply append_dash_inj in E; auto; tauto.
Qed.

Lemma keys_app {V} (l1 l2 : JsMap.t V) :
  JsMap.keys (l1 ++ l2) = JsMap.keys l1 ++ JsMap.keys l2.
Proof. apply map_app. Qed.

Lemma values_app {V} (l1 l2 : JsMap.t V) :
  JsMap.values (l1 ++ l2) = JsMap.values l1 ++ JsMap.values l2.
Proof. apply map_app. Qed.

Lemma set_middle {V} k (v v0 : V) l1 l2 :
  ~ In k (JsMap.keys l1) ->
  JsMap.set k v (l1 ++ (k, v0) :: l2) = l1 ++ (k, v) :: l2.
Proof.
  induction l1 as [|[k1 v1] l1 IH]; simpl; intros H.
  - now rewrite String.eqb_refl.
  - destruct (String.eqb k k1) eqn:E.
    + apply String.eqb_eq in E. subst. tauto.
    + f_equal. apply IH. tauto.
Qed.

Lemma delete_middle {V} k (v0 : V) l1 l2 :
  ~ In k (JsMap.keys l1) -> ~ In k (JsMap.keys l2) ->
  JsMap.delete k (l1 ++ (k, v0) :: l2) = l1 ++ l2.
Proof.
  intros H1 H2. unfold JsMap.delete. rewrite filter_app. simpl.
  rewrite String.eqb_refl. simpl.
  fold (JsMap.delete k l1). fold (JsMap.delete k l2).
  now rewrite !delete_notin.
Qed.

Lemma split_at_key {V} k (v : V) m :
  NoDup (JsMap.keys m) -> In (k, v) m ->
  exists l1 l2, m = l1 ++ (k, v) :: l2 /\
    ~ In k (JsMap.keys l1) /\ ~ In k (JsMap.keys l2).
Proof.
  intros Hnd Hin. apply in_split in Hin as (l1 & l2 & ->).
  exists l1, l2. split; auto.
  rewrite keys_app in Hnd. simpl in Hnd.
  apply NoDup_remove_2 in Hnd. rewrite in_app_iff in Hnd. tauto.
Qed.

Lemma same_edge_refl e : same_edge e e.
Proof. split; auto. left. auto. Qed.

Lemma Forall2_same_edge_refl l : Forall2 same_edge l l.
Proof. induction l; constructor; auto using same_edge_refl. Qed.

Lemma same_graph_refl l : same_graph l l.
Proof. exists l. split; auto using Forall2_same_edge_refl. Qed.

(** Setting a pair to [m] and then back to its former multiplicity leaves the
    same edges, up to the position and orientation of that pair's entry. *)
Lemma undo_same_graph edges a b m :
  edges_inv edges -> ids_dash_free edges ->
  dash_free (house_id a) = true -> dash_free (house_id b) = true ->
  same_graph
    (getAllEdges edges)
    (getAllEdges
       (setConnection (setConnection edges a b m) a b
          (hasConnection edges (house_id a) (house_id b)))).
Proof.
  intros [Hnd Hent] Hdf Ha Hb. unfold hasConnection, setConnection, house_id in *.
  set (k := getEdgeKey (id (dataModel a)) (id (dataModel b))).
  destruct (JsMap.get k edges) as [e0|] eqn:G.
  - apply get_Some_in in G.
    destruct (Hent _ _ G) as [Hk Hc].
    destruct (split_at_key k e0 edges Hnd G) as (l1 & l2 & -> & Hn1 & Hn2).
    assert (Hsame : same_edge e0
              (mkEdgeData (id (dataModel a)) (id (dataModel b)) (count e0))).
    { split; auto. simpl.
      destruct (Hdf e0) as [HA HB].
      { unfold JsMap.values. rewrite map_app, in_app_iff. simpl. auto. }
      unfold k in Hk. symmetry in Hk.
      apply getEdgeKey_inj in Hk; auto; unfold same_pair; simpl; tauto. }
    replace (count e0 =? 0) with false by (symmetry; apply Z.eqb_neq; lia).
    replace (count e0 =? 0) with false by (symmetry; apply Z.eqb_neq; lia).
    destruct (m =? 0).
    + rewrite delete_middle by assumption.
      rewrite set_notin by (rewrite keys_app, in_app_iff; tauto).
      unfold getAllEdges. rewrite !values_app. simpl.
      exists ((JsMap.values l1 ++ JsMap.values l2) ++ [e0]). split.
      * rewrite <- app_assoc.
        apply Permutation_app_head, Permutation_cons_append.
      * apply Forall2_app; [apply Forall2_same_edge_refl|].
        constructor; auto.
    + rewrite !set_middle by assumption.
      unfold getAllEdges. rewrite !values_app. simpl.
      exists (JsMap.values l1 ++ e0 :: JsMap.values l2). split; auto.
      apply Forall2_app; [apply Forall2_same_edge_refl|].
      constructor; auto using Forall2_same_edge_refl.
  - simpl. apply get_None_notin in G.
    destruct (m =? 0).
    + rewrite !delete_notin by (rewrite ?delete_notin; assumption).
      apply same_graph_refl.
    + rewrite set_notin, delete_app_last by assumption.
      apply same_graph_refl.
Qed.

Lemma hasConnection_setConnection edges a b p :
  hasConnection (setConnection edges a b p) (house_id a) (house_id b) = p.
Proof.
  unfold hasConnection, setConnection, house_id.
  destruct (p =? 0) eqn:E.
  - rewrite get_delete_same. apply Z.eqb_eq in E. auto.
  - rewrite get_set_same. simpl. now rewrite E.
Qed.

(** C8. Undo round trip.  On an edge map that satisfies the map invariant and
    whose ids hold no ['-'], calling [setConnection(a, b, m)] (any [m]) and
    then [setConnection(a, b, p)], with [p] the multiplicity of the pair
    before the first call, gives the pair multiplicity [p] again and leaves
    the outcome of [checkWinCondition] (the recounted houses and the verdict)
    as it was. *)
Theorem undo_round_trip (houses : list House) (edges : EdgeMap)
    (a b : House) (m : Z) :
  edges_inv edges -> ids_dash_free edges ->
  dash_free (house_id a) = true -> dash_free (house_id b) = true ->
  let p := hasConnection edges (house_id a) (house_id b) in
  let edges' := setConnection (setConnection edges a b m) a b p in
  hasConnection edges' (house_id a) (house_id b) = p /\
  checkWinCondition houses edges' = checkWinCondition houses edges.
Proof.
  intros Hinv Hdf Ha Hb p edges'. split.
  - apply hasConnection_setConnection.
  - symmetry. apply checkWinCondition_same_graph.
    now apply undo_same_graph.
Qed.

(* ------------------------------------------------------------------ *)
(** ** Crossing test of the generator *)

Lemma linesCross_iff a1 a2 b1 b2 :
  linesCross a1 a2 b1 b2 = true <-> strictly_crosses a1 a2 b1 b2.
Proof.
  unfold linesCross, strictly_crosses.
  destruct (x a1 =? x a2) eqn:Ea; destruct (x b1 =? x b2) eqn:Eb; simpl;
    bool_to_Z; rewrite ?andb_true_iff, ?Z.gtb_ltb, ?Z.ltb_lt;
    split; try discriminate; try lia.
Qed.

(** A segment never strictly crosses a segment that starts or ends at one of
    its own ends. *)
Lemma shared_end_no_cross a1 a2 b1 b2 :
  b1 = a1 \/ b1 = a2 \/ b2 = a1 \/ b2 = a2 ->
  linesCross a1 a2 b1 b2 = false.
Proof.
  intros H. apply not_true_iff_false. rewrite linesCross_iff.
  unfold strictly_crosses.
  destruct H as [-> | [-> | [-> | ->]]]; lia.
Qed.

Lemma disjoint_from_false u v e :
  disjoint_from u v e = false <->
  nodeA e = id u \/ nodeA e = id v \/ nodeB e = id u \/ nodeB e = id v.
Proof.
  unfold disjoint_from. rewrite negb_false_iff, !orb_true_iff, !String.eqb_eq.
  tauto.
Qed.

Lemma isCrossing_skips_shared nodes edges u v :
  find_node (id u) nodes = Some u ->
  find_node (id v) nodes = Some v ->
  edges_in_nodes nodes edges ->
  isCrossing nodes edges u v
  = isCrossing nodes (filter (disjoint_from u v) edges) u v.
Proof.
  intros Hu Hv. induction edges as [|e rest IH]; simpl; intros Hres; auto.
  assert (Hrest : edges_in_nodes nodes rest)
    by (intros e' He'; apply Hres; now right).
  destruct (Hres e (or_introl eq_refl)) as [HA HB].
  destruct (find_node (nodeA e) nodes) as [eU|] eqn:FA; [|congruence].
  destruct (find_node (nodeB e) nodes) as [eV|] eqn:FB; [|congruence].
  destruct (disjoint_from u v e) eqn:D; simpl.
  - rewrite FA, FB. destruct (linesCross u v eU eV); auto.
  - rewrite shared_end_no_cross; auto.
    apply disjoint_from_false in D.
    destruct D as [D | [D | [D | D]]]; rewrite D in *; intuition congruence.
Qed.

Lemma isCrossing_true_iff nodes edges u v :
  edges_in_nodes nodes edges ->
  isCrossing nodes edges u v = Ok true <->
  exists e eU eV, In e edges /\
    find_node (nodeA e) nodes = Some eU /\
    find_node (nodeB e) nodes = Some eV /\
    strictly_crosses u v eU eV.
Proof.
  induction edges as [|e rest IH]; simpl; intros Hres.
  - split; [discriminate | intros (e & _ & _ & [] & _)].
  - assert (Hrest : edges_in_nodes nodes rest)
      by (intros e' He'; apply Hres; now right).
    destruct (Hres e (or_introl eq_refl)) as [HA HB].
    destruct (find_node (nodeA e) nodes) as [eU|] eqn:FA; [|congruence].
    destruct (find_node (nodeB e) nodes) as [eV|] eqn:FB; [|congruence].
    destruct (linesCross u v eU eV) eqn:L.
    + split; auto. intros _. exists e, eU, eV.
      apply linesCross_iff in L. auto.
    + rewrite (IH Hrest). split.
      * intros (e' & a & b & Hin & H). exists e', a, b. tauto.
      * intros (e' & a & b & [<- | Hin] & Fa & Fb & C).
        -- rewrite FA in Fa. rewrite FB in Fb.
           injection Fa as <-. injection Fb as <-.
           apply linesCross_iff in C. congruence.
        -- exists e', a, b. tauto.
Qed.

Lemma find_node_unique nodes n :
  NoDup (map id nodes) -> In n nodes -> find_node (id n) nodes = Some n.
Proof.
  induction nodes as [|n0 rest IH]; simpl; [tauto|].
  intros Hnd [-> | Hin].
  - now rewrite String.eqb_refl.
  - inversion Hnd as [|? ? Hnotin Hnd']; subst.
    destruct (String.eqb (id n0) (id n)) eqn:E; auto.
    apply String.eqb_eq in E. exfalso. apply Hnotin.
    rewrite E. now apply in_map.
Qed.

Lemma ends_in_resolve nodes edges : ends_in nodes edges -> edges_in_nodes nodes edges.
Proof.
  intros H e He. destruct (H e He) as [HA HB].
  split; intros Hnone.
  - apply in_map_iff in HA as (n & E & Hn).
    apply (find_none _ _ Hnone) in Hn. rewrite E, String.eqb_refl in Hn.
    discriminate.
  - apply in_map_iff in HB as (n & E & Hn).
    apply (find_none _ _ Hnone) in Hn. rewrite E, String.eqb_refl in Hn.
    discriminate.
Qed.

(* ------------------------------------------------------------------ *)
(** ** The generator always returns *)

Lemma generate_loop_returns R settings left : forall g,
  exists p g',
    generate_loop R left settings g = (Ok p, g') /\
    (all_attempts_fail R left settings g = true -> p = createFallbackPuzzle) /\
    (all_attempts_fail R left settings g = false ->
     exists g0 g1,
       tryGenerate R (gridSize settings) (nodeCount settings)
         (maxConnections settings) g0 = (Ok p, g1)).
Proof.
  induction left as [|left IH]; intros g; simpl.
  - exists createFallbackPuzzle, g. repeat split; auto. discriminate.
  - unfold try_catch.
    destruct (tryGenerate R (gridSize settings) (nodeCount settings)
                (maxConnections settings) g) as [[p | e] g1] eqn:T.
    + exists p, g1. repeat split; [discriminate | eauto].
    + apply IH.
Qed.

(** C1. [generate] returns a puzzle for every difficulty and every state of
    the random source, and never throws.  When the 100 attempts all throw,
    the puzzle is the fallback, returned as it is: four nodes at (1,1), (3,1),
    (1,3), (3,3), each requiring 2 connections.  Otherwise it is what some
    run of [tryGenerate] returned. *)
Theorem generate_total (R : RandomSource) (difficulty : Difficulty)
    (g : rstate R) :
  let settings := DIFFICULTY_SETTINGS difficulty in
  exists p g',
    generate R difficulty g = (Ok p, g') /\
    (all_attempts_fail R 100 settings g = true ->
     p = createFallbackPuzzle /\
     map (fun n => (x n, y n, requiredConnections n)) (nodes p)
     = [(1, 1, 2); (3, 1, 2); (1, 3, 2); (3, 3, 2)]) /\
    (all_attempts_fail R 100 settings g = false ->
     exists g0 g1,
       tryGenerate R (gridSize settings) (nodeCount settings)
         (maxConnections settings) g0 = (Ok p, g1)).
Proof.
  intros settings. unfold generate. fold settings.
  destruct (generate_loop_returns R settings 100 g) as (p & g' & Hg & Hf & Hs).
  exists p, g'. split; auto. split; auto.
  intros H. rewrite (Hf H). split; reflexivity.
Qed.

(* ------------------------------------------------------------------ *)
(** ** Reasoning about [Gen] computations *)

Lemma bindG_Ok {R A B} (m : Gen R A) (k : A -> Gen R B) g b g' :
  bindG m k g = (Ok b, g') ->
  exists a g1, m g = (Ok a, g1) /\ k a g1 = (Ok b, g').
Proof.
  unfold bindG. destruct (m g) as [[a | e] g1]; [eauto | discriminate].
Qed.

Lemma lift_Ok {R A} (r : result A) (g : rstate R) a g' :
  lift r g = (Ok a, g') -> r = Ok a /\ g' = g.
Proof. unfold lift. intros [= -> ->]. auto. Qed.

Lemma ret_Ok {R A} (a b : A) (g g' : rstate R) :
  ret a g = (Ok b, g') -> b = a /\ g' = g.
Proof. unfold ret. intros [= -> ->]. auto. Qed.

Lemma throw_Ok {R A} e (g g' : rstate R) (a : A) :
  throw e g = (Ok a, g') -> False.
Proof. unfold throw. discriminate. Qed.

Ltac gen_inv H :=
  let a := fresh "a" in
  let g := fresh "g" in
  let Hm := fresh "Hm" in
  apply bindG_Ok in H; destruct H as (a & g & Hm & H).

(* ------------------------------------------------------------------ *)
(** ** Node ids made by the placement loop *)

Lemma node_id_inj i j : node_id i = node_id j -> i = j.
Proof.
  unfold node_id. simpl. intros [= E].
  apply DecimalNat.Unsigned.to_uint_inj.
  assert (Some (Nat.to_uint i) = Some (Nat.to_uint j)) as [= ->]; auto.
  rewrite <- !NilEmpty.usu. now rewrite E.
Qed.

Lemma placed_ids_weaken i j nodes :
  (i <= j)%nat -> placed_ids i nodes -> placed_ids j nodes.
Proof.
  intros Hle [Hnd Hk]. split; auto.
  intros n Hn. destruct (Hk n Hn) as (k & Hlt & E). exists k. split; auto. lia.
Qed.

Lemma placed_ids_add i nodes px py :
  placed_ids i nodes ->
  placed_ids (S i) (nodes ++ [mkNodeData (node_id i) px py 0 0]).
Proof.
  intros [Hnd Hk]. split.
  - rewrite map_app. simpl. apply NoDup_app; auto.
    + repeat constructor. simpl. tauto.
    + intros a Ha [<- | []]. apply in_map_iff in Ha as (n & E & Hn).
      destruct (Hk n Hn) as (k & Hlt & E'). rewrite E' in E.
      apply node_id_inj in E. lia.
  - intros n Hn. apply in_app_iff in Hn as [Hn | [<- | []]].
    + destruct (Hk n Hn) as (k & Hlt & E). exists k. split; auto.
    + exists i. split; auto.
Qed.

Lemma place_while_ids R tries gs i : forall nodes occ g st g',
  place_while R tries gs i nodes occ g = (Ok st, g') ->
  placed_ids i nodes -> placed_ids (S i) (fst st).
Proof.
  induction tries as [|tries IH]; intros nodes occ g st g' H Hp.
  - apply ret_Ok in H as [-> _]. simpl. now apply placed_ids_weaken with i; auto.
  - cbn [place_while] in H. gen_inv H. gen_inv H.
    destruct (negb (set_has _ occ)).
    + apply ret_Ok in H as [-> _]. simpl. now apply placed_ids_add.
    + eapply IH; eauto.
Qed.

Lemma place_for_ids R k gs : forall i nodes occ g st g',
  place_for R k i gs nodes occ g = (Ok st, g') ->
  placed_ids i nodes -> placed_ids (i + k) (fst st).
Proof.
  induction k as [|k IH]; intros i nodes occ g st g' H Hp.
  - apply ret_Ok in H as [-> _]. simpl. now rewrite Nat.add_0_r.
  - cbn [place_for] in H. gen_inv H.
    apply place_while_ids in Hm; auto.
    apply IH in H; auto. now rewrite Nat.add_succ_r.
Qed.

(* ------------------------------------------------------------------ *)
(** ** Candidate edges join different nodes *)

Lemma pairs_with_spec u0 later nodes p :
  In p (pairs_with u0 later nodes) -> u p = u0 /\ In (v p) later.
Proof.
  induction later as [|w rest IH]; simpl; [tauto|].
  destruct (negb (x u0 =? x w) && negb (y u0 =? y w)).
  - intros H. destruct (IH H). auto.
  - destruct (isNodeBetween u0 w nodes).
    + intros H. destruct (IH H). auto.
    + intros [<- | H]; simpl; auto. destruct (IH H). auto.
Qed.

Lemma all_pairs_distinct l nodes p :
  NoDup (map id l) -> In p (all_pairs l nodes) -> id (u p) <> id (v p).
Proof.
  induction l as [|u0 later IH]; simpl; [tauto|].
  intros Hnd Hin. inversion Hnd as [|? ? Hnotin Hnd']; subst.
  apply in_app_iff in Hin as [Hin | Hin]; auto.
  apply pairs_with_spec in Hin as [-> Hv].
  intros E. apply Hnotin. rewrite E. now apply in_map.
Qed.

(* ------------------------------------------------------------------ *)
(** ** Accepted edges *)

Lemma edge_ok_new p (r : bool) :
  id (u p) <> id (v p) ->
  edge_ok (mkEdgeData (id (u p)) (id (v p)) (if r then 2 else 1)).
Proof. intros H. split; simpl; auto. destruct r; auto. Qed.

Lemma spanning_loop_edges_ok R nodes index ps : forall edges ds g res g',
  spanning_loop R nodes index ps edges ds g = (Ok res, g') ->
  (forall p, In p ps -> id (u p) <> id (v p)) ->
  Forall edge_ok edges -> Forall edge_ok (fst res).
Proof.
  induction ps as [|p rest IH]; intros edges ds g res g' H Hps Hok.
  - apply ret_Ok in H as [-> _]. auto.
  - assert (Hrest : forall q, In q rest -> id (u q) <> id (v q))
      by (intros q Hq; apply Hps; now right).
    cbn [spanning_loop] in H. do 4 gen_inv H.
    destruct (negb (Nat.eqb _ _)); [|eapply IH; eauto].
    gen_inv H. destruct (negb _); [|eapply IH; eauto].
    do 2 gen_inv H. eapply IH; eauto.
    apply Forall_app. split; auto. constructor; auto.
    apply edge_ok_new, Hps. now left.
Qed.

Lemma extra_loop_edges_ok R nodes ps target : forall added edges g res g',
  extra_loop R nodes ps target added edges g = (Ok res, g') ->
  (forall p, In p ps -> id (u p) <> id (v p)) ->
  Forall edge_ok edges -> Forall edge_ok res.
Proof.
  induction ps as [|p rest IH]; intros added edges g res g' H Hps Hok.
  - apply ret_Ok in H as [-> _]. auto.
  - assert (Hrest : forall q, In q rest -> id (u q) <> id (v q))
      by (intros q Hq; apply Hps; now right).
    cbn [extra_loop] in H.
    destruct (added >=? target); [apply ret_Ok in H as [-> _]; auto|].
    destruct (existsb _ edges); [eapply IH; eauto|].
    gen_inv H. destruct (negb _); [|eapply IH; eauto].
    gen_inv H. eapply IH; eauto.
    apply Forall_app. split; auto. constructor; auto.
    apply edge_ok_new, Hps. now left.
Qed.

(* ------------------------------------------------------------------ *)
(** ** Pruning keeps every requirement within the maximum *)

Lemma find_node_add_required i c j nodes :
  i <> j -> find_node j (add_required i c nodes) = find_node j nodes.
Proof.
  intros Hne. induction nodes as [|n rest IH]; simpl; auto.
  destruct (String.eqb (id n) i) eqn:Ei; simpl.
  - apply String.eqb_eq in Ei.
    destruct (String.eqb (id n) j) eqn:Ej; auto.
    apply String.eqb_eq in Ej. congruence.
  - destruct (String.eqb (id n) j); auto.
Qed.

Lemma add_required_Forall (P : NodeData -> Prop) i c nodes n :
  find_node i nodes = Some n ->
  P (setRequired n (requiredConnections n + c)) ->
  Forall P nodes -> Forall P (add_required i c nodes).
Proof.
  induction nodes as [|m rest IH]; simpl; [discriminate|].
  intros Hf Hp Hall. inversion Hall; subst.
  destruct (String.eqb (id m) i).
  - injection Hf as ->. constructor; auto.
  - constructor; auto.
Qed.

Lemma required_ok_add maxc n c :
  required_ok maxc n -> 0 <= c ->
  requiredConnections n + c <= maxc ->
  required_ok maxc (setRequired n (requiredConnections n + c)).
Proof. unfold required_ok. simpl. lia. Qed.

Lemma prune_loop_required_ok maxc edges : forall nodes valid res,
  prune_loop maxc edges nodes valid = Ok res ->
  Forall edge_ok edges ->
  Forall (required_ok maxc) nodes ->
  Forall (required_ok maxc) (fst res).
Proof.
  induction edges as [|e rest IH]; simpl; intros nodes valid res H Hok Hreq.
  - injection H as <-. auto.
  - inversion Hok as [|? ? [Hne Hc] Hok']; subst.
    destruct (find_node (nodeA e) nodes) as [nA|] eqn:FA; simpl in H;
      [|discriminate].
    destruct (requiredConnections nA + count e <=? maxc) eqn:LA;
      [|eapply IH; eauto].
    destruct (find_node (nodeB e) nodes) as [nB|] eqn:FB; simpl in H;
      [|discriminate].
    destruct (requiredConnections nB + count e <=? maxc) eqn:LB;
      [|eapply IH; eauto].
    apply Z.leb_le in LA, LB.
    assert (HnA : required_ok maxc nA).
    { apply find_some in FA as [FA _].
      now apply (proj1 (Forall_forall _ _) Hreq). }
    assert (HnB : required_ok maxc nB).
    { apply find_some in FB as [FB _].
      now apply (proj1 (Forall_forall _ _) Hreq). }
    eapply IH; eauto.
    apply add_required_Forall with (n := nB).
    + now rewrite find_node_add_required.
    + apply required_ok_add; auto. lia.
    + apply add_required_Forall with (n := nA); auto.
      apply required_ok_add; auto. lia.
Qed.

Lemma shuffle_Ok R l g l' g' :
  sort_permutes R -> shuffle R l g = (Ok l', g') -> Permutation l' l.
Proof.
  intros Hsort H. unfold shuffle in H. specialize (Hsort l g).
  destruct (sort_random R l g) as [l0 g0]. injection H as <- _. exact Hsort.
Qed.

(** A puzzle returned by one attempt respects the bounds. *)
Lemma tryGenerate_required R gs nr maxc g p g' :
  sort_permutes R ->
  tryGenerate R gs nr maxc g = (Ok p, g') ->
  Forall (fun n => 1 <= requiredConnections n <= maxc) (nodes p).
Proof.
  intros Hsort H. unfold tryGenerate in H.
  gen_inv H. gen_inv H.
  destruct (Z.of_nat _ <? fst nr); [now apply throw_Ok in H|].
  gen_inv H. gen_inv H.
  destruct (ds_count _ >? 1); [now apply throw_Ok in H|].
  gen_inv H. gen_inv H.
  destruct (existsb _ (fst a4)) eqn:Hz; [now apply throw_Ok in H|].
  apply ret_Ok in H as [-> _]. simpl.
  (* ids of the placed nodes *)
  apply place_for_ids in Hm0; [|split; [constructor | intros n []]].
  destruct Hm0 as [Hnd _].
  (* the shuffled candidates *)
  assert (Hcand : forall q, In q a1 -> id (u q) <> id (v q)).
  { intros q Hq. apply (shuffle_Ok _ _ _ _ _ Hsort) in Hm1.
    apply (Permutation_in _ Hm1) in Hq.
    eapply all_pairs_distinct; eauto. }
  apply spanning_loop_edges_ok in Hm2; auto.
  apply extra_loop_edges_ok in Hm3; auto.
  apply lift_Ok in Hm4 as [Hm4 _].
  apply prune_loop_required_ok in Hm4; auto.
  - apply Forall_forall. intros n Hn.
    pose proof (proj1 (Forall_forall _ _) Hm4 n Hn) as [H0 Hmax].
    assert (Hnz : requiredConnections n <> 0).
    { intros E. rewrite <- not_true_iff_false in Hz. apply Hz.
      apply existsb_exists. exists n. split; auto. now apply Z.eqb_eq. }
    split; [lia | auto].
  - apply Forall_forall. intros n Hn. apply in_map_iff in Hn as (m & <- & _).
    unfold required_ok. simpl. lia.
Qed.

(** C4. Whatever [generate] returns, a generated puzzle or the fallback,
    every node requires at least 1 connection and at most the tier's
    [maxConnections], provided the engine's sort returns its input
    reordered. *)
Theorem generate_required_bounds (R : RandomSource) (difficulty : Difficulty)
    (g : rstate R) (p : Puzzle) (g' : rstate R) :
  sort_permutes R ->
  generate R difficulty g = (Ok p, g') ->
  Forall (fun n =>
            1 <= requiredConnections n
              <= maxConnections (DIFFICULTY_SETTINGS difficulty))
    (nodes p).
Proof.
  intros Hsort Hgen.
  destruct (generate_loop_returns R (DIFFICULTY_SETTINGS difficulty) 100 g)
    as (p0 & g0 & Hg & Hfb & Hat).
  unfold generate in Hgen. rewrite Hg in Hgen. injection Hgen as <- <-.
  destruct (all_attempts_fail R 100 (DIFFICULTY_SETTINGS difficulty) g) eqn:Hall.
  - rewrite (Hfb eq_refl). destruct difficulty; simpl;
      repeat constructor; simpl; lia.
  - destruct (Hat eq_refl) as (ga & gb & Ht).
    eapply tryGenerate_required; eauto.
Qed.

(* ================================================================== *)
(** * The generator throws only its own errors *)

(** The model of [tryGenerate] can raise [TypeError] (a lookup that came back
    [undefined]) and [RangeError] (a [find] that ran out of stack).  This part
    shows that neither happens: an attempt either returns a puzzle or throws
    one of the three [Error]s of the source. *)

(** ** Disjoint sets *)

Lemma length_set_nth i r l : List.length (set_nth i r l) = List.length l.
Proof.
  revert i. induction l as [|a l IH]; intros [|i]; simpl; auto.
Qed.

Lemma nth_error_set_nth_same i r l :
  (i < List.length l)%nat -> nth_error (set_nth i r l) i = Some r.
Proof.
  revert i. induction l as [|a l IH]; intros [|i]; simpl; intros H;
    try lia; auto. apply IH. lia.
Qed.

Lemma nth_error_set_nth_other i j r l :
  i <> j -> nth_error (set_nth i r l) j = nth_error l j.
Proof.
  revert i j. induction l as [|a l IH]; intros [|i] [|j]; simpl; intros H;
    try congruence; auto.
Qed.

Lemma is_root_true l i : is_root l i = true <-> nth_error l i = Some i.
Proof.
  unfold is_root. destruct (nth_error l i) as [p|]; [|split; discriminate].
  rewrite Nat.eqb_eq. split; congruence.
Qed.

Lemma nroots_le l : (nroots l <= List.length l)%nat.
Proof.
  unfold nroots. eapply Nat.le_trans; [apply filter_length_le|].
  now rewrite length_seq.
Qed.

Lemma nroots_same l l' :
  List.length l' = List.length l ->
  (forall k, is_root l' k = is_root l k) ->
  nroots l' = nroots l.
Proof.
  intros Hlen Hr. unfold nroots. rewrite Hlen.
  f_equal. apply filter_ext. exact Hr.
Qed.

Lemma filter_drop_one (f f' : nat -> bool) k s :
  NoDup s -> In k s -> f k = true -> f' k = false ->
  (forall i, i <> k -> f' i = f i) ->
  List.length (filter f s) = S (List.length (filter f' s)).
Proof.
  intros Hnd Hin Hk Hk' Hoth. induction s as [|a s IH]; [destruct Hin|].
  inversion Hnd as [|? ? Hnotin Hnd']; subst. simpl.
  destruct Hin as [-> | Hin].
  - rewrite Hk, Hk'. simpl. f_equal. f_equal.
    apply filter_ext_in. intros i Hi. symmetry. apply Hoth.
    intros ->. contradiction.
  - assert (a <> k) by (intros ->; contradiction).
    rewrite (Hoth a) by assumption.
    destruct (f a); simpl; rewrite IH; auto.
Qed.

Lemma nroots_drop_root l k r :
  (k < List.length l)%nat -> is_root l k = true -> r <> k ->
  nroots l = S (nroots (set_nth k r l)).
Proof.
  intros Hk Hroot Hne. unfold nroots. rewrite length_set_nth.
  apply filter_drop_one with (k := k); auto.
  - apply seq_NoDup.
  - apply in_seq. lia.
  - unfold is_root. rewrite nth_error_set_nth_same by assumption.
    apply Nat.eqb_neq. assumption.
  - intros i Hi. unfold is_root. now rewrite nth_error_set_nth_other by auto.
Qed.

Lemma newDisjointSet_ok n : ds_ok (newDisjointSet n).
Proof.
  exists (fun _ => 0%nat). unfold ds_inv, newDisjointSet. simpl.
  rewrite length_seq.
  assert (Hnth : forall i p, nth_error (seq 0 n) i = Some p -> p = i /\ (i < n)%nat).
  { intros i p H. rewrite nth_error_seq in H.
    destruct (Nat.ltb_spec i n); [|discriminate]. injection H as <-. auto. }
  repeat split.
  - intros i p H. destruct (Hnth i p H). lia.
  - intros i p H Hne. destruct (Hnth i p H). contradiction.
  - intros i Hi. pose proof (nroots_le (seq 0 n)) as H.
    rewrite length_seq in H. lia.
Qed.

(** [find] with enough fuel returns a root, compresses the path and keeps
    the forest and its roots. *)
Lemma find_fuel_ok h fuel : forall ds i,
  ds_inv h ds ->
  (i < List.length (parent ds))%nat -> (h i < fuel)%nat ->
  exists r ds',
    find_fuel fuel ds i = Ok (r, ds') /\
    ds_inv h ds' /\
    List.length (parent ds') = List.length (parent ds) /\
    ds_count ds' = ds_count ds /\
    is_root (parent ds') r = true /\
    (r = i \/ (h r < h i)%nat) /\
    (forall k, is_root (parent ds') k = is_root (parent ds) k).
Proof.
  induction fuel as [|fuel IH]; intros ds i Hinv Hi Hh; [lia|].
  simpl.
  destruct (nth_error (parent ds) i) as [p|] eqn:Hp;
    [|apply (proj1 (nth_error_None _ _)) in Hp; lia].
  destruct (Nat.eqb p i) eqn:E.
  - apply Nat.eqb_eq in E. subst p. exists i, ds.
    split; [reflexivity|]. split; [assumption|].
    split; [reflexivity|]. split; [reflexivity|].
    split; [now apply is_root_true|]. split; [now left | reflexivity].
  - apply Nat.eqb_neq in E.
    destruct Hinv as (Hrange & Hdec & Hroom).
    pose proof (Hrange i p Hp) as Hpn. pose proof (Hdec i p Hp E) as Hph.
    destruct (IH ds p (conj Hrange (conj Hdec Hroom)) Hpn ltac:(lia))
      as (r & ds' & -> & Hinv' & Hlen & Hcnt & Hroot & Hr & Hroots).
    simpl.
    assert (Hri : (h r < h i)%nat) by (destruct Hr; subst; lia).
    assert (Hrn : r <> i) by (intros ->; lia).
    assert (Hir : is_root (parent ds') i = false).
    { rewrite Hroots. unfold is_root. rewrite Hp. now apply Nat.eqb_neq. }
    assert (Hsame : forall k,
      is_root (set_nth i r (parent ds')) k = is_root (parent ds') k).
    { intros k. destruct (Nat.eq_dec i k) as [<- | Hk].
      - rewrite Hir. unfold is_root.
        rewrite nth_error_set_nth_same by lia. now apply Nat.eqb_neq.
      - unfold is_root. now rewrite nth_error_set_nth_other. }
    destruct Hinv' as (Hrange' & Hdec' & Hroom').
    exists r, (mkDisjointSet (set_nth i r (parent ds')) (ds_count ds')).
    split; [reflexivity|]. simpl. rewrite length_set_nth.
    split; [|split; [assumption|split; [assumption|split; [|split]]]].
    + unfold ds_inv. simpl. rewrite length_set_nth.
      split; [|split].
      * intros k q Hq. destruct (Nat.eq_dec i k) as [<- | Hk].
        -- rewrite nth_error_set_nth_same in Hq by lia. injection Hq as <-.
           apply is_root_true in Hroot.
           apply nth_error_Some. congruence.
        -- rewrite nth_error_set_nth_other in Hq by assumption. eauto.
      * intros k q Hq Hne. destruct (Nat.eq_dec i k) as [<- | Hk].
        -- rewrite nth_error_set_nth_same in Hq by lia. injection Hq as <-.
           auto.
        -- rewrite nth_error_set_nth_other in Hq by assumption. eauto.
      * intros k Hk.
        rewrite (nroots_same (parent ds') (set_nth i r (parent ds')))
          by (auto using length_set_nth).
        auto.
    + rewrite Hsame. auto.
    + auto.
    + intros k. now rewrite Hsame.
Qed.

Lemma ds_find_ok h ds i :
  ds_inv h ds -> (i < List.length (parent ds))%nat ->
  exists r ds',
    ds_find ds i = Ok (r, ds') /\
    ds_inv h ds' /\
    List.length (parent ds') = List.length (parent ds) /\
    ds_count ds' = ds_count ds /\
    is_root (parent ds') r = true /\
    (forall k, is_root (parent ds') k = is_root (parent ds) k).
Proof.
  intros Hinv Hi. unfold ds_find.
  destruct (find_fuel_ok h (S (List.length (parent ds))) ds i Hinv Hi)
    as (r & ds' & H & Hinv' & Hlen & Hcnt & Hroot & _ & Hroots).
  - destruct Hinv as (_ & _ & Hroom). specialize (Hroom i Hi). lia.
  - exists r, ds'. auto 10.
Qed.

Lemma ds_union_ok ds i j :
  ds_ok ds ->
  (i < List.length (parent ds))%nat -> (j < List.length (parent ds))%nat ->
  exists ds', ds_union ds i j = Ok ds' /\ ds_ok ds' /\
    List.length (parent ds') = List.length (parent ds).
Proof.
  intros [h Hinv] Hi Hj. unfold ds_union.
  destruct (ds_find_ok h ds i Hinv Hi)
    as (rootI & ds1 & -> & Hinv1 & Hlen1 & _ & HrI & _).
  simpl.
  destruct (ds_find_ok h ds1 j Hinv1 ltac:(lia))
    as (rootJ & ds2 & -> & Hinv2 & Hlen2 & _ & HrJ & Hroots).
  simpl.
  destruct (Nat.eqb rootI rootJ) eqn:E; simpl.
  - exists ds2. split; auto. split; [now exists h | lia].
  - apply Nat.eqb_neq in E.
    eexists. split; [reflexivity|]. simpl. rewrite length_set_nth.
    split; [|lia].
    rewrite <- Hroots in HrI.
    assert (HIn : (rootI < List.length (parent ds2))%nat).
    { apply is_root_true in HrI. apply nth_error_Some. congruence. }
    pose proof (nroots_drop_root (parent ds2) rootI rootJ HIn HrI
                  (not_eq_sym E)) as Hdrop.
    destruct Hinv2 as (Hrange & Hdec & Hroom).
    exists (fun k => if Nat.eqb k rootJ then 0%nat else S (h k)).
    unfold ds_inv. simpl. rewrite length_set_nth. split; [|split].
    + intros k q Hq. destruct (Nat.eq_dec rootI k) as [<- | Hk].
      * rewrite nth_error_set_nth_same in Hq by assumption. injection Hq as <-.
        apply is_root_true in HrJ. apply nth_error_Some. congruence.
      * rewrite nth_error_set_nth_other in Hq by assumption. eauto.
    + intros k q Hq Hne. destruct (Nat.eq_dec rootI k) as [<- | Hk].
      * rewrite nth_error_set_nth_same in Hq by assumption.
        injection Hq as Hq. subst q. rewrite Nat.eqb_refl.
        destruct (Nat.eqb_spec rootI rootJ); [contradiction | lia].
      * rewrite nth_error_set_nth_other in Hq by assumption.
        assert (Hkj : k <> rootJ).
        { intros ->. apply is_root_true in HrJ. congruence. }
        apply Nat.eqb_neq in Hkj. rewrite Hkj.
        pose proof (Hdec k q Hq Hne).
        destruct (Nat.eqb q rootJ); lia.
    + intros k Hk. pose proof (Hroom k Hk).
      pose proof (nroots_le (set_nth rootI rootJ (parent ds2))) as Hle.
      rewrite length_set_nth in Hle.
      destruct (Nat.eqb k rootJ); lia.
Qed.

(** ** Lookups that never come back undefined *)

Lemma find_node_in_ids i nodes :
  In i (map id nodes) -> find_node i nodes <> None.
Proof.
  intros H. apply in_map_iff in H as (n & <- & Hin).
  unfold find_node. intros Hnone.
  apply (find_none _ _ Hnone) in Hin. now rewrite String.eqb_refl in Hin.
Qed.

Lemma index_entries_keys nodes : forall i,
  map fst (index_entries i nodes) = map id nodes.
Proof.
  induction nodes as [|n rest IH]; simpl; intros i; auto. now rewrite IH.
Qed.

Lemma index_entries_bound nodes : forall i k j,
  In (k, j) (index_entries i nodes) -> (j < i + List.length nodes)%nat.
Proof.
  induction nodes as [|n rest IH]; simpl; intros i k j; [tauto|].
  intros [[= _ <-] | H]; [lia|]. apply IH in H. lia.
Qed.

Lemma fold_set_get (entries : list (string * nat)) : forall m k,
  (In k (map fst entries) \/ JsMap.get k m <> None) ->
  exists j,
    JsMap.get k (fold_left (fun m kv => JsMap.set (fst kv) (snd kv) m) entries m)
    = Some j /\
    (In (k, j) entries \/ JsMap.get k m = Some j).
Proof.
  induction entries as [|[k0 j0] rest IH]; simpl; intros m k H.
  - destruct H as [[] | H]. destruct (JsMap.get k m) as [j|]; [|congruence].
    eauto.
  - destruct (IH (JsMap.set k0 j0 m) k) as (j & Hj & Hsrc).
    + destruct H as [[<- | H] | H]; auto.
      * right. rewrite get_set_same. discriminate.
      * right. destruct (string_dec k0 k) as [-> | Hne].
        -- rewrite get_set_same. discriminate.
        -- now rewrite get_set_other.
    + exists j. split; auto.
      destruct Hsrc as [Hsrc | Hsrc]; auto.
      destruct (string_dec k0 k) as [-> | Hne].
      * rewrite get_set_same in Hsrc. injection Hsrc as <-. auto.
      * rewrite get_set_other in Hsrc by assumption. auto.
Qed.

Lemma nodeIndexMap_lookup nodes n :
  In n nodes ->
  exists j, JsMap.get (id n) (nodeIndexMap nodes) = Some j /\
            (j < List.length nodes)%nat.
Proof.
  intros Hin. unfold nodeIndexMap.
  destruct (fold_set_get (index_entries 0 nodes) JsMap.empty (id n))
    as (j & Hj & Hsrc).
  - left. rewrite index_entries_keys. now apply in_map.
  - exists j. split; auto. destruct Hsrc as [Hsrc | Hsrc]; [|discriminate].
    now apply index_entries_bound in Hsrc.
Qed.

Lemma isCrossing_returns nodes edges a b :
  ends_in nodes edges -> exists r, isCrossing nodes edges a b = Ok r.
Proof.
  induction edges as [|e rest IH]; simpl; intros Hends; [eauto|].
  destruct (Hends e (or_introl eq_refl)) as [HA HB].
  apply find_node_in_ids in HA, HB.
  destruct (find_node (nodeA e) nodes) as [eU|]; [|congruence].
  destruct (find_node (nodeB e) nodes) as [eV|]; [|congruence].
  destruct (linesCross a b eU eV); [eauto|].
  apply IH. intros e' He'. apply Hends. now right.
Qed.

Lemma ends_in_add nodes edges p c :
  In (u p) nodes -> In (v p) nodes -> ends_in nodes edges ->
  ends_in nodes (edges ++ [mkEdgeData (id (u p)) (id (v p)) c]).
Proof.
  intros Hu Hv Hends e He. apply in_app_iff in He as [He | [<- | []]]; auto.
  simpl. split; now apply in_map.
Qed.

Lemma all_pairs_in l nodes p :
  In p (all_pairs l nodes) -> In (u p) l /\ In (v p) l.
Proof.
  induction l as [|u0 later IH]; simpl; [tauto|].
  intros H. apply in_app_iff in H as [H | H].
  - apply pairs_with_spec in H as [-> H]. auto.
  - destruct (IH H). auto.
Qed.

(** ** The loops of an attempt always complete *)

Lemma bindG_lift {R A B} (r : result A) (k : A -> Gen R B) g a :
  r = Ok a -> bindG (lift r) k g = k a g.
Proof. intros ->. reflexivity. Qed.

Lemma random_gt_returns R q g : exists b g1, random_gt R q g = (Ok b, g1).
Proof. unfold random_gt. destruct (random_exceeds R q g). eauto. Qed.

Lemma random_floor_returns R n g : exists z g1, random_floor R n g = (Ok z, g1).
Proof. unfold random_floor. destruct (floor_random R n g). eauto. Qed.

Lemma bindG_eq {R A B} (m : Gen R A) (k : A -> Gen R B) g a g1 :
  m g = (Ok a, g1) -> bindG m k g = k a g1.
Proof. unfold bindG. intros ->. reflexivity. Qed.

Lemma place_while_returns R tries gs i : forall nodes occ g,
  exists st g', place_while R tries gs i nodes occ g = (Ok st, g').
Proof.
  induction tries as [|tries IH]; intros nodes occ g; cbn [place_while].
  - unfold ret. eauto.
  - destruct (random_floor_returns R gs g) as (px & g1 & H1).
    rewrite (bindG_eq _ _ _ _ _ H1).
    destruct (random_floor_returns R gs g1) as (py & g2 & H2).
    rewrite (bindG_eq _ _ _ _ _ H2).
    destruct (negb _); [unfold ret; eauto | apply IH].
Qed.

Lemma place_for_returns R k gs : forall i nodes occ g,
  exists st g', place_for R k i gs nodes occ g = (Ok st, g').
Proof.
  induction k as [|k IH]; intros i nodes occ g; cbn [place_for].
  - unfold ret. eauto.
  - destruct (place_while_returns R 50 gs i nodes occ g) as (st & g1 & H1).
    rewrite (bindG_eq _ _ _ _ _ H1). apply IH.
Qed.

Lemma spanning_loop_returns R nodes ps : forall edges ds g,
  candidates_in nodes ps -> ends_in nodes edges ->
  ds_ok ds -> List.length (parent ds) = List.length nodes ->
  exists res g',
    spanning_loop R nodes (nodeIndexMap nodes) ps edges ds g = (Ok res, g') /\
    ends_in nodes (fst res).
Proof.
  induction ps as [|p rest IH]; intros edges ds g Hps Hends [h Hinv] Hlen;
    cbn [spanning_loop].
  - unfold ret. eauto.
  - assert (Hrest : candidates_in nodes rest)
      by (intros q Hq; apply Hps; now right).
    destruct (Hps p (or_introl eq_refl)) as [Hu Hv].
    destruct (nodeIndexMap_lookup nodes (u p) Hu) as (uIdx & Gu & Lu).
    destruct (nodeIndexMap_lookup nodes (v p) Hv) as (vIdx & Gv & Lv).
    rewrite (bindG_lift _ _ _ _ (f_equal defined Gu)).
    rewrite (bindG_lift _ _ _ _ (f_equal defined Gv)).
    destruct (ds_find_ok h ds uIdx Hinv ltac:(lia))
      as (ru & ds1 & Fu & Hinv1 & Hlen1 & _).
    rewrite (bindG_lift _ _ _ _ Fu). cbn [fst snd].
    destruct (ds_find_ok h ds1 vIdx Hinv1 ltac:(lia))
      as (rv & ds2 & Fv & Hinv2 & Hlen2 & _).
    rewrite (bindG_lift _ _ _ _ Fv). cbn [fst snd].
    assert (Hok2 : ds_ok ds2) by now exists h.
    destruct (negb (Nat.eqb ru rv)); [|apply IH; auto; lia].
    destruct (isCrossing_returns nodes edges (u p) (v p) Hends) as (c & Hc).
    rewrite (bindG_lift _ _ _ _ Hc).
    destruct (negb c); [|apply IH; auto; lia].
    destruct (ds_union_ok ds2 uIdx vIdx Hok2 ltac:(lia) ltac:(lia))
      as (ds3 & Hun & Hok3 & Hlen3).
    rewrite (bindG_lift _ _ _ _ Hun).
    destruct (random_gt_returns R (7 # 10) g) as (b & g1 & Hr).
    rewrite (bindG_eq _ _ _ _ _ Hr).
    apply IH; auto; [now apply ends_in_add | lia].
Qed.

Lemma extra_loop_returns R nodes ps target : forall added edges g,
  candidates_in nodes ps -> ends_in nodes edges ->
  exists res g',
    extra_loop R nodes ps target added edges g = (Ok res, g') /\
    ends_in nodes res.
Proof.
  induction ps as [|p rest IH]; intros added edges g Hps Hends;
    cbn [extra_loop].
  - unfold ret. eauto.
  - assert (Hrest : candidates_in nodes rest)
      by (intros q Hq; apply Hps; now right).
    destruct (Hps p (or_introl eq_refl)) as [Hu Hv].
    destruct (added >=? target); [unfold ret; eauto|].
    destruct (existsb _ edges); [apply IH; auto|].
    destruct (isCrossing_returns nodes edges (u p) (v p) Hends) as (c & Hc).
    rewrite (bindG_lift _ _ _ _ Hc).
    destruct (negb c); [|apply IH; auto].
    destruct (random_gt_returns R (6 # 10) g) as (b & g1 & Hr).
    rewrite (bindG_eq _ _ _ _ _ Hr).
    apply IH; auto. now apply ends_in_add.
Qed.

Lemma ids_add_required i c nodes : map id (add_required i c nodes) = map id nodes.
Proof.
  induction nodes as [|n rest IH]; simpl; auto.
  destruct (String.eqb (id n) i); simpl; auto. now rewrite IH.
Qed.

Lemma prune_loop_returns maxc edges : forall nodes valid,
  ends_in nodes edges ->
  exists res, prune_loop maxc edges nodes valid = Ok res /\
              map id (fst res) = map id nodes.
Proof.
  induction edges as [|e rest IH]; simpl; intros nodes valid Hends; [eauto|].
  assert (Hrest : ends_in nodes rest)
    by (intros e' He'; apply Hends; now right).
  destruct (Hends e (or_introl eq_refl)) as [HA HB].
  apply find_node_in_ids in HA, HB.
  destruct (find_node (nodeA e) nodes) as [nA|]; [|congruence].
  destruct (find_node (nodeB e) nodes) as [nB|]; [|congruence].
  simpl.
  destruct (requiredConnections nA + count e <=? maxc); [|apply IH; auto].
  destruct (requiredConnections nB + count e <=? maxc); [|apply IH; auto].
  destruct (IH (add_required (nodeB e) (count e)
                  (add_required (nodeA e) (count e) nodes))
               (valid ++ [e])) as (res & Hres & Hids).
  - intros e' He'. rewrite !ids_add_required. now apply Hrest.
  - exists res. split; auto. now rewrite Hids, !ids_add_required.
Qed.

Lemma shuffle_returns R l g : exists l' g', shuffle R l g = (Ok l', g').
Proof. unfold shuffle. destruct (sort_random R l g). eauto. Qed.

Lemma ends_in_same_ids nodes nodes' edges :
  map id nodes' = map id nodes -> ends_in nodes edges -> ends_in nodes' edges.
Proof. unfold ends_in. intros ->. auto. Qed.

(** An attempt throws nothing but the three errors the source throws by
    name: no lookup fails and no [find] runs out of stack. *)
Lemma tryGenerate_throws_only_errors R gs nr maxc g e g' :
  sort_permutes R ->
  tryGenerate R gs nr maxc g = (Throw e, g') ->
  e = Error "Not enough nodes placed" \/
  e = Error "Graph not connected" \/
  e = Error "Isolated node".
Proof.
  intros Hsort. unfold tryGenerate.
  destruct (random_floor_returns R (snd nr - fst nr + 1) g) as (r & g1 & H1).
  rewrite (bindG_eq _ _ _ _ _ H1).
  destruct (place_for_returns R (Z.to_nat (r + fst nr)) gs 0 [] [] g1)
    as (placed & g2 & H2).
  rewrite (bindG_eq _ _ _ _ _ H2).
  destruct (Z.of_nat _ <? fst nr); [intros [= <- _]; auto|].
  destruct (shuffle_returns R (all_pairs (fst placed) (fst placed)) g2)
    as (ps & g3 & H3).
  rewrite (bindG_eq _ _ _ _ _ H3).
  assert (Hcand : candidates_in (fst placed) ps).
  { intros p Hp. apply (shuffle_Ok _ _ _ _ _ Hsort) in H3.
    apply (Permutation_in _ H3) in Hp. now apply all_pairs_in in Hp. }
  destruct (spanning_loop_returns R (fst placed) ps []
              (newDisjointSet (List.length (fst placed))) g3 Hcand)
    as (tree & g4 & H4 & Hends4).
  { intros e0 []. }
  { apply newDisjointSet_ok. }
  { simpl. apply length_seq. }
  rewrite (bindG_eq _ _ _ _ _ H4).
  destruct (ds_count _ >? 1); [intros [= <- _]; auto|].
  destruct (extra_loop_returns R (fst placed) ps
              (Qfloor (Qmult (inject_Z (Z.of_nat (List.length (fst tree))))
                         (3 # 10)))
              0 (fst tree) g4 Hcand Hends4)
    as (edges & g5 & H5 & Hends5).
  rewrite (bindG_eq _ _ _ _ _ H5).
  destruct (prune_loop_returns maxc edges
              (map (fun n => setRequired n 0) (fst placed)) [])
    as (pruned & H6 & _).
  { apply ends_in_same_ids with (nodes := fst placed); auto.
    rewrite map_map. reflexivity. }
  rewrite (bindG_lift _ _ _ _ H6).
  destruct (existsb _ (fst pruned)); [intros [= <- _]; auto|].
  discriminate.
Qed.

(* ================================================================== *)
(** * The invariants along a game *)

(** The theorems on [canConnect], [checkWinCondition] and undo assume a
    well-formed scene.  This part shows that scenes are well formed all along
    a game: the houses of a generated puzzle have unique dash-free ids, and
    every history of toggles and sets between different houses of the scene
    keeps the edge map well formed. *)

Lemma dash_free_append s1 s2 :
  dash_free (String.append s1 s2) = dash_free s1 && dash_free s2.
Proof.
  induction s1 as [|c s1 IH]; simpl; auto. rewrite IH. now rewrite andb_assoc.
Qed.

Lemma dash_free_string_of_uint d :
  dash_free (NilEmpty.string_of_uint d) = true.
Proof. induction d; simpl; auto. Qed.

Lemma dash_free_node_id k : dash_free (node_id k) = true.
Proof.
  unfold node_id. rewrite dash_free_append, dash_free_string_of_uint.
  reflexivity.
Qed.

Lemma prune_loop_ids maxc edges : forall nodes valid res,
  prune_loop maxc edges nodes valid = Ok res ->
  map id (fst res) = map id nodes.
Proof.
  induction edges as [|e rest IH]; simpl; intros nodes valid res H.
  - injection H as <-. reflexivity.
  - destruct (find_node (nodeA e) nodes) as [nA|]; simpl in H; [|discriminate].
    destruct (requiredConnections nA + count e <=? maxc); [|eauto].
    destruct (find_node (nodeB e) nodes) as [nB|]; simpl in H; [|discriminate].
    destruct (requiredConnections nB + count e <=? maxc); [|eauto].
    apply IH in H. now rewrite H, !ids_add_required.
Qed.

Lemma tryGenerate_ids R gs nr maxc g p g' :
  tryGenerate R gs nr maxc g = (Ok p, g') ->
  NoDup (map id (nodes p)) /\
  Forall (fun n => dash_free (id n) = true) (nodes p).
Proof.
  intros H. unfold tryGenerate in H.
  gen_inv H. gen_inv H.
  destruct (Z.of_nat _ <? fst nr); [now apply throw_Ok in H|].
  gen_inv H. gen_inv H.
  destruct (ds_count _ >? 1); [now apply throw_Ok in H|].
  gen_inv H. gen_inv H.
  destruct (existsb _ (fst a4)); [now apply throw_Ok in H|].
  apply ret_Ok in H as [-> _]. simpl.
  apply place_for_ids in Hm0; [|split; [constructor | intros n []]].
  destruct Hm0 as [Hnd Hk].
  apply lift_Ok in Hm4 as [Hm4 _]. apply prune_loop_ids in Hm4.
  assert (Hsame : map id (fst a4) = map id (fst a0))
    by (rewrite Hm4, map_map; reflexivity).
  clear Hm4. rename Hsame into Hm4.
  split.
  - now rewrite Hm4.
  - apply Forall_forall. intros n Hn.
    assert (Hid : In (id n) (map id (fst a0)))
      by (rewrite <- Hm4; now apply in_map).
    apply in_map_iff in Hid as (m & E & Hmem).
    destruct (Hk m Hmem) as (k & _ & Ek).
    rewrite <- E, Ek. apply dash_free_node_id.
Qed.

Lemma ids_make_houses nodes : forall next,
  map house_id (make_houses next nodes) = map id nodes.
Proof.
  induction nodes as [|n rest IH]; simpl; intros next; auto. now rewrite IH.
Qed.

(** The houses built from any puzzle [generate] returns have unique,
    dash-free ids. *)
Lemma generated_houses_ok R difficulty g p g' :
  generate R difficulty g = (Ok p, g') ->
  houses_ok (make_houses 0 (nodes p)).
Proof.
  intros Hgen.
  assert (Hids : NoDup (map id (nodes p)) /\
                 Forall (fun n => dash_free (id n) = true) (nodes p)).
  { destruct (generate_loop_returns R (DIFFICULTY_SETTINGS difficulty) 100 g)
      as (p0 & g0 & Hg & Hfb & Hat).
    unfold generate in Hgen. rewrite Hg in Hgen. injection Hgen as <- <-.
    destruct (all_attempts_fail R 100 (DIFFICULTY_SETTINGS difficulty) g).
    - rewrite (Hfb eq_refl). split.
      + repeat constructor; simpl; intuition discriminate.
      + repeat constructor.
    - destruct (Hat eq_refl) as (ga & gb & Ht).
      eapply tryGenerate_ids; eauto. }
  destruct Hids as [Hnd Hdf]. split.
  - now rewrite ids_make_houses.
  - apply Forall_forall. intros h Hh.
    assert (Hid : In (house_id h) (map id (nodes p)))
      by (rewrite <- (ids_make_houses (nodes p) 0); now apply in_map).
    apply in_map_iff in Hid as (n & <- & Hn).
    now apply (proj1 (Forall_forall _ _) Hdf).
Qed.

Lemma values_set_in (k : string) (e : EdgeData) (m : EdgeMap) e' :
  In e' (JsMap.values (JsMap.set k e m)) -> e' = e \/ In e' (JsMap.values m).
Proof.
  unfold JsMap.values. intros H. apply in_map_iff in H as ([k0 e0] & <- & H).
  apply in_set in H as [[= -> ->] | H]; auto.
  right. apply in_map_iff. now exists (k0, e0).
Qed.

Lemma values_delete_in (k : string) (m : EdgeMap) e' :
  In e' (JsMap.values (JsMap.delete k m)) -> In e' (JsMap.values m).
Proof.
  unfold JsMap.values. intros H. apply in_map_iff in H as (kv & <- & H).
  apply in_delete in H. now apply in_map.
Qed.

(** What [apply_op] can put into the map: the old entries, or one entry
    between the two houses of the call. *)
Lemma values_apply_op edges op e :
  In e (JsMap.values (apply_op edges op)) ->
  In e (JsMap.values edges) \/
  exists a b, (op = OpToggle a b \/ exists c, op = OpSet a b c) /\
              nodeA e = house_id a /\ nodeB e = house_id b.
Proof.
  destruct op as [a b | a b c |]; simpl.
  - unfold toggleConnection.
    destruct (JsMap.get _ edges) as [cur|]; simpl.
    + destruct (count cur =? 1); simpl; intros H.
      * apply values_set_in in H as [-> | H]; auto.
        right. exists a, b. auto.
      * apply values_delete_in in H. auto.
    + intros H. apply values_set_in in H as [-> | H]; auto.
      right. exists a, b. auto.
  - unfold setConnection. destruct (c =? 0); intros H.
    + apply values_delete_in in H. auto.
    + apply values_set_in in H as [-> | H]; auto.
      right. exists a, b. split; eauto.
  - intros [].
Qed.

(** Along any history of calls between different houses of the scene, the
    hypotheses of the theorems on [canConnect], [checkWinCondition] and undo
    hold. *)
Lemma scene_invariants houses ops :
  houses_ok houses ->
  Forall (op_in_scene houses) ops -> Forall op_count_ok ops ->
  let edges := run_ops ops in
  edges_inv edges /\
  scene_ok houses (getAllEdges edges) /\
  edges_resolve houses edges /\
  ids_dash_free edges.
Proof.
  intros [Hnd Hdf] Hin Hok edges.
  assert (Hends : forall e, In e (JsMap.values edges) ->
            exists a b, In a houses /\ In b houses /\
              house_id a <> house_id b /\
              nodeA e = house_id a /\ nodeB e = house_id b).
  { subst edges. unfold run_ops.
    assert (Hgen : forall m,
      (forall e, In e (JsMap.values m) ->
         exists a b, In a houses /\ In b houses /\
           house_id a <> house_id b /\
           nodeA e = house_id a /\ nodeB e = house_id b) ->
      forall e, In e (JsMap.values (fold_left apply_op ops m)) ->
         exists a b, In a houses /\ In b houses /\
           house_id a <> house_id b /\
           nodeA e = house_id a /\ nodeB e = house_id b).
    { clear Hok. induction ops as [|op rest IH]; simpl; intros m Hm; auto.
      inversion Hin as [|? ? Hop Hrest]; subst.
      apply IH; auto. intros e He.
      apply values_apply_op in He as [He | (a & b & Hab & HA & HB)]; auto.
      exists a, b.
      destruct Hab as [-> | [c ->]]; simpl in Hop; tauto. }
    apply Hgen. intros e []. }
  split; [now apply edges_inv_run_ops|].
  split; [|split].
  - split; auto. intros e He.
    destruct (Hends e He) as (a & b & Ha & Hb & Hne & -> & ->).
    repeat split; auto; now apply in_map.
  - intros e He.
    destruct (Hends e He) as (a & b & Ha & Hb & Hne & -> & ->).
    split; apply find_house_in_ids; now apply in_map.
  - intros e He.
    destruct (Hends e He) as (a & b & Ha & Hb & Hne & -> & ->).
    split; now apply (proj1 (Forall_forall _ _) Hdf).
Qed.

(* ================================================================== *)
(** * The theorems at work on sample scenes *)

(** The closed square loop wins; with one cable missing it does not. *)
Example square_loop_wins :
  snd (checkWinCondition fallback_houses square_loop) = true.
Proof. reflexivity. Qed.

Example open_square_does_not_win :
  snd (checkWinCondition fallback_houses open_square) = false.
Proof. reflexivity. Qed.

(** The vertical arm of the plus would cross the placed horizontal cable. *)
Example plus_crossing_is_illegal :
  canConnect plus_edges (mkHouse 2 (mkNodeData "n_2" 1 0 1 0))
    (mkHouse 3 (mkNodeData "n_3" 1 2 1 0)) plus_houses = Ok false.
Proof. reflexivity. Qed.

(** In a column the ends are blocked by the middle house, which each of them
    can reach. *)
Example column_blocked :
  canConnect JsMap.empty (mkHouse 0 (mkNodeData "n_0" 1 0 1 0))
    (mkHouse 2 (mkNodeData "n_2" 1 2 1 0)) column_houses = Ok false /\
  canConnect JsMap.empty (mkHouse 0 (mkNodeData "n_0" 1 0 1 0))
    (mkHouse 1 (mkNodeData "n_1" 1 1 2 0)) column_houses = Ok true /\
  canConnect JsMap.empty (mkHouse 1 (mkNodeData "n_1" 1 1 2 0))
    (mkHouse 2 (mkNodeData "n_2" 1 2 1 0)) column_houses = Ok true.
Proof. repeat split; reflexivity. Qed.

Lemma square_loop_scene_ok : scene_ok fallback_houses (getAllEdges square_loop).
Proof.
  split.
  - repeat constructor; simpl; intuition discriminate.
  - intros e He. simpl in He.
    destruct He as [<- | [<- | [<- | [<- | []]]]]; simpl;
      intuition discriminate.
Qed.

Lemma plus_edges_resolve : edges_resolve plus_houses plus_edges.
Proof.
  intros e [<- | []]. simpl. split; discriminate.
Qed.

Lemma square_loop_inv : edges_inv square_loop.
Proof. apply edges_inv_run_ops. repeat constructor. Qed.

Lemma square_loop_dash_free : ids_dash_free square_loop.
Proof.
  intros e He. simpl in He.
  destruct He as [<- | [<- | [<- | [<- | []]]]]; split; reflexivity.
Qed.

(** The generator on the always-zero source falls back to the square. *)
Lemma generate_total_witness :
  fst (generate zero_source EASY tt) = Ok createFallbackPuzzle.
Proof.
  destruct (generate_total zero_source EASY tt) as (p & g' & Hg & Hf & _).
  rewrite Hg. simpl.
  assert (Hall : all_attempts_fail zero_source 100 (DIFFICULTY_SETTINGS EASY) tt
                 = true) by (vm_compute; reflexivity).
  destruct (Hf Hall) as [-> _]. reflexivity.
Defined.

(** Scenario A: the closed square loop on the fallback houses is a win. *)
Lemma checkWinCondition_solved_iff_witness :
  scene_ok fallback_houses (getAllEdges square_loop) /\
  (snd (checkWinCondition fallback_houses square_loop) = true <->
   fallback_houses <> [] /\
   (forall h, In h fallback_houses ->
      degree (getAllEdges square_loop) (house_id h)
      = requiredConnections (dataModel h)) /\
   (forall h, In h fallback_houses ->
      reach (getAllEdges square_loop)
        (house_id (hd h fallback_houses)) (house_id h))).
Proof.
  split; [exact square_loop_scene_ok|].
  exact (proj2 (checkWinCondition_solved_iff fallback_houses square_loop)
           square_loop_scene_ok).
Defined.

(** Scenario C: the vertical arm of the plus crosses the placed cable. *)
Lemma canConnect_false_iff_witness :
  edges_resolve plus_houses plus_edges /\
  canConnect plus_edges (mkHouse 2 (mkNodeData "n_2" 1 0 1 0))
    (mkHouse 3 (mkNodeData "n_3" 1 2 1 0)) plus_houses = Ok false /\
  (~ aligned (mkNodeData "n_2" 1 0 1 0) (mkNodeData "n_3" 1 2 1 0) \/
   node_between (mkHouse 2 (mkNodeData "n_2" 1 0 1 0))
     (mkHouse 3 (mkNodeData "n_3" 1 2 1 0)) plus_houses \/
   crosses_placed_edge plus_edges (mkHouse 2 (mkNodeData "n_2" 1 0 1 0))
     (mkHouse 3 (mkNodeData "n_3" 1 2 1 0)) plus_houses).
Proof.
  split; [exact plus_edges_resolve|].
  destruct (canConnect_false_iff plus_edges
              (mkHouse 2 (mkNodeData "n_2" 1 0 1 0))
              (mkHouse 3 (mkNodeData "n_3" 1 2 1 0)) plus_houses)
    as [Hiff Hret].
  destruct (Hret plus_edges_resolve) as (r & Hr).
  assert (r = false) as -> by (vm_compute in Hr; congruence).
  split; [exact Hr|].
  exact (proj1 (Hiff false Hr) eq_refl).
Defined.

Lemma lcg_sort_permutes : sort_permutes lcg_source.
Proof. intros l g. simpl. apply Permutation_sym, Permutation_rev. Qed.

(** A puzzle generated from seed 42 on the easy tier. *)
Lemma generate_required_bounds_witness :
  sort_permutes lcg_source /\
  exists p g',
    generate lcg_source EASY 42 = (Ok p, g') /\
    p <> createFallbackPuzzle /\
    Forall (fun n => 1 <= requiredConnections n <= 4) (nodes p).
Proof.
  split; [exact lcg_sort_permutes|].
  eexists. eexists. split; [vm_compute; reflexivity|].
  split; [discriminate|].
  eapply (generate_required_bounds lcg_source EASY 42);
    [exact lcg_sort_permutes | vm_compute; reflexivity].
Defined.

(** Three toggles of n_0 - n_1 on top of the square loop without that edge. *)
Lemma toggleConnection_cycle_witness :
  let edges := run_ops [OpToggle house_n1 house_n3] in
  JsMap.get (getEdgeKey "n_0" "n_1") edges = None /\
  snd (toggle_pair false edges house_n0 house_n1) = 1 /\
  fst (toggle_pair true
         (fst (toggle_pair true
                 (fst (toggle_pair false edges house_n0 house_n1))
                 house_n0 house_n1))
         house_n0 house_n1) = edges.
Proof.
  intros edges.
  assert (Habsent : JsMap.get (getEdgeKey "n_0" "n_1") edges = None)
    by reflexivity.
  destruct (toggleConnection_cycle edges house_n0 house_n1)
    as (_ & Hone & _ & _ & Hthree).
  split; [exact Habsent|].
  split; [exact (Hone Habsent false)|].
  exact (proj2 (proj2 (proj2 (Hthree Habsent false true true)))).
Defined.

(** Undo of a change to n_0 - n_1 on the square loop. *)
Lemma undo_round_trip_witness :
  edges_inv square_loop /\ ids_dash_free square_loop /\
  checkWinCondition fallback_houses
    (setConnection (setConnection square_loop house_n0 house_n1 0)
       house_n0 house_n1 (hasConnection square_loop "n_0" "n_1"))
  = checkWinCondition fallback_houses square_loop.
Proof.
  split; [exact square_loop_inv|].
  split; [exact square_loop_dash_free|].
  exact (proj2 (undo_round_trip fallback_houses square_loop house_n0 house_n1 0
                  square_loop_inv square_loop_dash_free eq_refl eq_refl)).
Defined.

(** A history that toggles, sets and resets. *)
Lemma edge_map_one_entry_per_pair_witness :
  let ops := [OpToggle house_n0 house_n1; OpToggle house_n1 house_n0;
              OpSet house_n2 house_n3 2; OpReset;
              OpSet house_n3 house_n2 1; OpSet house_n0 house_n1 0;
              OpToggle house_n2 house_n3] in
  Forall op_count_ok ops /\
  NoDup (JsMap.keys (run_ops ops)) /\
  Forall (fun e => count e = 1 \/ count e = 2) (getAllEdges (run_ops ops)).
Proof.
  intros ops.
  assert (Hok : Forall op_count_ok ops) by (repeat constructor; simpl; auto).
  split; [exact Hok|].
  destruct (edge_map_one_entry_per_pair ops Hok) as (Hnd & _ & _ & _ & Hc & _).
  split; [exact Hnd | exact Hc].
Defined.

(** The self-pair on the plus scene. *)
Lemma canConnect_self_witness :
  edges_resolve plus_houses plus_edges /\
  canConnect plus_edges (mkHouse 2 (mkNodeData "n_2" 1 0 1 0))
    (mkHouse 2 (mkNodeData "n_2" 1 0 1 0)) plus_houses = Ok true.
Proof.
  split; [exact plus_edges_resolve|].
  exact (proj2 (canConnect_self plus_edges
                  (mkHouse 2 (mkNodeData "n_2" 1 0 1 0)) plus_houses)
           plus_edges_resolve).
Defined.

(* ================================================================== *)
(** * Further properties of the generator *)

(** ** The cases of [generate] *)

Lemma generate_cases R difficulty g p g' :
  generate R difficulty g = (Ok p, g') ->
  p = createFallbackPuzzle \/
  exists g0 g1,
    tryGenerate R (gridSize (DIFFICULTY_SETTINGS difficulty))
      (nodeCount (DIFFICULTY_SETTINGS difficulty))
      (maxConnections (DIFFICULTY_SETTINGS difficulty)) g0 = (Ok p, g1).
Proof.
  intros Hgen.
  destruct (generate_loop_returns R (DIFFICULTY_SETTINGS difficulty) 100 g)
    as (p0 & g0 & Hg & Hfb & Hat).
  unfold generate in Hgen. rewrite Hg in Hgen. injection Hgen as <- <-.
  destruct (all_attempts_fail R 100 (DIFFICULTY_SETTINGS difficulty) g).
  - left. now apply Hfb.
  - right. now apply Hat.
Qed.

(** The stages of a successful attempt, named. *)
Lemma tryGenerate_stages R gs nr maxc g p g' :
  tryGenerate R gs nr maxc g = (Ok p, g') ->
  exists r g1 placed g2 ps g3 tree g4 edges g5 pruned,
    random_floor R (snd nr - fst nr + 1) g = (Ok r, g1) /\
    place_for R (Z.to_nat (r + fst nr)) 0 gs [] [] g1 = (Ok placed, g2) /\
    (Z.of_nat (List.length (fst placed)) <? fst nr) = false /\
    shuffle R (all_pairs (fst placed) (fst placed)) g2 = (Ok ps, g3) /\
    spanning_loop R (fst placed) (nodeIndexMap (fst placed)) ps []
      (newDisjointSet (List.length (fst placed))) g3 = (Ok tree, g4) /\
    (ds_count (snd tree) >? 1) = false /\
    extra_loop R (fst placed) ps
      (Qfloor (Qmult (inject_Z (Z.of_nat (List.length (fst tree)))) (3 # 10)))
      0 (fst tree) g4 = (Ok edges, g5) /\
    prune_loop maxc edges (map (fun n => setRequired n 0) (fst placed)) []
    = Ok pruned /\
    existsb (fun n => requiredConnections n =? 0) (fst pruned) = false /\
    p = mkPuzzle (fst pruned) (snd pruned).
Proof.
  intros H. unfold tryGenerate in H.
  gen_inv H. gen_inv H.
  destruct (Z.of_nat _ <? fst nr) eqn:E1; [now apply throw_Ok in H|].
  gen_inv H. gen_inv H.
  destruct (ds_count _ >? 1) eqn:E2; [now apply throw_Ok in H|].
  gen_inv H. gen_inv H.
  destruct (existsb _ (fst a4)) eqn:E3; [now apply throw_Ok in H|].
  apply ret_Ok in H as [-> _].
  apply lift_Ok in Hm4 as [Hm4 _].
  exists a, g0, a0, g1, a1, g2, a2, g3, a3, g4, a4.
  repeat (split; [assumption|]). reflexivity.
Qed.

(* ------------------------------------------------------------------ *)
(** ** Placement: cells, grid bounds, number of nodes *)

Lemma random_floor_Ok R n g z g1 :
  random_floor R n g = (Ok z, g1) -> z = fst (floor_random R n g).
Proof.
  unfold random_floor. destruct (floor_random R n g) as [z0 g0].
  now intros [= -> _].
Qed.

Lemma place_while_inv R tries gs i : forall nodes occ g st g',
  place_while R tries gs i nodes occ g = (Ok st, g') ->
  placement_inv nodes occ -> placement_inv (fst st) (snd st).
Proof.
  induction tries as [|tries IH]; intros nodes occ g st g' H Hinv; simpl in H.
  - apply ret_Ok in H as [-> _]. exact Hinv.
  - gen_inv H. gen_inv H.
    destruct (set_has (cell_key a a0) occ) eqn:E; simpl in H.
    + eapply IH; eauto.
    + apply ret_Ok in H as [-> _]. simpl.
      destruct Hinv as (Hocc & Hnd & Hpl). split; [|split].
      * rewrite map_app, Hocc. reflexivity.
      * apply NoDup_app; [exact Hnd | repeat constructor; simpl; tauto|].
        intros k Hk [<-|[]]. now apply set_has_false in E.
      * apply Forall_app. split; [exact Hpl|]. repeat constructor.
Qed.

Lemma place_for_inv R k gs : forall i nodes occ g st g',
  place_for R k i gs nodes occ g = (Ok st, g') ->
  placement_inv nodes occ -> placement_inv (fst st) (snd st).
Proof.
  induction k as [|k IH]; intros i nodes occ g st g' H Hinv; cbn [place_for] in H.
  - apply ret_Ok in H as [-> _]. exact Hinv.
  - gen_inv H. eapply IH; [exact H|]. eapply place_while_inv; [exact Hm|exact Hinv].
Qed.

Lemma place_while_grid R tries gs i : forall nodes occ g st g',
  floor_in_range R -> 0 < gs ->
  place_while R tries gs i nodes occ g = (Ok st, g') ->
  Forall (in_grid gs) nodes -> Forall (in_grid gs) (fst st).
Proof.
  intros nodes occ g st g' HR Hgs. revert nodes occ g st g'.
  induction tries as [|tries IH]; intros nodes occ g st g' H Hin; simpl in H.
  - apply ret_Ok in H as [-> _]. exact Hin.
  - gen_inv H. gen_inv H.
    apply random_floor_Ok in Hm, Hm0.
    destruct (set_has (cell_key a a0) occ) eqn:E; simpl in H.
    + eapply IH; eauto.
    + apply ret_Ok in H as [-> _]. simpl.
      apply Forall_app. split; [exact Hin|]. repeat constructor; simpl.
      * subst a. now apply HR.
      * subst a. now apply HR.
      * subst a0. now apply HR.
      * subst a0. now apply HR.
Qed.

Lemma place_for_grid R k gs : forall i nodes occ g st g',
  floor_in_range R -> 0 < gs ->
  place_for R k i gs nodes occ g = (Ok st, g') ->
  Forall (in_grid gs) nodes -> Forall (in_grid gs) (fst st).
Proof.
  intros i nodes occ g st g' HR Hgs. revert i nodes occ g st g'.
  induction k as [|k IH]; intros i nodes occ g st g' H Hin; cbn [place_for] in H.
  - apply ret_Ok in H as [-> _]. exact Hin.
  - gen_inv H. eapply IH; [exact H|]. eapply place_while_grid; [exact HR|exact Hgs|exact Hm|exact Hin].
Qed.

Lemma place_while_length R tries gs i : forall nodes occ g st g',
  place_while R tries gs i nodes occ g = (Ok st, g') ->
  (List.length (fst st) <= S (List.length nodes))%nat.
Proof.
  induction tries as [|tries IH]; intros nodes occ g st g' H; simpl in H.
  - apply ret_Ok in H as [-> _]. simpl. lia.
  - gen_inv H. gen_inv H.
    destruct (set_has (cell_key a a0) occ) eqn:E; simpl in H.
    + eapply IH; eauto.
    + apply ret_Ok in H as [-> _]. simpl. rewrite length_app. simpl. lia.
Qed.

Lemma place_for_length R k gs : forall i nodes occ g st g',
  place_for R k i gs nodes occ g = (Ok st, g') ->
  (List.length (fst st) <= List.length nodes + k)%nat.
Proof.
  induction k as [|k IH]; intros i nodes occ g st g' H; cbn [place_for] in H.
  - apply ret_Ok in H as [-> _]. simpl. lia.
  - gen_inv H. apply IH in H. apply place_while_length in Hm. lia.
Qed.

(** Pruning touches nothing but [requiredConnections]. *)
Lemma place_add_required i c nodes :
  map place (add_required i c nodes) = map place nodes.
Proof.
  induction nodes as [|n rest IH]; simpl; [reflexivity|].
  destruct (String.eqb (id n) i); simpl; [reflexivity|]. now rewrite IH.
Qed.

Lemma prune_loop_place maxc edges : forall nodes valid res,
  prune_loop maxc edges nodes valid = Ok res ->
  map place (fst res) = map place nodes.
Proof.
  induction edges as [|e rest IH]; intros nodes valid res H; simpl in H.
  - now injection H as <-.
  - destruct (find_node (nodeA e) nodes) as [nA|]; simpl in H; [|discriminate].
    destruct (requiredConnections nA + count e <=? maxc); [|eauto].
    destruct (find_node (nodeB e) nodes) as [nB|]; simpl in H; [|discriminate].
    destruct (requiredConnections nB + count e <=? maxc); [|eauto].
    apply IH in H. now rewrite H, !place_add_required.
Qed.

Lemma place_setRequired_all nodes :
  Forall (fun n => place n = n) nodes ->
  map place (map (fun n => setRequired n 0) nodes) = nodes.
Proof.
  induction 1 as [|n rest Hn _ IH]; simpl; [reflexivity|].
  rewrite IH. f_equal. destruct n; simpl in *. exact Hn.
Qed.

(** The nodes of a generated puzzle are the placed nodes, up to
    [requiredConnections]. *)
Lemma tryGenerate_placed R gs nr maxc g p g' :
  tryGenerate R gs nr maxc g = (Ok p, g') ->
  exists r g1 placed g2,
    random_floor R (snd nr - fst nr + 1) g = (Ok r, g1) /\
    place_for R (Z.to_nat (r + fst nr)) 0 gs [] [] g1 = (Ok placed, g2) /\
    (Z.of_nat (List.length (fst placed)) <? fst nr) = false /\
    placement_inv (fst placed) (snd placed) /\
    map place (nodes p) = fst placed.
Proof.
  intros H. apply tryGenerate_stages in H.
  destruct H as (r & g1 & placed & g2 & ps & g3 & tree & g4 & edges & g5 &
                 pruned & Hr & Hpl & Hlen & _ & _ & _ & _ & Hpr & _ & ->).
  exists r, g1, placed, g2. repeat (split; [assumption|]).
  assert (placement_inv (fst placed) (snd placed)) as Hinv.
  { eapply place_for_inv; [exact Hpl|]. repeat constructor. }
  split; [exact Hinv|]. simpl.
  apply prune_loop_place in Hpr. rewrite Hpr.
  apply place_setRequired_all. apply Hinv.
Qed.

Lemma cell_place n : cell (place n) = cell n.
Proof. reflexivity. Qed.

Lemma node_key_cell n : node_key n = cell_key (fst (cell n)) (snd (cell n)).
Proof. reflexivity. Qed.

Lemma tryGenerate_cells R gs nr maxc g p g' :
  tryGenerate R gs nr maxc g = (Ok p, g') -> NoDup (map cell (nodes p)).
Proof.
  intros H. apply tryGenerate_placed in H.
  destruct H as (r & g1 & placed & g2 & _ & _ & _ & (Hocc & Hnd & _) & Hp).
  assert (map cell (nodes p) = map cell (fst placed)) as ->.
  { rewrite <- Hp, map_map. apply map_ext. intros n. reflexivity. }
  rewrite Hocc in Hnd.
  apply (NoDup_map_inv (fun c => cell_key (fst c) (snd c))).
  rewrite map_map. exact Hnd.
Qed.

(** X1. No two nodes of a generated puzzle share a grid cell, whatever the
    random draws were and whether the puzzle came from an attempt or is the
    fallback. *)
Theorem generate_cells_distinct (R : RandomSource) (difficulty : Difficulty)
    (g g' : rstate R) (p : Puzzle) :
  generate R difficulty g = (Ok p, g') -> NoDup (map cell (nodes p)).
Proof.
  intros H. apply generate_cases in H as [->|(g0 & g1 & H)].
  - repeat constructor; simpl; intuition discriminate.
  - eapply tryGenerate_cells; eauto.
Qed.

Lemma in_grid_place gs n : in_grid gs (place n) <-> in_grid gs n.
Proof. reflexivity. Qed.

Lemma tryGenerate_grid R gs nr maxc g p g' :
  floor_in_range R -> 0 < gs ->
  tryGenerate R gs nr maxc g = (Ok p, g') ->
  Forall (in_grid gs) (nodes p).
Proof.
  intros HR Hgs H. apply tryGenerate_placed in H.
  destruct H as (r & g1 & placed & g2 & _ & Hpl & _ & _ & Hp).
  apply place_for_grid in Hpl; auto.
  rewrite <- Hp in Hpl. rewrite Forall_map in Hpl.
  eapply Forall_impl; [|exact Hpl]. intros n Hn. now apply in_grid_place.
Qed.

Lemma tryGenerate_node_count R gs nr maxc g p g' :
  floor_in_range R -> fst nr <= snd nr -> 0 <= fst nr ->
  tryGenerate R gs nr maxc g = (Ok p, g') ->
  fst nr <= Z.of_nat (List.length (nodes p)) <= snd nr.
Proof.
  intros HR Hle Hmin H. apply tryGenerate_placed in H.
  destruct H as (r & g1 & placed & g2 & Hr & Hpl & Hlen & _ & Hp).
  assert (List.length (nodes p) = List.length (fst placed)) as ->.
  { now rewrite <- Hp, length_map. }
  apply random_floor_Ok in Hr.
  assert (0 <= r < snd nr - fst nr + 1) by (subst r; apply HR; lia).
  apply place_for_length in Hpl. simpl in Hpl.
  apply Z.ltb_ge in Hlen. lia.
Qed.

(** X2. When [Math.floor(Math.random() * n)] lies in [0, n), every node of a
    generated puzzle lies on the grid of its difficulty, and the puzzle is
    either the four-node fallback or has a number of nodes within the range
    of its difficulty. *)
Theorem generate_on_grid (R : RandomSource) (difficulty : Difficulty)
    (g g' : rstate R) (p : Puzzle) :
  floor_in_range R ->
  generate R difficulty g = (Ok p, g') ->
  Forall (in_grid (gridSize (DIFFICULTY_SETTINGS difficulty))) (nodes p) /\
  (p = createFallbackPuzzle \/
   fst (nodeCount (DIFFICULTY_SETTINGS difficulty))
   <= Z.of_nat (List.length (nodes p))
   <= snd (nodeCount (DIFFICULTY_SETTINGS difficulty))).
Proof.
  intros HR H. apply generate_cases in H as [->|(g0 & g1 & H)].
  - split; [|now left].
    destruct difficulty; repeat constructor; simpl; lia.
  - split.
    + eapply tryGenerate_grid; eauto. destruct difficulty; simpl; lia.
    + right. eapply tryGenerate_node_count; eauto;
        destruct difficulty; simpl; lia.
Qed.

(* ------------------------------------------------------------------ *)
(** ** Requirements are the degrees of the solution *)

Lemma add_required_map i c nodes :
  NoDup (map id nodes) ->
  add_required i c nodes
  = map (fun n => if String.eqb (id n) i
                  then setRequired n (requiredConnections n + c) else n) nodes.
Proof.
  induction nodes as [|n rest IH]; simpl; [reflexivity|].
  intros Hnd. inversion Hnd as [|? ? Hnotin Hrest]; subst.
  destruct (String.eqb (id n) i) eqn:E.
  - f_equal. apply String.eqb_eq in E. subst i.
    clear IH Hnd Hrest. induction rest as [|m rest IH]; simpl; [reflexivity|].
    simpl in Hnotin.
    destruct (String.eqb (id m) (id n)) eqn:E.
    + apply String.eqb_eq in E. exfalso. apply Hnotin. now left.
    + f_equal. apply IH. tauto.
  - f_equal. now apply IH.
Qed.

Lemma degree_app edges e i :
  degree (edges ++ [e]) i
  = degree edges i + (if incident i e then count e else 0).
Proof.
  unfold degree. rewrite filter_app, map_app, fold_right_app. simpl.
  generalize (map count (filter (incident i) edges)) as l.
  destruct (incident i e); simpl; induction l as [|z l IH]; simpl; lia.
Qed.

Lemma prune_loop_degree maxc edges : forall nodes valid res,
  prune_loop maxc edges nodes valid = Ok res ->
  NoDup (map id nodes) ->
  Forall edge_ok edges ->
  Forall (fun n => requiredConnections n = degree valid (id n)) nodes ->
  Forall (fun n => requiredConnections n = degree (snd res) (id n)) (fst res).
Proof.
  induction edges as [|e rest IH]; intros nodes valid res H Hnd Hok Hinv;
    simpl in H.
  - now injection H as <-.
  - inversion Hok as [|? ? [Hne _] Hrest]; subst.
    destruct (find_node (nodeA e) nodes) as [nA|]; simpl in H; [|discriminate].
    destruct (requiredConnections nA + count e <=? maxc); [|eauto].
    destruct (find_node (nodeB e) nodes) as [nB|]; simpl in H; [|discriminate].
    destruct (requiredConnections nB + count e <=? maxc); [|eauto].
    apply IH in H; auto.
    + now rewrite !ids_add_required.
    + rewrite (add_required_map (nodeB e)) by now rewrite ids_add_required.
      rewrite (add_required_map (nodeA e)) by assumption.
      rewrite !Forall_map. eapply Forall_impl; [|exact Hinv].
      intros n Hn. cbv beta in Hn |- *. rewrite degree_app. unfold incident.
      destruct (String.eqb (id n) (nodeA e)) eqn:EA; unfold setRequired; simpl.
      * apply String.eqb_eq in EA.
        assert (String.eqb (id n) (nodeB e) = false) as ->
          by (apply String.eqb_neq; congruence).
        rewrite <- EA, String.eqb_refl.
        unfold setRequired; simpl. lia.
      * destruct (String.eqb (id n) (nodeB e)) eqn:EB; simpl;
          rewrite (String.eqb_sym (nodeA e)), EA,
                  (String.eqb_sym (nodeB e)), EB; simpl; lia.
Qed.

(** The edges handed to the pruning loop join different nodes with one or
    two cables. *)
Lemma candidates_edges_ok R (N : list NodeData) ps tree edges g2 g3 g4 g5 ds0
    target :
  sort_permutes R ->
  NoDup (map id N) ->
  shuffle R (all_pairs N N) g2 = (Ok ps, g3) ->
  spanning_loop R N (nodeIndexMap N) ps [] ds0 g3 = (Ok tree, g4) ->
  extra_loop R N ps target 0 (fst tree) g4 = (Ok edges, g5) ->
  Forall edge_ok edges.
Proof.
  intros Hsort Hnd Hsh Hsp Hex.
  assert (Hcand : forall q, In q ps -> id (u q) <> id (v q)).
  { intros q Hq. apply (shuffle_Ok _ _ _ _ _ Hsort) in Hsh.
    apply (Permutation_in _ Hsh) in Hq.
    eapply all_pairs_distinct; eauto. }
  apply spanning_loop_edges_ok in Hsp; auto.
  apply extra_loop_edges_ok in Hex; auto.
Qed.

Lemma tryGenerate_degree R gs nr maxc g p g' :
  sort_permutes R ->
  tryGenerate R gs nr maxc g = (Ok p, g') ->
  Forall (fun n => requiredConnections n = degree (solutionEdges p) (id n))
    (nodes p).
Proof.
  intros Hsort H. apply tryGenerate_stages in H.
  destruct H as (r & g1 & placed & g2 & ps & g3 & tree & g4 & edges & g5 &
                 pruned & Hr & Hpl & Hlen & Hsh & Hsp & _ & Hex & Hpr & _ & ->).
  apply place_for_ids in Hpl; [|split; [constructor | intros n []]].
  destruct Hpl as [Hnd _].
  pose proof (candidates_edges_ok _ _ _ _ _ _ _ _ _ _ _ Hsort Hnd Hsh Hsp Hex)
    as Hok.
  simpl. apply prune_loop_degree in Hpr; auto.
  - rewrite map_map. exact Hnd.
  - rewrite Forall_map. apply Forall_forall. intros n _. reflexivity.
Qed.

Lemma generate_degree R difficulty g p g' :
  sort_permutes R ->
  generate R difficulty g = (Ok p, g') ->
  Forall (fun n => requiredConnections n = degree (solutionEdges p) (id n))
    (nodes p).
Proof.
  intros Hsort H. apply generate_cases in H as [->|(g0 & g1 & H)].
  - repeat constructor.
  - eapply tryGenerate_degree; eauto.
Qed.

(** X3. The number a generated puzzle shows on a node is the degree of that
    node in the puzzle's own solution: the cables of the solution edges that
    end there, provided the engine's sort returns its input reordered.  It
    holds for the fallback puzzle as well. *)
Theorem generate_required_is_degree (R : RandomSource)
    (difficulty : Difficulty) (g g' : rstate R) (p : Puzzle) :
  sort_permutes R ->
  generate R difficulty g = (Ok p, g') ->
  Forall (fun n => requiredConnections n = degree (solutionEdges p) (id n))
    (nodes p).
Proof.
  intros Hsort H. apply generate_cases in H as [->|(g0 & g1 & H)].
  - repeat constructor.
  - eapply tryGenerate_degree; eauto.
Qed.

(* ------------------------------------------------------------------ *)
(** ** The solution is a legal drawing *)

Lemma linesCross_swap a1 a2 b1 b2 :
  linesCross a1 a2 b1 b2 = linesCross b1 b2 a1 a2.
Proof.
  unfold linesCross.
  destruct (x a1 =? x a2), (x b1 =? x b2); simpl; auto using andb_comm.
Qed.

Lemma linesCross_same_dir a1 a2 b1 b2 :
  (x a1 =? x a2) = (x b1 =? x b2) -> linesCross a1 a2 b1 b2 = false.
Proof.
  unfold linesCross. intros ->. now rewrite Bool.eqb_reflx.
Qed.

Lemma isCrossing_false nodes edges a b :
  isCrossing nodes edges a b = Ok false ->
  forall e eU eV, In e edges ->
    find_node (nodeA e) nodes = Some eU ->
    find_node (nodeB e) nodes = Some eV ->
    linesCross a b eU eV = false.
Proof.
  induction edges as [|e0 rest IH]; simpl; intros H e eU eV Hin HU HV.
  - destruct Hin.
  - destruct (find_node (nodeA e0) nodes) as [n1|] eqn:E1; [|discriminate].
    destruct (find_node (nodeB e0) nodes) as [n2|] eqn:E2; [|discriminate].
    destruct (linesCross a b n1 n2) eqn:E; [discriminate|].
    destruct Hin as [<-|Hin]; [congruence|]. eapply IH; eauto.
Qed.

Lemma pairs_with_candidate u0 later nodes p :
  In p (pairs_with u0 later nodes) ->
  aligned (u p) (v p) /\ isNodeBetween (u p) (v p) nodes = false.
Proof.
  induction later as [|w rest IH]; simpl; [tauto|].
  destruct (negb (x u0 =? x w) && negb (y u0 =? y w)) eqn:E; auto.
  destruct (isNodeBetween u0 w nodes) eqn:Eb; auto.
  intros [<-|Hin]; auto. simpl. split; auto.
  unfold aligned.
  destruct (Z.eqb_spec (x u0) (x w)); auto.
  destruct (Z.eqb_spec (y u0) (y w)); auto. discriminate.
Qed.

Lemma all_pairs_candidate l nodes p :
  In p (all_pairs l nodes) ->
  aligned (u p) (v p) /\ isNodeBetween (u p) (v p) nodes = false.
Proof.
  induction l as [|u0 later IH]; simpl; [tauto|].
  intros Hin. apply in_app_or in Hin as [Hin|Hin]; auto.
  eapply pairs_with_candidate; eauto.
Qed.

Lemma all_pairs_candidate_ok N p :
  NoDup (map id N) -> In p (all_pairs N N) -> candidate_ok N p.
Proof.
  intros Hnd Hin. unfold candidate_ok.
  destruct (all_pairs_in _ _ _ Hin) as [Hu Hv].
  destruct (all_pairs_candidate _ _ _ Hin) as [Ha Hb].
  repeat (split; auto). eapply all_pairs_distinct; eauto.
Qed.

Section Accept.

Variable R : RandomSource.
Variable N : list NodeData.
Variable P : list EdgeData -> Prop.
Variable candidates : list PotentialEdge.

Hypothesis P_step : forall edges p c,
  In p candidates -> c = 1 \/ c = 2 ->
  isCrossing N edges (u p) (v p) = Ok false ->
  P edges -> P (edges ++ [edge_of p c]).

(** Whatever holds of the accepted edges and is kept by accepting one more
    candidate that crosses none of them, holds when the loop ends. *)
Lemma spanning_loop_accepts index ps : forall edges ds g res g',
  spanning_loop R N index ps edges ds g = (Ok res, g') ->
  incl ps candidates -> P edges -> P (fst res).
Proof.
  induction ps as [|p rest IH]; intros edges ds g res g' H Hps HP.
  - apply ret_Ok in H as [-> _]. auto.
  - assert (Hrest : incl rest candidates)
      by (intros q Hq; apply Hps; now right).
    cbn [spanning_loop] in H. do 4 gen_inv H.
    destruct (negb (Nat.eqb _ _)); [|eapply IH; eauto].
    apply bindG_Ok in H. destruct H as (cr & gc & Hcr & H).
    apply lift_Ok in Hcr as [Hcr _].
    destruct cr; cbn [negb] in H; [eapply IH; eauto|].
    apply bindG_Ok in H. destruct H as (ds' & gd & _ & H).
    apply bindG_Ok in H. destruct H as (b & gb & _ & H).
    eapply IH; eauto.
    apply (P_step edges p (if b then 2 else 1)); auto.
    + apply Hps. now left.
    + destruct b; auto.
Qed.

Lemma extra_loop_accepts ps target : forall added edges g res g',
  extra_loop R N ps target added edges g = (Ok res, g') ->
  incl ps candidates -> P edges -> P res.
Proof.
  induction ps as [|p rest IH]; intros added edges g res g' H Hps HP.
  - apply ret_Ok in H as [-> _]. auto.
  - assert (Hrest : incl rest candidates)
      by (intros q Hq; apply Hps; now right).
    cbn [extra_loop] in H.
    destruct (added >=? target); [apply ret_Ok in H as [-> _]; auto|].
    destruct (existsb _ edges); [eapply IH; eauto|].
    apply bindG_Ok in H. destruct H as (cr & gc & Hcr & H).
    apply lift_Ok in Hcr as [Hcr _].
    destruct cr; cbn [negb] in H; [eapply IH; eauto|].
    apply bindG_Ok in H. destruct H as (b & gb & _ & H).
    eapply IH; eauto.
    apply (P_step edges p (if b then 2 else 1)); auto.
    + apply Hps. now left.
    + destruct b; auto.
Qed.

End Accept.

Lemma from_candidate_resolves N e :
  NoDup (map id N) -> from_candidate N e ->
  exists p c, e = edge_of p c /\ candidate_ok N p /\ (c = 1 \/ c = 2) /\
    find_node (nodeA e) N = Some (u p) /\
    find_node (nodeB e) N = Some (v p).
Proof.
  intros Hnd (p & c & Hc & -> & Hcount). exists p, c.
  destruct Hc as (Hu & Hv & Hc). repeat (split; auto); simpl.
  - now apply find_node_unique.
  - now apply find_node_unique.
Qed.

(** Accepting a candidate that crosses no accepted edge keeps the drawing
    free of crossings. *)
Lemma accepted_step N edges p c :
  NoDup (map id N) ->
  candidate_ok N p -> c = 1 \/ c = 2 ->
  isCrossing N edges (u p) (v p) = Ok false ->
  Forall (from_candidate N) edges /\ none_cross N edges ->
  Forall (from_candidate N) (edges ++ [edge_of p c]) /\
  none_cross N (edges ++ [edge_of p c]).
Proof.
  intros Hnd Hc Hcount Hcr [Hfrom Hnone]. split.
  - apply Forall_app. split; auto. constructor; auto. now exists p, c.
  - destruct Hc as (Hu & Hv & _).
    pose proof (find_node_unique _ _ Hnd Hu) as Fu.
    pose proof (find_node_unique _ _ Hnd Hv) as Fv.
    intros e1 e2 a1 b1 a2 b2 H1 H2 F1 G1 F2 G2.
    apply in_app_or in H1, H2.
    destruct H1 as [H1|[<-|[]]], H2 as [H2|[<-|[]]];
      unfold edge_of in *; cbn [nodeA nodeB] in *.
    + exact (Hnone e1 e2 a1 b1 a2 b2 H1 H2 F1 G1 F2 G2).
    + rewrite linesCross_swap.
      assert (a2 = u p) as -> by congruence.
      assert (b2 = v p) as -> by congruence.
      eapply isCrossing_false; eauto.
    + assert (a1 = u p) as -> by congruence.
      assert (b1 = v p) as -> by congruence.
      eapply isCrossing_false; eauto.
    + apply linesCross_same_dir. congruence.
Qed.

(** *** No pair of nodes is joined twice *)

Lemma pairs_with_keys u0 later nodes :
  dash_free (id u0) = true ->
  Forall (fun n => dash_free (id n) = true) later ->
  NoDup (map id later) -> ~ In (id u0) (map id later) ->
  NoDup (map cand_key (pairs_with u0 later nodes)).
Proof.
  intros Hu. induction later as [|w rest IH]; simpl; intros Hd Hnd Hnotin.
  - constructor.
  - inversion Hd as [|? ? Hw Hdrest]; subst.
    inversion Hnd as [|? ? Hwn Hndrest]; subst.
    assert (NoDup (map cand_key (pairs_with u0 rest nodes))) as Hrec
      by (apply IH; auto).
    destruct (negb (x u0 =? x w) && negb (y u0 =? y w)); auto.
    destruct (isNodeBetween u0 w nodes); auto.
    simpl. constructor; auto.
    intros Hin. apply in_map_iff in Hin as (q & Hk & Hq).
    apply pairs_with_spec in Hq as [Hqu Hqv].
    unfold cand_key in Hk. simpl in Hk. rewrite Hqu in Hk.
    assert (dash_free (id (v q)) = true) as Hvq
      by (apply (proj1 (Forall_forall _ _) Hdrest); auto).
    apply getEdgeKey_inj in Hk; auto.
    destruct Hk as [[_ E]|[E _]].
    + apply Hwn. rewrite <- E. now apply in_map.
    + apply Hnotin. left. congruence.
Qed.

Lemma all_pairs_keys l nodes :
  Forall (fun n => dash_free (id n) = true) l ->
  NoDup (map id l) ->
  NoDup (map cand_key (all_pairs l nodes)).
Proof.
  induction l as [|u0 later IH]; simpl; intros Hd Hnd.
  - constructor.
  - inversion Hd as [|? ? Hu Hdrest]; subst.
    inversion Hnd as [|? ? Hun Hndrest]; subst.
    rewrite map_app. apply NoDup_app.
    + now apply pairs_with_keys.
    + now apply IH.
    + intros k H1 H2.
      apply in_map_iff in H1 as (q1 & K1 & Q1).
      apply in_map_iff in H2 as (q2 & K2 & Q2).
      apply pairs_with_spec in Q1 as [Q1u Q1v].
      apply all_pairs_in in Q2 as [Q2u Q2v].
      pose proof (proj1 (Forall_forall _ _) Hdrest) as Hdash.
      unfold cand_key in K1, K2. rewrite <- K2, Q1u in K1.
      apply getEdgeKey_inj in K1; auto.
      destruct K1 as [[E _]|[E _]]; apply Hun; rewrite E; now apply in_map.
Qed.

Lemma spanning_loop_keys R N index ps : forall edges ds g res g',
  spanning_loop R N index ps edges ds g = (Ok res, g') ->
  NoDup (map pair_key edges ++ map cand_key ps) ->
  NoDup (map pair_key (fst res)).
Proof.
  induction ps as [|p rest IH]; intros edges ds g res g' H Hnd.
  - apply ret_Ok in H as [-> _]. simpl in *. now rewrite app_nil_r in Hnd.
  - assert (Hrest : NoDup (map pair_key edges ++ map cand_key rest))
      by (simpl in Hnd; now apply NoDup_remove_1 in Hnd).
    cbn [spanning_loop] in H. do 4 gen_inv H.
    destruct (negb (Nat.eqb _ _)); [|eapply IH; eauto].
    gen_inv H. destruct (negb _); [|eapply IH; eauto].
    do 2 gen_inv H. eapply IH; eauto.
    rewrite map_app, <- app_assoc. exact Hnd.
Qed.

Lemma exists_check_false (p : PotentialEdge) edges :
  existsb (fun e =>
     (String.eqb (nodeA e) (id (u p)) && String.eqb (nodeB e) (id (v p))) ||
     (String.eqb (nodeA e) (id (v p)) && String.eqb (nodeB e) (id (u p))))
    edges = false ->
  dash_free (id (u p)) = true -> dash_free (id (v p)) = true ->
  Forall (fun e => dash_free (nodeA e) = true /\ dash_free (nodeB e) = true)
    edges ->
  ~ In (cand_key p) (map pair_key edges).
Proof.
  intros Hex Hu Hv Hd Hin.
  apply in_map_iff in Hin as (e & Hk & He).
  destruct (proj1 (Forall_forall _ _) Hd e He) as [HA HB].
  unfold pair_key, cand_key in Hk. apply getEdgeKey_inj in Hk; auto.
  assert (existsb (fun e =>
     (String.eqb (nodeA e) (id (u p)) && String.eqb (nodeB e) (id (v p))) ||
     (String.eqb (nodeA e) (id (v p)) && String.eqb (nodeB e) (id (u p))))
    edges = true); [|congruence].
  apply existsb_exists. exists e. split; auto.
  destruct Hk as [[-> ->]|[-> ->]]; rewrite !String.eqb_refl; simpl; auto.
  apply orb_true_r.
Qed.

Lemma extra_loop_keys R N ps target : forall added edges g res g',
  extra_loop R N ps target added edges g = (Ok res, g') ->
  (forall p, In p ps ->
     dash_free (id (u p)) = true /\ dash_free (id (v p)) = true) ->
  Forall (fun e => dash_free (nodeA e) = true /\ dash_free (nodeB e) = true)
    edges ->
  NoDup (map pair_key edges) ->
  NoDup (map pair_key res).
Proof.
  induction ps as [|p rest IH]; intros added edges g res g' H Hps Hd Hnd.
  - apply ret_Ok in H as [-> _]. auto.
  - assert (Hrest : forall q, In q rest ->
              dash_free (id (u q)) = true /\ dash_free (id (v q)) = true)
      by (intros q Hq; apply Hps; now right).
    destruct (Hps p (or_introl eq_refl)) as [Hu Hv].
    cbn [extra_loop] in H.
    destruct (added >=? target); [apply ret_Ok in H as [-> _]; auto|].
    destruct (existsb _ edges) eqn:Hex; [eapply IH; eauto|].
    gen_inv H. destruct (negb _); [|eapply IH; eauto].
    gen_inv H. eapply IH; eauto.
    + apply Forall_app. split; auto.
    + rewrite map_app. apply NoDup_app; auto.
      * repeat constructor. simpl. tauto.
      * intros k Hk [<-|[]].
        revert Hk. now apply exists_check_false.
Qed.

Lemma prune_loop_keys maxc edges : forall nodes valid res,
  prune_loop maxc edges nodes valid = Ok res ->
  NoDup (map pair_key (valid ++ edges)) ->
  NoDup (map pair_key (snd res)).
Proof.
  induction edges as [|e rest IH]; intros nodes valid res H Hnd; simpl in H.
  - injection H as <-. simpl. now rewrite app_nil_r in Hnd.
  - assert (Hrest : NoDup (map pair_key (valid ++ rest))).
    { rewrite map_app in *. simpl in Hnd. now apply NoDup_remove_1 in Hnd. }
    destruct (find_node (nodeA e) nodes) as [nA|]; simpl in H; [|discriminate].
    destruct (requiredConnections nA + count e <=? maxc); [|eauto].
    destruct (find_node (nodeB e) nodes) as [nB|]; simpl in H; [|discriminate].
    destruct (requiredConnections nB + count e <=? maxc); [|eauto].
    eapply IH; eauto. now rewrite <- app_assoc.
Qed.

Lemma prune_loop_incl maxc edges : forall nodes valid res,
  prune_loop maxc edges nodes valid = Ok res ->
  forall e, In e (snd res) -> In e valid \/ In e edges.
Proof.
  induction edges as [|e0 rest IH]; intros nodes valid res H e He; simpl in H.
  - injection H as <-. now left.
  - destruct (find_node (nodeA e0) nodes) as [nA|]; simpl in H; [|discriminate].
    assert (Hskip : prune_loop maxc rest nodes valid = Ok res ->
                    In e valid \/ In e (e0 :: rest)).
    { intros H'. destruct (IH _ _ _ H' e He); [now left | right; now right]. }
    destruct (requiredConnections nA + count e0 <=? maxc); [|auto].
    destruct (find_node (nodeB e0) nodes) as [nB|]; simpl in H; [|discriminate].
    destruct (requiredConnections nB + count e0 <=? maxc); [|auto].
    destruct (IH _ _ _ H e He) as [Hin|Hin]; [|right; now right].
    apply in_app_or in Hin as [Hin|[<-|[]]]; [now left | right; now left].
Qed.

(** *** From the placed nodes to the nodes of the puzzle *)

Lemma find_node_place i nodes :
  find_node i (map place nodes) = option_map place (find_node i nodes).
Proof.
  induction nodes as [|n rest IH]; simpl; [reflexivity|].
  destruct (String.eqb (id n) i); auto.
Qed.

Lemma isNodeBetween_place a b nodes :
  isNodeBetween (place a) (place b) (map place nodes) = isNodeBetween a b nodes.
Proof.
  unfold isNodeBetween. simpl.
  generalize (x a =? x b) as vert. intros vert.
  induction nodes as [|n rest IH]; simpl; [reflexivity|].
  rewrite IH. reflexivity.
Qed.

Lemma legal_solution_transfer N F edges :
  map place F = N ->
  NoDup (map id N) ->
  Forall (from_candidate N) edges ->
  none_cross N edges ->
  NoDup (map pair_key edges) ->
  legal_solution F edges.
Proof.
  intros Hp Hnd Hfrom Hnone Hkeys.
  assert (Hfind : forall i, find_node i N = option_map place (find_node i F))
    by (intros i; rewrite <- Hp; apply find_node_place).
  split; [|split; [|split]]; auto.
  - assert (map id F = map id N) as ->; auto.
    rewrite <- Hp, map_map. reflexivity.
  - intros e He.
    apply (proj1 (Forall_forall _ _) Hfrom) in He.
    apply from_candidate_resolves in He; auto.
    destruct He as (p & c & -> & (Hu & Hv & Hne & Hal & Hbt) & Hc & FA & FB).
    rewrite Hfind in FA, FB. simpl in FA, FB |- *.
    destruct (find_node (id (u p)) F) as [a|]; [|discriminate].
    destruct (find_node (id (v p)) F) as [b|]; [|discriminate].
    injection FA as FA. injection FB as FB.
    exists a, b. repeat (split; auto).
    + rewrite <- FA, <- FB in Hal. exact Hal.
    + rewrite <- (isNodeBetween_place a b F), Hp, FA, FB. exact Hbt.
  - intros e1 e2 a1 b1 a2 b2 H1 H2 F1 G1 F2 G2.
    change (linesCross (place a1) (place b1) (place a2) (place b2) = false).
    apply (Hnone e1 e2); auto; rewrite Hfind.
    + now rewrite F1.
    + now rewrite G1.
    + now rewrite F2.
    + now rewrite G2.
Qed.

Lemma from_candidate_dash_free N e :
  Forall (fun n => dash_free (id n) = true) N ->
  from_candidate N e ->
  dash_free (nodeA e) = true /\ dash_free (nodeB e) = true.
Proof.
  intros Hd (p & c & (Hu & Hv & _) & -> & _). simpl.
  split; apply (proj1 (Forall_forall _ _) Hd); auto.
Qed.

(** The edges accepted by steps 3 and 4 come from candidates, cross nowhere
    and join no pair twice. *)
Lemma accepted_edges R (N : list NodeData) ps tree edges g2 g3 g4 g5 ds0
    index target :
  sort_permutes R ->
  NoDup (map id N) ->
  Forall (fun n => dash_free (id n) = true) N ->
  shuffle R (all_pairs N N) g2 = (Ok ps, g3) ->
  spanning_loop R N index ps [] ds0 g3 = (Ok tree, g4) ->
  extra_loop R N ps target 0 (fst tree) g4 = (Ok edges, g5) ->
  (forall q, In q ps -> candidate_ok N q) /\
  Forall (from_candidate N) edges /\ none_cross N edges /\
  NoDup (map pair_key edges).
Proof.
  intros Hsort Hnd Hdash Hsh Hsp Hex.
  pose proof (shuffle_Ok _ _ _ _ _ Hsort Hsh) as Hperm.
  assert (Hcand : forall q, In q ps -> candidate_ok N q).
  { intros q Hq. apply all_pairs_candidate_ok; auto.
    eapply Permutation_in; eauto. }
  (* the accepted edges come from candidates and cross nowhere *)
  assert (Hstep : forall es q c, In q ps -> c = 1 \/ c = 2 ->
            isCrossing N es (u q) (v q) = Ok false ->
            Forall (from_candidate N) es /\ none_cross N es ->
            Forall (from_candidate N) (es ++ [edge_of q c]) /\
            none_cross N (es ++ [edge_of q c])).
  { intros es q c Hq Hc Hcr Hacc. apply accepted_step; auto. }
  assert (Htree : Forall (from_candidate N) (fst tree) /\ none_cross N (fst tree)).
  { eapply (spanning_loop_accepts R N _ ps Hstep); eauto.
    - apply incl_refl.
    - split; [constructor|]. intros e1 e2 a1 b1 a2 b2 []. }
  assert (Hedges : Forall (from_candidate N) edges /\ none_cross N edges).
  { eapply (extra_loop_accepts R N _ ps Hstep); eauto. apply incl_refl. }
  (* no pair is joined twice *)
  assert (Hkps : NoDup (map cand_key ps)).
  { eapply Permutation_NoDup.
    - apply Permutation_map, Permutation_sym, Hperm.
    - now apply all_pairs_keys. }
  assert (Hktree : NoDup (map pair_key (fst tree)))
    by (eapply spanning_loop_keys; eauto).
  assert (Hkedges : NoDup (map pair_key edges)).
  { eapply extra_loop_keys; eauto.
    - intros q Hq. destruct (Hcand q Hq) as (Hu & Hv & _).
      split; apply (proj1 (Forall_forall _ _) Hdash); auto.
    - eapply Forall_impl; [|apply Htree].
      intros e He. now apply (from_candidate_dash_free N). }
  split; [exact Hcand|]. split; [apply Hedges|]. split; [apply Hedges|].
  exact Hkedges.
Qed.

Lemma placed_dash_free i0 (N : list NodeData) :
  placed_ids i0 N -> Forall (fun n => dash_free (id n) = true) N.
Proof.
  intros [_ Hk]. apply Forall_forall. intros n Hn.
  destruct (Hk n Hn) as (k & _ & ->). apply dash_free_node_id.
Qed.

Lemma tryGenerate_legal R gs nr maxc g p g' :
  sort_permutes R ->
  tryGenerate R gs nr maxc g = (Ok p, g') ->
  legal_solution (nodes p) (solutionEdges p).
Proof.
  intros Hsort H. pose proof (tryGenerate_placed _ _ _ _ _ _ _ H) as Hplaced.
  apply tryGenerate_stages in H.
  destruct H as (r & g1 & placed & g2 & ps & g3 & tree & g4 & edges & g5 &
                 pruned & Hr & Hpl & Hlen & Hsh & Hsp & _ & Hex & Hpr & _ & ->).
  destruct Hplaced as (r' & g1' & placed' & g2' & Hr' & Hpl' & _ & _ & Hp).
  rewrite Hr in Hr'. injection Hr' as <- <-.
  rewrite Hpl in Hpl'. injection Hpl' as <-. simpl in Hp |- *.
  set (N := fst placed) in *.
  apply place_for_ids in Hpl; [|split; [constructor | intros n []]].
  pose proof (placed_dash_free _ _ Hpl) as Hdash.
  destruct Hpl as [Hnd Hk]. fold N in Hnd, Hk.
  destruct (accepted_edges R N ps tree edges _ _ _ _ _ _ _ Hsort Hnd Hdash
              Hsh Hsp Hex) as (_ & Hfrom & Hnone & Hkedges).
  assert (Hkvalid : NoDup (map pair_key (snd pruned)))
    by (eapply prune_loop_keys; eauto).
  assert (Hincl : forall e, In e (snd pruned) -> In e edges).
  { intros e He. destruct (prune_loop_incl _ _ _ _ _ Hpr e He) as [[]|]; auto. }
  apply (legal_solution_transfer N); auto.
  - apply Forall_forall. intros e He.
    apply (proj1 (Forall_forall _ _) Hfrom). auto.
  - intros e1 e2 a1 b1 a2 b2 H1 H2. apply Hnone; auto.
Qed.

Lemma generate_legal R difficulty g p g' :
  sort_permutes R ->
  generate R difficulty g = (Ok p, g') ->
  legal_solution (nodes p) (solutionEdges p).
Proof.
  intros Hsort H. apply generate_cases in H as [->|(g0 & g1 & H)].
  - split; [|split; [|split]].
    + repeat constructor; simpl; intuition discriminate.
    + intros e [<-|[<-|[<-|[<-|[]]]]]; simpl;
        do 2 eexists; (split; [reflexivity|]); (split; [reflexivity|]);
        (split; [discriminate|]); unfold aligned; simpl;
        (split; [auto|]); (split; [reflexivity|auto]).
    + intros e1 e2 a1 b1 a2 b2
        [<-|[<-|[<-|[<-|[]]]]] [<-|[<-|[<-|[<-|[]]]]]; simpl;
        intros [= <-] [= <-] [= <-] [= <-]; reflexivity.
    + repeat constructor; simpl; intuition discriminate.
  - eapply tryGenerate_legal; eauto.
Qed.

(** X4. The solution of a generated puzzle is a legal drawing on its nodes:
    ids are unique; every solution edge joins two different nodes that share
    a row or a column with no node between them, with one or two cables; no
    two solution edges cross; and no pair of nodes is joined by two edges.
    This holds provided the engine's sort returns its input reordered, for
    generated puzzles and for the fallback. *)
Theorem generate_solution_legal (R : RandomSource) (difficulty : Difficulty)
    (g g' : rstate R) (p : Puzzle) :
  sort_permutes R ->
  generate R difficulty g = (Ok p, g') ->
  legal_solution (nodes p) (solutionEdges p).
Proof.
  intros Hsort H.
  destruct (generate_cases R difficulty g p g' H) as [E|(g0 & g1 & Ht)].
  - rewrite E in H |- *. now apply (generate_legal R difficulty g _ g').
  - eapply tryGenerate_legal; eauto.
Qed.

(* ================================================================== *)
(** * The scene along a game *)

(** ** Recounting touches nothing but the counts shown *)

Lemma reset_counts_add_count i c hs :
  reset_counts (add_count i c hs) = reset_counts hs.
Proof.
  induction hs as [|h rest IH]; simpl; [reflexivity|].
  destruct (String.eqb (id (dataModel h)) i); simpl; [reflexivity|].
  f_equal. exact IH.
Qed.

Lemma reset_counts_sum_up edges : forall hs,
  reset_counts (sum_up edges hs) = reset_counts hs.
Proof.
  unfold sum_up. induction edges as [|e rest IH]; intros hs; simpl.
  - reflexivity.
  - rewrite IH. unfold sum_edge. now rewrite !reset_counts_add_count.
Qed.

Lemma reset_counts_idem hs : reset_counts (reset_counts hs) = reset_counts hs.
Proof. unfold reset_counts. rewrite map_map. apply map_ext. reflexivity. Qed.

Lemma fst_checkWinCondition hs cm :
  fst (checkWinCondition hs cm) = sum_up (getAllEdges cm) (reset_counts hs).
Proof.
  unfold checkWinCondition. cbv zeta.
  destruct (negb _); [reflexivity|].
  destruct (sum_up _ _) as [|h0 rest]; [reflexivity|].
  destruct (bfs _ _); reflexivity.
Qed.

Lemma recounted_static hs cm :
  reset_counts (fst (checkWinCondition hs cm)) = reset_counts hs.
Proof.
  now rewrite fst_checkWinCondition, reset_counts_sum_up, reset_counts_idem.
Qed.

(** The verdict does not depend on the counts the houses showed before. *)
Lemma checkWinCondition_static hs hs' cm :
  reset_counts hs' = reset_counts hs ->
  checkWinCondition hs' cm = checkWinCondition hs cm.
Proof. intros H. unfold checkWinCondition. cbv zeta. now rewrite H. Qed.

Lemma static_map {A} (f : House -> A) :
  (forall h, f (updateConnectionCount h 0) = f h) ->
  forall hs hs', reset_counts hs' = reset_counts hs -> map f hs' = map f hs.
Proof.
  intros Hf hs hs' H.
  assert (forall l, map f (reset_counts l) = map f l) as Hm.
  { intros l. unfold reset_counts. rewrite map_map. now apply map_ext. }
  now rewrite <- (Hm hs'), H, Hm.
Qed.

Lemma static_ids hs hs' :
  reset_counts hs' = reset_counts hs -> map house_id hs' = map house_id hs.
Proof. apply static_map. reflexivity. Qed.

Lemma static_refs hs hs' :
  reset_counts hs' = reset_counts hs -> map ref hs' = map ref hs.
Proof. apply static_map. reflexivity. Qed.

Lemma static_required hs hs' :
  reset_counts hs' = reset_counts hs ->
  map (fun h => requiredConnections (dataModel h)) hs'
  = map (fun h => requiredConnections (dataModel h)) hs.
Proof. apply (static_map (fun h => requiredConnections (dataModel h))). reflexivity. Qed.

Lemma static_houses_ok hs hs' :
  reset_counts hs' = reset_counts hs -> houses_ok hs -> houses_ok hs'.
Proof.
  intros H [Hnd Hd]. pose proof (static_ids _ _ H) as Hids. split.
  - now rewrite Hids.
  - apply (Forall_map house_id (fun i => dash_free i = true)).
    rewrite Hids. now apply Forall_map.
Qed.

Lemma static_scene_ok hs hs' edges :
  reset_counts hs' = reset_counts hs -> scene_ok hs edges -> scene_ok hs' edges.
Proof.
  intros H. unfold scene_ok. now rewrite (static_ids _ _ H).
Qed.

(** After a recount every house shows its degree on the board. *)
Lemma recount_degree hs edges :
  NoDup (map house_id hs) ->
  (forall e, In e edges -> nodeA e <> nodeB e) ->
  Forall (fun h => currentConnections (dataModel h) = degree edges (house_id h))
    (sum_up edges (reset_counts hs)).
Proof.
  intros Hnd Hne. apply Forall_forall. intros h' Hin.
  assert (NoDup (map house_id (sum_up edges (reset_counts hs)))) as Hnd'
    by now rewrite recount_shape.
  pose proof (find_house_unique _ _ Hnd' Hin) as Hf.
  rewrite find_house_sum_up, find_house_reset_counts in Hf by assumption.
  destruct (find_house (house_id h') hs) as [h0|]; [|discriminate].
  simpl in Hf. injection Hf as E.
  apply (f_equal (fun h => currentConnections (dataModel h))) in E.
  simpl in E. lia.
Qed.

(** ** References *)

Lemma deref_Some hs r h :
  GameScene.deref hs r = Some h -> In h hs /\ ref h = r.
Proof.
  unfold GameScene.deref. intros H. apply find_some in H as [Hin E].
  split; auto. now apply Nat.eqb_eq in E.
Qed.

Lemma deref_in hs r :
  In r (map ref hs) -> exists h, GameScene.deref hs r = Some h.
Proof.
  unfold GameScene.deref. intros H. apply in_map_iff in H as (h & E & Hin).
  destruct (find (fun h => Nat.eqb (ref h) r) hs) as [h'|] eqn:F; eauto.
  exfalso. apply (find_none _ _ F) in Hin. rewrite E, Nat.eqb_refl in Hin.
  discriminate.
Qed.

Lemma deref_self hs h :
  NoDup (map ref hs) -> In h hs -> GameScene.deref hs (ref h) = Some h.
Proof.
  unfold GameScene.deref. induction hs as [|h0 rest IH]; simpl; [tauto|].
  intros Hnd Hin. inversion Hnd as [|? ? Hnotin Hrest]; subst.
  destruct (Nat.eqb (ref h0) (ref h)) eqn:E.
  - destruct Hin as [->|Hin]; auto.
    apply Nat.eqb_eq in E. exfalso. apply Hnotin. rewrite E. now apply in_map.
  - destruct Hin as [->|Hin]; [now rewrite Nat.eqb_refl in E|]. auto.
Qed.

Lemma NoDup_map_eq {A B} (f : A -> B) l a b :
  NoDup (map f l) -> In a l -> In b l -> f a = f b -> a = b.
Proof.
  induction l as [|c rest IH]; simpl; [tauto|].
  intros Hnd Ha Hb E. inversion Hnd as [|? ? Hnotin Hrest]; subst.
  destruct Ha as [->|Ha], Hb as [->|Hb]; auto.
  - exfalso. apply Hnotin. rewrite E. now apply in_map.
  - exfalso. apply Hnotin. rewrite <- E. now apply in_map.
Qed.

(** ** One change of the edge map *)

Lemma hasConnection_range edges i j :
  edges_inv edges ->
  hasConnection edges i j = 0 \/ hasConnection edges i j = 1 \/
  hasConnection edges i j = 2.
Proof.
  intros [_ Hent]. unfold hasConnection.
  destruct (JsMap.get (getEdgeKey i j) edges) as [e|] eqn:G; auto.
  apply JsMapFacts.get_Some_in in G.
  destruct (Hent _ _ G) as [_ [-> | ->]]; simpl; auto.
Qed.

Lemma scene_ok_apply_op hs edges op :
  scene_ok hs (getAllEdges edges) ->
  match op with
  | OpToggle a b | OpSet a b _ =>
      In (house_id a) (map house_id hs) /\ In (house_id b) (map house_id hs) /\
      house_id a <> house_id b
  | OpReset => True
  end ->
  scene_ok hs (getAllEdges (apply_op edges op)).
Proof.
  intros [Hnd Hends] Hop. split; auto. intros e He.
  apply values_apply_op in He as [He | (a & b & Hab & HA & HB)]; auto.
  rewrite HA, HB.
  destruct Hab as [-> | [c ->]]; exact Hop.
Qed.

Lemma scene_ok_resolve hs edges :
  scene_ok hs (getAllEdges edges) -> edges_resolve hs edges.
Proof.
  intros [_ Hends] e He. destruct (Hends e He) as (HA & HB & _).
  split; now apply find_house_in_ids.
Qed.

(** ** The handlers keep the invariant *)

Lemma static_inv_fields hs cm sel b d hist hs' sel' b' d' :
  GameScene.static_inv (GameScene.mk hs cm sel b d hist) ->
  reset_counts hs' = reset_counts hs ->
  (forall r, sel' = Some r -> In r (map ref hs)) ->
  GameScene.static_inv (GameScene.mk hs' cm sel' b' d' hist).
Proof.
  unfold GameScene.static_inv. simpl.
  intros (H1 & H2 & H3 & H4 & H5 & H6 & H7) Hs Hsel.
  rewrite (static_ids _ _ Hs), (static_refs _ _ Hs).
  split; [eapply static_houses_ok; eauto|].
  split; [exact H2|]. split; [exact H3|].
  split; [eapply static_scene_ok; eauto|].
  split; [exact Hsel|]. split; [exact H6|].
  apply (Forall_map (fun h => requiredConnections (dataModel h))
           (fun z => z <> 0)).
  rewrite (static_required _ _ Hs). now apply Forall_map.
Qed.

Lemma scene_inv_select s sel' :
  GameScene.scene_inv s ->
  (forall r, sel' = Some r -> In r (map ref (GameScene.houses s))) ->
  GameScene.scene_inv
    (GameScene.mk (GameScene.houses s) (GameScene.cableManager s) sel'
       (GameScene.isSolved s) (GameScene.currentDifficulty s)
       (GameScene.history s)).
Proof.
  destruct s as [hs cm sel b d hist]. unfold GameScene.scene_inv. simpl.
  intros (Hst & Hc & Hv) Hsel. split; [|split]; auto.
  eapply static_inv_fields; eauto.
Qed.

Lemma checkWin_inv s :
  GameScene.static_inv s -> GameScene.isSolved s = false ->
  GameScene.scene_inv (GameScene.checkWin s).
Proof.
  destruct s as [hs cm sel b d hist]. simpl. intros Hst ->.
  unfold GameScene.checkWin. simpl.
  pose proof (recounted_static hs cm) as Hstat.
  pose proof (fst_checkWinCondition hs cm) as Hfst.
  destruct (checkWinCondition hs cm) as [hs' won] eqn:E. simpl in Hstat, Hfst.
  assert (Hsel : forall r, sel = Some r -> In r (map ref hs))
    by apply Hst.
  assert (Hcounts : Forall (fun h => currentConnections (dataModel h)
                              = degree (getAllEdges cm) (house_id h)) hs').
  { rewrite Hfst. destruct Hst as (Hok & _ & _ & Hsc & _).
    apply recount_degree; [apply Hok|]. intros e He. now apply Hsc. }
  assert (Hverdict : won = snd (checkWinCondition hs' cm)).
  { rewrite (checkWinCondition_static hs hs' cm Hstat), E. reflexivity. }
  destruct won; unfold GameScene.victory, GameScene.scene_inv; simpl;
    (split; [eapply static_inv_fields; eauto | split; auto]).
Qed.

Lemma canConnect_in_scene s a b :
  GameScene.static_inv s ->
  exists ok,
    canConnect (GameScene.cableManager s) a b (GameScene.houses s) = Ok ok.
Proof.
  intros (_ & _ & _ & Hsc & _).
  destruct (canConnect_resolved (GameScene.cableManager s) a b
              (GameScene.houses s)) as (ok & H & _); eauto.
  now apply scene_ok_resolve.
Qed.

(** The scene after a cable between two different houses was toggled or set
    and the move, if any, recorded. *)
Lemma static_inv_change hs cm sel b d hist op hist' :
  GameScene.static_inv (GameScene.mk hs cm sel b d hist) ->
  op_count_ok op ->
  match op with
  | OpToggle h1 h2 | OpSet h1 h2 _ =>
      In (house_id h1) (map house_id hs) /\ In (house_id h2) (map house_id hs) /\
      house_id h1 <> house_id h2
  | OpReset => True
  end ->
  Forall (fun m =>
            In (GameScene.nodeAId m) (map house_id hs) /\
            In (GameScene.nodeBId m) (map house_id hs) /\
            GameScene.nodeAId m <> GameScene.nodeBId m /\
            (GameScene.previousCount m = 0 \/ GameScene.previousCount m = 1 \/
             GameScene.previousCount m = 2)) hist' ->
  GameScene.static_inv (GameScene.mk hs (apply_op cm op) sel b d hist').
Proof.
  unfold GameScene.static_inv. simpl.
  intros (H1 & H2 & H3 & H4 & H5 & H6 & H7) Hc Hop Hh.
  split; [exact H1|]. split; [exact H2|].
  split; [now apply edges_inv_apply_op|].
  split; [now apply scene_ok_apply_op|].
  split; [exact H5|]. split; [exact Hh|]. exact H7.
Qed.

Lemma handleHouseClick_inv s house :
  GameScene.scene_inv s -> In house (GameScene.houses s) ->
  exists s', GameScene.handleHouseClick s house = Ok s' /\
             GameScene.scene_inv s'.
Proof.
  intros Hinv Hin. unfold GameScene.handleHouseClick.
  destruct s as [hs cm sel b d hist]. simpl in *.
  destruct b; [eauto|].
  destruct sel as [r|].
  - destruct (Nat.eqb r (ref house)) eqn:Hr.
    + eexists. split; [reflexivity|].
      apply (scene_inv_select _ None) in Hinv; [exact Hinv | discriminate].
    + pose proof Hinv as (Hst & Hcounts & Hverdict).
      pose proof Hst as (Hok & Hrefs & Hedges & Hsc & Hselin & Hhist & Hreq).
      simpl in *.
      destruct (deref_in _ _ (Hselin r eq_refl)) as (selected & Hd).
      rewrite Hd. simpl.
      destruct (canConnect_in_scene _ selected house Hst) as (ok & Hcan).
      simpl in Hcan. rewrite Hcan. simpl.
      destruct ok.
      * eexists. split; [reflexivity|].
        apply deref_Some in Hd as [Hsin Hsref].
        assert (Hne : house_id selected <> house_id house).
        { intros E. apply (NoDup_map_eq house_id _ _ _ (proj1 Hok) Hsin Hin) in E.
          apply Nat.eqb_neq in Hr. congruence. }
        match goal with
        | |- GameScene.scene_inv
               (GameScene.mk (GameScene.houses ?c) _ _ _ _ _) =>
            assert (GameScene.scene_inv c) as Hc
        end.
        { apply checkWin_inv; [|reflexivity].
          apply (static_inv_change hs cm (Some r) false d hist
                   (OpToggle selected house)); auto.
          - exact I.
          - repeat split; auto; now apply in_map.
          - apply Forall_app. split; auto. constructor; [|constructor].
            cbn [GameScene.nodeAId GameScene.nodeBId GameScene.previousCount].
            split; [apply (in_map house_id); exact Hsin|].
            split; [apply (in_map house_id); exact Hin|].
            split; [exact Hne|]. now apply hasConnection_range. }
        apply (scene_inv_select _ None) in Hc; [exact Hc | discriminate].
      * eexists. split; [reflexivity|].
        apply (scene_inv_select _ None) in Hinv; [exact Hinv | discriminate].
  - eexists. split; [reflexivity|].
    apply (scene_inv_select _ (Some (ref house))) in Hinv; [exact Hinv|].
    intros r [= <-]. now apply in_map.
Qed.

Lemma pop_Some {A} (l : list A) a l' :
  GameScene.pop l = Some (a, l') -> l = l' ++ [a].
Proof.
  unfold GameScene.pop. destruct (rev l) as [|b earlier] eqn:E; [discriminate|].
  intros [= -> <-]. rewrite <- (rev_involutive l), E. reflexivity.
Qed.

Lemma undo_inv s : GameScene.scene_inv s -> GameScene.scene_inv (GameScene.undo s).
Proof.
  intros Hinv. unfold GameScene.undo.
  destruct (Nat.eqb _ 0 || GameScene.isSolved s) eqn:Hgo; [exact Hinv|].
  apply orb_false_iff in Hgo as [_ Hsolved].
  destruct (GameScene.pop (GameScene.history s)) as [[lastMove history']|] eqn:Hp;
    [|exact Hinv].
  apply pop_Some in Hp.
  pose proof Hinv as (Hst & Hcounts & Hverdict).
  pose proof Hst as (Hok & Hrefs & Hedges & Hsc & Hselin & Hhist & Hreq).
  rewrite Hp in Hhist. apply Forall_app in Hhist as [Hearlier Hlast].
  inversion Hlast as [|? ? (HA & HB & Hne & Hcount) _]; subst.
  destruct s as [hs cm sel b d hist]. simpl in *. subst b.
  assert (Hst1 : GameScene.static_inv (GameScene.mk hs cm sel false d history')).
  { unfold GameScene.static_inv. simpl. repeat (split; auto). }
  destruct (find_house (GameScene.nodeAId lastMove) hs) as [houseA|] eqn:FA;
    [|split; auto].
  destruct (find_house (GameScene.nodeBId lastMove) hs) as [houseB|] eqn:FB;
    [|split; auto].
  apply find_house_Some in FA as [HinA EA], FB as [HinB EB].
  apply checkWin_inv; [|reflexivity].
  apply (static_inv_change hs cm sel false d history'
           (OpSet houseA houseB (GameScene.previousCount lastMove)));
    [exact Hst1 | exact Hcount | rewrite EA, EB; auto | exact Hearlier].
Qed.

Lemma check_empty_board hs :
  Forall (fun h => requiredConnections (dataModel h) <> 0) hs ->
  snd (checkWinCondition hs JsMap.empty) = false.
Proof.
  intros Hreq. unfold checkWinCondition. cbv zeta.
  destruct hs as [|h rest]; [reflexivity|].
  inversion Hreq as [|? ? Hh _]; subst.
  assert (allCountsCorrect
            (sum_up (getAllEdges JsMap.empty) (reset_counts (h :: rest)))
          = false) as ->; [|reflexivity].
  simpl. destruct (requiredConnections (dataModel h));
    [congruence | reflexivity | reflexivity].
Qed.

Lemma degree_nil i : degree [] i = 0.
Proof. reflexivity. Qed.

Lemma resetCurrentPuzzle_inv s :
  GameScene.scene_inv s -> GameScene.scene_inv (GameScene.resetCurrentPuzzle s).
Proof.
  intros Hinv. unfold GameScene.resetCurrentPuzzle.
  destruct (GameScene.isSolved s) eqn:Hsolved; [exact Hinv|].
  destruct Hinv as (Hst & _ & _).
  destruct s as [hs cm sel b d hist]. simpl in *.
  fold (reset_counts hs).
  assert (Hst' : GameScene.static_inv
                   (GameScene.mk (reset_counts hs) JsMap.empty None false d [])).
  { apply (static_inv_fields hs JsMap.empty sel b d []).
    - apply (static_inv_change hs cm sel b d hist OpReset); auto; exact I.
    - apply reset_counts_idem.
    - discriminate. }
  split; [exact Hst'|]. simpl. split.
  - unfold reset_counts. apply Forall_map. apply Forall_forall.
    intros h _. reflexivity.
  - symmetry. apply check_empty_board. apply Hst'.
Qed.

(** ** A new game *)

Lemma current_add_required i c nodes :
  map currentConnections (add_required i c nodes) = map currentConnections nodes.
Proof.
  induction nodes as [|n rest IH]; simpl; [reflexivity|].
  destruct (String.eqb (id n) i); simpl; [reflexivity|]. now rewrite IH.
Qed.

Lemma prune_loop_current maxc edges : forall nodes valid res,
  prune_loop maxc edges nodes valid = Ok res ->
  map currentConnections (fst res) = map currentConnections nodes.
Proof.
  induction edges as [|e rest IH]; intros nodes valid res H; simpl in H.
  - now injection H as <-.
  - destruct (find_node (nodeA e) nodes) as [nA|]; simpl in H; [|discriminate].
    destruct (requiredConnections nA + count e <=? maxc); [|eauto].
    destruct (find_node (nodeB e) nodes) as [nB|]; simpl in H; [|discriminate].
    destruct (requiredConnections nB + count e <=? maxc); [|eauto].
    apply IH in H. now rewrite H, !current_add_required.
Qed.

(** The nodes of a puzzle show no connection yet and require at least
    one. *)
Lemma generate_nodes_fresh R difficulty g p g' :
  generate R difficulty g = (Ok p, g') ->
  Forall (fun n => requiredConnections n <> 0 /\ currentConnections n = 0)
    (nodes p).
Proof.
  intros H. apply generate_cases in H as [->|(g0 & g1 & H)].
  - repeat constructor; simpl; lia.
  - apply tryGenerate_stages in H.
    destruct H as (r & g2 & placed & g3 & ps & g4 & tree & g5 & edges & g6 &
                   pruned & _ & Hpl & _ & _ & _ & _ & _ & Hpr & Hz & ->).
    simpl.
    assert (Hplaced : Forall (fun n => place n = n) (fst placed)).
    { eapply place_for_inv in Hpl; [apply Hpl|]. repeat constructor. }
    apply prune_loop_current in Hpr.
    assert (Hcur : Forall (fun c => c = 0) (map currentConnections (fst pruned))).
    { rewrite Hpr, map_map. apply Forall_map.
      eapply Forall_impl; [|exact Hplaced].
      intros n Hn. simpl. now rewrite <- Hn. }
    rewrite Forall_map in Hcur.
    apply Forall_forall. intros n Hn. split.
    + intros E. rewrite <- not_true_iff_false in Hz. apply Hz.
      apply existsb_exists. exists n. split; auto. now apply Z.eqb_eq.
    + now apply (proj1 (Forall_forall _ _) Hcur).
Qed.

Lemma refs_make_houses nodes : forall next,
  map ref (make_houses next nodes) = seq next (List.length nodes).
Proof.
  induction nodes as [|n rest IH]; intros next; simpl; [reflexivity|].
  now rewrite IH.
Qed.

Lemma dataModel_make_houses nodes : forall next,
  map dataModel (make_houses next nodes) = nodes.
Proof.
  induction nodes as [|n rest IH]; intros next; simpl; [reflexivity|].
  now rewrite IH.
Qed.

Lemma startGame_Ok R s difficulty g s' g' :
  GameScene.startGame R s difficulty g = (Ok s', g') ->
  exists p, generate R difficulty g = (Ok p, g') /\
    s' = GameScene.mk (make_houses 0 (nodes p)) JsMap.empty None false
           difficulty [].
Proof.
  unfold GameScene.startGame. intros H.
  apply bindG_Ok in H. destruct H as (p & g1 & Hgen & H).
  apply ret_Ok in H as [-> ->]. eauto.
Qed.

Lemma startGame_inv R s difficulty g s' g' :
  GameScene.startGame R s difficulty g = (Ok s', g') -> GameScene.scene_inv s'.
Proof.
  intros H. apply startGame_Ok in H as (p & Hgen & ->).
  pose proof (generated_houses_ok _ _ _ _ _ Hgen) as Hok.
  pose proof (generate_nodes_fresh _ _ _ _ _ Hgen) as Hfresh.
  assert (Hh : Forall (fun h => requiredConnections (dataModel h) <> 0 /\
                               currentConnections (dataModel h) = 0)
                 (make_houses 0 (nodes p))).
  { apply (Forall_map dataModel
             (fun n => requiredConnections n <> 0 /\ currentConnections n = 0)).
    now rewrite dataModel_make_houses. }
  assert (Hreq : Forall (fun h => requiredConnections (dataModel h) <> 0)
                   (make_houses 0 (nodes p))).
  { eapply Forall_impl; [|exact Hh]. intros h Hx. apply Hx. }
  unfold GameScene.scene_inv, GameScene.static_inv. simpl.
  split; [|split].
  - split; [exact Hok|].
    split; [rewrite refs_make_houses; apply seq_NoDup|].
    split; [apply edges_inv_empty|].
    split; [split; [apply Hok | intros e []]|].
    split; [discriminate|].
    split; [constructor | exact Hreq].
  - eapply Forall_impl; [|exact Hh]. intros h Hx. apply Hx.
  - symmetry. now apply check_empty_board.
Qed.

Lemma startGame_returns R s difficulty g :
  exists s' g', GameScene.startGame R s difficulty g = (Ok s', g').
Proof.
  unfold GameScene.startGame, generate.
  destruct (generate_loop_returns R (DIFFICULTY_SETTINGS difficulty) 100 g)
    as (p & g1 & Hg & _).
  rewrite (bindG_eq _ _ _ _ _ Hg). eexists. eexists. reflexivity.
Qed.

Lemma init_inv : GameScene.scene_inv GameScene.init.
Proof.
  unfold GameScene.scene_inv, GameScene.static_inv, GameScene.init. simpl.
  split; [|split].
  - split; [split; constructor|].
    split; [constructor|].
    split; [apply edges_inv_empty|].
    split; [split; [constructor | intros e []]|].
    split; [discriminate|].
    split; constructor.
  - constructor.
  - reflexivity.
Qed.

Lemma dispatch_inv R s ev g :
  GameScene.scene_inv s ->
  exists s' g', GameScene.dispatch R s ev g = (Ok s', g') /\
                GameScene.scene_inv s'.
Proof.
  intros Hinv. destruct ev as [difficulty| | | |r]; simpl.
  - destruct (startGame_returns R s difficulty g) as (s' & g' & H).
    exists s', g'. split; auto. eapply startGame_inv; eauto.
  - eexists. eexists. split; [reflexivity|]. now apply resetCurrentPuzzle_inv.
  - eexists. eexists. split; [reflexivity|]. exact Hinv.
  - eexists. eexists. split; [reflexivity|]. now apply undo_inv.
  - destruct (GameScene.deref (GameScene.houses s) r) as [house|] eqn:Hd.
    + apply deref_Some in Hd as [Hin _].
      destruct (handleHouseClick_inv s house Hinv Hin) as (s' & H & Hinv').
      exists s', g. unfold lift. now rewrite H.
    + eexists. eexists. split; [reflexivity|]. exact Hinv.
Qed.

Lemma run_inv R evs : forall s g,
  GameScene.scene_inv s ->
  exists s' g', GameScene.run R evs s g = (Ok s', g') /\
                GameScene.scene_inv s'.
Proof.
  induction evs as [|ev rest IH]; intros s g Hinv; simpl.
  - eexists. eexists. split; [reflexivity|]. exact Hinv.
  - destruct (dispatch_inv R s ev g Hinv) as (s1 & g1 & H1 & Hinv1).
    rewrite (bindG_eq _ _ _ _ _ H1). now apply IH.
Qed.

Lemma reachable_inv R evs g s g' :
  GameScene.run R evs GameScene.init g = (Ok s, g') -> GameScene.scene_inv s.
Proof.
  intros H.
  destruct (run_inv R evs GameScene.init g init_inv) as (s' & g1 & H' & Hinv).
  rewrite H in H'. now injection H' as <- _.
Qed.

(* ------------------------------------------------------------------ *)
(** ** What holds all along a game *)

(** X5. No sequence of page events and clicks on houses makes the scene
    throw: from the scene as [create()] leaves it, every event is handled
    and leaves a scene. *)
Theorem scene_events_never_throw (R : RandomSource)
    (evs : list GameScene.Event) (g : rstate R) :
  exists s g', GameScene.run R evs GameScene.init g = (Ok s, g').
Proof.
  destruct (run_inv R evs GameScene.init g init_inv) as (s & g' & H & _).
  eauto.
Qed.

(** X6. All along a game the scene is well formed: house ids are unique and
    hold no ['-'], house references are unique, the edge map holds one entry
    per key, stored under the key of its own ends with one or two cables,
    every placed edge joins two different houses of the scene, and a
    selection points to a house of the scene. *)
Theorem scene_well_formed (R : RandomSource) (evs : list GameScene.Event)
    (g g' : rstate R) (s : GameScene.t) :
  GameScene.run R evs GameScene.init g = (Ok s, g') ->
  houses_ok (GameScene.houses s) /\
  NoDup (map ref (GameScene.houses s)) /\
  edges_inv (GameScene.cableManager s) /\
  scene_ok (GameScene.houses s) (getAllEdges (GameScene.cableManager s)) /\
  edges_resolve (GameScene.houses s) (GameScene.cableManager s) /\
  (forall r, GameScene.selectedHouse s = Some r ->
             exists h, GameScene.deref (GameScene.houses s) r = Some h).
Proof.
  intros H. apply reachable_inv in H.
  destruct H as ((H1 & H2 & H3 & H4 & H5 & _) & _).
  repeat (split; [assumption|]). split.
  - now apply scene_ok_resolve.
  - intros r Hr. apply deref_in. auto.
Qed.

(** X7. All along a game every house shows its degree on the board: its
    [currentConnections] is the number of cables that end at it. *)
Theorem scene_counts_are_degrees (R : RandomSource)
    (evs : list GameScene.Event) (g g' : rstate R) (s : GameScene.t) :
  GameScene.run R evs GameScene.init g = (Ok s, g') ->
  Forall (fun h => currentConnections (dataModel h)
                   = degree (getAllEdges (GameScene.cableManager s))
                       (house_id h))
    (GameScene.houses s).
Proof. intros H. apply reachable_inv in H. apply H. Qed.

(** X8. All along a game [isSolved] is set exactly when the board is solved:
    every house has as many cables as it requires and every house is
    reached from the first one along cables. *)
Theorem scene_solved_iff (R : RandomSource) (evs : list GameScene.Event)
    (g g' : rstate R) (s : GameScene.t) :
  GameScene.run R evs GameScene.init g = (Ok s, g') ->
  GameScene.isSolved s = true <->
  solved_spec (GameScene.houses s) (getAllEdges (GameScene.cableManager s)).
Proof.
  intros H. apply reachable_inv in H.
  destruct H as ((_ & _ & _ & Hsc & _) & _ & Hv).
  rewrite Hv. now apply checkWinCondition_decides.
Qed.

(** ** Undo *)

Lemma checkWin_fields s :
  GameScene.houses (GameScene.checkWin s)
  = fst (checkWinCondition (GameScene.houses s) (GameScene.cableManager s)) /\
  GameScene.cableManager (GameScene.checkWin s) = GameScene.cableManager s /\
  GameScene.selectedHouse (GameScene.checkWin s) = GameScene.selectedHouse s /\
  GameScene.history (GameScene.checkWin s) = GameScene.history s /\
  GameScene.currentDifficulty (GameScene.checkWin s)
  = GameScene.currentDifficulty s.
Proof.
  unfold GameScene.checkWin.
  destruct (checkWinCondition _ _) as [hs won]. destruct won; simpl; auto.
Qed.

Lemma pop_app {A} (l : list A) a : GameScene.pop (l ++ [a]) = Some (a, l).
Proof.
  unfold GameScene.pop. rewrite rev_app_distr. simpl.
  now rewrite rev_involutive.
Qed.

Lemma setConnection_ids edges a b a' b' c :
  house_id a' = house_id a -> house_id b' = house_id b ->
  setConnection edges a' b' c = setConnection edges a b c.
Proof.
  unfold setConnection, house_id. intros -> ->. reflexivity.
Qed.

Lemma get_toggleConnection_other edges a b k :
  k <> getEdgeKey (house_id a) (house_id b) ->
  JsMap.get k (fst (toggleConnection edges a b)) = JsMap.get k edges.
Proof.
  intros Hne. unfold toggleConnection. cbv zeta.
  destruct (_ =? 0); simpl.
  - apply JsMapFacts.get_delete_other. auto.
  - apply JsMapFacts.get_set_other. auto.
Qed.

Lemma get_setConnection_other edges a b c k :
  k <> getEdgeKey (house_id a) (house_id b) ->
  JsMap.get k (setConnection edges a b c) = JsMap.get k edges.
Proof.
  intros Hne. unfold setConnection. cbv zeta.
  destruct (c =? 0).
  - apply JsMapFacts.get_delete_other. auto.
  - apply JsMapFacts.get_set_other. auto.
Qed.

(** Undoing a toggle gives every pair the multiplicity it had. *)
Lemma toggle_then_set_back edges a b i j :
  hasConnection
    (setConnection (fst (toggleConnection edges a b)) a b
       (hasConnection edges (house_id a) (house_id b))) i j
  = hasConnection edges i j.
Proof.
  destruct (string_dec (getEdgeKey i j) (getEdgeKey (house_id a) (house_id b)))
    as [E|Hne].
  - assert (forall m, hasConnection m i j
                      = hasConnection m (house_id a) (house_id b)) as Hk
      by (intros m; unfold hasConnection; now rewrite E).
    rewrite !Hk. apply hasConnection_setConnection.
  - unfold hasConnection at 1 3.
    now rewrite get_setConnection_other, get_toggleConnection_other.
Qed.

(** X9. Undo takes back the last cable move.  When a click on house [b],
    with house [a] selected, passes [canConnect] and does not solve the
    puzzle, an undo right after gives every pair of ids the number of
    cables it had before the click and restores the history; when the click
    solves the puzzle, undo leaves the scene as it is. *)
Theorem undo_reverts_click (s s1 : GameScene.t) (a b : House) :
  GameScene.isSolved s = false ->
  GameScene.selectedHouse s = Some (ref a) ->
  GameScene.deref (GameScene.houses s) (ref a) = Some a ->
  In b (GameScene.houses s) ->
  ref a <> ref b ->
  canConnect (GameScene.cableManager s) a b (GameScene.houses s) = Ok true ->
  GameScene.handleHouseClick s b = Ok s1 ->
  (GameScene.isSolved s1 = false ->
   GameScene.history (GameScene.undo s1) = GameScene.history s /\
   forall i j,
     hasConnection (GameScene.cableManager (GameScene.undo s1)) i j
     = hasConnection (GameScene.cableManager s) i j) /\
  (GameScene.isSolved s1 = true -> GameScene.undo s1 = s1).
Proof.
  intros Hsolved Hsel Hd Hb Hne Hcan Hclick.
  unfold GameScene.handleHouseClick in Hclick.
  rewrite Hsolved, Hsel in Hclick.
  apply Nat.eqb_neq in Hne. rewrite Hne, Hd in Hclick. simpl in Hclick.
  rewrite Hcan in Hclick. simpl in Hclick. injection Hclick as <-.
  destruct s as [hs cm sel sv d hist]. simpl in *. subst sv sel.
  set (m := GameScene.mkMoveAction (id (dataModel a)) (id (dataModel b))
              (hasConnection cm (id (dataModel a)) (id (dataModel b)))).
  set (c0 := GameScene.mk hs (fst (toggleConnection cm a b)) (Some (ref a))
               false d (hist ++ [m])).
  destruct (checkWin_fields c0) as (Hh & Hcm & _ & Hhist & _). simpl in *.
  split.
  - intros Hs1. unfold GameScene.undo. simpl.
    rewrite Hs1, Hhist, pop_app, orb_false_r.
    rewrite length_app, Nat.add_comm. simpl.
    assert (Hids : map house_id (GameScene.houses (GameScene.checkWin c0))
                   = map house_id hs).
    { rewrite Hh. apply static_ids, recounted_static. }
    apply deref_Some in Hd as [Ha _].
    destruct (find_house (id (dataModel a))
                (GameScene.houses (GameScene.checkWin c0))) as [houseA|] eqn:FA.
    2:{ exfalso. revert FA. apply find_house_in_ids.
        rewrite Hids. now apply (in_map house_id). }
    destruct (find_house (id (dataModel b))
                (GameScene.houses (GameScene.checkWin c0))) as [houseB|] eqn:FB.
    2:{ exfalso. revert FB. apply find_house_in_ids.
        rewrite Hids. now apply (in_map house_id). }
    apply find_house_Some in FA as [_ EA], FB as [_ EB].
    match goal with
    | |- context [GameScene.checkWin ?c] =>
        destruct (checkWin_fields c) as (_ & Hcm2 & _ & Hhist2 & _)
    end.
    simpl in Hcm2, Hhist2. rewrite Hcm2, Hhist2. split; [reflexivity|].
    intros i j. rewrite Hcm, (setConnection_ids _ a b houseA houseB) by auto.
    apply toggle_then_set_back.
  - intros Hs1. unfold GameScene.undo. simpl. rewrite Hs1, orb_true_r.
    reflexivity.
Qed.

(* ================================================================== *)
(** * Playing the solution of a puzzle *)

(** ** Every solution edge may be placed *)

Lemma linesCross_flip a1 a2 b1 b2 :
  aligned b1 b2 -> linesCross a1 a2 b1 b2 = linesCross a1 a2 b2 b1.
Proof.
  intros Hal. unfold linesCross.
  rewrite (Z.eqb_sym (x b2) (x b1)), (Z.min_comm (x b2)), (Z.max_comm (x b2)),
    (Z.min_comm (y b2)), (Z.max_comm (y b2)).
  destruct (x a1 =? x a2), (Z.eqb_spec (x b1) (x b2)); simpl; auto.
  - destruct Hal as [Hx|Hy]; [contradiction|]. now rewrite Hy.
  - now rewrite e.
Qed.

Lemma isNodeBetween_false u0 v0 nodes :
  isNodeBetween u0 v0 nodes = false ->
  forall n, In n nodes -> id n <> id u0 -> id n <> id v0 ->
    blocks (x u0 =? x v0) u0 v0 n = false.
Proof.
  unfold isNodeBetween. cbv zeta. generalize (x u0 =? x v0) as vert.
  intros vert. induction nodes as [|m rest IH]; simpl; [tauto|].
  intros H n [->|Hin] Hu Hv.
  - apply String.eqb_neq in Hu, Hv. rewrite Hu, Hv in H. simpl in H.
    destruct (blocks vert u0 v0 n); [discriminate | reflexivity].
  - destruct (String.eqb (id m) (id u0) || String.eqb (id m) (id v0)); auto.
    destruct (blocks vert u0 v0 m); [discriminate | auto].
Qed.

Lemma find_house_make_houses i nodes : forall next,
  option_map dataModel (find_house i (make_houses next nodes))
  = find_node i nodes.
Proof.
  induction nodes as [|n rest IH]; intros next; simpl; [reflexivity|].
  destruct (String.eqb (id n) i); simpl; auto.
Qed.

Lemma find_house_node i nodes next h :
  find_house i (make_houses next nodes) = Some h ->
  find_node i nodes = Some (dataModel h).
Proof.
  intros H. rewrite <- (find_house_make_houses i nodes next), H. reflexivity.
Qed.

Lemma find_node_house i nodes next n :
  find_node i nodes = Some n ->
  exists h, find_house i (make_houses next nodes) = Some h /\ dataModel h = n.
Proof.
  intros H. rewrite <- (find_house_make_houses i nodes next) in H.
  destruct (find_house i (make_houses next nodes)) as [h|]; [|discriminate].
  injection H as H. eauto.
Qed.

(** On the houses of a puzzle with a legal solution, whatever part of the
    solution is on the board, the two ends of a solution edge may be
    connected. *)
Lemma solution_edge_connectable nodes solution next edges e a b :
  legal_solution nodes solution ->
  within_solution solution edges ->
  In e solution ->
  find_house (nodeA e) (make_houses next nodes) = Some a ->
  find_house (nodeB e) (make_houses next nodes) = Some b ->
  canConnect edges a b (make_houses next nodes) = Ok true.
Proof.
  intros (Hnd & Hedge & Hcross & Hkeys) Hwithin He FA FB.
  set (hs := make_houses next nodes) in *.
  assert (Hids : NoDup (map house_id hs))
    by (unfold hs; now rewrite ids_make_houses).
  destruct (Hedge e He) as (an & bn & FA' & FB' & Hne & Hal & Hbt & Hc).
  pose proof (find_house_node _ _ _ _ FA) as EA.
  pose proof (find_house_node _ _ _ _ FB) as EB.
  rewrite FA' in EA. rewrite FB' in EB.
  injection EA as EA. injection EB as EB. subst an bn.
  apply find_house_Some in FA as [HinA IdA], FB as [HinB IdB].
  assert (Hres : edges_resolve hs edges).
  { intros e' He'. destruct (Hwithin e' He') as (e2 & He2 & Hsame).
    destruct (Hedge e2 He2) as (a2 & b2 & F1 & F2 & _).
    apply (find_node_house _ _ next) in F1 as (h1 & F1 & _).
    apply (find_node_house _ _ next) in F2 as (h2 & F2 & _).
    fold hs in F1, F2.
    destruct Hsame as [[-> ->]|[-> ->]]; rewrite F1, F2; split; discriminate. }
  destruct (canConnect_resolved edges a b hs Hres) as (r & Hr & Hfalse).
  rewrite Hr. f_equal. destruct r; [reflexivity|]. exfalso.
  destruct (proj1 Hfalse eq_refl) as [Hna | [Hbetween | Hcr]].
  - contradiction.
  - destruct Hbetween as (other & Hin & Hra & Hrb & Hsb).
    apply blocks_iff in Hsb.
    assert (In (dataModel other) nodes) as Hon.
    { rewrite <- (dataModel_make_houses nodes next). now apply in_map. }
    rewrite (isNodeBetween_false _ _ _ Hbt (dataModel other) Hon) in Hsb;
      [discriminate| |].
    + intros E. apply Hra. f_equal.
      apply (NoDup_map_eq house_id hs); auto.
    + intros E. apply Hrb. f_equal.
      apply (NoDup_map_eq house_id hs); auto.
  - destruct Hcr as (e' & n1 & n2 & He' & _ & _ & _ & _ & F1 & F2 & Hsc).
    apply linesCross_iff in Hsc.
    destruct (Hwithin e' He') as (e2 & He2 & Hsame).
    destruct (Hedge e2 He2) as (a2 & b2 & G1 & G2 & _ & Hal2 & _).
    apply find_house_node in F1, F2.
    pose proof (Hcross e e2 _ _ _ _ He He2 FA' FB' G1 G2) as Hno.
    destruct Hsame as [[E1 E2]|[E1 E2]]; rewrite E1 in F1; rewrite E2 in F2.
    + rewrite G1 in F1. rewrite G2 in F2.
      injection F1 as ->. injection F2 as ->. congruence.
    + rewrite G2 in F1. rewrite G1 in F2.
      injection F1 as ->. injection F2 as ->.
      rewrite linesCross_flip in Hno by assumption. congruence.
Qed.

(** ** What a click reads of the houses *)

Lemma deref_reset_counts hs r :
  GameScene.deref (reset_counts hs) r
  = option_map (fun h => updateConnectionCount h 0) (GameScene.deref hs r).
Proof.
  unfold GameScene.deref. induction hs as [|h rest IH]; simpl; [reflexivity|].
  destruct (Nat.eqb (ref h) r); simpl; auto.
Qed.

Lemma deref_static hs hs' r h :
  reset_counts hs' = reset_counts hs ->
  GameScene.deref hs r = Some h ->
  exists h', GameScene.deref hs' r = Some h' /\
             updateConnectionCount h' 0 = updateConnectionCount h 0.
Proof.
  intros Hs Hd.
  pose proof (deref_reset_counts hs' r) as H'.
  rewrite Hs, deref_reset_counts, Hd in H'. simpl in H'.
  destruct (GameScene.deref hs' r) as [h'|]; [|discriminate].
  exists h'. split; [reflexivity|]. simpl in H'. congruence.
Qed.

Lemma between_loop_static a b vert hs :
  between_loop (updateConnectionCount a 0) (updateConnectionCount b 0) vert
    (reset_counts hs)
  = between_loop a b vert hs.
Proof.
  induction hs as [|h rest IH]; simpl; [reflexivity|].
  unfold same_house in *. simpl. rewrite IH. reflexivity.
Qed.

Lemma crossing_loop_static dA dB vert hs es :
  crossing_loop (setCurrent dA 0) (setCurrent dB 0) vert (reset_counts hs) es
  = crossing_loop dA dB vert hs es.
Proof.
  induction es as [|e rest IH]; simpl; [reflexivity|].
  rewrite !find_house_reset_counts, IH.
  change (touches e (setCurrent dA 0) (setCurrent dB 0)) with (touches e dA dB).
  destruct (touches e dA dB); [reflexivity|].
  destruct (find_house (nodeA e) hs) as [n1|]; simpl; [|reflexivity].
  destruct (find_house (nodeB e) hs) as [n2|]; simpl; reflexivity.
Qed.

Lemma canConnect_reset edges a b hs :
  canConnect edges (updateConnectionCount a 0) (updateConnectionCount b 0)
    (reset_counts hs)
  = canConnect edges a b hs.
Proof.
  unfold canConnect. cbv zeta.
  change (dataModel (updateConnectionCount a 0)) with (setCurrent (dataModel a) 0).
  change (dataModel (updateConnectionCount b 0)) with (setCurrent (dataModel b) 0).
  rewrite crossing_loop_static.
  change (x (setCurrent (dataModel a) 0)) with (x (dataModel a)).
  change (x (setCurrent (dataModel b) 0)) with (x (dataModel b)).
  change (y (setCurrent (dataModel a) 0)) with (y (dataModel a)).
  change (y (setCurrent (dataModel b) 0)) with (y (dataModel b)).
  now rewrite between_loop_static.
Qed.

(** [canConnect] reads nothing of the counts the houses show. *)
Lemma canConnect_static edges a b hs a' b' hs' :
  updateConnectionCount a' 0 = updateConnectionCount a 0 ->
  updateConnectionCount b' 0 = updateConnectionCount b 0 ->
  reset_counts hs' = reset_counts hs ->
  canConnect edges a' b' hs' = canConnect edges a b hs.
Proof.
  intros Ha Hb Hs.
  now rewrite <- (canConnect_reset edges a' b' hs'), Ha, Hb, Hs,
    canConnect_reset.
Qed.

Lemma static_house_id h h' :
  updateConnectionCount h' 0 = updateConnectionCount h 0 ->
  house_id h' = house_id h.
Proof.
  intros H. apply (f_equal house_id) in H. exact H.
Qed.

Lemma toggleConnection_ids edges a b a' b' :
  house_id a' = house_id a -> house_id b' = house_id b ->
  toggleConnection edges a' b' = toggleConnection edges a b.
Proof.
  unfold toggleConnection, house_id. intros -> ->. reflexivity.
Qed.

(** ** Two clicks place a cable *)

Lemma run_app R l1 : forall l2 s g s1 g1,
  GameScene.run R l1 s g = (Ok s1, g1) ->
  GameScene.run R (l1 ++ l2) s g = GameScene.run R l2 s1 g1.
Proof.
  induction l1 as [|ev rest IH]; intros l2 s g s1 g1 H; simpl in *.
  - apply ret_Ok in H as [-> ->]. reflexivity.
  - apply bindG_Ok in H. destruct H as (s' & g' & Hd & H).
    rewrite (bindG_eq _ _ _ _ _ Hd). now apply IH.
Qed.

Lemma click_pair R s (g : rstate R) ra rb a b :
  GameScene.scene_inv s ->
  GameScene.isSolved s = false ->
  GameScene.selectedHouse s = None ->
  GameScene.deref (GameScene.houses s) ra = Some a ->
  GameScene.deref (GameScene.houses s) rb = Some b ->
  ra <> rb ->
  canConnect (GameScene.cableManager s) a b (GameScene.houses s) = Ok true ->
  exists s',
    GameScene.run R [GameScene.pointerdown ra; GameScene.pointerdown rb] s g
    = (Ok s', g) /\
    GameScene.cableManager s'
    = fst (toggleConnection (GameScene.cableManager s) a b) /\
    reset_counts (GameScene.houses s') = reset_counts (GameScene.houses s) /\
    GameScene.selectedHouse s' = None /\
    GameScene.scene_inv s'.
Proof.
  intros Hinv Hsolved Hsel Ha Hb Hne Hcan.
  pose proof (deref_Some _ _ _ Ha) as [Hina Hra].
  pose proof (deref_Some _ _ _ Hb) as [Hinb Hrb].
  destruct (handleHouseClick_inv s a Hinv Hina) as (s1 & H1 & Hinv1).
  assert (Hs1 : s1 = GameScene.mk (GameScene.houses s) (GameScene.cableManager s)
                       (Some ra) false (GameScene.currentDifficulty s)
                       (GameScene.history s)).
  { unfold GameScene.handleHouseClick in H1. rewrite Hsolved, Hsel in H1.
    injection H1 as <-. now rewrite Hra. }
  assert (Hinb1 : In b (GameScene.houses s1)) by (subst s1; exact Hinb).
  destruct (handleHouseClick_inv s1 b Hinv1 Hinb1) as (s2 & H2 & Hinv2).
  exists s2.
  assert (Hfields :
    GameScene.cableManager s2
    = fst (toggleConnection (GameScene.cableManager s) a b) /\
    reset_counts (GameScene.houses s2) = reset_counts (GameScene.houses s) /\
    GameScene.selectedHouse s2 = None).
  { unfold GameScene.handleHouseClick in H2. subst s1. simpl in H2.
    assert ((ra =? ref b)%nat = false) as Hneq
      by (apply Nat.eqb_neq; congruence).
    rewrite Hneq, Ha in H2. simpl in H2. rewrite Hcan in H2. simpl in H2.
    injection H2 as <-. simpl.
    match goal with
    | |- context [GameScene.checkWin ?c] =>
        destruct (checkWin_fields c) as (Hh & Hcm & _)
    end.
    simpl in Hh, Hcm. rewrite Hcm, Hh. split; [reflexivity|].
    split; [apply recounted_static | reflexivity]. }
  split; [|tauto].
  simpl. rewrite Ha. unfold bindG at 1. unfold lift at 1. rewrite H1.
  assert (GameScene.deref (GameScene.houses s1) rb = Some b) as Hb1
    by (subst s1; exact Hb).
  rewrite Hb1. unfold bindG, lift, ret. now rewrite H2.
Qed.

(** ** The board while the solution is placed *)

Lemma keys_entries_of l : JsMap.keys (entries_of l) = map pair_key l.
Proof. unfold JsMap.keys, entries_of. rewrite map_map. reflexivity. Qed.

Lemma values_entries_of l : JsMap.values (entries_of l) = l.
Proof.
  unfold JsMap.values, entries_of. rewrite map_map. simpl. apply map_id.
Qed.

Lemma get_app_notin {V} k (l1 l2 : JsMap.t V) :
  ~ In k (JsMap.keys l1) -> JsMap.get k (l1 ++ l2) = JsMap.get k l2.
Proof.
  induction l1 as [|[k' v'] l1 IH]; simpl; [reflexivity|].
  intros Hn. destruct (String.eqb k k') eqn:E.
  - apply String.eqb_eq in E. subst. tauto.
  - apply IH. tauto.
Qed.

Lemma toggle_new placed a b :
  ~ In (getEdgeKey (house_id a) (house_id b)) (map pair_key placed) ->
  fst (toggleConnection (entries_of placed) a b)
  = entries_of (placed ++ [mkEdgeData (house_id a) (house_id b) 1]).
Proof.
  intros Hn. rewrite <- keys_entries_of in Hn.
  unfold toggleConnection. cbv zeta. fold (house_id a). fold (house_id b).
  rewrite (proj2 (JsMapFacts.get_None_notin _ _) Hn). simpl.
  rewrite JsMapFacts.set_notin by assumption.
  unfold entries_of. rewrite map_app. reflexivity.
Qed.

Lemma entries_of_snoc placed e :
  entries_of (placed ++ [e]) = entries_of placed ++ [(pair_key e, e)].
Proof. unfold entries_of. now rewrite map_app. Qed.

Lemma toggle_second placed a b :
  ~ In (getEdgeKey (house_id a) (house_id b)) (map pair_key placed) ->
  fst (toggleConnection
         (entries_of (placed ++ [mkEdgeData (house_id a) (house_id b) 1])) a b)
  = entries_of (placed ++ [mkEdgeData (house_id a) (house_id b) 2]).
Proof.
  intros Hn. rewrite <- keys_entries_of in Hn.
  rewrite !entries_of_snoc.
  change (pair_key (mkEdgeData (house_id a) (house_id b) 1))
    with (getEdgeKey (house_id a) (house_id b)).
  change (pair_key (mkEdgeData (house_id a) (house_id b) 2))
    with (getEdgeKey (house_id a) (house_id b)).
  unfold toggleConnection. cbv zeta. fold (house_id a). fold (house_id b).
  rewrite get_app_notin by assumption.
  cbn [JsMap.get]. rewrite String.eqb_refl. cbn [count].
  change (1 =? 1) with true. cbv iota. change (2 =? 0) with false. cbv iota.
  cbn [fst]. now apply set_middle.
Qed.

Lemma degree_app2 l1 l2 i : degree (l1 ++ l2) i = degree l1 i + degree l2 i.
Proof.
  unfold degree. rewrite filter_app, map_app, fold_right_app.
  generalize (map count (filter (incident i) l1)) as l.
  generalize (fold_right Z.add 0 (map count (filter (incident i) l2))) as z.
  intros z l. induction l as [|c l IH]; simpl; lia.
Qed.

Lemma degree_nonneg l i :
  Forall (fun e => count e = 1 \/ count e = 2) l -> 0 <= degree l i.
Proof.
  induction 1 as [|e l He _ IH]; [unfold degree; simpl; lia|].
  rewrite degree_cons. destruct (incident i e); lia.
Qed.

Lemma static_required_degree hs hs' (D : string -> Z) :
  reset_counts hs' = reset_counts hs ->
  Forall (fun h => requiredConnections (dataModel h) = D (house_id h)) hs ->
  Forall (fun h => requiredConnections (dataModel h) = D (house_id h)) hs'.
Proof.
  intros Hs H.
  apply (Forall_map (fun h => (house_id h, requiredConnections (dataModel h)))
           (fun q => snd q = D (fst q))).
  rewrite (static_map (fun h => (house_id h, requiredConnections (dataModel h)))
             (fun h => eq_refl) hs hs' Hs).
  now apply Forall_map.
Qed.

Lemma not_solved s h :
  GameScene.scene_inv s -> In h (GameScene.houses s) ->
  degree (getAllEdges (GameScene.cableManager s)) (house_id h)
  <> requiredConnections (dataModel h) ->
  GameScene.isSolved s = false.
Proof.
  intros ((_ & _ & _ & Hsc & _) & _ & Hv) Hin Hne. rewrite Hv.
  destruct (snd (checkWinCondition _ _)) eqn:E; [|reflexivity].
  apply checkWinCondition_decides in E; [|exact Hsc].
  unfold solved_spec in E. destruct (GameScene.houses s); [contradiction|].
  destruct E as [Hdeg _]. now apply Hdeg in Hin.
Qed.

Section Play.

Variable R : RandomSource.
Variable nodes : list NodeData.
Variable solution : list EdgeData.
Variable hs0 : list House.

Hypothesis Hlegal : legal_solution nodes solution.
Hypothesis Hhs0 : hs0 = make_houses 0 nodes.

(** Two clicks on the ends of a solution edge toggle it, whatever part of
    the solution is on the board. *)
Lemma toggle_step (g : rstate R) s board e a0 b0 :
  GameScene.scene_inv s ->
  reset_counts (GameScene.houses s) = reset_counts hs0 ->
  GameScene.cableManager s = board ->
  within_solution solution board ->
  GameScene.selectedHouse s = None ->
  GameScene.isSolved s = false ->
  In e solution ->
  find_house (nodeA e) hs0 = Some a0 ->
  find_house (nodeB e) hs0 = Some b0 ->
  exists s',
    GameScene.run R
      [GameScene.pointerdown (ref a0); GameScene.pointerdown (ref b0)] s g
    = (Ok s', g) /\
    GameScene.cableManager s' = fst (toggleConnection board a0 b0) /\
    reset_counts (GameScene.houses s') = reset_counts hs0 /\
    GameScene.selectedHouse s' = None /\
    GameScene.scene_inv s'.
Proof.
  intros Hinv Hstat Hcm Hwithin Hsel Hsolved He FA FB.
  pose proof Hlegal as (Hnd & Hedge & _).
  assert (Hrefs0 : NoDup (map ref hs0))
    by (rewrite Hhs0, refs_make_houses; apply seq_NoDup).
  assert (Hcan0 : canConnect board a0 b0 hs0 = Ok true).
  { rewrite Hhs0 in *. eapply solution_edge_connectable; eauto. }
  pose proof (find_house_Some _ _ _ FA) as [HinA IdA].
  pose proof (find_house_Some _ _ _ FB) as [HinB IdB].
  destruct (Hedge e He) as (an & bn & _ & _ & Hne & _).
  assert (Href : ref a0 <> ref b0).
  { intros E. apply (NoDup_map_eq ref hs0) in E; auto. subst b0. congruence. }
  destruct (deref_static hs0 (GameScene.houses s) (ref a0) a0 Hstat
              (deref_self _ _ Hrefs0 HinA)) as (a & Da & Sa).
  destruct (deref_static hs0 (GameScene.houses s) (ref b0) b0 Hstat
              (deref_self _ _ Hrefs0 HinB)) as (b & Db & Sb).
  assert (Hcan : canConnect (GameScene.cableManager s) a b (GameScene.houses s)
                 = Ok true).
  { rewrite Hcm, <- Hcan0. now apply canConnect_static. }
  destruct (click_pair R s g (ref a0) (ref b0) a b Hinv Hsolved Hsel Da Db
              Href Hcan) as (s' & Hrun & Hcm' & Hstat' & Hsel' & Hinv').
  exists s'. split; [exact Hrun|]. split; [|split; [|split]]; auto.
  - rewrite Hcm', Hcm. f_equal.
    apply toggleConnection_ids; now apply static_house_id.
  - now rewrite Hstat'.
Qed.

Lemma placed_within placed rest :
  solution = placed ++ rest -> within_solution solution (entries_of placed).
Proof.
  intros Hsol e He. rewrite values_entries_of in He.
  exists e. split; [rewrite Hsol; apply in_or_app; now left|].
  left. split; reflexivity.
Qed.

Lemma solution_counts :
  Forall (fun e => count e = 1 \/ count e = 2) solution.
Proof.
  destruct Hlegal as (_ & Hedge & _). apply Forall_forall. intros e He.
  destruct (Hedge e He) as (a & b & _ & _ & _ & _ & _ & Hc). exact Hc.
Qed.

(** Placing one more edge of the solution. *)
Lemma edge_played (g : rstate R) placed e todo s :
  solution = placed ++ e :: todo ->
  played hs0 solution placed s ->
  GameScene.isSolved s = false ->
  exists s',
    GameScene.run R (clicks_for hs0 e) s g = (Ok s', g) /\
    played hs0 solution (placed ++ [e]) s'.
Proof.
  intros Hsol (Hinv & Hstat & Hcm & Hsel & Hreq) Hsolved.
  pose proof Hlegal as (Hnd & Hedge & _ & Hkeys).
  assert (He : In e solution) by (rewrite Hsol; apply in_elt).
  destruct (Hedge e He) as (an & bn & FA & FB & Hne & _ & _ & Hc).
  destruct (find_node_house _ _ 0%nat _ FA) as (a0 & FA0 & _).
  destruct (find_node_house _ _ 0%nat _ FB) as (b0 & FB0 & _).
  rewrite <- Hhs0 in FA0, FB0.
  pose proof (find_house_Some _ _ _ FA0) as [HinA IdA].
  pose proof (find_house_Some _ _ _ FB0) as [HinB IdB].
  assert (Hkey : ~ In (getEdgeKey (house_id a0) (house_id b0))
                   (map pair_key placed)).
  { rewrite IdA, IdB. rewrite Hsol, map_app in Hkeys. simpl in Hkeys.
    apply NoDup_remove_2 in Hkeys. intros Hin. apply Hkeys.
    apply in_or_app. now left. }
  assert (Hwithin : within_solution solution (entries_of placed))
    by (eapply placed_within; eauto).
  unfold clicks_for. rewrite FA0, FB0.
  destruct (toggle_step g s (entries_of placed) e a0 b0 Hinv Hstat Hcm Hwithin
              Hsel Hsolved He FA0 FB0)
    as (s1 & Hrun1 & Hcm1 & Hstat1 & Hsel1 & Hinv1).
  rewrite toggle_new in Hcm1 by assumption.
  assert (Hreq1 : Forall (fun h => requiredConnections (dataModel h)
                                   = degree solution (house_id h))
                    (GameScene.houses s1)).
  { apply (static_required_degree (GameScene.houses s)); auto. congruence. }
  destruct Hc as [Hc|Hc]; rewrite Hc;
    [change (Z.to_nat 1) with 1%nat | change (Z.to_nat 2) with 2%nat];
    cbn [List.repeat List.concat app].
  - (* one cable *)
    exists s1. split; [exact Hrun1|].
    assert (mkEdgeData (house_id a0) (house_id b0) 1 = e) as Ee
      by (destruct e; simpl in *; congruence).
    rewrite Ee in Hcm1. repeat (split; auto).
  - (* two cables: the board with one of them is not solved *)
    set (e1 := mkEdgeData (house_id a0) (house_id b0) 1) in *.
    assert (Hsolved1 : GameScene.isSolved s1 = false).
    { assert (In (nodeA e) (map house_id (GameScene.houses s1))) as Hin.
      { rewrite (static_ids _ _ Hstat1), <- IdA. now apply in_map. }
      apply in_map_iff in Hin as (h & Eh & Hh).
      apply (not_solved s1 h Hinv1 Hh).
      rewrite (proj1 (Forall_forall _ _) Hreq1 h Hh), Eh, Hcm1.
      unfold getAllEdges. rewrite values_entries_of.
      rewrite Hsol, !degree_app2, !degree_cons.
      unfold incident. simpl. rewrite IdA, !String.eqb_refl. simpl.
      pose proof solution_counts as Hcounts.
      rewrite Hsol in Hcounts. apply Forall_app in Hcounts as [_ Hcounts].
      inversion Hcounts as [|? ? _ Htodo]; subst.
      pose proof (degree_nonneg todo (nodeA e) Htodo).
      rewrite ?degree_nil. lia. }
    assert (Hwithin1 : within_solution solution (entries_of (placed ++ [e1]))).
    { intros e' He'. rewrite values_entries_of in He'.
      apply in_app_or in He' as [He'|[<-|[]]].
      - exists e'. split; [rewrite Hsol; apply in_or_app; now left|].
        left. split; reflexivity.
      - exists e. split; [exact He|]. left. simpl. auto. }
    destruct (toggle_step g s1 (entries_of (placed ++ [e1])) e a0 b0 Hinv1
                Hstat1 Hcm1 Hwithin1 Hsel1 Hsolved1 He FA0 FB0)
      as (s2 & Hrun2 & Hcm2 & Hstat2 & Hsel2 & Hinv2).
    unfold e1 in Hcm2. rewrite toggle_second in Hcm2 by assumption.
    assert (mkEdgeData (house_id a0) (house_id b0) 2 = e) as Ee
      by (destruct e; simpl in *; congruence).
    rewrite Ee in Hcm2.
    exists s2. split.
    + change [GameScene.pointerdown (ref a0); GameScene.pointerdown (ref b0);
              GameScene.pointerdown (ref a0); GameScene.pointerdown (ref b0)]
        with ([GameScene.pointerdown (ref a0); GameScene.pointerdown (ref b0)]
              ++ [GameScene.pointerdown (ref a0); GameScene.pointerdown (ref b0)]).
      rewrite (run_app R _ _ _ _ _ _ Hrun1). exact Hrun2.
    + repeat (split; auto).
      apply (static_required_degree (GameScene.houses s1)); auto. congruence.
Qed.

(** While an edge of the solution is missing, the puzzle is not solved. *)
Lemma played_not_solved placed e todo s :
  solution = placed ++ e :: todo ->
  played hs0 solution placed s ->
  GameScene.isSolved s = false.
Proof.
  intros Hsol (Hinv & Hstat & Hcm & Hsel & Hreq).
  pose proof Hlegal as (Hnd & Hedge & _).
  assert (He : In e solution) by (rewrite Hsol; apply in_elt).
  destruct (Hedge e He) as (an & bn & FA & _ & _ & _ & _ & Hc).
  destruct (find_node_house _ _ 0%nat _ FA) as (a0 & FA0 & _).
  rewrite <- Hhs0 in FA0.
  pose proof (find_house_Some _ _ _ FA0) as [HinA IdA].
  assert (In (nodeA e) (map house_id (GameScene.houses s))) as Hin.
  { rewrite (static_ids _ _ Hstat), <- IdA. now apply in_map. }
  apply in_map_iff in Hin as (h & Eh & Hh).
  apply (not_solved s h Hinv Hh).
  rewrite (proj1 (Forall_forall _ _) Hreq h Hh), Eh, Hcm.
  unfold getAllEdges. rewrite values_entries_of.
  rewrite Hsol, !degree_app2, !degree_cons.
  unfold incident. rewrite String.eqb_refl. simpl.
  pose proof solution_counts as Hcounts.
  rewrite Hsol in Hcounts. apply Forall_app in Hcounts as [_ Hcounts].
  inversion Hcounts as [|? ? _ Htodo]; subst.
  pose proof (degree_nonneg todo (nodeA e) Htodo). lia.
Qed.

Lemma play_all (g : rstate R) todo : forall placed s,
  solution = placed ++ todo ->
  played hs0 solution placed s ->
  exists s',
    GameScene.run R (flat_map (clicks_for hs0) todo) s g = (Ok s', g) /\
    played hs0 solution solution s'.
Proof.
  induction todo as [|e todo IH]; intros placed s Hsol Hplayed.
  - rewrite app_nil_r in Hsol. subst placed. exists s. split; [reflexivity|].
    exact Hplayed.
  - pose proof (played_not_solved _ _ _ _ Hsol Hplayed) as Hsolved.
    destruct (edge_played g placed e todo s Hsol Hplayed Hsolved)
      as (s1 & Hrun1 & Hplayed1).
    destruct (IH (placed ++ [e]) s1) as (s2 & Hrun2 & Hplayed2); auto.
    { now rewrite <- app_assoc. }
    exists s2. split; [|exact Hplayed2].
    simpl. rewrite (run_app R _ _ _ _ _ _ Hrun1). exact Hrun2.
Qed.

End Play.

Lemma generate_nodes_nonempty R difficulty g p g' :
  generate R difficulty g = (Ok p, g') -> nodes p <> [].
Proof.
  intros H. apply generate_cases in H as [->|(g0 & g1 & H)]; [discriminate|].
  apply tryGenerate_placed in H.
  destruct H as (r & g2 & placed & g3 & _ & _ & Hlen & _ & Hp).
  intros E. rewrite E in Hp. simpl in Hp. rewrite <- Hp in Hlen. simpl in Hlen.
  destruct difficulty; discriminate.
Qed.

Lemma startGame_generate R s difficulty g p g' :
  generate R difficulty g = (Ok p, g') ->
  GameScene.startGame R s difficulty g
  = (Ok (GameScene.mk (make_houses 0 (nodes p)) JsMap.empty None false
           difficulty []), g').
Proof.
  intros H. unfold GameScene.startGame. now rewrite (bindG_eq _ _ _ _ _ H).
Qed.

Lemma solution_played R difficulty g p g' :
  sort_permutes R ->
  generate R difficulty g = (Ok p, g') ->
  exists s,
    GameScene.run R (GameScene.START_GAME difficulty :: solution_clicks p)
      GameScene.init g = (Ok s, g') /\
    played (make_houses 0 (nodes p)) (solutionEdges p) (solutionEdges p) s.
Proof.
  intros Hsort Hgen.
  set (s0 := GameScene.mk (make_houses 0 (nodes p)) JsMap.empty None false
               difficulty []).
  pose proof (startGame_generate R GameScene.init _ _ _ _ Hgen) as Hstart.
  fold s0 in Hstart.
  assert (Hplayed0 : played (make_houses 0 (nodes p)) (solutionEdges p) [] s0).
  { split; [eapply startGame_inv; exact Hstart|].
    split; [reflexivity|]. split; [reflexivity|]. split; [reflexivity|].
    simpl.
    apply (Forall_map dataModel
             (fun n => requiredConnections n = degree (solutionEdges p) (id n))).
    rewrite dataModel_make_houses. eapply generate_degree; eauto. }
  destruct (play_all R (nodes p) (solutionEdges p) (make_houses 0 (nodes p))
              (generate_legal _ _ _ _ _ Hsort Hgen) eq_refl g'
              (solutionEdges p) [] s0 eq_refl Hplayed0)
    as (s & Hrun & Hplayed).
  exists s. split; [|exact Hplayed].
  cbn [GameScene.run GameScene.dispatch].
  rewrite (bindG_eq _ _ _ _ _ Hstart). exact Hrun.
Qed.

(** The solution, played from a new game. *)
Lemma solution_playthrough R difficulty g g' p :
  sort_permutes R ->
  generate R difficulty g = (Ok p, g') ->
  exists s,
    GameScene.run R (GameScene.START_GAME difficulty :: solution_clicks p)
      GameScene.init g = (Ok s, g') /\
    getAllEdges (GameScene.cableManager s) = solutionEdges p /\
    Forall (fun h => currentConnections (dataModel h)
                     = requiredConnections (dataModel h))
      (GameScene.houses s) /\
    (GameScene.isSolved s = true <->
     forall n, In n (nodes p) ->
       reach (solutionEdges p) (id (hd n (nodes p))) (id n)).
Proof.
  intros Hsort Hgen.
  destruct (solution_played R difficulty g p g' Hsort Hgen)
    as (s & Hrun & Hinv & Hstat & Hcm & _ & Hreq).
  exists s. split; [exact Hrun|].
  assert (Hedges : getAllEdges (GameScene.cableManager s) = solutionEdges p)
    by (rewrite Hcm; apply values_entries_of).
  split; [exact Hedges|].
  pose proof Hinv as ((_ & _ & _ & Hsc & _) & Hcounts & Hv).
  rewrite Hedges in Hcounts, Hsc.
  assert (Hdeg : forall h, In h (GameScene.houses s) ->
            degree (solutionEdges p) (house_id h)
            = requiredConnections (dataModel h)).
  { intros h Hh. symmetry. now apply (proj1 (Forall_forall _ _) Hreq). }
  split.
  { apply Forall_forall. intros h Hh.
    rewrite (proj1 (Forall_forall _ _) Hcounts h Hh). now apply Hdeg. }
  assert (Hids : map house_id (GameScene.houses s) = map id (nodes p)).
  { rewrite (static_ids _ _ Hstat). apply ids_make_houses. }
  rewrite Hv, (checkWinCondition_decides _ _
                 (eq_ind_r (fun l => scene_ok _ l) Hsc Hedges)), Hedges.
  pose proof (generate_nodes_nonempty _ _ _ _ _ Hgen) as Hne.
  destruct (nodes p) as [|n0 rest] eqn:En; [contradiction|].
  destruct (GameScene.houses s) as [|h0 hrest] eqn:Eh; [discriminate|].
  injection Hids as Hid0 Hidrest. unfold solved_spec. split.
  - intros [_ Hreach] n Hn. simpl.
    assert (In (id n) (map house_id (h0 :: hrest))) as Hin.
    { simpl. rewrite Hid0, Hidrest. now apply (in_map id) in Hn. }
    apply in_map_iff in Hin as (h & Ehid & Hh).
    rewrite <- Hid0, <- Ehid. now apply Hreach.
  - intros Hreach. split; [exact Hdeg|]. intros h Hh.
    assert (In (house_id h) (map id (n0 :: rest))) as Hin.
    { simpl. rewrite <- Hid0, <- Hidrest. now apply (in_map house_id) in Hh. }
    apply in_map_iff in Hin as (n & Enid & Hn).
    rewrite Hid0, <- Enid. apply (Hreach n Hn).
Qed.

(** X10. Every puzzle can be played to its own solution.  From a new game,
    clicking the two ends of each solution edge, once per cable and in the
    order of [solutionEdges], is accepted click by click; afterwards the
    board holds exactly the solution edges and every house shows the count
    it requires, and the puzzle is marked solved exactly when the solution
    edges connect all nodes.  The engine's sort is assumed to return its
    input reordered. *)
Theorem solution_is_playable (R : RandomSource) (difficulty : Difficulty)
    (g g' : rstate R) (p : Puzzle) :
  sort_permutes R ->
  generate R difficulty g = (Ok p, g') ->
  exists s,
    GameScene.run R (GameScene.START_GAME difficulty :: solution_clicks p)
      GameScene.init g = (Ok s, g') /\
    getAllEdges (GameScene.cableManager s) = solutionEdges p /\
    Forall (fun h => currentConnections (dataModel h)
                     = requiredConnections (dataModel h))
      (GameScene.houses s) /\
    (GameScene.isSolved s = true <->
     forall n, In n (nodes p) ->
       reach (solutionEdges p) (id (hd n (nodes p))) (id n)).
Proof.
  intros Hsort Hgen.
  destruct (solution_playthrough R difficulty g g' p Hsort Hgen)
    as (s & Hrun & Hedges & Hcounts & Hsolved).
  exists s. auto.
Qed.

(** X11. On the houses of a generated puzzle, as long as every cable on the
    board joins a pair of nodes that the solution joins, [canConnect] allows
    every solution edge: its ends are aligned, no house lies between them,
    and it crosses no cable of the board.  The engine's sort is assumed to
    return its input reordered. *)
Theorem solution_edges_connectable (R : RandomSource)
    (difficulty : Difficulty) (g g' : rstate R) (p : Puzzle)
    (edges : EdgeMap) (e : EdgeData) (a b : House) :
  sort_permutes R ->
  generate R difficulty g = (Ok p, g') ->
  within_solution (solutionEdges p) edges ->
  In e (solutionEdges p) ->
  find_house (nodeA e) (make_houses 0 (nodes p)) = Some a ->
  find_house (nodeB e) (make_houses 0 (nodes p)) = Some b ->
  canConnect edges a b (make_houses 0 (nodes p)) = Ok true.
Proof.
  intros Hsort Hgen. apply solution_edge_connectable.
  eapply generate_legal; eauto.
Qed.

(* ================================================================== *)
(** * The board stays legal *)

(** ** Geometry *)

Lemma linesCross_flip_first a1 a2 b1 b2 :
  aligned a1 a2 -> linesCross a2 a1 b1 b2 = linesCross a1 a2 b1 b2.
Proof.
  intros Hal. rewrite (linesCross_swap a2 a1), (linesCross_swap a1 a2).
  symmetry. now apply linesCross_flip.
Qed.

Lemma aligned_sym p q : aligned p q -> aligned q p.
Proof. unfold aligned. intuition congruence. Qed.

Lemma strictly_between_sym u0 v0 c :
  aligned u0 v0 -> strictly_between u0 v0 c -> strictly_between v0 u0 c.
Proof. unfold aligned, strictly_between. intros Hal H. lia. Qed.

Lemma node_between_sym a b hs :
  aligned (dataModel a) (dataModel b) ->
  node_between a b hs -> node_between b a hs.
Proof.
  intros Hal (o & Hin & Ha & Hb & Hsb). exists o.
  repeat (split; auto). now apply strictly_between_sym.
Qed.

Lemma pair_legal_sym hs a b : pair_legal hs a b -> pair_legal hs b a.
Proof.
  intros [Hal Hnb]. split; [now apply aligned_sym|].
  intros H. apply Hnb. apply node_between_sym; auto. now apply aligned_sym.
Qed.

Lemma no_cross_iff a1 a2 b1 b2 :
  ~ strictly_crosses a1 a2 b1 b2 <-> linesCross a1 a2 b1 b2 = false.
Proof. rewrite <- linesCross_iff. apply not_true_iff_false. Qed.

(** ** Multiplicities after one change *)

Lemma hasConnection_key edges i j a b :
  getEdgeKey i j = getEdgeKey a b ->
  hasConnection edges i j = hasConnection edges a b.
Proof. unfold hasConnection. now intros ->. Qed.

Lemma hasConnection_sym edges i j :
  hasConnection edges i j = hasConnection edges j i.
Proof. apply hasConnection_key, getEdgeKey_comm. Qed.

Lemma hasConnection_toggle_other edges a b i j :
  getEdgeKey i j <> getEdgeKey (house_id a) (house_id b) ->
  hasConnection (fst (toggleConnection edges a b)) i j = hasConnection edges i j.
Proof.
  intros Hne. unfold hasConnection.
  now rewrite get_toggleConnection_other.
Qed.

Lemma hasConnection_set_other edges a b c i j :
  getEdgeKey i j <> getEdgeKey (house_id a) (house_id b) ->
  hasConnection (setConnection edges a b c) i j = hasConnection edges i j.
Proof.
  intros Hne. unfold hasConnection.
  now rewrite get_setConnection_other.
Qed.

Lemma same_mult_setConnection edges edges' a b c :
  same_mult edges edges' ->
  same_mult (setConnection edges a b c) (setConnection edges' a b c).
Proof.
  intros H i j.
  destruct (string_dec (getEdgeKey i j) (getEdgeKey (house_id a) (house_id b)))
    as [E|Hne].
  - rewrite !(hasConnection_key _ i j _ _ E).
    now rewrite !hasConnection_setConnection.
  - rewrite !hasConnection_set_other by assumption. apply H.
Qed.

Lemma board_legal_mult hs edges edges' :
  same_mult edges edges' -> board_legal hs edges -> board_legal hs edges'.
Proof.
  intros H [H1 H2]. split.
  - intros a b Ha Hb Hc. apply H1; auto. now rewrite H.
  - intros a b c d Ha Hb Hc Hd Hab Hcd. apply H2; auto; now rewrite H.
Qed.

Lemma undo_safe_mult hs moves : forall edges edges',
  same_mult edges edges' -> undo_safe hs edges moves -> undo_safe hs edges' moves.
Proof.
  induction moves as [|m earlier IH]; intros edges edges' H [Hl Hrest]; simpl.
  - split; [eapply board_legal_mult; eauto | exact I].
  - split; [eapply board_legal_mult; eauto|].
    destruct (find_house (GameScene.nodeAId m) hs) as [a|]; [|eauto].
    destruct (find_house (GameScene.nodeBId m) hs) as [b|]; [|eauto].
    eapply IH; [|exact Hrest]. now apply same_mult_setConnection.
Qed.

(** ** A connected pair has an entry *)

Lemma houses_by_key hs a b c d :
  houses_ok hs -> In a hs -> In b hs -> In c hs -> In d hs ->
  getEdgeKey (house_id a) (house_id b) = getEdgeKey (house_id c) (house_id d) ->
  (a = c /\ b = d) \/ (a = d /\ b = c).
Proof.
  intros [Hnd Hdf] Ha Hb Hc Hd E.
  pose proof (proj1 (Forall_forall _ _) Hdf) as Hdash.
  apply getEdgeKey_inj in E; auto.
  destruct E as [[E1 E2]|[E1 E2]]; [left|right];
    split; eapply (NoDup_map_eq house_id hs); eauto.
Qed.

Lemma connected_entry hs edges c d :
  houses_ok hs -> edges_inv edges -> scene_ok hs (getAllEdges edges) ->
  In c hs -> In d hs ->
  hasConnection edges (house_id c) (house_id d) <> 0 ->
  exists e, In e (JsMap.values edges) /\
    ((nodeA e = house_id c /\ nodeB e = house_id d) \/
     (nodeA e = house_id d /\ nodeB e = house_id c)).
Proof.
  intros [Hnd Hdf] [_ Hent] [_ Hends] Hc Hd Hcon.
  unfold hasConnection in Hcon.
  destruct (JsMap.get (getEdgeKey (house_id c) (house_id d)) edges) as [e|] eqn:G;
    [|congruence].
  apply JsMapFacts.get_Some_in in G.
  destruct (Hent _ _ G) as [Hk _].
  assert (He : In e (JsMap.values edges)).
  { unfold JsMap.values. apply in_map_iff. exists (getEdgeKey (house_id c) (house_id d), e).
    split; auto. }
  exists e. split; [exact He|].
  destruct (Hends e He) as (HA & HB & _).
  pose proof (proj1 (Forall_forall _ _) Hdf) as Hdash.
  apply in_map_iff in HA as (hA & EA & HinA).
  apply in_map_iff in HB as (hB & EB & HinB).
  rewrite <- EA, <- EB in Hk |- *.
  symmetry in Hk. apply getEdgeKey_inj in Hk; auto.
Qed.

(** What a successful [canConnect] says of a connected pair. *)
Lemma canConnect_no_cross hs edges a b c d :
  houses_ok hs -> edges_inv edges -> scene_ok hs (getAllEdges edges) ->
  In a hs -> In b hs -> In c hs -> In d hs ->
  canConnect edges a b hs = Ok true ->
  hasConnection edges (house_id c) (house_id d) <> 0 ->
  aligned (dataModel c) (dataModel d) ->
  linesCross (dataModel a) (dataModel b) (dataModel c) (dataModel d) = false.
Proof.
  intros Hok Hinv Hsc Ha Hb Hc Hd Hcan Hcon Hal.
  destruct (connected_entry hs edges c d Hok Hinv Hsc Hc Hd Hcon)
    as (e & He & Hends).
  pose proof (canConnect_returned _ _ _ _ _ Hcan) as Hfalse.
  assert (Hnc : ~ crosses_placed_edge edges a b hs).
  { intros H. assert (true = false) by (apply Hfalse; auto). discriminate. }
  pose proof (find_house_unique hs c (proj1 Hok) Hc) as Fc.
  pose proof (find_house_unique hs d (proj1 Hok) Hd) as Fd.
  destruct (touches e (dataModel a) (dataModel b)) eqn:Ht.
  - (* a shared end *)
    apply shared_end_no_cross.
    unfold touches in Ht. rewrite !orb_true_iff, !String.eqb_eq in Ht.
    fold (house_id a) in Ht. fold (house_id b) in Ht.
    assert (forall h h', In h hs -> In h' hs -> house_id h = house_id h' ->
                         dataModel h = dataModel h') as Hsame.
    { intros h h' Hh Hh' E. f_equal.
      eapply (NoDup_map_eq house_id hs); eauto. apply Hok. }
    destruct Hends as [[EA EB]|[EA EB]]; rewrite EA, EB in Ht;
      destruct Ht as [[[E|E]|E]|E]; eauto 10.
  - apply touches_false_iff in Ht. destruct Ht as (T1 & T2 & T3 & T4).
    apply no_cross_iff.
    destruct Hends as [[EA EB]|[EA EB]].
    + intros Hx. apply Hnc. exists e, c, d.
      rewrite EA, EB. repeat (split; auto); congruence.
    + intros Hx. apply Hnc. exists e, d, c.
      rewrite EA, EB. repeat (split; auto); try congruence.
      apply linesCross_iff.
      rewrite linesCross_flip by (now apply aligned_sym).
      now apply linesCross_iff.
Qed.

(** ** A click keeps the board legal *)

Lemma canConnect_pair_legal hs edges a b :
  canConnect edges a b hs = Ok true -> pair_legal hs a b.
Proof.
  intros Hcan. pose proof (canConnect_returned _ _ _ _ _ Hcan) as Hfalse.
  split.
  - destruct (aligned_dec (dataModel a) (dataModel b)) as [H|H]; auto.
    assert (true = false) by (apply Hfalse; auto). discriminate.
  - intros H. assert (true = false) by (apply Hfalse; auto). discriminate.
Qed.

Lemma board_legal_toggle hs edges a b :
  houses_ok hs -> edges_inv edges -> scene_ok hs (getAllEdges edges) ->
  board_legal hs edges ->
  In a hs -> In b hs ->
  canConnect edges a b hs = Ok true ->
  board_legal hs (fst (toggleConnection edges a b)).
Proof.
  intros Hok Hinv Hsc [H1 H2] Ha Hb Hcan.
  pose proof (canConnect_pair_legal _ _ _ _ Hcan) as Hpl.
  pose proof Hpl as [Hal _].
  assert (Hcase : forall p q, In p hs -> In q hs ->
            hasConnection (fst (toggleConnection edges a b))
              (house_id p) (house_id q) <> 0 ->
            ((p = a /\ q = b) \/ (p = b /\ q = a)) \/
            hasConnection edges (house_id p) (house_id q) <> 0).
  { intros p q Hp Hq Hcon.
    destruct (string_dec (getEdgeKey (house_id p) (house_id q))
                (getEdgeKey (house_id a) (house_id b))) as [E|Hne].
    - left. eapply houses_by_key; eauto.
    - right. now rewrite hasConnection_toggle_other in Hcon. }
  assert (Hnew : forall r t, In r hs -> In t hs ->
            hasConnection edges (house_id r) (house_id t) <> 0 ->
            linesCross (dataModel a) (dataModel b) (dataModel r) (dataModel t)
            = false).
  { intros r t Hr Ht Hcon.
    eapply canConnect_no_cross; eauto. apply (H1 r t); auto. }
  split.
  - intros p q Hp Hq Hcon.
    destruct (Hcase p q Hp Hq Hcon) as [[[-> ->]|[-> ->]]|Hold]; auto.
    now apply pair_legal_sym.
  - intros p q r t Hp Hq Hr Ht Hpq Hrt. apply no_cross_iff.
    destruct (Hcase p q Hp Hq Hpq) as [[[-> ->]|[-> ->]]|Hold1];
      destruct (Hcase r t Hr Ht Hrt) as [[[-> ->]|[-> ->]]|Hold2];
      try (apply shared_end_no_cross; auto; fail).
    + now apply Hnew.
    + rewrite linesCross_flip_first by assumption. now apply Hnew.
    + rewrite linesCross_swap. now apply Hnew.
    + rewrite linesCross_flip by (now apply aligned_sym).
      rewrite linesCross_swap. now apply Hnew.
    + apply no_cross_iff. now apply H2.
Qed.

(** ** The invariant along a game *)

Lemma board_legal_empty hs : board_legal hs JsMap.empty.
Proof.
  split.
  - intros a b _ _ H. now contradiction H.
  - intros a b c d _ _ _ _ H. now contradiction H.
Qed.

Lemma undo_safe_legal hs edges moves :
  undo_safe hs edges moves -> board_legal hs edges.
Proof. destruct moves; simpl; tauto. Qed.

Lemma legal_inv_fields hs cm sel b d hist hs' sel' b' d' :
  legal_inv (GameScene.mk hs cm sel b d hist) ->
  reset_counts hs' = reset_counts hs ->
  legal_inv (GameScene.mk hs' cm sel' b' d' hist).
Proof. unfold legal_inv. simpl. now intros H ->. Qed.

Lemma legal_inv_checkWin s :
  legal_inv s -> legal_inv (GameScene.checkWin s).
Proof.
  unfold legal_inv.
  destruct (checkWin_fields s) as (Hh & Hcm & _ & Hhist & _).
  rewrite Hh, Hcm, Hhist, recounted_static. auto.
Qed.

Lemma houses_ok_reset hs : houses_ok hs -> houses_ok (reset_counts hs).
Proof. apply static_houses_ok, reset_counts_idem. Qed.

Lemma scene_ok_reset hs edges :
  scene_ok hs edges -> scene_ok (reset_counts hs) edges.
Proof. apply static_scene_ok, reset_counts_idem. Qed.

Lemma in_reset_counts h hs :
  In h hs -> In (updateConnectionCount h 0) (reset_counts hs).
Proof.
  intros H. unfold reset_counts.
  now apply (in_map (fun h => updateConnectionCount h 0)).
Qed.

Lemma handleHouseClick_legal s house s' :
  GameScene.scene_inv s -> legal_inv s -> In house (GameScene.houses s) ->
  GameScene.handleHouseClick s house = Ok s' ->
  legal_inv s'.
Proof.
  intros Hinv Hlegal Hin. unfold GameScene.handleHouseClick.
  destruct s as [hs cm sel b d hist]. simpl in *.
  destruct b; [now intros [= <-]|].
  destruct sel as [r|]; [|now intros [= <-]].
  destruct (Nat.eqb r (ref house)) eqn:Hr; [now intros [= <-]|].
  pose proof Hinv as (Hst & _).
  pose proof Hst as (Hok & Hrefs & Hedges & Hsc & Hselin & _). simpl in *.
  destruct (deref_in _ _ (Hselin r eq_refl)) as (selected & Hd).
  rewrite Hd. simpl.
  destruct (canConnect cm selected house hs) as [ok|] eqn:Hcan;
    [|discriminate].
  simpl. apply deref_Some in Hd as [Hsin _].
  destruct ok; intros [= <-]; [|exact Hlegal].
  match goal with
  | |- legal_inv (GameScene.mk (GameScene.houses ?c) _ _ _ _ _) =>
      assert (legal_inv c) as Hc; [|exact Hc]
  end.
  apply legal_inv_checkWin. unfold legal_inv in *. simpl in *.
  rewrite rev_app_distr. simpl.
  assert (Hcan' : canConnect cm (updateConnectionCount selected 0)
                    (updateConnectionCount house 0) (reset_counts hs) = Ok true)
    by now rewrite canConnect_reset.
  split.
  - rewrite <- (toggleConnection_ids cm selected house
                  (updateConnectionCount selected 0)
                  (updateConnectionCount house 0)) by reflexivity.
    apply board_legal_toggle; auto.
    + now apply houses_ok_reset.
    + now apply scene_ok_reset.
    + eapply undo_safe_legal; eauto.
    + now apply in_reset_counts.
    + now apply in_reset_counts.
  - rewrite !find_house_reset_counts.
    fold (house_id selected). fold (house_id house).
    rewrite (find_house_unique hs selected (proj1 Hok) Hsin).
    rewrite (find_house_unique hs house (proj1 Hok) Hin). simpl.
    eapply undo_safe_mult; [|exact Hlegal].
    intros i j. symmetry.
    rewrite (setConnection_ids _ selected house) by reflexivity.
    apply toggle_then_set_back.
Qed.

Lemma undo_legal s : legal_inv s -> legal_inv (GameScene.undo s).
Proof.
  intros Hlegal. unfold GameScene.undo.
  destruct (Nat.eqb _ 0 || GameScene.isSolved s); [exact Hlegal|].
  destruct (GameScene.pop (GameScene.history s)) as [[m history']|] eqn:Hp;
    [|exact Hlegal].
  apply pop_Some in Hp.
  destruct s as [hs cm sel b d hist]. unfold legal_inv in Hlegal. simpl in *.
  subst hist. rewrite rev_app_distr in Hlegal. simpl in Hlegal.
  destruct Hlegal as [_ Hrest].
  rewrite !find_house_reset_counts in Hrest.
  destruct (find_house (GameScene.nodeAId m) hs) as [houseA|];
    [|exact Hrest].
  destruct (find_house (GameScene.nodeBId m) hs) as [houseB|];
    [|exact Hrest].
  apply legal_inv_checkWin. unfold legal_inv. simpl in *.
  rewrite (setConnection_ids _ houseA houseB) in Hrest by reflexivity.
  exact Hrest.
Qed.

Lemma resetCurrentPuzzle_legal s :
  legal_inv s -> legal_inv (GameScene.resetCurrentPuzzle s).
Proof.
  intros Hlegal. unfold GameScene.resetCurrentPuzzle.
  destruct (GameScene.isSolved s); [exact Hlegal|].
  unfold legal_inv. simpl. split; [apply board_legal_empty | exact I].
Qed.

Lemma startGame_legal R s difficulty g s' g' :
  GameScene.startGame R s difficulty g = (Ok s', g') -> legal_inv s'.
Proof.
  intros H. apply startGame_Ok in H as (p & _ & ->).
  unfold legal_inv. simpl. split; [apply board_legal_empty | exact I].
Qed.

Lemma dispatch_legal R s ev g s' g' :
  GameScene.scene_inv s -> legal_inv s ->
  GameScene.dispatch R s ev g = (Ok s', g') -> legal_inv s'.
Proof.
  intros Hinv Hlegal. destruct ev as [difficulty| | | |r]; simpl.
  - apply startGame_legal.
  - intros H. apply ret_Ok in H as [-> _]. now apply resetCurrentPuzzle_legal.
  - intros H. apply ret_Ok in H as [-> _]. exact Hlegal.
  - intros H. apply ret_Ok in H as [-> _]. now apply undo_legal.
  - destruct (GameScene.deref (GameScene.houses s) r) as [house|] eqn:Hd.
    + intros H. apply lift_Ok in H as [H _].
      apply deref_Some in Hd as [Hin _].
      eapply handleHouseClick_legal; eauto.
    + intros H. apply ret_Ok in H as [-> _]. exact Hlegal.
Qed.

Lemma run_legal R evs : forall s g s' g',
  GameScene.scene_inv s -> legal_inv s ->
  GameScene.run R evs s g = (Ok s', g') -> legal_inv s'.
Proof.
  induction evs as [|ev rest IH]; intros s g s' g' Hinv Hlegal H; simpl in H.
  - apply ret_Ok in H as [-> _]. exact Hlegal.
  - apply bindG_Ok in H. destruct H as (s1 & g1 & Hd & H).
    destruct (dispatch_inv R s ev g Hinv) as (s1' & g1' & Hd' & Hinv1).
    rewrite Hd in Hd'. injection Hd' as E1 E2. subst s1' g1'.
    eapply IH; [exact Hinv1 | | exact H].
    exact (dispatch_legal R s ev g s1 g1 Hinv Hlegal Hd).
Qed.

Lemma board_legal_unreset hs edges :
  board_legal (reset_counts hs) edges -> board_legal hs edges.
Proof.
  intros [H1 H2]. split.
  - intros a b Ha Hb Hcon.
    destruct (H1 _ _ (in_reset_counts _ _ Ha) (in_reset_counts _ _ Hb) Hcon)
      as [Hal Hnb].
    split; [exact Hal|].
    intros H. apply Hnb. apply node_between_iff. apply node_between_iff in H.
    change (x (dataModel (updateConnectionCount a 0))) with (x (dataModel a)).
    change (x (dataModel (updateConnectionCount b 0))) with (x (dataModel b)).
    now rewrite between_loop_static.
  - intros a b c d Ha Hb Hc Hd Hab Hcd.
    apply (H2 _ _ _ _ (in_reset_counts _ _ Ha) (in_reset_counts _ _ Hb)
             (in_reset_counts _ _ Hc) (in_reset_counts _ _ Hd) Hab Hcd).
Qed.

(** X12. All along a game the board is legal: whenever [hasConnection]
    reports a cable between two houses, the two share a row or a column and
    no house lies strictly between them, and no two connected pairs cross.
    Clicks, undo, reset and new games all keep it so. *)
Theorem scene_board_legal (R : RandomSource) (evs : list GameScene.Event)
    (g g' : rstate R) (s : GameScene.t) :
  GameScene.run R evs GameScene.init g = (Ok s, g') ->
  board_legal (GameScene.houses s) (GameScene.cableManager s).
Proof.
  intros H. apply board_legal_unreset.
  apply (undo_safe_legal _ _ (rev (GameScene.history s))).
  apply (run_legal R evs GameScene.init g s g' init_inv); [|exact H].
  unfold legal_inv. simpl. split; [apply board_legal_empty | exact I].
Qed.

(* ================================================================== *)
(** * Further properties of the parts *)

(** ** The generator and the game agree on geometry *)

Lemma isNodeBetween_true_iff u0 v0 nodes :
  isNodeBetween u0 v0 nodes = true <->
  exists n, In n nodes /\ id n <> id u0 /\ id n <> id v0 /\
            blocks (x u0 =? x v0) u0 v0 n = true.
Proof.
  unfold isNodeBetween. cbv zeta. generalize (x u0 =? x v0) as vert.
  intros vert. induction nodes as [|m rest IH]; simpl.
  - split; [discriminate | intros (n & [] & _)].
  - destruct (String.eqb (id m) (id u0) || String.eqb (id m) (id v0)) eqn:E.
    + rewrite IH. apply orb_true_iff in E. rewrite !String.eqb_eq in E.
      split; intros (n & Hin & Hu & Hv & Hb).
      * exists n. auto.
      * destruct Hin as [->|Hin]; [tauto|]. exists n. auto.
    + apply orb_false_iff in E. rewrite !String.eqb_neq in E.
      destruct (blocks vert u0 v0 m) eqn:Eb.
      * split; auto. intros _. exists m. tauto.
      * rewrite IH. split; intros (n & Hin & Hu & Hv & Hb).
        -- exists n. auto.
        -- destruct Hin as [->|Hin]; [congruence|]. exists n. auto.
Qed.

(** X13. The generator and the game test the same geometry.  On the houses
    made from nodes with unique ids, [isNodeBetween] of the generator finds a
    blocking node exactly when step 2 of [canConnect] does, and [linesCross]
    of the generator is the crossing test of step 3 of [canConnect]. *)
Theorem generator_agrees_with_game (nodes : list NodeData) (next : nat)
    (a b : House) :
  NoDup (map id nodes) ->
  In a (make_houses next nodes) -> In b (make_houses next nodes) ->
  isNodeBetween (dataModel a) (dataModel b) nodes
  = negb (between_loop a b (x (dataModel a) =? x (dataModel b))
            (make_houses next nodes)) /\
  forall c d,
    linesCross (dataModel a) (dataModel b) c d
    = crosses_edge (x (dataModel a) =? x (dataModel b))
        (dataModel a) (dataModel b) c d.
Proof.
  intros Hnd Ha Hb. set (hs := make_houses next nodes) in *.
  assert (Hids : NoDup (map house_id hs))
    by (unfold hs; now rewrite ids_make_houses).
  split.
  - apply Bool.eq_iff_eq_true.
    rewrite negb_true_iff, isNodeBetween_true_iff, between_loop_false_iff.
    split.
    + intros (n & Hin & Hu & Hv & Hbl).
      rewrite <- (dataModel_make_houses nodes next) in Hin.
      apply in_map_iff in Hin as (o & <- & Ho). exists o.
      repeat (split; auto); intros E; [apply Hu | apply Hv];
        f_equal; f_equal; eapply (NoDup_map_eq ref hs); eauto;
        unfold hs; rewrite refs_make_houses; apply seq_NoDup.
    + intros (o & Ho & Hra & Hrb & Hbl). exists (dataModel o).
      split; [rewrite <- (dataModel_make_houses nodes next);
              now apply in_map|].
      repeat (split; auto); intros E; [apply Hra | apply Hrb];
        f_equal; eapply (NoDup_map_eq house_id hs); eauto.
  - intros c d. apply Bool.eq_iff_eq_true.
    now rewrite linesCross_iff, crosses_edge_iff.
Qed.

(** ** The edge map *)

(** X14. A change of the edge map touches one pair only.  After
    [setConnection] on [a] and [b] the pair has the given number of cables,
    read in either order; after [toggleConnection] or [setConnection], any
    pair with a different key has the number of cables it had. *)
Theorem edits_touch_one_pair (edges : EdgeMap) (a b : House) (c : Z)
    (i j : string) :
  hasConnection (setConnection edges a b c) (house_id a) (house_id b) = c /\
  hasConnection (setConnection edges a b c) (house_id b) (house_id a) = c /\
  (getEdgeKey i j <> getEdgeKey (house_id a) (house_id b) ->
   hasConnection (setConnection edges a b c) i j = hasConnection edges i j /\
   hasConnection (fst (toggleConnection edges a b)) i j
   = hasConnection edges i j).
Proof.
  split; [apply hasConnection_setConnection|].
  split; [rewrite hasConnection_sym; apply hasConnection_setConnection|].
  intros Hne. split.
  - now apply hasConnection_set_other.
  - now apply hasConnection_toggle_other.
Qed.

(** ** The win check *)

(** X15. The breadth-first search of the win check terminates and visits
    each node reachable from the start along edges, once. *)
Theorem bfs_visits_reachable (edges : list EdgeData) (startId : string) :
  exists visited,
    bfs edges startId = Some visited /\
    NoDup visited /\
    forall v, In v visited <-> reach edges startId v.
Proof.
  destruct (bfs_loop_enough_fuel edges startId) as (visited & H).
  exists visited. split; [exact H|]. now apply bfs_correct.
Qed.

(** X16. The win check reads the board only.  Its verdict and the counts it
    writes are the same whatever counts the houses showed before, and
    whatever the order and the orientation of the edges in the map. *)
Theorem checkWinCondition_reads_board_only (hs hs' : list House)
    (cm cm' : EdgeMap) :
  reset_counts hs' = reset_counts hs ->
  same_graph (getAllEdges cm) (getAllEdges cm') ->
  checkWinCondition hs' cm' = checkWinCondition hs cm.
Proof.
  intros Hs Hg.
  rewrite (checkWinCondition_static hs hs' cm' Hs).
  symmetry. now apply checkWinCondition_same_graph.
Qed.

(** ** Attempts of the generator *)

(** X17. An attempt of the generator fails in three ways only: by throwing
    one of the errors it names itself.  No lookup comes back undefined and
    [find] never runs out of stack, provided the engine's sort returns its
    input reordered. *)
Theorem attempt_throws_only_its_errors (R : RandomSource) (gridSize : Z)
    (nodeRange : Z * Z) (maxConnections : Z) (g g' : rstate R) (e : Exn) :
  sort_permutes R ->
  tryGenerate R gridSize nodeRange maxConnections g = (Throw e, g') ->
  e = Error "Not enough nodes placed" \/
  e = Error "Graph not connected" \/
  e = Error "Isolated node".
Proof. apply tryGenerate_throws_only_errors. Qed.

Lemma generate_ids R difficulty g p g' :
  generate R difficulty g = (Ok p, g') ->
  NoDup (map id (nodes p)) /\
  Forall (fun n => dash_free (id n) = true) (nodes p).
Proof.
  intros H. apply generate_cases in H as [->|(g0 & g1 & H)].
  - split; repeat constructor; simpl; intuition discriminate.
  - eapply tryGenerate_ids; eauto.
Qed.

(** X18. On a generated puzzle the key of an edge identifies its pair of
    nodes: two pairs of nodes have the same [getEdgeKey] only when they are
    the same pair, in the same or the opposite order. *)
Theorem generated_keys_identify_pairs (R : RandomSource)
    (difficulty : Difficulty) (g g' : rstate R) (p : Puzzle)
    (a b c d : NodeData) :
  generate R difficulty g = (Ok p, g') ->
  In a (nodes p) -> In b (nodes p) -> In c (nodes p) -> In d (nodes p) ->
  getEdgeKey (id a) (id b) = getEdgeKey (id c) (id d) ->
  (a = c /\ b = d) \/ (a = d /\ b = c).
Proof.
  intros H Ha Hb Hc Hd E. apply generate_ids in H as [Hnd Hdf].
  pose proof (proj1 (Forall_forall _ _) Hdf) as Hdash.
  apply getEdgeKey_inj in E; auto.
  destruct E as [[E1 E2]|[E1 E2]]; [left|right];
    split; eapply (NoDup_map_eq id (nodes p)); eauto.
Qed.

(** ** A solved scene *)

Lemma dispatch_solved R s ev (g : rstate R) :
  GameScene.isSolved s = true ->
  (forall difficulty, ev <> GameScene.START_GAME difficulty) ->
  GameScene.dispatch R s ev g = (Ok s, g).
Proof.
  intros Hs Hev. destruct ev as [difficulty| | | |r]; simpl.
  - now contradiction (Hev difficulty).
  - unfold GameScene.resetCurrentPuzzle. now rewrite Hs.
  - reflexivity.
  - unfold GameScene.undo. now rewrite Hs, orb_true_r.
  - destruct (GameScene.deref (GameScene.houses s) r); [|reflexivity].
    unfold GameScene.handleHouseClick. now rewrite Hs.
Qed.

(** X19. A solved scene is frozen: until a new game starts, clicks on
    houses, undo and reset leave the scene as it is. *)
Theorem solved_scene_is_frozen (R : RandomSource)
    (evs : list GameScene.Event) (s : GameScene.t) (g : rstate R) :
  GameScene.isSolved s = true ->
  Forall (fun ev => forall difficulty, ev <> GameScene.START_GAME difficulty)
    evs ->
  GameScene.run R evs s g = (Ok s, g).
Proof.
  intros Hs Hevs. induction Hevs as [|ev rest Hev _ IH]; simpl.
  - reflexivity.
  - rewrite (bindG_eq _ _ _ _ _ (dispatch_solved R s ev g Hs Hev)). exact IH.
Qed.

(* ================================================================== *)
(** * The disjoint sets of the generator *)

(** ** Roots *)

Lemma root_of_root l i r : root_of l i r -> nth_error l r = Some r.
Proof. induction 1; auto. Qed.

Lemma root_of_fun l i r1 r2 : root_of l i r1 -> root_of l i r2 -> r1 = r2.
Proof.
  intros H1. revert r2. induction H1 as [r Hr | i p r Hp Hne _ IH]; intros r2 H2.
  - inversion H2 as [? Hr2 | ? ? ? Hp2 Hne2 _]; subst; auto. congruence.
  - inversion H2 as [? Hr2 | ? ? ? Hp2 Hne2 H2']; subst; [congruence|].
    apply IH. congruence.
Qed.

Lemma root_of_range l i r : root_of l i r -> (i < List.length l)%nat.
Proof.
  intros H. apply nth_error_Some. inversion H; subst; congruence.
Qed.

(** Path compression: pointing [i] at its own root changes no root. *)
Lemma compress l i r :
  root_of l i r ->
  forall k r', root_of (set_nth i r l) k r' <-> root_of l k r'.
Proof.
  intros Hi k r'.
  pose proof (root_of_range _ _ _ Hi) as Hlen.
  pose proof (root_of_root _ _ _ Hi) as Hroot.
  split.
  - induction 1 as [k Hk | k p r' Hp Hne _ IH].
    + destruct (Nat.eq_dec i k) as [<- | Hik].
      * rewrite nth_error_set_nth_same in Hk by assumption.
        injection Hk as ->. exact Hi.
      * rewrite nth_error_set_nth_other in Hk by assumption.
        now apply root_self.
    + destruct (Nat.eq_dec i k) as [<- | Hik].
      * rewrite nth_error_set_nth_same in Hp by assumption.
        injection Hp as <-.
        assert (r' = r) as ->
          by (eapply root_of_fun; [exact IH | now apply root_self]).
        exact Hi.
      * rewrite nth_error_set_nth_other in Hp by assumption.
        eapply root_step; eauto.
  - induction 1 as [k Hk | k p r' Hp Hne Hpr IH].
    + destruct (Nat.eq_dec i k) as [<- | Hik].
      * assert (r = i) as ->
          by (eapply root_of_fun; [exact Hi | now apply root_self]).
        apply root_self. now rewrite nth_error_set_nth_same.
      * apply root_self. now rewrite nth_error_set_nth_other.
    + destruct (Nat.eq_dec i k) as [<- | Hik].
      * assert (r' = r) as ->
          by (eapply root_of_fun; [eapply root_step; eauto | exact Hi]).
        assert (r <> i) as Hri by (intros ->; congruence).
        eapply root_step.
        -- now apply nth_error_set_nth_same.
        -- exact Hri.
        -- apply root_self.
           rewrite nth_error_set_nth_other by (apply not_eq_sym; exact Hri).
           exact Hroot.
      * apply (root_step _ k p r');
          [now rewrite nth_error_set_nth_other | exact Hne | exact IH].
Qed.

(** Linking the root [a] under the root [b] moves the set of [a] into the
    set of [b] and changes no other root. *)
Lemma link l a b :
  nth_error l a = Some a -> nth_error l b = Some b -> a <> b ->
  forall k r',
    root_of (set_nth a b l) k r' <->
    (root_of l k r' /\ r' <> a) \/ (root_of l k a /\ r' = b).
Proof.
  intros Ha Hb Hab k r'.
  assert (Hlen : (a < List.length l)%nat)
    by (apply nth_error_Some; congruence).
  split.
  - induction 1 as [k Hk | k p r' Hp Hne _ IH].
    + destruct (Nat.eq_dec a k) as [<- | Hak].
      * rewrite nth_error_set_nth_same in Hk by assumption. congruence.
      * rewrite nth_error_set_nth_other in Hk by assumption.
        left. split; [now apply root_self | auto].
    + destruct (Nat.eq_dec a k) as [<- | Hak].
      * rewrite nth_error_set_nth_same in Hp by assumption.
        injection Hp as <-. right. split; [now apply root_self|].
        destruct IH as [[Hbr _] | [Hba _]].
        -- eapply root_of_fun; [exact Hbr | now apply root_self].
        -- exfalso. apply Hab.
           eapply root_of_fun; [exact Hba | now apply root_self].
      * rewrite nth_error_set_nth_other in Hp by assumption.
        destruct IH as [[Hpr Hra] | [Hpa ->]].
        -- left. split; auto. eapply root_step; eauto.
        -- right. split; auto. eapply root_step; eauto.
  - intros [[H Hra] | [H ->]].
    + induction H as [k Hk | k p r' Hp Hne _ IH].
      * apply root_self.
        rewrite nth_error_set_nth_other by (apply not_eq_sym; exact Hra).
        exact Hk.
      * assert (a <> k) by (intros <-; congruence).
        apply (root_step _ k p r');
          [now rewrite nth_error_set_nth_other | exact Hne | now apply IH].
    + remember a as a0 eqn:Ea in H. revert Ea.
      induction H as [k Hk | k p r' Hp Hne _ IH]; intros ->.
      * eapply root_step.
        -- now apply nth_error_set_nth_same.
        -- auto.
        -- apply root_self. now rewrite nth_error_set_nth_other.
      * assert (a <> k) by (intros <-; congruence).
        apply (root_step _ k p b);
          [now rewrite nth_error_set_nth_other | exact Hne | now apply IH].
Qed.

(** ** [find] *)

Lemma find_fuel_root fuel : forall ds i r ds',
  find_fuel fuel ds i = Ok (r, ds') ->
  root_of (parent ds) i r /\
  forall k r', root_of (parent ds') k r' <-> root_of (parent ds) k r'.
Proof.
  induction fuel as [|fuel IH]; intros ds i r ds' H; [discriminate|].
  simpl in H.
  destruct (nth_error (parent ds) i) as [p|] eqn:Hp; [|discriminate].
  destruct (Nat.eqb p i) eqn:E.
  - apply Nat.eqb_eq in E. subst p. injection H as <- <-.
    split; [now apply root_self | tauto].
  - apply Nat.eqb_neq in E.
    destruct (find_fuel fuel ds p) as [[r1 ds1]|] eqn:Hf; [|discriminate].
    simpl in H. injection H as <- <-.
    destruct (IH _ _ _ _ Hf) as [Hpr Hsame].
    assert (Hir : root_of (parent ds) i r1) by (eapply root_step; eauto).
    split; [exact Hir|]. intros k r'. simpl.
    rewrite compress; [apply Hsame|]. now apply Hsame.
Qed.

Lemma ds_find_root ds i r ds' :
  ds_find ds i = Ok (r, ds') ->
  root_of (parent ds) i r /\
  forall k r', root_of (parent ds') k r' <-> root_of (parent ds) k r'.
Proof. apply find_fuel_root. Qed.

Lemma same_set_roots ds ds' :
  (forall k r', root_of (parent ds') k r' <-> root_of (parent ds) k r') ->
  forall k m, same_set ds' k m <-> same_set ds k m.
Proof.
  intros H k m. unfold same_set.
  split; intros (r & Hk & Hm); exists r; split; now apply H.
Qed.

Lemma ds_ok_root ds i :
  ds_ok ds -> (i < List.length (parent ds))%nat ->
  exists r, root_of (parent ds) i r.
Proof.
  intros [h Hinv] Hi.
  destruct (ds_find_ok h ds i Hinv Hi) as (r & ds' & Hf & _).
  exists r. now apply ds_find_root in Hf.
Qed.

(** X20. On a well-formed parent array [find] returns the root of its
    argument: the end of its chain of parent links.  The path compression
    it performs leaves every element in its set and does not change
    [count]; the array stays well formed. *)
Theorem find_returns_root (ds : DisjointSet) (i : nat) :
  ds_ok ds -> (i < List.length (parent ds))%nat ->
  exists r ds',
    ds_find ds i = Ok (r, ds') /\
    root_of (parent ds) i r /\
    (forall k r', root_of (parent ds') k r' <-> root_of (parent ds) k r') /\
    (forall k m, same_set ds' k m <-> same_set ds k m) /\
    ds_count ds' = ds_count ds /\
    ds_ok ds'.
Proof.
  intros [h Hinv] Hi.
  destruct (ds_find_ok h ds i Hinv Hi)
    as (r & ds' & Hf & Hinv' & _ & Hcnt & _).
  destruct (ds_find_root _ _ _ _ Hf) as [Hroot Hsame].
  exists r, ds'. split; [exact Hf|]. split; [exact Hroot|].
  split; [exact Hsame|]. split; [now apply same_set_roots|].
  split; [exact Hcnt|]. now exists h.
Qed.

(** ** [union] *)

Lemma same_set_sym ds i j : same_set ds i j -> same_set ds j i.
Proof. intros (r & Hi & Hj). exists r. auto. Qed.

Lemma same_set_trans ds i j k :
  same_set ds i j -> same_set ds j k -> same_set ds i k.
Proof.
  intros (r & Hi & Hj) (r' & Hj' & Hk).
  assert (r' = r) as -> by exact (root_of_fun _ _ _ _ Hj' Hj). exists r. auto.
Qed.

Lemma ds_union_Ok ds i j ds' :
  ds_union ds i j = Ok ds' ->
  exists rootI ds1 rootJ ds2,
    ds_find ds i = Ok (rootI, ds1) /\
    ds_find ds1 j = Ok (rootJ, ds2) /\
    ds' = if negb (Nat.eqb rootI rootJ)
          then mkDisjointSet (set_nth rootI rootJ (parent ds2))
                 (ds_count ds2 - 1)
          else ds2.
Proof.
  unfold ds_union, bind. intros H.
  destruct (ds_find ds i) as [[rootI ds1]|] eqn:H1; [|discriminate].
  destruct (ds_find ds1 j) as [[rootJ ds2]|] eqn:H2; [|discriminate].
  exists rootI, ds1, rootJ, ds2.
  split; [reflexivity|]. split; [exact H2|].
  destruct (negb (Nat.eqb rootI rootJ)); now injection H as <-.
Qed.

Lemma ds_union_sets ds i j ds' :
  ds_union ds i j = Ok ds' ->
  forall k m,
    same_set ds' k m <->
    same_set ds k m \/
    (same_set ds k i /\ same_set ds m j) \/
    (same_set ds k j /\ same_set ds m i).
Proof.
  intros H k m.
  destruct (ds_union_Ok _ _ _ _ H) as (rootI & ds1 & rootJ & ds2 & H1 & H2 & ->).
  destruct (ds_find_root _ _ _ _ H1) as [HrI Hs1].
  destruct (ds_find_root _ _ _ _ H2) as [HrJ Hs2].
  assert (Hs : forall k r', root_of (parent ds2) k r' <-> root_of (parent ds) k r')
    by (intros; now rewrite Hs2, Hs1).
  apply Hs1 in HrJ.
  destruct (Nat.eqb rootI rootJ) eqn:E; simpl.
  - apply Nat.eqb_eq in E. subst rootJ.
    rewrite (same_set_roots ds ds2 Hs).
    assert (Hij : same_set ds i j) by (exists rootI; auto).
    split; [auto|]. intros [Hkm | [[Hki Hmj] | [Hkj Hmi]]]; auto.
    + eapply same_set_trans; [exact Hki|].
      eapply same_set_trans; [exact Hij|]. now apply same_set_sym.
    + eapply same_set_trans; [exact Hkj|].
      eapply same_set_trans; [apply same_set_sym; exact Hij|].
      now apply same_set_sym.
  - apply Nat.eqb_neq in E.
    pose proof (root_of_root _ _ _ HrI) as RI.
    pose proof (root_of_root _ _ _ HrJ) as RJ.
    assert (RI2 : nth_error (parent ds2) rootI = Some rootI).
    { apply (root_of_root _ rootI). apply Hs. now apply root_self. }
    assert (RJ2 : nth_error (parent ds2) rootJ = Some rootJ).
    { apply (root_of_root _ rootJ). apply Hs. now apply root_self. }
    pose proof (link (parent ds2) rootI rootJ RI2 RJ2 E) as Hlink.
    unfold same_set. simpl. split.
    + intros (r & Hk & Hm). apply Hlink in Hk, Hm.
      rewrite !Hs in Hk, Hm.
      destruct Hk as [[Hk _] | [Hk ->]], Hm as [[Hm Hne] | [Hm Er]].
      * left. exists r. auto.
      * subst r. right. right. split; [exists rootJ | exists rootI]; auto.
      * right. left. split; [exists rootI | exists rootJ]; auto.
      * left. exists rootI. auto.
    + assert (Hto : forall n r0, root_of (parent ds) n r0 ->
                root_of (set_nth rootI rootJ (parent ds2)) n
                  (if Nat.eqb r0 rootI then rootJ else r0)).
      { intros n r0 Hn. apply Hlink. rewrite !Hs.
        destruct (Nat.eqb_spec r0 rootI) as [-> | Hne]; auto. }
      assert (Hroot_i : forall n, same_set ds n i -> root_of (parent ds) n rootI).
      { intros n (r & Hn & Hi').
        assert (r = rootI) as -> by exact (root_of_fun _ _ _ _ Hi' HrI).
        exact Hn. }
      assert (Hroot_j : forall n, same_set ds n j -> root_of (parent ds) n rootJ).
      { intros n (r & Hn & Hj').
        assert (r = rootJ) as -> by exact (root_of_fun _ _ _ _ Hj' HrJ).
        exact Hn. }
      intros [(r & Hk & Hm) | [[Hki Hmj] | [Hkj Hmi]]].
      * eexists. split; [apply (Hto k r Hk) | apply (Hto m r Hm)].
      * exists rootJ. split.
        -- pose proof (Hto k rootI (Hroot_i k Hki)) as Hx.
           now rewrite Nat.eqb_refl in Hx.
        -- pose proof (Hto m rootJ (Hroot_j m Hmj)) as Hx.
           apply Nat.eqb_neq in E. rewrite Nat.eqb_sym, E in Hx. exact Hx.
      * exists rootJ. split.
        -- pose proof (Hto k rootJ (Hroot_j k Hkj)) as Hx.
           apply Nat.eqb_neq in E. rewrite Nat.eqb_sym, E in Hx. exact Hx.
        -- pose proof (Hto m rootI (Hroot_i m Hmi)) as Hx.
           now rewrite Nat.eqb_refl in Hx.
Qed.

Lemma ds_union_count ds i j ds' :
  ds_ok ds -> count_ok ds ->
  (i < List.length (parent ds))%nat -> (j < List.length (parent ds))%nat ->
  ds_union ds i j = Ok ds' ->
  count_ok ds' /\
  (same_set ds i j -> ds_count ds' = ds_count ds) /\
  (~ same_set ds i j -> ds_count ds' = ds_count ds - 1).
Proof.
  intros [h Hinv] Hc Hi Hj H.
  destruct (ds_union_Ok _ _ _ _ H) as (rootI & ds1 & rootJ & ds2 & H1 & H2 & ->).
  destruct (ds_find_ok h ds i Hinv Hi)
    as (rI & d1 & H1' & Hinv1 & Hlen1 & Hcnt1 & HrI & Hroots1).
  rewrite H1 in H1'. injection H1' as <- <-.
  destruct (ds_find_ok h ds1 j Hinv1 ltac:(lia))
    as (rJ & d2 & H2' & Hinv2 & Hlen2 & Hcnt2 & HrJ & Hroots2).
  rewrite H2 in H2'. injection H2' as <- <-.
  destruct (ds_find_root _ _ _ _ H1) as [RI Hs1].
  destruct (ds_find_root _ _ _ _ H2) as [RJ Hs2].
  apply Hs1 in RJ.
  assert (Hn2 : nroots (parent ds2) = nroots (parent ds)).
  { rewrite (nroots_same (parent ds1) (parent ds2)) by auto.
    now apply nroots_same. }
  unfold count_ok in *.
  destruct (Nat.eqb rootI rootJ) eqn:E; simpl.
  - apply Nat.eqb_eq in E. subst rootJ.
    split; [rewrite Hn2; lia|]. split; [intros _; lia|].
    intros Hn. exfalso. apply Hn. exists rootI. auto.
  - apply Nat.eqb_neq in E.
    rewrite <- Hroots2 in HrI.
    assert (HIn : (rootI < List.length (parent ds2))%nat).
    { apply is_root_true in HrI. apply nth_error_Some. congruence. }
    pose proof (nroots_drop_root (parent ds2) rootI rootJ HIn HrI
                  (not_eq_sym E)) as Hdrop.
    split; [lia|]. split; [|intros _; lia].
    intros (r & Hir & Hjr). exfalso. apply E.
    rewrite (root_of_fun _ _ _ _ RI Hir). exact (root_of_fun _ _ _ _ Hjr RJ).
Qed.

(** X21. [union(i, j)] merges the set of [i] with the set of [j] and nothing
    else: afterwards two elements are in the same set exactly when they
    were before, or one was with [i] and the other with [j].  [count] stays
    the number of sets: it drops by one when [i] and [j] were in different
    sets and is unchanged otherwise. *)
Theorem union_merges_two_sets (ds : DisjointSet) (i j : nat) :
  ds_ok ds -> count_ok ds ->
  (i < List.length (parent ds))%nat -> (j < List.length (parent ds))%nat ->
  exists ds',
    ds_union ds i j = Ok ds' /\
    ds_ok ds' /\ count_ok ds' /\
    List.length (parent ds') = List.length (parent ds) /\
    (forall k m,
       same_set ds' k m <->
       same_set ds k m \/
       (same_set ds k i /\ same_set ds m j) \/
       (same_set ds k j /\ same_set ds m i)) /\
    (same_set ds i j -> ds_count ds' = ds_count ds) /\
    (~ same_set ds i j -> ds_count ds' = ds_count ds - 1).
Proof.
  intros Hok Hc Hi Hj.
  destruct (ds_union_ok ds i j Hok Hi Hj) as (ds' & H & Hok' & Hlen).
  destruct (ds_union_count ds i j ds' Hok Hc Hi Hj H) as (Hc' & Hsame & Hdiff).
  exists ds'. split; [exact H|]. split; [exact Hok'|]. split; [exact Hc'|].
  split; [exact Hlen|]. split; [now apply ds_union_sets|]. auto.
Qed.

Lemma newDisjointSet_count n : count_ok (newDisjointSet n).
Proof.
  unfold count_ok, newDisjointSet, nroots. cbn [parent ds_count].
  rewrite length_seq. f_equal.
  assert (filter (is_root (seq 0 n)) (seq 0 n) = seq 0 n) as ->;
    [|now rewrite length_seq].
  apply forallb_filter_id. apply forallb_forall. intros i Hi.
  apply in_seq in Hi. unfold is_root. rewrite nth_error_seq.
  destruct (Nat.ltb_spec i n); [|lia]. simpl. apply Nat.eqb_refl.
Qed.

Lemma newDisjointSet_sets n i j :
  same_set (newDisjointSet n) i j <-> i = j /\ (i < n)%nat.
Proof.
  unfold same_set. simpl.
  assert (Hnth : forall k p, nth_error (seq 0 n) k = Some p ->
                             p = k /\ (k < n)%nat).
  { intros k p H. rewrite nth_error_seq in H.
    destruct (Nat.ltb_spec k n); [|discriminate]. injection H as <-. auto. }
  assert (Hroot : forall k r, root_of (seq 0 n) k r -> r = k /\ (k < n)%nat).
  { intros k r H. inversion H as [? Hk | ? p ? Hp Hne _]; subst.
    - destruct (Hnth _ _ Hk). auto.
    - destruct (Hnth _ _ Hp). contradiction. }
  split.
  - intros (r & Hi & Hj). apply Hroot in Hi, Hj. destruct Hi, Hj. split; lia.
  - intros [-> Hlt]. exists j. split; apply root_self;
      rewrite nth_error_seq; destruct (Nat.ltb_spec j n); auto; lia.
Qed.

(* ================================================================== *)
(** * The spanning tree of an attempt *)

(** ** Walks *)

Lemma adjacent_sym edges a b : adjacent edges a b -> adjacent edges b a.
Proof. intros (e & He & H). exists e. tauto. Qed.

Lemma reach_trans edges s a b :
  reach edges s a -> reach edges a b -> reach edges s b.
Proof.
  intros Hs Hab. induction Hab as [|c d _ IH Hadj]; auto.
  eapply reach_step; eauto.
Qed.

Lemma reach_sym edges s a : reach edges s a -> reach edges a s.
Proof.
  induction 1 as [|c d _ IH Hadj]; [constructor|].
  eapply reach_trans; [|exact IH].
  eapply reach_step; [constructor | now apply adjacent_sym].
Qed.

Lemma reach_incl edges edges' s a :
  incl edges edges' -> reach edges s a -> reach edges' s a.
Proof.
  intros Hincl. induction 1 as [|c d _ IH Hadj]; [constructor|].
  eapply reach_step; [exact IH|].
  destruct Hadj as (e & He & H). exists e. auto.
Qed.

(** ** Indices of nodes *)

Lemma index_entries_nth nodes : forall i k j,
  In (k, j) (index_entries i nodes) ->
  exists n, nth_error nodes (j - i) = Some n /\ id n = k /\ (i <= j)%nat.
Proof.
  induction nodes as [|m rest IH]; simpl; intros i k j H; [destruct H|].
  destruct H as [[= <- <-]|H].
  - exists m. rewrite Nat.sub_diag. auto.
  - apply IH in H as (n & Hn & Hid & Hle).
    exists n. replace (j - i)%nat with (S (j - S i)) by lia. simpl.
    split; auto. split; auto. lia.
Qed.

Lemma nodeIndexMap_nth N n j :
  NoDup (map id N) -> In n N ->
  JsMap.get (id n) (nodeIndexMap N) = Some j ->
  nth_error N j = Some n.
Proof.
  intros Hnd Hin Hget. unfold nodeIndexMap in Hget.
  destruct (fold_set_get (index_entries 0 N) JsMap.empty (id n))
    as (j' & Hj' & Hsrc).
  - left. rewrite index_entries_keys. now apply in_map.
  - rewrite Hget in Hj'. injection Hj' as <-.
    destruct Hsrc as [Hsrc|Hsrc]; [|discriminate].
    apply index_entries_nth in Hsrc as (n' & Hn' & Hid & _).
    rewrite Nat.sub_0_r in Hn'. rewrite Hn'. f_equal.
    apply (NoDup_map_eq id N); auto. eapply nth_error_In; eauto.
Qed.

(** ** The loop keeps the sets joined by edges *)

Lemma sets_connected_roots N edges ds ds' :
  (forall k m, same_set ds' k m <-> same_set ds k m) ->
  sets_connected N edges ds -> sets_connected N edges ds'.
Proof.
  intros Hs Hc i j ni nj Hij. apply Hc. now apply Hs.
Qed.

Lemma sets_connected_union N edges ds ds' ui vi un vn c :
  ds_union ds ui vi = Ok ds' ->
  nth_error N ui = Some un -> nth_error N vi = Some vn ->
  sets_connected N edges ds ->
  sets_connected N (edges ++ [mkEdgeData (id un) (id vn) c]) ds'.
Proof.
  intros Hun Hu Hv Hc i j ni nj Hij Hi Hj.
  set (edges' := edges ++ [mkEdgeData (id un) (id vn) c]).
  assert (Hincl : incl edges edges') by (intros e He; apply in_or_app; now left).
  assert (Hadj : adjacent edges' (id un) (id vn)).
  { exists (mkEdgeData (id un) (id vn) c). split.
    - apply in_or_app. right. now left.
    - left. auto. }
  assert (Hold : forall a b na nb, same_set ds a b ->
            nth_error N a = Some na -> nth_error N b = Some nb ->
            reach edges' (id na) (id nb)).
  { intros a b na nb Hab Ha Hb. eapply reach_incl; eauto. }
  apply (ds_union_sets _ _ _ _ Hun) in Hij.
  destruct Hij as [Hij | [[Hiu Hjv] | [Hiv Hju]]].
  - eapply Hold; eauto.
  - eapply reach_trans; [eapply (Hold i ui); eauto|].
    eapply reach_trans; [eapply reach_step; [constructor | exact Hadj]|].
    eapply (Hold vi j); eauto. now apply same_set_sym.
  - eapply reach_trans; [eapply (Hold i vi); eauto|].
    eapply reach_trans;
      [eapply reach_step; [constructor | apply adjacent_sym; exact Hadj]|].
    eapply (Hold ui j); eauto. now apply same_set_sym.
Qed.

Lemma spanning_loop_connects R N ps : forall edges ds g,
  NoDup (map id N) ->
  candidates_in N ps -> ends_in N edges ->
  ds_ok ds -> count_ok ds -> List.length (parent ds) = List.length N ->
  sets_connected N edges ds ->
  exists res g',
    spanning_loop R N (nodeIndexMap N) ps edges ds g = (Ok res, g') /\
    ds_ok (snd res) /\ count_ok (snd res) /\
    List.length (parent (snd res)) = List.length N /\
    sets_connected N (fst res) (snd res).
Proof.
  induction ps as [|p rest IH];
    intros edges ds g Hnd Hps Hends Hok Hcount Hlen Hconn;
    cbn [spanning_loop].
  - unfold ret. eexists. eexists. split; [reflexivity|]. auto.
  - assert (Hrest : candidates_in N rest)
      by (intros q Hq; apply Hps; now right).
    destruct (Hps p (or_introl eq_refl)) as [Hu Hv].
    destruct (nodeIndexMap_lookup N (u p) Hu) as (uIdx & Gu & Lu).
    destruct (nodeIndexMap_lookup N (v p) Hv) as (vIdx & Gv & Lv).
    pose proof (nodeIndexMap_nth N (u p) uIdx Hnd Hu Gu) as Nu.
    pose proof (nodeIndexMap_nth N (v p) vIdx Hnd Hv Gv) as Nv.
    rewrite (bindG_lift _ _ _ _ (f_equal defined Gu)).
    rewrite (bindG_lift _ _ _ _ (f_equal defined Gv)).
    destruct Hok as [h Hinv].
    destruct (ds_find_ok h ds uIdx Hinv ltac:(lia))
      as (ru & ds1 & Fu & Hinv1 & Hlen1 & Hcnt1 & _ & Hroots1).
    rewrite (bindG_lift _ _ _ _ Fu). cbn [fst snd].
    destruct (ds_find_ok h ds1 vIdx Hinv1 ltac:(lia))
      as (rv & ds2 & Fv & Hinv2 & Hlen2 & Hcnt2 & _ & Hroots2).
    rewrite (bindG_lift _ _ _ _ Fv). cbn [fst snd].
    assert (Hok2 : ds_ok ds2) by now exists h.
    assert (Hcount2 : count_ok ds2).
    { unfold count_ok in *.
      rewrite Hcnt2, Hcnt1, Hcount.
      rewrite (nroots_same (parent ds1) (parent ds2)) by auto.
      now rewrite (nroots_same (parent ds) (parent ds1)) by auto. }
    assert (Hconn2 : sets_connected N edges ds2).
    { apply (sets_connected_roots N edges ds1);
        [apply same_set_roots; now apply (ds_find_root _ _ _ _ Fv)|].
      apply (sets_connected_roots N edges ds);
        [apply same_set_roots; now apply (ds_find_root _ _ _ _ Fu)|].
      exact Hconn. }
    assert (Hlen2' : List.length (parent ds2) = List.length N) by lia.
    destruct (negb (Nat.eqb ru rv)); [|apply IH; auto].
    destruct (isCrossing_returns N edges (u p) (v p) Hends) as (c & Hc).
    rewrite (bindG_lift _ _ _ _ Hc).
    destruct (negb c); [|apply IH; auto].
    destruct (ds_union_ok ds2 uIdx vIdx Hok2 ltac:(lia) ltac:(lia))
      as (ds3 & Hun & Hok3 & Hlen3).
    rewrite (bindG_lift _ _ _ _ Hun).
    destruct (random_gt_returns R (7 # 10) g) as (b & g1 & Hr).
    rewrite (bindG_eq _ _ _ _ _ Hr).
    apply IH;
      [exact Hnd | exact Hrest | now apply ends_in_add | exact Hok3 | | lia |].
    + apply (ds_union_count ds2 uIdx vIdx ds3 Hok2 Hcount2); auto; lia.
    + eapply sets_connected_union; eauto.
Qed.

(** ** One set left *)

Lemma one_root l a b :
  (nroots l <= 1)%nat -> is_root l a = true -> is_root l b = true -> a = b.
Proof.
  unfold nroots. intros Hle Ha Hb.
  destruct (Nat.eq_dec a b) as [|Hne]; auto. exfalso.
  assert (Hin : forall k, is_root l k = true ->
                          In k (filter (is_root l) (seq 0 (List.length l)))).
  { intros k Hk. apply filter_In. split; auto. apply in_seq.
    apply is_root_true in Hk. split; [lia|]. simpl.
    apply nth_error_Some. congruence. }
  assert (Hnd : NoDup [a; b])
    by (repeat constructor; simpl; intuition congruence).
  pose proof (NoDup_incl_length Hnd (l' := filter (is_root l) (seq 0 (List.length l)))) as Hlen.
  simpl in Hlen. assert (2 <= List.length (filter (is_root l) (seq 0 (List.length l))))%nat.
  { apply Hlen. intros k [<-|[<-|[]]]; auto. }
  lia.
Qed.

Lemma one_set ds i j :
  ds_ok ds -> count_ok ds -> ds_count ds <= 1 ->
  (i < List.length (parent ds))%nat -> (j < List.length (parent ds))%nat ->
  same_set ds i j.
Proof.
  intros Hok Hc Hle Hi Hj.
  destruct (ds_ok_root ds i Hok Hi) as (ri & Ri).
  destruct (ds_ok_root ds j Hok Hj) as (rj & Rj).
  assert (ri = rj) as ->.
  { apply (one_root (parent ds)).
    - unfold count_ok in Hc. lia.
    - apply is_root_true. eapply root_of_root; eauto.
    - apply is_root_true. eapply root_of_root; eauto. }
  exists rj. auto.
Qed.

Lemma extra_loop_incl R N ps target : forall added edges g res g',
  extra_loop R N ps target added edges g = (Ok res, g') -> incl edges res.
Proof.
  intros added edges g res g' H.
  apply (extra_loop_accepts R N (fun es => incl edges es) ps) in H; auto.
  - intros es p c _ _ _ Hes e He. apply in_or_app. left. auto.
  - apply incl_refl.
  - apply incl_refl.
Qed.

(* ================================================================== *)
(** * At most four edges at a node *)

Lemma incident_other N n e :
  NoDup (map id N) -> In n N -> from_candidate N e ->
  incident (id n) e = true ->
  exists o,
    In o N /\ id o <> id n /\
    find_node (other_end (id n) e) N = Some o /\
    aligned n o /\
    (forall m, In m N -> id m <> id n -> id m <> id o ->
               ~ strictly_between n o m) /\
    pair_key e = getEdgeKey (id n) (id o).
Proof.
  intros Hnd Hn (p & c & (Hu & Hv & Hne & Hal & Hbt) & -> & _) Hinc.
  unfold incident, other_end, pair_key in *. simpl in *.
  assert (Hblocks : forall m, In m N -> id m <> id (u p) -> id m <> id (v p) ->
                      ~ strictly_between (u p) (v p) m).
  { intros m Hm H1 H2 Hsb. apply blocks_iff in Hsb.
    rewrite (isNodeBetween_false _ _ _ Hbt m Hm H1 H2) in Hsb. discriminate. }
  destruct (String.eqb (id (u p)) (id n)) eqn:E.
  - apply String.eqb_eq in E.
    assert (u p = n) as Eu by (apply (NoDup_map_eq id N); auto).
    exists (v p). rewrite <- Eu.
    repeat (split; auto). now apply find_node_unique.
  - simpl in Hinc. apply String.eqb_eq in Hinc. apply String.eqb_neq in E.
    assert (v p = n) as Ev by (apply (NoDup_map_eq id N); auto).
    exists (u p). rewrite <- Ev.
    split; [exact Hu|]. split; [exact Hne|].
    split; [now apply find_node_unique|].
    split; [now apply aligned_sym|].
    split; [|apply getEdgeKey_comm].
    intros m Hm H1 H2 Hsb. apply (Hblocks m Hm H2 H1).
    apply strictly_between_sym; auto. now apply aligned_sym.
Qed.

Lemma cell_neq a b : cell a <> cell b -> x a <> x b \/ y a <> y b.
Proof.
  intros H. destruct (Z.eq_dec (x a) (x b)), (Z.eq_dec (y a) (y b)); auto.
  exfalso. apply H. unfold cell. congruence.
Qed.

(** Of two nodes that lie in the same direction from [n], the nearer one
    lies between [n] and the farther one. *)
Lemma same_direction_blocks n o1 o2 :
  aligned n o1 -> aligned n o2 ->
  cell n <> cell o1 -> cell n <> cell o2 -> cell o1 <> cell o2 ->
  direction_to n o1 = direction_to n o2 ->
  strictly_between n o2 o1 \/ strictly_between n o1 o2.
Proof.
  intros A1 A2 C1 C2 C12.
  apply cell_neq in C1, C2, C12.
  unfold direction_to, aligned in *.
  destruct (Z.eqb_spec (x n) (x o1)) as [e1|n1],
           (Z.eqb_spec (x n) (x o2)) as [e2|n2].
  - (* both on the column of n *)
    assert (Hy1 : y n <> y o1) by (destruct C1 as [C|C]; [contradiction|exact C]).
    assert (Hy2 : y n <> y o2) by (destruct C2 as [C|C]; [contradiction|exact C]).
    assert (Hy12 : y o1 <> y o2).
    { destruct C12 as [C|C]; [|exact C]. exfalso. apply C. congruence. }
    clear A1 A2 C1 C2 C12.
    destruct (Z.ltb_spec (y n) (y o1)) as [l1|l1],
             (Z.ltb_spec (y n) (y o2)) as [l2|l2];
      intros D; try discriminate D; clear D.
    + destruct (Z.lt_ge_cases (y o1) (y o2)) as [l|l].
      * left. left. split; [exact e2|]. split; [now symmetry|].
        left. split; assumption.
      * right. left. split; [exact e1|]. split; [now symmetry|].
        left. split; [assumption|lia].
    + destruct (Z.lt_ge_cases (y o2) (y o1)) as [l|l].
      * left. left. split; [exact e2|]. split; [now symmetry|].
        right. split; [assumption|lia].
      * right. left. split; [exact e1|]. split; [now symmetry|].
        right. split; lia.
  - destruct (y n <? y o1), (x n <? x o2); intros D; discriminate D.
  - destruct (y n <? y o2), (x n <? x o1); intros D; discriminate D.
  - (* both on the row of n *)
    assert (Hy1 : y n = y o1) by (destruct A1 as [C|C]; [contradiction|exact C]).
    assert (Hy2 : y n = y o2) by (destruct A2 as [C|C]; [contradiction|exact C]).
    assert (Hx12 : x o1 <> x o2).
    { destruct C12 as [C|C]; [exact C|]. exfalso. apply C. congruence. }
    clear A1 A2 C1 C2 C12.
    destruct (Z.ltb_spec (x n) (x o1)) as [l1|l1],
             (Z.ltb_spec (x n) (x o2)) as [l2|l2];
      intros D; try discriminate D; clear D.
    + destruct (Z.lt_ge_cases (x o1) (x o2)) as [l|l].
      * left. right. split; [exact n2|]. split; [now symmetry|].
        left. split; assumption.
      * right. right. split; [exact n1|]. split; [now symmetry|].
        left. split; [assumption|lia].
    + destruct (Z.lt_ge_cases (x o2) (x o1)) as [l|l].
      * left. right. split; [exact n2|]. split; [now symmetry|].
        right. split; [assumption|lia].
      * right. right. split; [exact n1|]. split; [now symmetry|].
        right. split; lia.
Qed.

Section Degree.

Variable N : list NodeData.
Variable edges : list EdgeData.

Hypothesis Hids : NoDup (map id N).
Hypothesis Hcells : NoDup (map cell N).
Hypothesis Hfrom : Forall (from_candidate N) edges.
Hypothesis Hkeys : NoDup (map pair_key edges).

Lemma distinct_nodes_cells a b :
  In a N -> In b N -> id a <> id b -> cell a <> cell b.
Proof.
  intros Ha Hb Hne E. apply Hne. f_equal.
  apply (NoDup_map_eq cell N); auto.
Qed.

(** No two edges leave a node in the same direction. *)
Lemma edge_direction_inj n e1 e2 :
  In n N -> In e1 edges -> In e2 edges ->
  incident (id n) e1 = true -> incident (id n) e2 = true ->
  edge_direction N n e1 = edge_direction N n e2 -> e1 = e2.
Proof.
  intros Hn H1 H2 I1 I2 Hdir.
  pose proof (proj1 (Forall_forall _ _) Hfrom) as Hf.
  destruct (incident_other N n e1 Hids Hn (Hf _ H1) I1)
    as (o1 & Ho1 & Hne1 & F1 & A1 & B1 & K1).
  destruct (incident_other N n e2 Hids Hn (Hf _ H2) I2)
    as (o2 & Ho2 & Hne2 & F2 & A2 & B2 & K2).
  unfold edge_direction in Hdir. rewrite F1, F2 in Hdir.
  destruct (string_dec (id o1) (id o2)) as [E|Hne].
  - apply (NoDup_map_eq pair_key edges); auto. now rewrite K1, K2, E.
  - exfalso.
    destruct (same_direction_blocks n o1 o2 A1 A2) as [Hsb|Hsb]; auto.
    + apply distinct_nodes_cells; auto.
    + apply distinct_nodes_cells; auto.
    + apply distinct_nodes_cells; auto.
    + apply (B2 o1); auto.
    + apply (B1 o2); auto.
Qed.

Lemma incident_at_most_four n :
  In n N -> (List.length (filter (incident (id n)) edges) <= 4)%nat.
Proof.
  intros Hn.
  set (L := filter (incident (id n)) edges).
  assert (HndL : NoDup L).
  { apply NoDup_filter. eapply NoDup_map_inv; eauto. }
  assert (Hdirs : NoDup (map (edge_direction N n) L)).
  { apply NoDup_map_NoDup_ForallPairs; auto.
    intros e1 e2 H1 H2 E. unfold L in H1, H2.
    apply filter_In in H1 as [H1 I1]. apply filter_In in H2 as [H2 I2].
    eapply edge_direction_inj; eauto. }
  assert (Hincl : incl (map (edge_direction N n) L) [North; South; East; West]).
  { intros d _. destruct d; simpl; auto. }
  pose proof (NoDup_incl_length Hdirs Hincl) as Hlen.
  rewrite length_map in Hlen. exact Hlen.
Qed.

Lemma sum_counts_le (l : list EdgeData) :
  Forall (fun e => count e = 1 \/ count e = 2) l ->
  fold_right Z.add 0 (map count l) <= 2 * Z.of_nat (List.length l).
Proof.
  induction 1 as [|e l He _ IH]; cbn [map fold_right List.length]; [lia|].
  rewrite Nat2Z.inj_succ. lia.
Qed.

Lemma from_candidate_count e :
  from_candidate N e -> count e = 1 \/ count e = 2.
Proof. intros (p & c & _ & -> & Hc). exact Hc. Qed.

(** The cables at a node are at most eight: two on each of four edges. *)
Lemma degree_at_most_eight n : In n N -> degree edges (id n) <= 8.
Proof.
  intros Hn. unfold degree.
  pose proof (incident_at_most_four n Hn) as H4.
  assert (Hc : Forall (fun e => count e = 1 \/ count e = 2)
                 (filter (incident (id n)) edges)).
  { apply Forall_forall. intros e He. apply filter_In in He as [He _].
    apply from_candidate_count. now apply (proj1 (Forall_forall _ _) Hfrom). }
  pose proof (sum_counts_le _ Hc). lia.
Qed.

End Degree.

(* ================================================================== *)
(** * Pruning on the hard tier *)

Lemma add_required_degree nodes valid e :
  NoDup (map id nodes) -> nodeA e <> nodeB e ->
  Forall (fun n => requiredConnections n = degree valid (id n)) nodes ->
  Forall (fun n => requiredConnections n = degree (valid ++ [e]) (id n))
    (add_required (nodeB e) (count e)
       (add_required (nodeA e) (count e) nodes)).
Proof.
  intros Hnd Hne Hinv.
  rewrite (add_required_map (nodeB e)) by now rewrite ids_add_required.
  rewrite (add_required_map (nodeA e)) by assumption.
  rewrite !Forall_map. eapply Forall_impl; [|exact Hinv].
  intros n Hn. cbv beta in Hn |- *. rewrite degree_app. unfold incident.
  destruct (String.eqb (id n) (nodeA e)) eqn:EA; unfold setRequired; simpl.
  - apply String.eqb_eq in EA.
    assert (String.eqb (id n) (nodeB e) = false) as ->
      by (apply String.eqb_neq; congruence).
    rewrite <- EA, String.eqb_refl.
    unfold setRequired; simpl. lia.
  - destruct (String.eqb (id n) (nodeB e)) eqn:EB; simpl;
      rewrite (String.eqb_sym (nodeA e)), EA,
              (String.eqb_sym (nodeB e)), EB; simpl; lia.
Qed.

Lemma edge_ok_counts l :
  Forall edge_ok l -> Forall (fun e => count e = 1 \/ count e = 2) l.
Proof. apply Forall_impl. intros e [_ H]. exact H. Qed.

(** When no node can exceed the maximum, pruning keeps every edge. *)
Lemma prune_loop_keeps_all maxc edges : forall nodes valid res,
  prune_loop maxc edges nodes valid = Ok res ->
  NoDup (map id nodes) ->
  Forall edge_ok edges ->
  Forall (fun n => requiredConnections n = degree valid (id n)) nodes ->
  (forall i, In i (map id nodes) -> degree (valid ++ edges) i <= maxc) ->
  snd res = valid ++ edges.
Proof.
  induction edges as [|e rest IH]; intros nodes valid res H Hnd Hok Hinv Hmax;
    simpl in H.
  - injection H as <-. simpl. now rewrite app_nil_r.
  - inversion Hok as [|? ? [Hne Hc] Hrest]; subst.
    pose proof (degree_nonneg rest) as Hnn.
    pose proof (edge_ok_counts _ Hrest) as Hcounts.
    assert (Hpass : forall n, find_node (nodeA e) nodes = Some n \/
                              find_node (nodeB e) nodes = Some n ->
              (requiredConnections n + count e <=? maxc) = true).
    { intros n Hf. apply Z.leb_le.
      assert (In n nodes /\ (id n = nodeA e \/ id n = nodeB e)) as [Hin Hid].
      { destruct Hf as [Hf|Hf]; apply find_some in Hf as [Hin E];
          apply String.eqb_eq in E; auto. }
      rewrite (proj1 (Forall_forall _ _) Hinv n Hin).
      pose proof (Hmax (id n) (in_map id _ _ Hin)) as Hb.
      rewrite degree_app2, degree_cons in Hb.
      assert (incident (id n) e = true) as Hi.
      { unfold incident. destruct Hid as [-> | ->];
          rewrite String.eqb_refl; auto using orb_true_r. }
      rewrite Hi in Hb. specialize (Hnn (id n) Hcounts). lia. }
    destruct (find_node (nodeA e) nodes) as [nA|] eqn:FA; simpl in H;
      [|discriminate].
    rewrite (Hpass nA (or_introl eq_refl)) in H.
    destruct (find_node (nodeB e) nodes) as [nB|] eqn:FB; simpl in H;
      [|discriminate].
    rewrite (Hpass nB (or_intror eq_refl)) in H.
    apply IH in H; auto.
    + now rewrite H, <- app_assoc.
    + now rewrite !ids_add_required.
    + now apply add_required_degree.
    + intros i Hi. rewrite !ids_add_required in Hi.
      rewrite <- app_assoc. now apply Hmax.
Qed.

Lemma from_candidate_edge_ok N e : from_candidate N e -> edge_ok e.
Proof.
  intros (p & c & (_ & _ & Hne & _) & -> & Hc). split; auto.
Qed.

(** When the maximum is at least eight, the solution of an attempt holds
    every accepted edge, so it connects all nodes as the spanning tree
    does. *)
Lemma tryGenerate_connected R gs nr maxc g p g' :
  sort_permutes R -> 8 <= maxc ->
  tryGenerate R gs nr maxc g = (Ok p, g') ->
  forall a b, In a (nodes p) -> In b (nodes p) ->
    reach (solutionEdges p) (id a) (id b).
Proof.
  intros Hsort Hmax H.
  pose proof (tryGenerate_placed _ _ _ _ _ _ _ H) as Hplaced.
  apply tryGenerate_stages in H.
  destruct H as (r & g1 & placed & g2 & ps & g3 & tree & g4 & edges & g5 &
                 pruned & Hr & Hpl & Hlen & Hsh & Hsp & Hcnt & Hex & Hpr & _ & ->).
  destruct Hplaced as (r' & g1' & placed' & g2' & Hr' & Hpl' & _ &
                       (Hocc & Hndocc & _) & Hp).
  rewrite Hr in Hr'. injection Hr' as <- <-.
  rewrite Hpl in Hpl'. injection Hpl' as <-. simpl in Hp |- *.
  set (N := fst placed) in *.
  apply place_for_ids in Hpl; [|split; [constructor | intros n []]].
  pose proof (placed_dash_free _ _ Hpl) as Hdash.
  destruct Hpl as [Hnd _]. fold N in Hnd.
  assert (Hcells : NoDup (map cell N)).
  { rewrite Hocc in Hndocc.
    apply (NoDup_map_inv (fun c => cell_key (fst c) (snd c))).
    rewrite map_map. exact Hndocc. }
  destruct (accepted_edges R N ps tree edges _ _ _ _ _ _ _ Hsort Hnd Hdash
              Hsh Hsp Hex) as (Hcand & Hfrom & _ & Hkeys).
  (* the tree joins all nodes *)
  destruct (spanning_loop_connects R N ps []
              (newDisjointSet (List.length N)) g3 Hnd)
    as (res & g4' & Hsp' & Hok & Hcount & Hlenp & Hconn).
  { intros q Hq. destruct (Hcand q Hq) as (Hu & Hv & _). auto. }
  { intros e []. }
  { apply newDisjointSet_ok. }
  { apply newDisjointSet_count. }
  { simpl. apply length_seq. }
  { intros i j ni nj Hij Hi Hj. apply newDisjointSet_sets in Hij as [-> _].
    rewrite Hi in Hj. injection Hj as <-. constructor. }
  rewrite Hsp in Hsp'. injection Hsp' as <- <-.
  assert (Hone : ds_count (snd tree) <= 1).
  { destruct (Z.gtb_spec (ds_count (snd tree)) 1); [discriminate | lia]. }
  (* pruning keeps every edge *)
  assert (Hall : snd pruned = edges).
  { apply (prune_loop_keeps_all maxc edges _ [] pruned Hpr).
    - rewrite map_map. exact Hnd.
    - eapply Forall_impl; [|exact Hfrom].
      intros e He. eapply from_candidate_edge_ok; eauto.
    - rewrite Forall_map. apply Forall_forall. intros n _. reflexivity.
    - intros i Hi. rewrite map_map in Hi. simpl in Hi |- *.
      apply in_map_iff in Hi as (n & <- & Hn).
      pose proof (degree_at_most_eight N edges Hnd Hcells Hfrom Hkeys n Hn).
      lia. }
  assert (Hids : map id (fst pruned) = map id N).
  { rewrite <- Hp, map_map. reflexivity. }
  intros a b Ha Hb. rewrite Hall.
  assert (Hnode : forall c, In c (fst pruned) ->
            exists i n, nth_error N i = Some n /\ id n = id c).
  { intros c Hc. apply (in_map id) in Hc. rewrite Hids in Hc.
    apply in_map_iff in Hc as (n & E & Hn).
    apply In_nth_error in Hn as (i & Hi). eauto. }
  destruct (Hnode a Ha) as (i & na & Hi & <-).
  destruct (Hnode b Hb) as (j & nb & Hj & <-).
  eapply reach_incl; [eapply extra_loop_incl; eauto|].
  apply (Hconn i j); auto.
  apply one_set; auto; rewrite Hlenp; apply nth_error_Some; congruence.
Qed.

Lemma fallback_connected a b :
  In a (nodes createFallbackPuzzle) -> In b (nodes createFallbackPuzzle) ->
  reach (solutionEdges createFallbackPuzzle) (id a) (id b).
Proof.
  intros Ha Hb.
  destruct (bfs_loop_enough_fuel (solutionEdges createFallbackPuzzle) (id a))
    as (visited & Hv).
  pose proof (bfs_correct _ _ _ Hv) as [_ Hr]. apply Hr.
  simpl in Ha, Hb.
  destruct Ha as [<-|[<-|[<-|[<-|[]]]]];
    vm_compute in Hv; injection Hv as <-;
    destruct Hb as [<-|[<-|[<-|[<-|[]]]]]; simpl; auto 10.
Qed.

(** X22. On the hard tier every puzzle is solvable by its own solution.
    With a maximum of eight connections no edge is pruned, since a node has
    at most four edges of at most two cables; so the solution holds the
    spanning tree and connects all nodes, and playing it from a new game
    ends with the puzzle solved.  The engine's sort is assumed to return
    its input reordered. *)
Theorem hard_puzzle_is_solvable (R : RandomSource) (g g' : rstate R)
    (p : Puzzle) :
  sort_permutes R ->
  generate R HARD g = (Ok p, g') ->
  (forall a b, In a (nodes p) -> In b (nodes p) ->
     reach (solutionEdges p) (id a) (id b)) /\
  exists s,
    GameScene.run R (GameScene.START_GAME HARD :: solution_clicks p)
      GameScene.init g = (Ok s, g') /\
    getAllEdges (GameScene.cableManager s) = solutionEdges p /\
    GameScene.isSolved s = true.
Proof.
  intros Hsort Hgen.
  assert (Hreach : forall a b, In a (nodes p) -> In b (nodes p) ->
            reach (solutionEdges p) (id a) (id b)).
  { destruct (generate_cases R HARD g p g' Hgen) as [->|(g0 & g1 & Ht)].
    - apply fallback_connected.
    - eapply tryGenerate_connected; eauto. simpl. lia. }
  split; [exact Hreach|].
  destruct (solution_playthrough R HARD g g' p Hsort Hgen)
    as (s & Hrun & Hedges & _ & Hsolved).
  exists s. split; [exact Hrun|]. split; [exact Hedges|].
  apply Hsolved. intros n Hn. apply Hreach; auto.
  pose proof (generate_nodes_nonempty _ _ _ _ _ Hgen) as Hne.
  destruct (nodes p); [contradiction | now left].
Qed.

(* ================================================================== *)
(** * The crossing test inside the spanning-tree loop *)

(** The loop over [ps ++ qs] is the loop over [qs] started from the state
    the loop over [ps] ends in. *)
Lemma spanning_loop_app R N index ps qs : forall edges ds g edges1 ds1 g1,
  spanning_loop R N index ps edges ds g = (Ok (edges1, ds1), g1) ->
  spanning_loop R N index (ps ++ qs) edges ds g
  = spanning_loop R N index qs edges1 ds1 g1.
Proof.
  induction ps as [|p rest IH]; intros edges ds g edges1 ds1 g1 H.
  - apply ret_Ok in H as [E ->]. injection E as -> ->. reflexivity.
  - cbn [app spanning_loop] in *.
    gen_inv H. rewrite (bindG_eq _ _ _ _ _ Hm).
    gen_inv H. rewrite (bindG_eq _ _ _ _ _ Hm0).
    gen_inv H. rewrite (bindG_eq _ _ _ _ _ Hm1).
    gen_inv H. rewrite (bindG_eq _ _ _ _ _ Hm2).
    destruct (negb (Nat.eqb _ _)); [|now apply IH].
    gen_inv H. rewrite (bindG_eq _ _ _ _ _ Hm3).
    destruct (negb _); [|now apply IH].
    gen_inv H. rewrite (bindG_eq _ _ _ _ _ Hm4).
    gen_inv H. rewrite (bindG_eq _ _ _ _ _ Hm5).
    now apply IH.
Qed.

(** What holds of the accepted edges and the sets all along the loop. *)
Lemma spanning_loop_state R N ps : forall edges ds g res g',
  NoDup (map id N) ->
  candidates_in N ps -> ends_in N edges ->
  ds_ok ds -> List.length (parent ds) = List.length N ->
  spanning_loop R N (nodeIndexMap N) ps edges ds g = (Ok res, g') ->
  ends_in N (fst res) /\ ds_ok (snd res) /\
  List.length (parent (snd res)) = List.length N.
Proof.
  induction ps as [|p rest IH];
    intros edges ds g res g' Hnd Hps Hends Hok Hlen H;
    cbn [spanning_loop] in H.
  - apply ret_Ok in H as [-> _]. auto.
  - assert (Hrest : candidates_in N rest)
      by (intros q Hq; apply Hps; now right).
    destruct (Hps p (or_introl eq_refl)) as [Hu Hv].
    destruct (nodeIndexMap_lookup N (u p) Hu) as (uIdx & Gu & Lu).
    destruct (nodeIndexMap_lookup N (v p) Hv) as (vIdx & Gv & Lv).
    rewrite (bindG_lift _ _ _ _ (f_equal defined Gu)) in H.
    rewrite (bindG_lift _ _ _ _ (f_equal defined Gv)) in H.
    destruct Hok as [h Hinv].
    destruct (ds_find_ok h ds uIdx Hinv ltac:(lia))
      as (ru & ds1 & Fu & Hinv1 & Hlen1 & _).
    rewrite (bindG_lift _ _ _ _ Fu) in H. cbn [fst snd] in H.
    destruct (ds_find_ok h ds1 vIdx Hinv1 ltac:(lia))
      as (rv & ds2 & Fv & Hinv2 & Hlen2 & _).
    rewrite (bindG_lift _ _ _ _ Fv) in H. cbn [fst snd] in H.
    assert (Hok2 : ds_ok ds2) by now exists h.
    assert (Hlen2' : List.length (parent ds2) = List.length N) by lia.
    destruct (negb (Nat.eqb ru rv)); [|now apply (IH edges ds2 g res g')].
    destruct (isCrossing_returns N edges (u p) (v p) Hends) as (c & Hc).
    rewrite (bindG_lift _ _ _ _ Hc) in H.
    destruct (negb c); [|now apply (IH edges ds2 g res g')].
    destruct (ds_union_ok ds2 uIdx vIdx Hok2 ltac:(lia) ltac:(lia))
      as (ds3 & Hun & Hok3 & Hlen3).
    rewrite (bindG_lift _ _ _ _ Hun) in H.
    destruct (random_gt_returns R (7 # 10) g) as (b & g1 & Hr).
    rewrite (bindG_eq _ _ _ _ _ Hr) in H.
    apply (IH (edges ++ [mkEdgeData (id (u p)) (id (v p)) (if b then 2 else 1)])
             ds3 g1 res g'); auto; [now apply ends_in_add | lia].
Qed.

(** The crossing test answers true exactly when an accepted edge with both
    ends off the candidate is strictly crossed. *)
Lemma isCrossing_disjoint_iff nodes edges a b :
  NoDup (map id nodes) -> In a nodes -> In b nodes ->
  ends_in nodes edges ->
  isCrossing nodes edges a b = Ok true <->
  crosses_disjoint_edge nodes edges a b.
Proof.
  intros Hnd Ha Hb Hends.
  pose proof (find_node_unique nodes a Hnd Ha) as Hfa.
  pose proof (find_node_unique nodes b Hnd Hb) as Hfb.
  rewrite isCrossing_true_iff by now apply ends_in_resolve.
  unfold crosses_disjoint_edge.
  split; intros (e & eU & eV & Hin & H); exists e, eU, eV.
  - destruct H as (FA & FB & C). repeat split; auto.
    destruct (disjoint_from a b e) eqn:D; auto. exfalso.
    assert (L : linesCross a b eU eV = false).
    { apply shared_end_no_cross. apply disjoint_from_false in D.
      destruct D as [D | [D | [D | D]]]; rewrite D in *;
        intuition congruence. }
    apply linesCross_iff in C. congruence.
  - tauto.
Qed.

(** One turn of the loop, from a state of the loop. *)
Lemma spanning_loop_step R N p rest edges ds g :
  NoDup (map id N) ->
  In (u p) N -> In (v p) N -> ends_in N edges ->
  ds_ok ds -> List.length (parent ds) = List.length N ->
  exists uIdx vIdx ds2,
    nth_error N uIdx = Some (u p) /\ nth_error N vIdx = Some (v p) /\
    (forall k m, same_set ds2 k m <-> same_set ds k m) /\
    (same_set ds uIdx vIdx ->
     spanning_loop R N (nodeIndexMap N) (p :: rest) edges ds g
     = spanning_loop R N (nodeIndexMap N) rest edges ds2 g) /\
    (~ same_set ds uIdx vIdx ->
     (crosses_disjoint_edge N edges (u p) (v p) ->
      spanning_loop R N (nodeIndexMap N) (p :: rest) edges ds g
      = spanning_loop R N (nodeIndexMap N) rest edges ds2 g) /\
     (~ crosses_disjoint_edge N edges (u p) (v p) ->
      exists ds',
        ds_union ds2 uIdx vIdx = Ok ds' /\
        spanning_loop R N (nodeIndexMap N) (p :: rest) edges ds g
        = (r <- random_gt R (7 # 10) ;;
           spanning_loop R N (nodeIndexMap N) rest
             (edges ++ [mkEdgeData (id (u p)) (id (v p)) (if r then 2 else 1)])
             ds')%gen g)).
Proof.
  intros Hnd Hu Hv Hends Hok Hlen.
  destruct (nodeIndexMap_lookup N (u p) Hu) as (uIdx & Gu & Lu).
  destruct (nodeIndexMap_lookup N (v p) Hv) as (vIdx & Gv & Lv).
  pose proof (nodeIndexMap_nth N (u p) uIdx Hnd Hu Gu) as Nu.
  pose proof (nodeIndexMap_nth N (v p) vIdx Hnd Hv Gv) as Nv.
  pose proof Hok as [h Hinv].
  destruct (ds_find_ok h ds uIdx Hinv ltac:(lia))
    as (ru & ds1 & Fu & Hinv1 & Hlen1 & _).
  destruct (ds_find_ok h ds1 vIdx Hinv1 ltac:(lia))
    as (rv & ds2 & Fv & Hinv2 & Hlen2 & _).
  destruct (ds_find_root _ _ _ _ Fu) as [Ru Hroots1].
  destruct (ds_find_root _ _ _ _ Fv) as [Rv1 Hroots2].
  assert (Rv : root_of (parent ds) vIdx rv) by now apply Hroots1.
  assert (Hsets : forall k m, same_set ds2 k m <-> same_set ds k m).
  { intros k m. rewrite (same_set_roots ds1 ds2 Hroots2).
    apply (same_set_roots ds ds1 Hroots1). }
  assert (Hsame : same_set ds uIdx vIdx <-> ru = rv).
  { split.
    - intros (r & R1 & R2).
      rewrite (root_of_fun _ _ _ _ Ru R1). apply (root_of_fun _ _ _ _ R2 Rv).
    - intros ->. now exists rv. }
  assert (Hhead :
    spanning_loop R N (nodeIndexMap N) (p :: rest) edges ds g
    = (if negb (Nat.eqb ru rv) then
         crossing <- lift (isCrossing N edges (u p) (v p)) ;;
         if negb crossing then
           ds' <- lift (ds_union ds2 uIdx vIdx) ;;
           r <- random_gt R (7 # 10) ;;
           spanning_loop R N (nodeIndexMap N) rest
             (edges ++ [mkEdgeData (id (u p)) (id (v p)) (if r then 2 else 1)])
             ds'
         else spanning_loop R N (nodeIndexMap N) rest edges ds2
       else spanning_loop R N (nodeIndexMap N) rest edges ds2)%gen g).
  { cbn [spanning_loop].
    rewrite (bindG_lift _ _ _ _ (f_equal defined Gu)).
    rewrite (bindG_lift _ _ _ _ (f_equal defined Gv)).
    rewrite (bindG_lift _ _ _ _ Fu). cbn [fst snd].
    rewrite (bindG_lift _ _ _ _ Fv). cbn [fst snd].
    reflexivity. }
  exists uIdx, vIdx, ds2.
  split; [exact Nu|]. split; [exact Nv|]. split; [exact Hsets|].
  split.
  - intros Hs. apply Hsame in Hs. rewrite Hhead.
    apply Nat.eqb_eq in Hs. now rewrite Hs.
  - intros Hns.
    assert (E : Nat.eqb ru rv = false).
    { apply Nat.eqb_neq. intros E. apply Hns, Hsame, E. }
    rewrite Hhead, E. cbn [negb].
    destruct (isCrossing_returns N edges (u p) (v p) Hends) as (c & Hc).
    rewrite (bindG_lift _ _ _ _ Hc).
    pose proof (isCrossing_disjoint_iff N edges (u p) (v p) Hnd Hu Hv Hends)
      as Hiff.
    split.
    + intros Hx. apply Hiff in Hx. rewrite Hc in Hx. injection Hx as ->.
      reflexivity.
    + intros Hnx. destruct c.
      * exfalso. apply Hnx, Hiff, Hc.
      * cbn [negb].
        assert (Hok2 : ds_ok ds2) by now exists h.
        destruct (ds_union_ok ds2 uIdx vIdx Hok2 ltac:(lia) ltac:(lia))
          as (ds3 & Hun & _).
        exists ds3. split; [exact Hun|].
        now rewrite (bindG_lift _ _ _ _ Hun).
Qed.

(** C5. In the spanning-tree loop of an attempt, take any candidate [p] of
    the shuffled list, with [edges] the edges accepted and [ds] the sets
    built from the candidates before it.  The ends of [p] are the nodes
    number [uIdx] and [vIdx].  When they are in the same set, [p] is
    skipped.  When they are in different sets, [p] is rejected if it
    strictly crosses an accepted edge both ends of which differ from both
    ends of [p], and it is accepted, its ends united and the edge appended
    with one or two cables, if it crosses no such edge: accepted edges that
    share an end with [p] play no part in the test. *)
Theorem spanning_loop_crossing_test (R : RandomSource)
    (nodes : list NodeData) (ps rest : list PotentialEdge) (p : PotentialEdge)
    (g g1 : rstate R) (edges : list EdgeData) (ds : DisjointSet) :
  NoDup (map id nodes) ->
  candidates_in nodes (ps ++ p :: rest) ->
  spanning_loop R nodes (nodeIndexMap nodes) ps []
    (newDisjointSet (List.length nodes)) g = (Ok (edges, ds), g1) ->
  exists uIdx vIdx ds2,
    nth_error nodes uIdx = Some (u p) /\ nth_error nodes vIdx = Some (v p) /\
    (forall k m, same_set ds2 k m <-> same_set ds k m) /\
    (same_set ds uIdx vIdx ->
     spanning_loop R nodes (nodeIndexMap nodes) (ps ++ p :: rest) []
       (newDisjointSet (List.length nodes)) g
     = spanning_loop R nodes (nodeIndexMap nodes) rest edges ds2 g1) /\
    (~ same_set ds uIdx vIdx ->
     (crosses_disjoint_edge nodes edges (u p) (v p) ->
      spanning_loop R nodes (nodeIndexMap nodes) (ps ++ p :: rest) []
        (newDisjointSet (List.length nodes)) g
      = spanning_loop R nodes (nodeIndexMap nodes) rest edges ds2 g1) /\
     (~ crosses_disjoint_edge nodes edges (u p) (v p) ->
      exists ds',
        ds_union ds2 uIdx vIdx = Ok ds' /\
        spanning_loop R nodes (nodeIndexMap nodes) (ps ++ p :: rest) []
          (newDisjointSet (List.length nodes)) g
        = (r <- random_gt R (7 # 10) ;;
           spanning_loop R nodes (nodeIndexMap nodes) rest
             (edges ++
              [mkEdgeData (id (u p)) (id (v p)) (if r then 2 else 1)])
             ds')%gen g1)).
Proof.
  intros Hnd Hps Hrun.
  assert (Hpre : candidates_in nodes ps)
    by (intros q Hq; apply Hps, in_or_app; now left).
  destruct (Hps p) as [Hu Hv]; [apply in_or_app; right; now left|].
  assert (Hlen0 : List.length (parent (newDisjointSet (List.length nodes)))
                  = List.length nodes).
  { unfold newDisjointSet. cbn [parent]. apply length_seq. }
  assert (Hends0 : ends_in nodes []) by (intros e []).
  destruct (spanning_loop_state R nodes ps [] _ g _ g1 Hnd Hpre Hends0
              (newDisjointSet_ok _) Hlen0 Hrun) as (Hends & Hok & Hlen).
  cbn [fst snd] in Hends, Hok, Hlen.
  rewrite (spanning_loop_app R nodes _ ps (p :: rest) _ _ _ _ _ _ Hrun).
  apply spanning_loop_step; assumption.
Qed.

(* ================================================================== *)
(** * The clock of the page *)

Lemma length_append (s1 s2 : string) :
  String.length (String.append s1 s2)
  = (String.length s1 + String.length s2)%nat.
Proof. induction s1 as [|c s1 IH]; simpl; auto. Qed.

(** Two strings that end in tails of the same length agree part by part. *)
Lemma append_inj_length (m1 : string) : forall m2 t1 t2,
  String.length t1 = String.length t2 ->
  String.append m1 t1 = String.append m2 t2 -> m1 = m2 /\ t1 = t2.
Proof.
  induction m1 as [|c m1 IH]; intros [|c2 m2] t1 t2 Hl H; simpl in H.
  - auto.
  - exfalso. subst t1. simpl in Hl. rewrite length_append in Hl. lia.
  - exfalso. subst t2. simpl in Hl. rewrite length_append in Hl. lia.
  - injection H as -> H. destruct (IH _ _ _ Hl H) as [-> ->]. auto.
Qed.

Lemma digits_value_toString n : digits_value (toString n) = Some n.
Proof.
  unfold digits_value, toString. rewrite NilEmpty.usu. simpl.
  now rewrite Unsigned.of_to.
Qed.

(** A leading zero does not change the value. *)
Lemma digits_value_zero s : digits_value (String "0" s) = digits_value s.
Proof.
  unfold digits_value. simpl.
  destruct (NilEmpty.uint_of_string s); reflexivity.
Qed.

Lemma fill_zeros k : forall cur, cur = EmptyString \/ cur = "0"%string ->
  forall s,
    digits_value (String.append (fill_from k cur "0") s) = digits_value s.
Proof.
  induction k as [|k IH]; intros cur Hc s; [reflexivity|].
  destruct Hc as [-> | ->]; cbn [fill_from String.append];
    rewrite digits_value_zero; apply IH; auto.
Qed.

Lemma length_fill k : forall cur, cur = EmptyString \/ cur = "0"%string ->
  String.length (fill_from k cur "0") = k.
Proof.
  induction k as [|k IH]; intros cur Hc; [reflexivity|].
  destruct Hc as [-> | ->]; cbn [fill_from String.length]; f_equal;
    apply IH; auto.
Qed.

(** Padding with zeros keeps the number. *)
Lemma digits_value_padStart w n :
  digits_value (padStart w "0" (toString n)) = Some n.
Proof.
  unfold padStart. destruct (w <=? _)%nat.
  - apply digits_value_toString.
  - cbn [String.eqb Ascii.eqb]. rewrite fill_zeros by auto.
    apply digits_value_toString.
Qed.

Lemma padStart_inj w a b :
  padStart w "0" (toString a) = padStart w "0" (toString b) -> a = b.
Proof.
  intros H. apply (f_equal digits_value) in H.
  rewrite !digits_value_padStart in H. congruence.
Qed.

(** [padStart] never truncates: the result has the longer of the two
    lengths. *)
Lemma length_padStart w s :
  String.length (padStart w "0" s) = Nat.max w (String.length s).
Proof.
  unfold padStart. destruct (Nat.leb_spec w (String.length s)); [lia|].
  cbn [String.eqb]. rewrite length_append, length_fill by auto. lia.
Qed.

Lemma below_bound (P : nat -> bool) (k : nat) :
  forallb P (seq 0 k) = true -> forall n, (n < k)%nat -> P n = true.
Proof.
  intros H n Hn. rewrite forallb_forall in H. apply H, in_seq. lia.
Qed.

Lemma length_toString_small n :
  (n < 100)%nat -> (String.length (toString n) <= 2)%nat.
Proof.
  intros Hn. apply Nat.leb_le.
  apply (below_bound (fun n => (String.length (toString n) <=? 2)%nat) 100);
    [vm_compute; reflexivity | exact Hn].
Qed.

Lemma length_seconds_field n :
  (n < 60)%nat -> String.length (padStart 2 "0" (toString n)) = 2%nat.
Proof.
  intros Hn. rewrite length_padStart.
  pose proof (length_toString_small n). lia.
Qed.

(** The two fields can be read back from the display. *)
Lemma fields_inj m1 s1 m2 s2 :
  (s1 < 60)%nat -> (s2 < 60)%nat ->
  String.append (padStart 2 "0" (toString m1))
    (String.append ":" (padStart 2 "0" (toString s1))) =
  String.append (padStart 2 "0" (toString m2))
    (String.append ":" (padStart 2 "0" (toString s2))) ->
  m1 = m2 /\ s1 = s2.
Proof.
  intros H1 H2 H. apply append_inj_length in H.
  - destruct H as [Hm Hs]. apply padStart_inj in Hm.
    cbn [String.append] in Hs. injection Hs as Hs.
    apply padStart_inj in Hs. auto.
  - cbn [String.append String.length]. now rewrite !length_seconds_field.
Qed.

(** X23. The display determines the time left.  Two whole numbers of
    seconds that [formatTime] shows as the same text are equal: the seconds
    field always has two characters, so the text splits at its colon, zero
    padding keeps the value of each field, and minutes and seconds give the
    time back. *)
Theorem formatTime_injective (a b : nat) :
  formatTime a = formatTime b -> a = b.
Proof.
  unfold formatTime. intros H.
  apply fields_inj in H; try (apply Nat.mod_upper_bound; discriminate).
  destruct H as [Hm Hs].
  rewrite (Nat.div_mod_eq a 60), (Nat.div_mod_eq b 60), Hm, Hs. reflexivity.
Qed.

(** X24. Below one hundred minutes the display is [MM:SS]: [formatTime]
    returns five characters, the third of which is the colon.  The sessions
    of the page last 3, 5, 10 or 20 minutes. *)
Theorem formatTime_width (seconds : nat) :
  (seconds < 100 * 60)%nat ->
  String.length (formatTime seconds) = 5%nat /\
  String.get 2 (formatTime seconds) = Some ":"%char.
Proof.
  intros Hs. unfold formatTime.
  assert (Hm : String.length (padStart 2 "0" (toString (seconds / 60)))
               = 2%nat).
  { rewrite length_padStart.
    assert (seconds / 60 < 100)%nat
      by (apply Nat.Div0.div_lt_upper_bound; lia).
    pose proof (length_toString_small (seconds / 60)). lia. }
  split.
  - rewrite length_append, Hm. cbn [String.append String.length].
    rewrite length_seconds_field; [reflexivity|].
    apply Nat.mod_upper_bound; discriminate.
  - rewrite <- Hm at 1.
    change (String.length (padStart 2 "0" (toString (seconds / 60))))
      with (0 + String.length (padStart 2 "0" (toString (seconds / 60))))%nat.
    rewrite <- append_correct2. reflexivity.
Qed.

(* ================================================================== *)
(** * Instances *)

Lemma lcg_floor_in_range : floor_in_range lcg_source.
Proof.
  intros n g Hn. simpl. unfold lcg_draw, Qmult, Qfloor, inject_Z. simpl.
  pose proof (Z.mod_pos_bound (g / 65536) 1000 ltac:(lia)) as Hb.
  set (a := (g / 65536) mod 1000) in *.
  split.
  - apply Z.div_pos; nia.
  - apply Z.div_lt_upper_bound; nia.
Qed.

Lemma zero_sort_permutes : sort_permutes zero_source.
Proof. intros l g. simpl. apply Permutation_refl. Qed.

Lemma sample_puzzle_generated :
  generate lcg_source EASY 42
  = (Ok sample_puzzle, snd (generate lcg_source EASY 42)).
Proof. vm_compute. reflexivity. Qed.

(** The puzzle of seed 42. *)
Lemma generate_cells_distinct_witness :
  NoDup (map cell (nodes sample_puzzle)).
Proof.
  apply (generate_cells_distinct lcg_source EASY 42
           (snd (generate lcg_source EASY 42)) sample_puzzle).
  vm_compute. reflexivity.
Defined.

Lemma generate_on_grid_witness :
  floor_in_range lcg_source /\
  Forall (in_grid 5) (nodes sample_puzzle) /\
  6 <= Z.of_nat (List.length (nodes sample_puzzle)) <= 9.
Proof.
  split; [exact lcg_floor_in_range|].
  destruct (generate_on_grid lcg_source EASY 42
              (snd (generate lcg_source EASY 42)) sample_puzzle
              lcg_floor_in_range) as [Hgrid Hcount].
  - vm_compute. reflexivity.
  - split; [exact Hgrid|]. destruct Hcount as [E|H]; [discriminate E|exact H].
Defined.

Lemma generate_required_is_degree_witness :
  Forall (fun n => requiredConnections n
                   = degree (solutionEdges sample_puzzle) (id n))
    (nodes sample_puzzle).
Proof.
  apply (generate_required_is_degree lcg_source EASY 42
           (snd (generate lcg_source EASY 42)) sample_puzzle).
  - exact lcg_sort_permutes.
  - vm_compute. reflexivity.
Defined.

Lemma generate_solution_legal_witness :
  legal_solution (nodes sample_puzzle) (solutionEdges sample_puzzle).
Proof.
  apply (generate_solution_legal lcg_source EASY 42
           (snd (generate lcg_source EASY 42)) sample_puzzle).
  - exact lcg_sort_permutes.
  - vm_compute. reflexivity.
Defined.

(** The sample game. *)
Lemma scene_well_formed_witness :
  exists s g',
    GameScene.run lcg_source sample_events GameScene.init 42 = (Ok s, g') /\
    houses_ok (GameScene.houses s) /\
    NoDup (map ref (GameScene.houses s)) /\
    edges_inv (GameScene.cableManager s) /\
    scene_ok (GameScene.houses s) (getAllEdges (GameScene.cableManager s)) /\
    edges_resolve (GameScene.houses s) (GameScene.cableManager s) /\
    (forall r, GameScene.selectedHouse s = Some r ->
               exists h, GameScene.deref (GameScene.houses s) r = Some h).
Proof.
  eexists. eexists. split; [vm_compute; reflexivity|].
  eapply (scene_well_formed lcg_source sample_events 42).
  vm_compute. reflexivity.
Defined.

Lemma scene_counts_are_degrees_witness :
  exists s g',
    GameScene.run lcg_source sample_events GameScene.init 42 = (Ok s, g') /\
    Forall (fun h => currentConnections (dataModel h)
                     = degree (getAllEdges (GameScene.cableManager s))
                         (house_id h))
      (GameScene.houses s).
Proof.
  eexists. eexists. split; [vm_compute; reflexivity|].
  eapply (scene_counts_are_degrees lcg_source sample_events 42).
  vm_compute. reflexivity.
Defined.

Lemma scene_solved_iff_witness :
  exists s g',
    GameScene.run lcg_source sample_events GameScene.init 42 = (Ok s, g') /\
    (GameScene.isSolved s = true <->
     solved_spec (GameScene.houses s)
       (getAllEdges (GameScene.cableManager s))).
Proof.
  eexists. eexists. split; [vm_compute; reflexivity|].
  eapply (scene_solved_iff lcg_source sample_events 42).
  vm_compute. reflexivity.
Defined.

Lemma scene_board_legal_witness :
  exists s g',
    GameScene.run lcg_source sample_events GameScene.init 42 = (Ok s, g') /\
    board_legal (GameScene.houses s) (GameScene.cableManager s).
Proof.
  eexists. eexists. split; [vm_compute; reflexivity|].
  eapply (scene_board_legal lcg_source sample_events 42).
  vm_compute. reflexivity.
Defined.

(** A first cable on the fallback scene, undone. *)
Lemma undo_reverts_click_witness :
  exists s1,
    GameScene.handleHouseClick fallback_selected house_n1 = Ok s1 /\
    GameScene.isSolved s1 = false /\
    GameScene.history (GameScene.undo s1) = [] /\
    forall i j,
      hasConnection (GameScene.cableManager (GameScene.undo s1)) i j
      = hasConnection JsMap.empty i j.
Proof.
  eexists. split; [vm_compute; reflexivity|].
  split; [reflexivity|].
  refine (proj1 (undo_reverts_click fallback_selected _ house_n0 house_n1
                   _ _ _ _ _ _ _) _).
  - reflexivity.
  - reflexivity.
  - reflexivity.
  - simpl. auto.
  - simpl. lia.
  - vm_compute. reflexivity.
  - vm_compute. reflexivity.
  - reflexivity.
Defined.

(** The puzzle of seed 42, played to its solution. *)
Lemma solution_is_playable_witness :
  exists s,
    GameScene.run lcg_source
      (GameScene.START_GAME EASY :: solution_clicks sample_puzzle)
      GameScene.init 42
    = (Ok s, snd (generate lcg_source EASY 42)) /\
    getAllEdges (GameScene.cableManager s) = solutionEdges sample_puzzle /\
    Forall (fun h => currentConnections (dataModel h)
                     = requiredConnections (dataModel h))
      (GameScene.houses s).
Proof.
  destruct (solution_is_playable lcg_source EASY 42
              (snd (generate lcg_source EASY 42)) sample_puzzle)
    as (s & Hrun & Hedges & Hcounts & _).
  - exact lcg_sort_permutes.
  - vm_compute. reflexivity.
  - exists s. auto.
Defined.

Lemma solution_edges_connectable_witness :
  canConnect JsMap.empty
    (mkHouse 2 (mkNodeData "n_2" 4 0 2 0)) (mkHouse 5 (mkNodeData "n_5" 4 4 1 0))
    (make_houses 0 (nodes sample_puzzle))
  = Ok true.
Proof.
  apply (solution_edges_connectable lcg_source EASY 42
           (snd (generate lcg_source EASY 42)) sample_puzzle JsMap.empty
           (mkEdgeData "n_2" "n_5" 1)).
  - exact lcg_sort_permutes.
  - vm_compute. reflexivity.
  - intros e [].
  - simpl. auto.
  - reflexivity.
  - reflexivity.
Defined.

(** The fallback houses [n_0] and [n_1]. *)
Lemma generator_agrees_with_game_witness :
  isNodeBetween (dataModel house_n0) (dataModel house_n1)
    (nodes createFallbackPuzzle)
  = negb (between_loop house_n0 house_n1
            (x (dataModel house_n0) =? x (dataModel house_n1))
            fallback_houses).
Proof.
  refine (proj1 (generator_agrees_with_game (nodes createFallbackPuzzle) 0
                   house_n0 house_n1 _ _ _)).
  - repeat constructor; simpl; intuition discriminate.
  - simpl. auto.
  - simpl. auto.
Defined.

Lemma edits_touch_one_pair_witness :
  hasConnection (setConnection JsMap.empty house_n0 house_n1 2) "n_2" "n_3"
  = hasConnection JsMap.empty "n_2" "n_3".
Proof.
  refine (proj1 (proj2 (proj2 (edits_touch_one_pair JsMap.empty house_n0
                                  house_n1 2 "n_2" "n_3")) _)).
  vm_compute. discriminate.
Defined.

(** One cable, placed from either end, under stale counts. *)
Lemma checkWinCondition_reads_board_only_witness :
  checkWinCondition (map (fun h => updateConnectionCount h 7) fallback_houses)
    (run_ops [OpToggle house_n1 house_n0])
  = checkWinCondition fallback_houses (run_ops [OpToggle house_n0 house_n1]).
Proof.
  apply checkWinCondition_reads_board_only.
  - reflexivity.
  - exists (getAllEdges (run_ops [OpToggle house_n0 house_n1])).
    split; [apply Permutation_refl|].
    constructor; [|constructor].
    split; [reflexivity|]. right. split; reflexivity.
Defined.

(** With every draw 0 all nodes land on one cell. *)
Lemma attempt_throws_only_its_errors_witness :
  sort_permutes zero_source /\
  tryGenerate zero_source 5 (6, 9) 4 tt
  = (Throw (Error "Not enough nodes placed"), tt) /\
  (Error "Not enough nodes placed" = Error "Not enough nodes placed" \/
   Error "Not enough nodes placed" = Error "Graph not connected" \/
   Error "Not enough nodes placed" = Error "Isolated node").
Proof.
  split; [exact zero_sort_permutes|].
  split; [vm_compute; reflexivity|].
  apply (attempt_throws_only_its_errors zero_source 5 (6, 9) 4 tt tt).
  - exact zero_sort_permutes.
  - vm_compute. reflexivity.
Defined.

Lemma generated_keys_identify_pairs_witness :
  (mkNodeData "n_0" 0 0 2 0 = mkNodeData "n_4" 0 2 2 0 /\
   mkNodeData "n_4" 0 2 2 0 = mkNodeData "n_0" 0 0 2 0) \/
  (mkNodeData "n_0" 0 0 2 0 = mkNodeData "n_0" 0 0 2 0 /\
   mkNodeData "n_4" 0 2 2 0 = mkNodeData "n_4" 0 2 2 0).
Proof.
  apply (generated_keys_identify_pairs lcg_source EASY 42
           (snd (generate lcg_source EASY 42)) sample_puzzle
           (mkNodeData "n_0" 0 0 2 0) (mkNodeData "n_4" 0 2 2 0)
           (mkNodeData "n_4" 0 2 2 0) (mkNodeData "n_0" 0 0 2 0)).
  - vm_compute. reflexivity.
  - simpl. auto.
  - simpl. auto 10.
  - simpl. auto 10.
  - simpl. auto.
  - vm_compute. reflexivity.
Defined.

Lemma solved_scene_is_frozen_witness :
  GameScene.run zero_source
    [GameScene.UNDO; GameScene.RESET_PUZZLE; GameScene.pointerdown 0;
     GameScene.REPORT_UNSOLVABLE] fallback_solved tt
  = (Ok fallback_solved, tt).
Proof.
  apply (solved_scene_is_frozen zero_source).
  - reflexivity.
  - repeat constructor; intros difficulty; discriminate.
Defined.

(** Three fresh singletons: looking up element 1. *)
Lemma find_returns_root_witness :
  ds_ok (newDisjointSet 3) /\
  (1 < List.length (parent (newDisjointSet 3)))%nat /\
  exists r ds',
    ds_find (newDisjointSet 3) 1 = Ok (r, ds') /\
    root_of (parent (newDisjointSet 3)) 1 r /\
    (forall k r', root_of (parent ds') k r' <->
                  root_of (parent (newDisjointSet 3)) k r') /\
    (forall k m, same_set ds' k m <-> same_set (newDisjointSet 3) k m) /\
    ds_count ds' = ds_count (newDisjointSet 3) /\
    ds_ok ds'.
Proof.
  split; [exact (newDisjointSet_ok 3)|].
  split; [simpl; lia|].
  apply (find_returns_root (newDisjointSet 3) 1).
  - exact (newDisjointSet_ok 3).
  - simpl. lia.
Defined.

(** Three fresh singletons: merging elements 0 and 1. *)
Lemma union_merges_two_sets_witness :
  ds_ok (newDisjointSet 3) /\ count_ok (newDisjointSet 3) /\
  (0 < List.length (parent (newDisjointSet 3)))%nat /\
  (1 < List.length (parent (newDisjointSet 3)))%nat /\
  exists ds',
    ds_union (newDisjointSet 3) 0 1 = Ok ds' /\
    ds_ok ds' /\ count_ok ds' /\
    List.length (parent ds') = List.length (parent (newDisjointSet 3)) /\
    (forall k m,
       same_set ds' k m <->
       same_set (newDisjointSet 3) k m \/
       (same_set (newDisjointSet 3) k 0 /\ same_set (newDisjointSet 3) m 1) \/
       (same_set (newDisjointSet 3) k 1 /\ same_set (newDisjointSet 3) m 0)) /\
    (same_set (newDisjointSet 3) 0 1 ->
     ds_count ds' = ds_count (newDisjointSet 3)) /\
    (~ same_set (newDisjointSet 3) 0 1 ->
     ds_count ds' = ds_count (newDisjointSet 3) - 1).
Proof.
  split; [exact (newDisjointSet_ok 3)|].
  split; [exact (newDisjointSet_count 3)|].
  split; [simpl; lia|].
  split; [simpl; lia|].
  apply (union_merges_two_sets (newDisjointSet 3) 0 1).
  - exact (newDisjointSet_ok 3).
  - exact (newDisjointSet_count 3).
  - simpl. lia.
  - simpl. lia.
Defined.

(** A puzzle generated from seed 42 on the hard tier. *)
Lemma hard_puzzle_is_solvable_witness :
  sort_permutes lcg_source /\
  exists p,
    generate lcg_source HARD 42 = (Ok p, snd (generate lcg_source HARD 42)) /\
    (forall a b, In a (nodes p) -> In b (nodes p) ->
       reach (solutionEdges p) (id a) (id b)) /\
    exists s,
      GameScene.run lcg_source (GameScene.START_GAME HARD :: solution_clicks p)
        GameScene.init 42 = (Ok s, snd (generate lcg_source HARD 42)) /\
      getAllEdges (GameScene.cableManager s) = solutionEdges p /\
      GameScene.isSolved s = true.
Proof.
  split; [exact lcg_sort_permutes|].
  eexists. split; [vm_compute; reflexivity|].
  eapply (hard_puzzle_is_solvable lcg_source 42).
  - exact lcg_sort_permutes.
  - vm_compute. reflexivity.
Defined.

(** Seventy-five seconds are shown as one minute fifteen. *)
Lemma formatTime_injective_witness :
  formatTime 75 = "01:15"%string /\
  formatTime (60 + 15) = "01:15"%string /\
  (75 = 60 + 15)%nat.
Proof.
  split; [vm_compute; reflexivity|].
  split; [vm_compute; reflexivity|].
  apply (formatTime_injective 75 (60 + 15)). vm_compute. reflexivity.
Defined.

(** A session of twenty minutes starts at [20:00]. *)
Lemma formatTime_width_witness :
  formatTime (20 * 60) = "20:00"%string /\
  String.length (formatTime (20 * 60)) = 5%nat /\
  String.get 2 (formatTime (20 * 60)) = Some ":"%char.
Proof.
  split; [vm_compute; reflexivity|].
  apply (formatTime_width (20 * 60)). apply Nat.ltb_lt. vm_compute. reflexivity.
Defined.

(** Four nodes around an empty cell: after n_0 - n_1 is accepted, the
    candidate n_2 - n_3 joins two other sets and crosses it. *)
Lemma spanning_loop_crossing_test_witness :
  let n0 := mkNodeData "n_0" 0 1 0 0 in
  let n1 := mkNodeData "n_1" 2 1 0 0 in
  let n2 := mkNodeData "n_2" 1 0 0 0 in
  let n3 := mkNodeData "n_3" 1 2 0 0 in
  let nodes := [n0; n1; n2; n3] in
  let p := mkPotentialEdge n2 n3 2 in
  let edges := [mkEdgeData "n_0" "n_1" 1] in
  let ds := mkDisjointSet [1; 1; 2; 3]%nat 3 in
  spanning_loop zero_source nodes (nodeIndexMap nodes)
    [mkPotentialEdge n0 n1 2] [] (newDisjointSet 4) tt
  = (Ok (edges, ds), tt) /\
  exists uIdx vIdx ds2,
    nth_error nodes uIdx = Some n2 /\ nth_error nodes vIdx = Some n3 /\
    (forall k m, same_set ds2 k m <-> same_set ds k m) /\
    (same_set ds uIdx vIdx ->
     spanning_loop zero_source nodes (nodeIndexMap nodes)
       [mkPotentialEdge n0 n1 2; p] [] (newDisjointSet 4) tt
     = spanning_loop zero_source nodes (nodeIndexMap nodes) [] edges ds2 tt) /\
    (~ same_set ds uIdx vIdx ->
     (crosses_disjoint_edge nodes edges n2 n3 ->
      spanning_loop zero_source nodes (nodeIndexMap nodes)
        [mkPotentialEdge n0 n1 2; p] [] (newDisjointSet 4) tt
      = spanning_loop zero_source nodes (nodeIndexMap nodes) [] edges ds2 tt) /\
     (~ crosses_disjoint_edge nodes edges n2 n3 ->
      exists ds',
        ds_union ds2 uIdx vIdx = Ok ds' /\
        spanning_loop zero_source nodes (nodeIndexMap nodes)
          [mkPotentialEdge n0 n1 2; p] [] (newDisjointSet 4) tt
        = (r <- random_gt zero_source (7 # 10) ;;
           spanning_loop zero_source nodes (nodeIndexMap nodes) []
             (edges ++ [mkEdgeData "n_2" "n_3" (if r then 2 else 1)])
             ds')%gen tt)).
Proof.
  intros n0 n1 n2 n3 nodes p edges ds.
  split; [vm_compute; reflexivity|].
  apply (spanning_loop_crossing_test zero_source nodes
           [mkPotentialEdge n0 n1 2] [] p tt tt edges ds).
  - repeat constructor; simpl; intuition discriminate.
  - intros q [<- | [<- | []]]; split; cbn; auto 10.
  - vm_compute. reflexivity.
Defined.
